(** * viz-buddy: the stepwise sorting and graph-traversal engines

    A shallow embedding of [src/pages/SortingVisualizer.tsx] and of the graph
    visualizer page, with the properties of the engines stated and proved
    over it.

    - [Sorting]: the element objects live in a store and the array holds
      references to them, as in the page, where [arrayCopy = [...array]]
      shares the objects and the algorithms write flags through [arr[k]].
      The [async] functions are written in a small monad that threads the
      store, counts the suspensions, records every [updateArray] call, and
      distinguishes a normal result, an early [return] and a thrown
      exception.
    - [Graph]: the graph object with JavaScript's own-key enumeration order,
      the two text parsers, breadth-first search, Dijkstra and
      Bellman-Ford. *)

From Stdlib Require Import ZArith Lia Bool Sorted Permutation String Ascii.
From stdpp Require Import base numbers list sorting strings.

Local Open Scope Z_scope.

(* ===================================================================== *)
(** * Sorting visualizer *)
(* ===================================================================== *)

Module Sorting.

(** [interface ArrayElement].  The page only ever stores integers in
    [value]: random ones, or [parseInt] results that passed the range
    check of [useCustomArray]. *)
Record ArrayElement := mkElement {
  value : Z;
  isCompared : bool;
  isSwapped : bool;
  isSorted : bool
}.

#[global] Instance ArrayElement_inhabited : Inhabited ArrayElement :=
  populate (mkElement 0 false false false).

#[global] Instance ArrayElement_eq_dec : EqDecision ArrayElement.
Proof. solve_decision. Defined.

Inductive SortingAlgorithm := bubble | selection | insertion | merge | quick.

(** An element object is identified by its address in the store. *)
Definition ref := nat.

(** One [setArray([...arr])] call: the number of suspensions completed when
    it happened, and the array as the renderer reads it. *)
Definition snapshot : Type := nat * list ArrayElement.

Record state := mkState {
  heap : list ArrayElement;   (* the element objects *)
  arr : list ref;             (* the array the algorithm works on *)
  sleeps : nat;               (* completed [await sleep(..)] *)
  published : list snapshot   (* [updateArray] calls, latest first *)
}.

Inductive exn :=
| TypeError      (* a property of [undefined] was read or written *)
| OutOfBounds    (* a store outside the array: the source would grow it;
                    the embedding stops here *)
| OutOfFuel.     (* recursion budget of the embedding exhausted *)

(** Result of running a piece of an [async] function body: it falls
    through with a value, executes [return r], or throws. *)
Inductive res (R A : Type) :=
| Val (a : A) (s : state)
| Ret (r : R) (s : state)
| Throw (e : exn) (s : state).
Arguments Val {R A} a s.
Arguments Ret {R A} r s.
Arguments Throw {R A} e s.

Definition M (R A : Type) : Type := state -> res R A.

Definition ret {R A} (a : A) : M R A := fun s => Val a s.

Definition bind {R A B} (m : M R A) (f : A -> M R B) : M R B :=
  fun s => match m s with
           | Val a s' => f a s'
           | Ret r s' => Ret r s'
           | Throw e s' => Throw e s'
           end.

(** The body of a function, seen from its caller: [return r] becomes the
    value of the call. *)
Definition call {R R'} (m : M R R) : M R' R :=
  fun s => match m s with
           | Val a s' => Val a s'
           | Ret r s' => Val r s'
           | Throw e s' => Throw e s'
           end.

Definition throw {R A} (e : exn) : M R A := fun s => Throw e s.
Definition return_ {R A} (r : R) : M R A := fun s => Ret r s.

Declare Scope M_scope.
Delimit Scope M_scope with M.
Notation "x <- m ;; k" := (bind m (fun x => k))
  (at level 100, m at next level, k at level 200, right associativity) : M_scope.
Notation "m ;; k" := (bind m (fun _ => k))
  (at level 100, k at level 200, right associativity) : M_scope.
Local Open Scope M_scope.

Definition final {R A} (r : res R A) : state :=
  match r with Val _ s | Ret _ s | Throw _ s => s end.

Definition completes {R A} (r : res R A) : bool :=
  match r with Val _ _ => true | _ => false end.

(** ** The store and the array *)

Definition deref (h : list ArrayElement) (r : ref) : ArrayElement := h !!! r.

(** [arr[k]] for a JavaScript number [k]: [undefined] outside the array. *)
Definition aget {A} (a : list A) (k : Z) : option A :=
  if k <? 0 then None else a !! Z.to_nat k.

(** What the renderer sees of an array of references. *)
Definition view_of (h : list ArrayElement) (a : list ref) : list ArrayElement :=
  deref h <$> a.
Definition view (s : state) : list ArrayElement := view_of (heap s) (arr s).
Definition vals (s : state) : list Z := value <$> view s.
Definition sflags (s : state) : list bool := isSorted <$> view s.

Definition withCompared (b : bool) (e : ArrayElement) : ArrayElement :=
  mkElement (value e) b (isSwapped e) (isSorted e).
Definition withSwapped (b : bool) (e : ArrayElement) : ArrayElement :=
  mkElement (value e) (isCompared e) b (isSorted e).
Definition withSorted (b : bool) (e : ArrayElement) : ArrayElement :=
  mkElement (value e) (isCompared e) (isSwapped e) b.

(** State transformers behind the primitive statements. *)
Definition st_alter (f : ArrayElement -> ArrayElement) (r : ref) (s : state) : state :=
  mkState (alter f r (heap s)) (arr s) (sleeps s) (published s).
Definition st_store (k : nat) (r : ref) (s : state) : state :=
  mkState (heap s) (<[k := r]> (arr s)) (sleeps s) (published s).
Definition st_publish (s : state) : state :=
  mkState (heap s) (arr s) (sleeps s) ((sleeps s, view s) :: published s).
Definition st_sleep (s : state) : state :=
  mkState (heap s) (arr s) (S (sleeps s)) (published s).
Definition st_alloc (e : ArrayElement) (s : state) : state :=
  mkState (heap s ++ [e]) (arr s) (sleeps s) (published s).
(** [arr.forEach(el => el.isSorted = true)] *)
Definition st_markAll (s : state) : state :=
  mkState (foldl (fun h r => alter (withSorted true) r h) (heap s) (arr s))
          (arr s) (sleeps s) (published s).

(** [Array.prototype.slice] with its treatment of negative and
    out-of-range bounds. *)
Definition slice_bound (len k : Z) : Z :=
  if k <? 0 then Z.max (len + k) 0 else Z.min k len.
Definition slice {A} (a : list A) (from to : Z) : list A :=
  let len := Z.of_nat (length a) in
  let b := slice_bound len from in
  let e := slice_bound len to in
  take (Z.to_nat (e - b)) (drop (Z.to_nat b) a).

Section Engine.

(** [cancel = Some n]: [isRunningRef.current] is read [true] until [n]
    suspensions have completed and [false] afterwards, that is, the flag is
    cleared while the engine is in its [n]-th [await sleep].  [None]: the
    flag stays [true] for the whole run. *)
Variable cancel : option nat.

Definition isRunning (s : state) : bool :=
  match cancel with
  | None => true
  | Some n => (sleeps s <? n)%nat
  end.

Section Body.
Context {R : Type}.

(** [if (!isRunningRef.current) return r;] *)
Definition check (r : R) : M R unit :=
  fun s => if isRunning s then Val tt s else Ret r s.

Definition arrLength : M R Z := fun s => Val (Z.of_nat (length (arr s))) s.

(** [arr[k]] used as an object: a property access on [undefined] throws. *)
Definition elem (k : Z) : M R ref :=
  fun s => match aget (arr s) k with
           | Some r => Val r s
           | None => Throw TypeError s
           end.

Definition valueOf (r : ref) : M R Z := fun s => Val (value (deref (heap s) r)) s.
Definition setCompared (r : ref) (b : bool) : M R unit :=
  fun s => Val tt (st_alter (withCompared b) r s).
Definition setSwapped (r : ref) (b : bool) : M R unit :=
  fun s => Val tt (st_alter (withSwapped b) r s).
Definition setSorted (r : ref) (b : bool) : M R unit :=
  fun s => Val tt (st_alter (withSorted b) r s).

(** [arr[k].value], [arr[k].isCompared = b], ... *)
Definition arrValue (k : Z) : M R Z := r <- elem k ;; valueOf r.
Definition arrSetCompared (k : Z) (b : bool) : M R unit := r <- elem k ;; setCompared r b.
Definition arrSetSwapped (k : Z) (b : bool) : M R unit := r <- elem k ;; setSwapped r b.
Definition arrSetSorted (k : Z) (b : bool) : M R unit := r <- elem k ;; setSorted r b.

(** [arr[k] = r] with [k] inside the array. *)
Definition store (k : Z) (r : ref) : M R unit :=
  fun s => if (0 <=? k) && (k <? Z.of_nat (length (arr s)))
           then Val tt (st_store (Z.to_nat k) r s)
           else Throw OutOfBounds s.

(** [[arr[i], arr[j]] = [arr[j], arr[i]]]: the right-hand side is read
    first, then [arr[i]] and [arr[j]] are assigned in that order. *)
Definition swap (i j : Z) : M R unit :=
  fun s => match aget (arr s) j, aget (arr s) i with
           | Some rj, Some ri => (store i rj ;; store j ri) s
           | _, _ => Throw OutOfBounds s
           end.

(** [{ ...obj, isSwapped: true }]: a new object. *)
Definition spreadSwapped (r : ref) : M R ref :=
  fun s => Val (length (heap s))
               (st_alloc (withSwapped true (deref (heap s) r)) s).

(** [arr.slice(from, to)] *)
Definition arrSlice (from to : Z) : M R (list ref) :=
  fun s => Val (slice (arr s) from to) s.

Definition updateArray : M R unit := fun s => Val tt (st_publish s).
(** [await sleep(1100 - speed[0] * 100)]; the length of the delay has no
    influence on the array and is not kept. *)
Definition sleep : M R unit := fun s => Val tt (st_sleep s).
Definition markAllSorted : M R unit := fun s => Val tt (st_markAll s).

(** [for (let j = lo; j < hi; j++) acc = body(j, acc)], for a bound that the
    body does not change; [n] is the number of iterations left. *)
Fixpoint for_from {A} (n : nat) (j : Z) (body : Z -> A -> M R A) (acc : A) : M R A :=
  match n with
  | O => ret acc
  | S n' => acc' <- body j acc ;; for_from n' (j + 1) body acc'
  end.
Definition for_fold {A} (lo hi : Z) (body : Z -> A -> M R A) (acc : A) : M R A :=
  for_from (Z.to_nat (hi - lo)) lo body acc.
Definition for_loop (lo hi : Z) (body : Z -> M R unit) : M R unit :=
  for_fold lo hi (fun j _ => body j) tt.

End Body.

(** ** The five algorithms *)

Definition bubble_step (j : Z) : M unit unit :=
  check tt ;;
  arrSetCompared j true ;;
  arrSetCompared (j + 1) true ;;
  updateArray ;;
  sleep ;;
  a <- arrValue j ;;
  b <- arrValue (j + 1) ;;
  (if a >? b then
     swap j (j + 1) ;;
     arrSetSwapped j true ;;
     arrSetSwapped (j + 1) true ;;
     updateArray ;;
     sleep
   else ret tt) ;;
  arrSetCompared j false ;;
  arrSetCompared (j + 1) false ;;
  arrSetSwapped j false ;;
  arrSetSwapped (j + 1) false.

Definition bubble_pass (n i : Z) : M unit unit :=
  for_loop 0 (n - i - 1) bubble_step ;;
  arrSetSorted (n - i - 1) true ;;
  updateArray.

Definition bubbleSort : M unit unit :=
  n <- arrLength ;;
  for_loop 0 (n - 1) (bubble_pass n) ;;
  arrSetSorted 0 true ;;
  updateArray.

Definition selection_step (j minIdx : Z) : M unit Z :=
  check tt ;;
  arrSetCompared j true ;;
  updateArray ;;
  sleep ;;
  a <- arrValue j ;;
  m <- arrValue minIdx ;;
  minIdx' <- (if a <? m then
                arrSetCompared minIdx false ;;
                arrSetCompared j true ;;
                ret j
              else
                arrSetCompared j false ;;
                ret minIdx) ;;
  updateArray ;;
  ret minIdx'.

Definition selection_pass (n i : Z) : M unit unit :=
  arrSetCompared i true ;;
  minIdx <- for_fold (i + 1) n selection_step i ;;
  (if negb (minIdx =? i) then
     swap i minIdx ;;
     arrSetSwapped i true ;;
     arrSetSwapped minIdx true ;;
     updateArray ;;
     sleep ;;
     arrSetSwapped minIdx false
   else ret tt) ;;
  arrSetCompared i false ;;
  arrSetSwapped i false ;;
  arrSetSorted i true ;;
  updateArray.

Definition selectionSort : M unit unit :=
  n <- arrLength ;;
  for_loop 0 (n - 1) (selection_pass n) ;;
  arrSetSorted (n - 1) true ;;
  updateArray.

(** [while (j >= 0 && arr[j].value > key.value) { ...; j-- }] with
    [j = n - 1]; the result is the final [j]. *)
Fixpoint insertion_shift (n : nat) (key : ref) : M unit Z :=
  match n with
  | O => ret (-1)
  | S n' =>
      let j := Z.of_nat n' in
      a <- arrValue j ;;
      k <- valueOf key ;;
      if a >? k then
        check tt ;;
        arrSetCompared j true ;;
        (aj <- elem j ;; store (j + 1) aj) ;;
        arrSetSwapped (j + 1) true ;;
        updateArray ;;
        sleep ;;
        arrSetSwapped (j + 1) false ;;
        arrSetCompared j false ;;
        insertion_shift n' key
      else ret j
  end.

Definition insertion_pass (i : Z) : M unit unit :=
  check tt ;;
  key <- elem i ;;
  arrSetCompared i true ;;
  updateArray ;;
  sleep ;;
  j <- insertion_shift (Z.to_nat i) key ;;
  store (j + 1) key ;;
  arrSetCompared (j + 1) false ;;
  updateArray.

Definition insertionSort : M unit unit :=
  n <- arrLength ;;
  for_loop 1 n insertion_pass ;;
  markAllSorted ;;
  updateArray.

(** The three loops of [merge].  [ls] and [rs] are the parts of [leftArr]
    and [rightArr] from [i] and from [j] on, so that [i < leftArr.length]
    reads "[ls] is not empty" and [leftArr[i]] is its head. *)
Fixpoint merge_both (ls : list ref) : list ref -> Z -> M unit (list ref * list ref * Z) :=
  fix go (rs : list ref) (k : Z) {struct rs} : M unit (list ref * list ref * Z) :=
    match ls, rs with
    | l :: ls', r :: rs' =>
        check tt ;;
        arrSetCompared k true ;;
        updateArray ;;
        sleep ;;
        a <- valueOf l ;;
        b <- valueOf r ;;
        if a <=? b then
          (o <- spreadSwapped l ;; store k o) ;;
          updateArray ;;
          sleep ;;
          arrSetCompared k false ;;
          arrSetSwapped k false ;;
          merge_both ls' rs (k + 1)
        else
          (o <- spreadSwapped r ;; store k o) ;;
          updateArray ;;
          sleep ;;
          arrSetCompared k false ;;
          arrSetSwapped k false ;;
          go rs' (k + 1)
    | _, _ => ret (ls, rs, k)
    end.

Fixpoint merge_rest (xs : list ref) (k : Z) : M unit Z :=
  match xs with
  | [] => ret k
  | x :: xs' =>
      check tt ;;
      (o <- spreadSwapped x ;; store k o) ;;
      updateArray ;;
      sleep ;;
      arrSetSwapped k false ;;
      merge_rest xs' (k + 1)
  end.

Definition merge_ (left mid right : Z) : M unit unit :=
  check tt ;;
  leftArr <- arrSlice left (mid + 1) ;;
  rightArr <- arrSlice (mid + 1) (right + 1) ;;
  lrk <- merge_both leftArr rightArr left ;;
  let '(ls, rs, k) := lrk in
  k <- merge_rest ls k ;;
  k <- merge_rest rs k ;;
  n <- arrLength ;;
  if (left =? 0) && (right =? n - 1) then
    markAllSorted ;;
    updateArray
  else ret tt.

Fixpoint mergeSort_ (fuel : nat) (left right : Z) : M unit unit :=
  if left <? right then
    match fuel with
    | O => throw OutOfFuel
    | S fuel' =>
        let mid := (left + right) / 2 in
        call (mergeSort_ fuel' left mid) ;;
        call (mergeSort_ fuel' (mid + 1) right) ;;
        call (merge_ left mid right)
    end
  else ret tt.

(** [mergeSort(arr)]: [left = 0], [right = arr.length - 1]. *)
Definition mergeSort : M unit unit :=
  n <- arrLength ;;
  mergeSort_ (Z.to_nat n) 0 (n - 1).

Definition partition_step (pivot : ref) (low j i : Z) : M Z Z :=
  check low ;;
  arrSetCompared j true ;;
  updateArray ;;
  sleep ;;
  a <- arrValue j ;;
  p <- valueOf pivot ;;
  i' <- (if a <? p then
           swap (i + 1) j ;;
           arrSetSwapped (i + 1) true ;;
           arrSetSwapped j true ;;
           updateArray ;;
           sleep ;;
           arrSetSwapped (i + 1) false ;;
           arrSetSwapped j false ;;
           ret (i + 1)
         else ret i) ;;
  arrSetCompared j false ;;
  ret i'.

Definition partition (low high : Z) : M Z Z :=
  check low ;;
  pivot <- elem high ;;
  setCompared pivot true ;;
  updateArray ;;
  sleep ;;
  i <- for_fold low high (partition_step pivot low) (low - 1) ;;
  swap (i + 1) high ;;
  arrSetSwapped (i + 1) true ;;
  arrSetSwapped high true ;;
  updateArray ;;
  sleep ;;
  arrSetSwapped (i + 1) false ;;
  arrSetSwapped high false ;;
  setCompared pivot false ;;
  updateArray ;;
  ret (i + 1).

Fixpoint quickSort_ (fuel : nat) (low high : Z) : M unit unit :=
  (if low <? high then
     match fuel with
     | O => throw OutOfFuel
     | S fuel' =>
         pivotIndex <- call (partition low high) ;;
         call (quickSort_ fuel' low (pivotIndex - 1)) ;;
         call (quickSort_ fuel' (pivotIndex + 1) high)
     end
   else ret tt) ;;
  n <- arrLength ;;
  if (low =? 0) && (high =? n - 1) then
    markAllSorted ;;
    updateArray
  else ret tt.

Definition quickSort : M unit unit :=
  n <- arrLength ;;
  quickSort_ (Z.to_nat n) 0 (n - 1).

(** The [switch] of [startSorting]. *)
Definition sort (alg : SortingAlgorithm) : M unit unit :=
  match alg with
  | bubble => call bubbleSort
  | selection => call selectionSort
  | insertion => call insertionSort
  | merge => call mergeSort
  | quick => call quickSort
  end.

End Engine.

(** The engine started on [array]: [arrayCopy = [...array]] holds the
    objects of [array] themselves. *)
Definition init (array : list ArrayElement) : state :=
  mkState array (seq 0 (length array)) 0 [].

Definition fresh (v : Z) : ArrayElement := mkElement v false false false.


(** ** Reasoning about engine code *)

Lemma aget_Some_range {A} (l : list A) k x :
  aget l k = Some x -> 0 <= k < Z.of_nat (length l).
Proof.
  unfold aget. destruct (Z.ltb_spec k 0); [done|].
  intros Hl%lookup_lt_Some. lia.
Qed.

Lemma aget_in_range {A} (l : list A) k :
  0 <= k < Z.of_nat (length l) -> exists x, aget l k = Some x.
Proof.
  intros Hk. unfold aget. destruct (Z.ltb_spec k 0); [lia|].
  apply lookup_lt_is_Some_2. lia.
Qed.

Lemma aget_None_range {A} (l : list A) k :
  aget l k = None <-> (k < 0 \/ Z.of_nat (length l) <= k).
Proof.
  unfold aget. destruct (Z.ltb_spec k 0).
  - split; [auto|done].
  - rewrite lookup_ge_None. lia.
Qed.

Lemma aget_fmap {A B} (f : A -> B) (l : list A) k :
  aget (f <$> l) k = f <$> aget l k.
Proof. unfold aget. destruct (k <? 0); [done|]. apply list_lookup_fmap. Qed.

Lemma aget_insert {A} (l : list A) i k x :
  0 <= i < Z.of_nat (length l) ->
  aget (<[Z.to_nat i := x]> l) k = if decide (k = i) then Some x else aget l k.
Proof.
  intros Hi. unfold aget. destruct (Z.ltb_spec k 0).
  - destruct (decide (k = i)); [lia|done].
  - destruct (decide (k = i)) as [->|].
    + apply list_lookup_insert_eq. lia.
    + apply list_lookup_insert_ne. lia.
Qed.

Lemma aget_app_l {A} (l1 l2 : list A) k :
  k < Z.of_nat (length l1) -> aget (l1 ++ l2) k = aget l1 k.
Proof.
  intros. unfold aget. destruct (Z.ltb_spec k 0); [done|].
  apply lookup_app_l. lia.
Qed.

Lemma aget_app_r {A} (l1 l2 : list A) k :
  Z.of_nat (length l1) <= k -> aget (l1 ++ l2) k = aget l2 (k - Z.of_nat (length l1)).
Proof.
  intros. unfold aget.
  destruct (Z.ltb_spec k 0); [lia|]. destruct (Z.ltb_spec (k - Z.of_nat (length l1)) 0); [lia|].
  rewrite lookup_app_r by lia. f_equal. lia.
Qed.

Lemma aget_ext {A} (l1 l2 : list A) :
  (forall k, aget l1 k = aget l2 k) -> l1 = l2.
Proof.
  intros H. apply list_eq. intros i. specialize (H (Z.of_nat i)).
  unfold aget in H. destruct (Z.ltb_spec (Z.of_nat i) 0); [lia|].
  by rewrite Nat2Z.id in H.
Qed.

(** The projection of the rendered array along a field. *)
Definition proj {A} (f : ArrayElement -> A) (s : state) : list A := f <$> view s.

Lemma vals_proj s : vals s = proj value s.
Proof. done. Qed.
Lemma sflags_proj s : sflags s = proj isSorted s.
Proof. done. Qed.

Lemma length_proj {A} (f : ArrayElement -> A) s : length (proj f s) = length (arr s).
Proof. unfold proj, view, view_of. by rewrite !length_fmap. Qed.

Lemma aget_proj {A} (f : ArrayElement -> A) s k :
  aget (proj f s) k = (fun r => f (deref (heap s) r)) <$> aget (arr s) k.
Proof.
  unfold proj, view, view_of. rewrite !aget_fmap. by destruct (aget (arr s) k).
Qed.

Lemma deref_alter g r h r' :
  deref (alter g r h) r' = if decide (r' = r) then
                             (if decide (r < length h)%nat then g (deref h r) else deref h r)
                           else deref h r'.
Proof.
  unfold deref. destruct (decide (r' = r)) as [->|].
  - destruct (decide (r < length h)%nat).
    + by rewrite list_lookup_total_alter_eq.
    + rewrite !list_lookup_total_alt, list_lookup_alter_eq.
      rewrite (lookup_ge_None_2 h r) by lia. done.
  - by rewrite list_lookup_total_alter_ne.
Qed.

Lemma deref_alter_stable {A} (f : ArrayElement -> A) g r h r' :
  (forall e, f (g e) = f e) -> f (deref (alter g r h) r') = f (deref h r').
Proof.
  intros Hg. rewrite deref_alter. repeat case_decide; subst; auto.
Qed.

Lemma proj_alter {A} (f : ArrayElement -> A) g r s :
  (forall e, f (g e) = f e) -> proj f (st_alter g r s) = proj f s.
Proof.
  intros Hg. unfold proj, view, view_of; simpl. rewrite <- !list_fmap_compose.
  apply list_fmap_ext. intros i x _. simpl. by apply deref_alter_stable.
Qed.

Lemma proj_store {A} (f : ArrayElement -> A) k r s :
  proj f (st_store k r s) = <[k := f (deref (heap s) r)]> (proj f s).
Proof. unfold proj, view, view_of; simpl. by rewrite !list_fmap_insert. Qed.

Lemma proj_publish {A} (f : ArrayElement -> A) s : proj f (st_publish s) = proj f s.
Proof. done. Qed.
Lemma proj_sleep {A} (f : ArrayElement -> A) s : proj f (st_sleep s) = proj f s.
Proof. done. Qed.

(** Every reference of the array points into the store. *)
Definition wf (s : state) : Prop := Forall (fun r => (r < length (heap s))%nat) (arr s).

Lemma deref_app_l h e r : (r < length h)%nat -> deref (h ++ [e]) r = deref h r.
Proof. intros. unfold deref. by rewrite lookup_total_app_l. Qed.

Lemma view_of_app_l h e a :
  Forall (fun r => (r < length h)%nat) a -> view_of (h ++ [e]) a = view_of h a.
Proof.
  intros Hwf. unfold view_of. apply Forall_fmap_ext_1.
  eapply Forall_impl; [exact Hwf|]. intros r Hr. by apply deref_app_l.
Qed.

Lemma proj_alloc {A} (f : ArrayElement -> A) e s :
  wf s -> proj f (st_alloc e s) = proj f s.
Proof. intros Hwf. unfold proj, view; simpl. by rewrite view_of_app_l. Qed.

(** Exchanging two positions of a list, with JavaScript numbers as indices. *)
Definition zswap {A} (l : list A) (i j : Z) : list A :=
  match aget l i, aget l j with
  | Some a, Some b => <[Z.to_nat j := a]> (<[Z.to_nat i := b]> l)
  | _, _ => l
  end.

Lemma length_zswap {A} (l : list A) i j : length (zswap l i j) = length l.
Proof. unfold zswap. repeat case_match; by rewrite ?length_insert. Qed.

Lemma aget_zswap {A} (l : list A) i j k :
  0 <= i < Z.of_nat (length l) -> 0 <= j < Z.of_nat (length l) ->
  aget (zswap l i j) k =
    if decide (k = j) then aget l i else if decide (k = i) then aget l j else aget l k.
Proof.
  intros Hi Hj. unfold zswap.
  destruct (aget_in_range l i Hi) as [a Ha], (aget_in_range l j Hj) as [b Hb].
  rewrite Ha, Hb. rewrite aget_insert by (rewrite length_insert; lia).
  destruct (decide (k = j)); [done|]. rewrite aget_insert by lia.
  by destruct (decide (k = i)).
Qed.

Lemma zswap_same {A} (l : list A) i : zswap l i i = l.
Proof.
  unfold zswap. destruct (aget l i) as [a|] eqn:Ha; [|done].
  pose proof (aget_Some_range _ _ _ Ha).
  apply aget_ext. intros k. rewrite !aget_insert by (rewrite ?length_insert; lia).
  destruct (decide (k = i)); by subst.
Qed.

Lemma insert_cons_perm {A} (l : list A) n b x :
  l !! n = Some b -> b :: <[n := x]> l ≡ₚ x :: l.
Proof.
  revert n. induction l as [|y l IH]; intros [|n] Hb; simplify_eq/=.
  - apply perm_swap.
  - etrans; [apply perm_swap|]. etrans; [|apply perm_swap].
    constructor. by apply IH.
Qed.

Lemma insert_insert_perm {A} (l : list A) m n a b :
  l !! m = Some a -> l !! n = Some b -> <[n := a]> (<[m := b]> l) ≡ₚ l.
Proof.
  revert m n. induction l as [|x l IH]; intros [|m] [|n] Ha Hb; simplify_eq/=; try done.
  - by apply insert_cons_perm.
  - by apply insert_cons_perm.
  - constructor. by apply IH.
Qed.

Lemma zswap_perm {A} (l : list A) i j : zswap l i j ≡ₚ l.
Proof.
  unfold zswap. destruct (aget l i) as [a|] eqn:Ha; [|done].
  destruct (aget l j) as [b|] eqn:Hb; [|done].
  unfold aget in Ha, Hb.
  destruct (i <? 0); [done|]. destruct (j <? 0); [done|].
  by apply insert_insert_perm.
Qed.

Lemma proj_swap {A} (f : ArrayElement -> A) i j ri rj s :
  aget (arr s) i = Some ri -> aget (arr s) j = Some rj ->
  proj f (st_store (Z.to_nat j) ri (st_store (Z.to_nat i) rj s)) = zswap (proj f s) i j.
Proof.
  intros Hi Hj. rewrite !proj_store. unfold zswap. rewrite !aget_proj, Hi, Hj. done.
Qed.

(** Weakest precondition of a piece of code: it does not throw, a normal
    result satisfies [Q] and an early [return] satisfies [QR]. *)
Definition wp {R A} (m : M R A) (Q : A -> state -> Prop) (QR : R -> state -> Prop)
    (s : state) : Prop :=
  match m s with
  | Val a s' => Q a s'
  | Ret r s' => QR r s'
  | Throw _ _ => False
  end.

Section WP.
Variable cancel : option nat.
Context {R : Type}.
Implicit Types (QR : R -> state -> Prop) (s : state).

Lemma wp_ret {A} (a : A) (Q : A -> state -> Prop) QR s : Q a s -> wp (ret a) Q QR s.
Proof. done. Qed.

Lemma wp_bind {A B} (m : M R A) (f : A -> M R B) (Q : B -> state -> Prop) QR s :
  wp m (fun a s' => wp (f a) Q QR s') QR s -> wp (bind m f) Q QR s.
Proof. unfold wp, bind. by destruct (m s). Qed.

Lemma wp_mono {A} (m : M R A) (Q Q' : A -> state -> Prop) QR QR' s :
  wp m Q QR s -> (forall a s', Q a s' -> Q' a s') -> (forall r s', QR r s' -> QR' r s') ->
  wp m Q' QR' s.
Proof. unfold wp. destruct (m s); auto. Qed.

Lemma wp_call {R'} (m : M R' R') (Q : R' -> state -> Prop) QR s :
  wp m Q Q s -> wp (call m) Q QR s.
Proof. unfold wp, call. by destruct (m s). Qed.

Lemma wp_check r (Q : unit -> state -> Prop) QR s :
  (isRunning cancel s = true -> Q tt s) -> (isRunning cancel s = false -> QR r s) ->
  wp (check cancel r) Q QR s.
Proof. unfold wp, check. destruct (isRunning cancel s); auto. Qed.

Lemma wp_arrLength (Q : Z -> state -> Prop) QR s :
  Q (Z.of_nat (length (arr s))) s -> wp arrLength Q QR s.
Proof. done. Qed.

Lemma wp_elem k (Q : ref -> state -> Prop) QR s :
  0 <= k < Z.of_nat (length (arr s)) ->
  (forall r, aget (arr s) k = Some r -> Q r s) -> wp (elem k) Q QR s.
Proof.
  intros [r Hr]%aget_in_range HQ. unfold wp, elem. rewrite Hr. auto.
Qed.

Lemma wp_valueOf r (Q : Z -> state -> Prop) QR s :
  Q (value (deref (heap s) r)) s -> wp (valueOf r) Q QR s.
Proof. done. Qed.

Lemma wp_arrValue k (Q : Z -> state -> Prop) QR s :
  0 <= k < Z.of_nat (length (arr s)) ->
  (forall x, aget (proj value s) k = Some x -> Q x s) -> wp (arrValue k) Q QR s.
Proof.
  intros Hk HQ. apply wp_bind, wp_elem; [done|]. intros r Hr. apply wp_valueOf, HQ.
  by rewrite aget_proj, Hr.
Qed.

Lemma wp_setCompared r b (Q : unit -> state -> Prop) QR s :
  Q tt (st_alter (withCompared b) r s) -> wp (setCompared r b) Q QR s.
Proof. done. Qed.
Lemma wp_setSwapped r b (Q : unit -> state -> Prop) QR s :
  Q tt (st_alter (withSwapped b) r s) -> wp (setSwapped r b) Q QR s.
Proof. done. Qed.
Lemma wp_setSorted r b (Q : unit -> state -> Prop) QR s :
  Q tt (st_alter (withSorted b) r s) -> wp (setSorted r b) Q QR s.
Proof. done. Qed.

Lemma wp_arrSetCompared k b (Q : unit -> state -> Prop) QR s :
  0 <= k < Z.of_nat (length (arr s)) ->
  (forall r, aget (arr s) k = Some r -> Q tt (st_alter (withCompared b) r s)) ->
  wp (arrSetCompared k b) Q QR s.
Proof. intros Hk HQ. apply wp_bind, wp_elem; [done|]. intros r Hr. by apply HQ. Qed.
Lemma wp_arrSetSwapped k b (Q : unit -> state -> Prop) QR s :
  0 <= k < Z.of_nat (length (arr s)) ->
  (forall r, aget (arr s) k = Some r -> Q tt (st_alter (withSwapped b) r s)) ->
  wp (arrSetSwapped k b) Q QR s.
Proof. intros Hk HQ. apply wp_bind, wp_elem; [done|]. intros r Hr. by apply HQ. Qed.
Lemma wp_arrSetSorted k b (Q : unit -> state -> Prop) QR s :
  0 <= k < Z.of_nat (length (arr s)) ->
  (forall r, aget (arr s) k = Some r -> Q tt (st_alter (withSorted b) r s)) ->
  wp (arrSetSorted k b) Q QR s.
Proof. intros Hk HQ. apply wp_bind, wp_elem; [done|]. intros r Hr. by apply HQ. Qed.

Lemma wp_store k r (Q : unit -> state -> Prop) QR s :
  0 <= k < Z.of_nat (length (arr s)) ->
  Q tt (st_store (Z.to_nat k) r s) -> wp (store k r) Q QR s.
Proof.
  intros Hk HQ. unfold wp, store.
  destruct (Z.leb_spec 0 k); [|lia]. destruct (Z.ltb_spec k (Z.of_nat (length (arr s)))); [|lia].
  done.
Qed.

Lemma wp_swap i j (Q : unit -> state -> Prop) QR s :
  0 <= i < Z.of_nat (length (arr s)) -> 0 <= j < Z.of_nat (length (arr s)) ->
  (forall ri rj, aget (arr s) i = Some ri -> aget (arr s) j = Some rj ->
     Q tt (st_store (Z.to_nat j) ri (st_store (Z.to_nat i) rj s))) ->
  wp (swap i j) Q QR s.
Proof.
  intros Hi Hj HQ.
  destruct (aget_in_range _ _ Hi) as [ri Hri], (aget_in_range _ _ Hj) as [rj Hrj].
  unfold wp, swap. rewrite Hri, Hrj.
  change (wp (store i rj ;; store j ri) Q QR s).
  apply wp_bind, wp_store; [done|]. apply wp_store; [by simpl; rewrite length_insert|].
  by apply HQ.
Qed.

Lemma wp_spreadSwapped r (Q : ref -> state -> Prop) QR s :
  Q (length (heap s)) (st_alloc (withSwapped true (deref (heap s) r)) s) ->
  wp (spreadSwapped r) Q QR s.
Proof. done. Qed.

Lemma wp_arrSlice a b (Q : list ref -> state -> Prop) QR s :
  Q (slice (arr s) a b) s -> wp (arrSlice a b) Q QR s.
Proof. done. Qed.

Lemma wp_updateArray (Q : unit -> state -> Prop) QR s :
  Q tt (st_publish s) -> wp updateArray Q QR s.
Proof. done. Qed.
Lemma wp_sleep (Q : unit -> state -> Prop) QR s :
  Q tt (st_sleep s) -> wp sleep Q QR s.
Proof. done. Qed.
Lemma wp_markAllSorted (Q : unit -> state -> Prop) QR s :
  Q tt (st_markAll s) -> wp markAllSorted Q QR s.
Proof. done. Qed.

Lemma wp_for_from {A} (I : Z -> A -> state -> Prop) n lo body acc QR s :
  I lo acc s ->
  (forall j a s', lo <= j < lo + Z.of_nat n -> I j a s' ->
     wp (body j a) (fun a' s'' => I (j + 1) a' s'') QR s') ->
  wp (for_from n lo body acc) (fun a s' => I (lo + Z.of_nat n) a s') QR s.
Proof.
  revert lo acc s. induction n as [|n IH]; intros lo acc s HI Hbody.
  - simpl. apply wp_ret. by replace (lo + Z.of_nat 0) with lo by lia.
  - simpl. apply wp_bind. eapply wp_mono; [apply (Hbody lo); [lia|done]| |done].
    intros a s' HI'. simpl in HI'.
    replace (lo + Z.of_nat (S n)) with ((lo + 1) + Z.of_nat n) by lia.
    apply IH; [done|]. intros j a' s'' Hj. apply Hbody. lia.
Qed.

(** The loop rule: [I j acc] holds before the iteration for [j]. *)
Lemma wp_for_fold {A} (I : Z -> A -> state -> Prop) lo hi body acc
    (Q : A -> state -> Prop) QR s :
  lo <= hi ->
  I lo acc s ->
  (forall j a s', lo <= j < hi -> I j a s' ->
     wp (body j a) (fun a' s'' => I (j + 1) a' s'') QR s') ->
  (forall a s', I hi a s' -> Q a s') ->
  wp (for_fold lo hi body acc) Q QR s.
Proof.
  intros Hle HI Hbody HQ. unfold for_fold.
  eapply wp_mono; [apply (wp_for_from I); [done|]| |done].
  - intros j a s' Hj. apply Hbody. lia.
  - intros a s'. replace (lo + Z.of_nat (Z.to_nat (hi - lo))) with hi by lia. apply HQ.
Qed.

Lemma wp_for_fold_empty {A} lo hi (body : Z -> A -> M R A) acc (Q : A -> state -> Prop) QR s :
  hi <= lo -> Q acc s -> wp (for_fold lo hi body acc) Q QR s.
Proof.
  intros Hle HQ. unfold for_fold. replace (Z.to_nat (hi - lo)) with 0%nat by lia. done.
Qed.

Lemma wp_for_loop (I : Z -> state -> Prop) lo hi body (Q : unit -> state -> Prop) QR s :
  lo <= hi ->
  I lo s ->
  (forall j s', lo <= j < hi -> I j s' -> wp (body j) (fun _ s'' => I (j + 1) s'') QR s') ->
  (forall s', I hi s' -> Q tt s') ->
  wp (for_loop lo hi body) Q QR s.
Proof.
  intros Hle HI Hbody HQ. unfold for_loop.
  apply (wp_for_fold (fun j _ s => I j s)); auto.
  intros a s'. destruct a. apply HQ.
Qed.

Lemma wp_call_bind {R' B} (m : M R' R') (P : R' -> state -> Prop) (f : R' -> M R B)
    (Q : B -> state -> Prop) QR s :
  wp m P P s -> (forall a s', P a s' -> wp (f a) Q QR s') -> wp (bind (call m) f) Q QR s.
Proof.
  intros Hm Hf. unfold wp, bind, call in *. destruct (m s); auto; by apply Hf.
Qed.

End WP.


Create Rewrite HintDb st.
#[local] Hint Rewrite @length_proj @length_zswap @length_insert @length_fmap : st.
#[local] Hint Rewrite @proj_alter using (intros []; reflexivity) : st.
#[local] Hint Rewrite @proj_store @proj_publish @proj_sleep : st.
#[local] Hint Rewrite @proj_swap using eassumption : st.

(** Projections of the state commute with the state transformers. *)
Ltac st_cbn :=
  cbn [arr heap sleeps published st_alter st_store st_publish st_sleep st_alloc st_markAll] in *.
Ltac st_norm := autorewrite with st in *; st_cbn; autorewrite with st in *.
Ltac st_range := st_norm; lia.

Ltac wp_prim :=
  lazymatch goal with
  | |- wp (ret _) _ _ _ => apply wp_ret
  | |- wp (check _ _) _ _ _ =>
      apply wp_check; [intros ?Hrun | intros ?Hstop; try discriminate Hstop]
  | |- wp arrLength _ _ _ => apply wp_arrLength
  | |- wp (elem _) _ _ _ => apply wp_elem; [try st_range | intros ?r ?Hr]
  | |- wp (valueOf _) _ _ _ => apply wp_valueOf
  | |- wp (arrValue _) _ _ _ => apply wp_arrValue; [try st_range | intros ?x ?Hx]
  | |- wp (setCompared _ _) _ _ _ => apply wp_setCompared
  | |- wp (setSwapped _ _) _ _ _ => apply wp_setSwapped
  | |- wp (setSorted _ _) _ _ _ => apply wp_setSorted
  | |- wp (arrSetCompared _ _) _ _ _ => apply wp_arrSetCompared; [try st_range | intros ?r ?Hr]
  | |- wp (arrSetSwapped _ _) _ _ _ => apply wp_arrSetSwapped; [try st_range | intros ?r ?Hr]
  | |- wp (arrSetSorted _ _) _ _ _ => apply wp_arrSetSorted; [try st_range | intros ?r ?Hr]
  | |- wp (store _ _) _ _ _ => apply wp_store; [try st_range | ]
  | |- wp (swap _ _) _ _ _ =>
      apply wp_swap; [try st_range | try st_range | intros ?ri ?rj ?Hri ?Hrj]
  | |- wp (spreadSwapped _) _ _ _ => apply wp_spreadSwapped
  | |- wp (arrSlice _ _) _ _ _ => apply wp_arrSlice
  | |- wp updateArray _ _ _ => apply wp_updateArray
  | |- wp sleep _ _ _ => apply wp_sleep
  | |- wp markAllSorted _ _ _ => apply wp_markAllSorted
  end.

Ltac wp_step :=
  lazymatch goal with
  | |- wp (bind _ _) _ _ _ => apply wp_bind; wp_step
  | |- wp (if ?b then _ else _) _ _ _ => fail
  | |- _ => wp_prim
  end.

(** ** Order of the values *)

(** [ordered P l]: whenever the positions [a] and [b] are related by [P],
    the value at [a] is at most the value at [b]. *)
Definition ordered (P : Z -> Z -> Prop) (l : list Z) : Prop :=
  forall a b x y, P a b -> aget l a = Some x -> aget l b = Some y -> x <= y.

(** [bounded P Q l]: the value at every position satisfying [P] satisfies [Q]. *)
Definition bounded (P : Z -> Prop) (Q : Z -> Prop) (l : list Z) : Prop :=
  forall a x, P a -> aget l a = Some x -> Q x.

Definition sorted_range (l : list Z) (lo hi : Z) : Prop :=
  ordered (fun a b => lo <= a /\ a <= b /\ b < hi) l.

(** Everything before position [k] is at most everything from [k] on. *)
Definition le_split (l : list Z) (k : Z) : Prop :=
  ordered (fun a b => a < k /\ k <= b) l.

Lemma sorted_range_Sorted (l : list Z) :
  sorted_range l 0 (Z.of_nat (length l)) -> Sorted Z.le l.
Proof.
  intros H. apply StronglySorted_Sorted.
  assert (forall a b x y, (a <= b)%nat -> l !! a = Some x -> l !! b = Some y -> x <= y) as H'.
  { intros a b x y Hab Ha Hb. pose proof (lookup_lt_Some _ _ _ Hb).
    apply (H (Z.of_nat a) (Z.of_nat b)); [lia| |]; unfold aget.
    - destruct (Z.ltb_spec (Z.of_nat a) 0); [lia|]. by rewrite Nat2Z.id.
    - destruct (Z.ltb_spec (Z.of_nat b) 0); [lia|]. by rewrite Nat2Z.id. }
  clear H. induction l as [|x l IH]; constructor.
  - apply IH. intros a b u v Hab Ha Hb. apply (H' (S a) (S b)); [lia|done|done].
  - apply Forall_forall. intros y [i Hi]%list_elem_of_lookup.
    apply (H' 0%nat (S i)); [lia|done|done].
Qed.

(** Saturate the context with the comparisons that the [ordered] and
    [bounded] hypotheses give for the positions at hand. *)
Ltac learn P tac :=
  lazymatch goal with
  | _ : P |- _ => fail
  | _ => assert P by tac
  end.

(** [apart a b] records that two positions were found to be different. *)
Definition apart (a b : Z) : Prop := a <> b.

Ltac known P := lazymatch goal with _ : P |- _ => idtac | _ => fail end.

Ltac idx_split_step :=
  match goal with
  | Ha : aget ?l ?a = Some ?x, Hb : aget ?l ?b = Some ?y |- _ =>
      lazymatch a with b => fail | _ => idtac end;
      tryif first [known (a = b) | known (b = a) | known (a <> b) | known (b <> a)
                  | known (apart a b) | known (apart b a)]
      then fail
      else first
        [ assert (apart a b) by (unfold apart; lia)
        | assert (a = b) by lia
        | destruct (decide (a = b)) ]
  end.

Ltac learn_if P C prf :=
  lazymatch goal with
  | _ : C |- _ => fail
  | _ : P -> C |- _ => fail
  | _ =>
      first
        [ assert C by (apply prf; cbn; lia)
        | tryif (assert (~ P) by (cbn; lia)) then fail
          else assert (P -> C) by exact prf ]
  end.

Ltac order_sat_step :=
  match goal with
  | H : ordered ?R ?l, Ha : aget ?l ?a = Some ?x, Hb : aget ?l ?b = Some ?y |- _ =>
      lazymatch x with y => fail | _ => idtac end;
      let P := eval cbn beta in (R a b) in
      learn_if P (x <= y) (fun HP : P => H a b x y HP Ha Hb)
  | H : bounded ?R ?Q ?l, Ha : aget ?l ?a = Some ?x |- _ =>
      let P := eval cbn beta in (R a) in
      let C := eval cbn beta in (Q x) in
      learn_if P C (fun HP : P => H a x HP Ha)
  | Ha : aget ?l ?a = Some ?x, Hb : aget ?l ?b = Some ?y, E : ?a = ?b |- _ =>
      lazymatch x with
      | y => fail
      | _ => learn (x = y) ltac:(rewrite E in Ha; congruence)
      end
  | Ha : aget ?l ?a = Some ?x, Hb : aget ?l ?b = Some ?y, E : ?b = ?a |- _ =>
      lazymatch x with
      | y => fail
      | _ => learn (x = y) ltac:(rewrite E in Hb; congruence)
      end
  end.
Ltac ranges :=
  repeat match goal with
  | Ha : aget ?l ?a = Some ?x |- _ =>
      learn (0 <= a < Z.of_nat (length l)) ltac:(exact (aget_Some_range l a x Ha))
  end;
  autorewrite with st in *.
Ltac order_sat :=
  once (ranges; repeat (once idx_split_step); repeat (once order_sat_step)).

Ltac aget_cases_step :=
  match goal with
  | H : aget (zswap _ _ _) _ = Some _ |- _ =>
      rewrite aget_zswap in H by (autorewrite with st; lia)
  | H : aget (<[_ := _]> _) _ = Some _ |- _ =>
      rewrite aget_insert in H by (autorewrite with st; lia)
  | H : context [decide (?a = ?b)] |- _ =>
      destruct (decide (a = b)) as [?Heq|?Hne]; [try (exfalso; lia)|try (exfalso; lia)]
  end.
Ltac aget_cases := once (repeat (once aget_cases_step)).

Ltac order_intro :=
  lazymatch goal with
  | |- ordered _ _ => intros ?a ?b ?x ?y ?HP ?Ha ?Hb; cbn in HP
  | |- bounded _ _ _ => intros ?a ?x ?HP ?Ha; cbn in HP; cbn
  | |- sorted_range _ _ _ => intros ?a ?b ?x ?y ?HP ?Ha ?Hb; cbn in HP
  | |- le_split _ _ => intros ?a ?b ?x ?y ?HP ?Ha ?Hb; cbn in HP
  end.

Ltac clear_refs := repeat match goal with r : ref |- _ => clear dependent r end.

Ltac order_solve :=
  once (clear_refs; unfold sorted_range, le_split in *;
        order_intro; aget_cases; simplify_eq; order_sat; lia).

Lemma view_init l : view (init l) = l.
Proof.
  unfold view, view_of, init; simpl. apply list_eq. intros i.
  rewrite list_lookup_fmap. destruct (l !! i) as [x|] eqn:Hi.
  - rewrite lookup_seq_lt by (by eapply lookup_lt_Some). simpl.
    unfold deref. by erewrite list_lookup_total_correct.
  - rewrite lookup_seq_ge; [done|]. by apply lookup_ge_None.
Qed.

Lemma proj_init {A} (f : ArrayElement -> A) l : proj f (init l) = f <$> l.
Proof. unfold proj. by rewrite view_init. Qed.

Lemma length_arr_init l : length (arr (init l)) = length l.
Proof. simpl. apply length_seq. Qed.

Lemma wf_init l : wf (init l).
Proof.
  unfold wf; simpl. apply Forall_forall. intros r Hr%elem_of_seq. lia.
Qed.

Lemma deref_foldl_alter_stable {A} (f : ArrayElement -> A) g rs h r' :
  (forall e, f (g e) = f e) ->
  f (deref (foldl (fun h r => alter g r h) h rs) r') = f (deref h r').
Proof.
  intros Hg. revert h. induction rs as [|r rs IH]; intros h; simpl; [done|].
  rewrite IH. by apply deref_alter_stable.
Qed.

Lemma proj_markAll {A} (f : ArrayElement -> A) s :
  (forall e, f (withSorted true e) = f e) -> proj f (st_markAll s) = proj f s.
Proof.
  intros Hg. unfold proj, view, view_of; simpl. rewrite <- !list_fmap_compose.
  apply list_fmap_ext. intros i x _. simpl. by apply deref_foldl_alter_stable.
Qed.

#[local] Hint Rewrite @proj_markAll using (intros []; reflexivity) : st.
#[local] Hint Rewrite (@deref_alter_stable Z value) using (intros []; reflexivity) : st.

Lemma insert_shift_perm (l : list Z) (m : Z) kv x :
  0 < m < Z.of_nat (length l) -> aget l (m - 1) = Some x ->
  <[Z.to_nat (m - 1) := kv]> (<[Z.to_nat m := x]> l) ≡ₚ <[Z.to_nat m := kv]> l.
Proof.
  intros Hm Hx. set (W := <[Z.to_nat m := kv]> l).
  replace (<[Z.to_nat (m - 1) := kv]> (<[Z.to_nat m := x]> l)) with (zswap W (m - 1) m);
    [apply zswap_perm|].
  apply aget_ext. intros k. subst W.
  rewrite aget_zswap by (rewrite length_insert; lia).
  rewrite !aget_insert by (rewrite ?length_insert; lia).
  repeat case_decide; simplify_eq; try lia; done.
Qed.


(** The last [updateArray] call showed the array as it is now. *)
Definition synced (s : state) : Prop :=
  exists t rest, published s = (t, view s) :: rest.

Lemma synced_publish s : synced (st_publish s).
Proof. by eexists _, _. Qed.

Section SortProofs.

Abbreviation wpN := (wp (R := unit)).
Abbreviation NoRet := (fun (_ : unit) (_ : state) => False).

(** *** Bubble sort *)

Definition bubble_inv (L : list Z) (n i : Z) (s : state) : Prop :=
  Z.of_nat (length (arr s)) = n /\ proj value s ≡ₚ L /\
  sorted_range (proj value s) (n - i) n /\ le_split (proj value s) (n - i).

Lemma bubble_step_ok L n i j s :
  0 <= i -> 0 <= j < n - i - 1 ->
  bubble_inv L n i s ->
  ordered (fun a b => 0 <= a <= j /\ b = j) (proj value s) ->
  wpN (bubble_step None j)
    (fun _ s' => bubble_inv L n i s' /\
       ordered (fun a b => 0 <= a <= j + 1 /\ b = j + 1) (proj value s'))
    NoRet s.
Proof.
  intros Hi Hj (Hn & Hperm & Hsort & Hsplit) Hmax. unfold bubble_step, bubble_inv.
  do 7 wp_step. apply wp_bind.
  destruct (Z.gtb_spec x x0).
  - do 5 wp_step. do 4 wp_step. st_norm.
    split_and!; [done|by rewrite zswap_perm| | |]; order_solve.
  - do 5 wp_step. st_norm. split_and!; [done|done|done|done|]. order_solve.
Qed.

Lemma bubble_pass_ok L n i s :
  0 <= i < n - 1 -> bubble_inv L n i s ->
  wpN (bubble_pass None n i) (fun _ s' => bubble_inv L n (i + 1) s') NoRet s.
Proof.
  intros Hi Hinv. unfold bubble_pass. apply wp_bind.
  apply (wp_for_loop (fun j s' => bubble_inv L n i s' /\
           ordered (fun a b => 0 <= a <= j /\ b = j) (proj value s'))); [lia| | |].
  - split; [done|]. order_intro. assert (a = b) by lia. simplify_eq. lia.
  - intros j s' Hj [Hinv' Hmax]. apply bubble_step_ok; [lia|lia|done|done].
  - intros s' [(Hn & Hperm & Hsort & Hsplit) Hmax]. unfold bubble_inv.
    do 2 wp_step. st_norm. split_and!; [done|done| |]; order_solve.
Qed.

Lemma bubbleSort_ok (l : list ArrayElement) :
  l <> [] ->
  wpN (bubbleSort None)
    (fun _ s' => Sorted Z.le (vals s') /\ vals s' ≡ₚ value <$> l /\ synced s')
    NoRet (init l).
Proof.
  intros Hne. unfold bubbleSort. wp_step. rewrite length_arr_init.
  assert (0 < Z.of_nat (length l)) as Hn by (destruct l; [done|simpl; lia]).
  apply wp_bind.
  apply (wp_for_loop (fun i s' => bubble_inv (value <$> l) (Z.of_nat (length l)) i s')); [lia| | |].
  - unfold bubble_inv. rewrite proj_init, length_arr_init. split_and!; [done|done| |]; order_solve.
  - intros i s' Hi Hinv. apply bubble_pass_ok; [lia|done].
  - intros s' (Hlen & Hperm & Hsort & Hsplit).
    do 2 wp_step. split_and!; [| |apply synced_publish]; rewrite !vals_proj; st_norm; [|done].
    apply sorted_range_Sorted. st_norm. rewrite Hlen. order_solve.
Qed.


(** *** Selection sort *)

Definition selection_inv (L : list Z) (n i : Z) (s : state) : Prop :=
  Z.of_nat (length (arr s)) = n /\ proj value s ≡ₚ L /\
  sorted_range (proj value s) 0 i /\ le_split (proj value s) i.

Lemma selection_step_ok L n i j m s :
  0 <= i -> i < j < n -> i <= m < j ->
  selection_inv L n i s ->
  ordered (fun a b => a = m /\ i <= b < j) (proj value s) ->
  wpN (selection_step None j m)
    (fun m' s' => selection_inv L n i s' /\ i <= m' < j + 1 /\
       ordered (fun a b => a = m' /\ i <= b < j + 1) (proj value s'))
    NoRet s.
Proof.
  intros Hi Hj Hm (Hn & Hperm & Hsort & Hsplit) Hmin. unfold selection_step, selection_inv.
  do 6 wp_step. apply wp_bind.
  destruct (Z.ltb_spec x x0).
  - do 5 wp_step. st_norm. split_and!; [done|done|done|done|lia|lia|]. order_solve.
  - do 4 wp_step. st_norm. split_and!; [done|done|done|done|lia|lia|]. order_solve.
Qed.

Lemma selection_pass_ok L n i s :
  0 <= i < n - 1 -> selection_inv L n i s ->
  wpN (selection_pass None n i) (fun _ s' => selection_inv L n (i + 1) s') NoRet s.
Proof.
  intros Hi (Hn & Hperm & Hsort & Hsplit). unfold selection_pass. wp_step. apply wp_bind.
  apply (wp_for_fold (fun j m s' => selection_inv L n i s' /\ i <= m < j /\
           ordered (fun a b => a = m /\ i <= b < j) (proj value s'))); [lia| | |].
  - unfold selection_inv. st_norm. split_and!; [done|done|done|done|lia|lia|]. order_solve.
  - intros j m s' Hj (Hinv' & Hm & Hmin). apply selection_step_ok; [lia|lia|lia|done|done].
  - intros m s' ((Hn' & Hperm' & Hsort' & Hsplit') & Hm & Hmin). unfold selection_inv.
    apply wp_bind. destruct (Z.eqb_spec m i) as [->|Hne]; simpl.
    + do 5 wp_step. st_norm. split_and!; [done|done| |]; order_solve.
    + do 6 wp_step. do 4 wp_step. st_norm.
      split_and!; [done|by rewrite zswap_perm| |]; order_solve.
Qed.

Lemma selectionSort_ok (l : list ArrayElement) :
  l <> [] ->
  wpN (selectionSort None)
    (fun _ s' => Sorted Z.le (vals s') /\ vals s' ≡ₚ value <$> l /\ synced s')
    NoRet (init l).
Proof.
  intros Hne. unfold selectionSort. wp_step. rewrite length_arr_init.
  assert (0 < Z.of_nat (length l)) as Hn by (destruct l; [done|simpl; lia]).
  apply wp_bind.
  apply (wp_for_loop (fun i s' => selection_inv (value <$> l) (Z.of_nat (length l)) i s')); [lia| | |].
  - unfold selection_inv. rewrite proj_init, length_arr_init. split_and!; [done|done| |]; order_solve.
  - intros i s' Hi Hinv. apply selection_pass_ok; [lia|done].
  - intros s' (Hlen & Hperm & Hsort & Hsplit).
    do 2 wp_step. split_and!; [| |apply synced_publish]; rewrite !vals_proj; st_norm; [|done].
    apply sorted_range_Sorted. st_norm. rewrite Hlen. order_solve.
Qed.


(** *** Insertion sort *)

(** The state of the shifting loop, with the hole at position [m]: the
    array with the key put back at [m] is a permutation of the values [V]
    at loop entry. *)
Definition shift_inv (V : list Z) (n i kv : Z) (key : ref) (m : Z) (s : state) : Prop :=
  Z.of_nat (length (arr s)) = n /\ value (deref (heap s) key) = kv /\
  <[Z.to_nat m := kv]> (proj value s) ≡ₚ V /\
  sorted_range (proj value s) 0 m /\
  sorted_range (proj value s) (m + 1) (i + 1) /\
  ordered (fun a b => 0 <= a < m /\ m < b <= i) (proj value s) /\
  bounded (fun a => m < a <= i) (fun x => kv < x) (proj value s).

Lemma insertion_shift_ok V n i kv key (m : nat) s :
  Z.of_nat m <= i < n ->
  shift_inv V n i kv key (Z.of_nat m) s ->
  wpN (insertion_shift None m key)
    (fun j s' => -1 <= j < i /\ shift_inv V n i kv key (j + 1) s' /\
                 bounded (fun a => a = j) (fun x => x <= kv) (proj value s'))
    NoRet s.
Proof.
  revert s. induction m as [|m IH]; intros s Hm Hinv.
  - simpl. wp_step. split; [lia|]. split; [done|]. order_solve.
  - destruct Hinv as (Hn & Hkey & Hperm & Hs1 & Hs2 & Hord & Hbnd).
    cbn [insertion_shift]. do 2 wp_step. rewrite Hkey.
    destruct (Z.gtb_spec x kv).
    + do 2 wp_step. apply wp_bind. apply wp_bind. wp_step. wp_step. do 5 wp_step.
      eapply wp_mono; [apply IH; [lia|]| |done].
      * unfold shift_inv. st_norm.
        assert (value (deref (heap s) r0) = x) as ->.
        { rewrite aget_proj, Hr0 in Hx. by simplify_eq/=. }
        replace (Z.of_nat m + 1) with (Z.of_nat (S m)) in * by lia.
        split_and!; [done|done| | | | |].
        -- rewrite <- Hperm. replace (Z.of_nat m) with (Z.of_nat (S m) - 1) at 1 by lia.
           apply insert_shift_perm; [st_norm; lia|].
           by replace (Z.of_nat (S m) - 1) with (Z.of_nat m) by lia.
        -- order_solve.
        -- order_solve.
        -- order_solve.
        -- order_solve.
      * intros j s' (Hj & Hinv' & Hb). done.
    + wp_step. split; [lia|]. split.
      * replace (Z.of_nat m + 1) with (Z.of_nat (S m)) by lia. done.
      * order_solve.
Qed.


Definition insertion_inv (L : list Z) (n i : Z) (s : state) : Prop :=
  Z.of_nat (length (arr s)) = n /\ proj value s ≡ₚ L /\ sorted_range (proj value s) 0 i.

Lemma insertion_pass_ok L n i s :
  1 <= i < n -> insertion_inv L n i s ->
  wpN (insertion_pass None i) (fun _ s' => insertion_inv L n (i + 1) s') NoRet s.
Proof.
  intros Hi (Hn & Hperm & Hsort). unfold insertion_pass.
  do 5 wp_step. apply wp_bind.
  destruct (aget_in_range (proj value s) i) as [kv Hkv]; [st_norm; lia|].
  eapply wp_mono;
    [apply (insertion_shift_ok (proj value s) n i kv r); [lia|]| |done].
  - unfold shift_inv. st_norm. rewrite Z2Nat.id by lia.
    rewrite aget_proj, Hr in Hkv. simplify_eq/=.
    split_and!; [done|done| | | | |]; [|order_solve..].
    rewrite list_insert_id; [done|].
    pose proof Hr as Hr'. unfold aget in Hr'. destruct (i <? 0); [done|].
    unfold proj, view, view_of. rewrite !list_lookup_fmap, Hr'. done.
  - intros j s2 (Hj & (Hn2 & Hkey & Hperm2 & Hs1 & Hs2 & Hord & Hbnd) & Hb).
    unfold insertion_inv. do 3 wp_step. st_norm. rewrite Hkey.
    split_and!; [done|by rewrite Hperm2|].
    destruct (decide (j = -1)) as [->|Hj'].
    + order_solve.
    + destruct (aget_in_range (proj value s2) j) as [z Hz]; [st_norm; lia|].
      order_solve.
Qed.

Lemma insertionSort_ok (l : list ArrayElement) :
  wpN (insertionSort None)
    (fun _ s' => Sorted Z.le (vals s') /\ vals s' ≡ₚ value <$> l /\ synced s')
    NoRet (init l).
Proof.
  unfold insertionSort. wp_step. rewrite length_arr_init. apply wp_bind.
  destruct (decide (length l = 0%nat)) as [Hl|Hl].
  - apply wp_for_fold_empty; [lia|]. do 2 wp_step.
    split_and!; [| |apply synced_publish]; rewrite !vals_proj; st_norm;
      rewrite proj_init; apply nil_length_inv in Hl as ->; [constructor|done].
  - apply (wp_for_loop
             (fun i s' => insertion_inv (value <$> l) (Z.of_nat (length l)) i s')); [lia| | |].
    + unfold insertion_inv. rewrite proj_init, length_arr_init.
      split_and!; [done|done|]. order_solve.
    + intros i s' Hi Hinv. apply insertion_pass_ok; [lia|done].
    + intros s' (Hlen & Hperm & Hsort). do 2 wp_step.
      split_and!; [| |apply synced_publish]; rewrite !vals_proj; st_norm; [|done].
      apply sorted_range_Sorted. st_norm. by rewrite Hlen.
Qed.


(** *** Merge sort *)

(** What identifies an element across the copies that [merge] makes: its
    value and its [isSorted] flag ([isCompared] and [isSwapped] are
    overwritten on the way). *)
Definition core (e : ArrayElement) : Z * bool := (value e, isSorted e).
Definition coreOf (s : state) (r : ref) : Z * bool := core (deref (heap s) r).
Definition valid (s : state) (r : ref) : Prop := (r < length (heap s))%nat.

(** Merging two lists, the left one first on equal keys. *)
Fixpoint stable_merge {A} (key : A -> Z) (xs : list A) : list A -> list A :=
  fix go (ys : list A) : list A :=
    match xs, ys with
    | x :: xs', y :: ys' =>
        if key x <=? key y then x :: stable_merge key xs' ys else y :: go ys'
    | [], _ => ys
    | _, [] => xs
    end.

Lemma stable_merge_nil_l {A} (key : A -> Z) ys : stable_merge key [] ys = ys.
Proof. by destruct ys. Qed.

Lemma stable_merge_nil_r {A} (key : A -> Z) xs : stable_merge key xs [] = xs.
Proof. by destruct xs. Qed.

Lemma stable_merge_cons {A} (key : A -> Z) x xs y ys :
  stable_merge key (x :: xs) (y :: ys) =
    if key x <=? key y then x :: stable_merge key xs (y :: ys)
    else y :: stable_merge key (x :: xs) ys.
Proof. done. Qed.

Lemma stable_merge_perm {A} (key : A -> Z) xs ys : stable_merge key xs ys ≡ₚ xs ++ ys.
Proof.
  revert ys. induction xs as [|x xs IHx]; intros ys; [by destruct ys|].
  induction ys as [|y ys IHy]; [by rewrite app_nil_r|].
  rewrite stable_merge_cons. destruct (key x <=? key y).
  - simpl. by rewrite IHx.
  - rewrite IHy. by rewrite (Permutation_middle (x :: xs) ys y).
Qed.

Lemma stable_merge_HdRel {A} (key : A -> Z) a xs ys :
  HdRel Z.le a (key <$> xs) -> HdRel Z.le a (key <$> ys) ->
  HdRel Z.le a (key <$> stable_merge key xs ys).
Proof.
  destruct xs as [|x xs], ys as [|y ys]; try done.
  intros Hx%HdRel_inv Hy%HdRel_inv. rewrite stable_merge_cons.
  destruct (key x <=? key y); by constructor.
Qed.

Lemma stable_merge_sorted {A} (key : A -> Z) xs ys :
  Sorted Z.le (key <$> xs) -> Sorted Z.le (key <$> ys) ->
  Sorted Z.le (key <$> stable_merge key xs ys).
Proof.
  revert ys. induction xs as [|x xs IHx]; intros ys Hx Hy; [by destruct ys|].
  induction ys as [|y ys IHy]; [done|].
  rewrite stable_merge_cons. destruct (Z.leb_spec (key x) (key y)).
  - rewrite fmap_cons. apply Sorted_inv in Hx as [Hx Hhd].
    constructor; [by apply IHx|]. apply stable_merge_HdRel; [done|by constructor].
  - rewrite fmap_cons. apply Sorted_inv in Hy as [Hy Hhd].
    constructor; [by apply IHy|]. apply stable_merge_HdRel; [|done].
    constructor. lia.
Qed.

Definition same_cores (s s' : state) : Prop :=
  arr s' = arr s /\ length (heap s') = length (heap s) /\
  forall r, coreOf s' r = coreOf s r.

Definition heap_ext (s s' : state) : Prop :=
  (length (heap s) <= length (heap s'))%nat /\
  forall r, valid s r -> coreOf s' r = coreOf s r.

Lemma same_cores_refl s : same_cores s s.
Proof. done. Qed.

Lemma same_cores_trans s1 s2 s3 : same_cores s1 s2 -> same_cores s2 s3 -> same_cores s1 s3.
Proof.
  intros (Ha & Hl & Hc) (Ha' & Hl' & Hc'). split_and!; [congruence|congruence|].
  intros r. by rewrite Hc', Hc.
Qed.

Lemma same_cores_alter g r s :
  (forall e, core (g e) = core e) -> same_cores s (st_alter g r s).
Proof.
  intros Hg. split_and!; [done|apply length_alter|].
  intros r'. unfold coreOf; simpl. by apply deref_alter_stable.
Qed.

Lemma same_cores_publish s : same_cores s (st_publish s).
Proof. done. Qed.
Lemma same_cores_sleep s : same_cores s (st_sleep s).
Proof. done. Qed.

Lemma same_cores_proj s s' : same_cores s s' -> proj core s' = proj core s.
Proof.
  intros (Ha & _ & Hc). unfold proj, view, view_of. rewrite Ha, <- !list_fmap_compose.
  apply list_fmap_ext. intros i r _. apply Hc.
Qed.

Lemma same_cores_heap_ext s s' : same_cores s s' -> heap_ext s s'.
Proof. intros (_ & Hl & Hc). split; [lia|]. intros r _. apply Hc. Qed.

Lemma heap_ext_refl s : heap_ext s s.
Proof. done. Qed.

Lemma heap_ext_trans s1 s2 s3 : heap_ext s1 s2 -> heap_ext s2 s3 -> heap_ext s1 s3.
Proof.
  intros [Hl Hc] [Hl' Hc']. split; [lia|]. intros r Hr.
  rewrite Hc', Hc; [done|done|]. unfold valid in *. lia.
Qed.

Lemma heap_ext_valid s s' rs : heap_ext s s' -> Forall (valid s) rs -> Forall (valid s') rs.
Proof.
  intros [Hl _] Hv. eapply Forall_impl; [exact Hv|]. unfold valid. intros r Hr. lia.
Qed.

Lemma heap_ext_cores s s' rs :
  heap_ext s s' -> Forall (valid s) rs -> coreOf s' <$> rs = coreOf s <$> rs.
Proof.
  intros [_ Hc] Hv. apply Forall_fmap_ext_1. eapply Forall_impl; [exact Hv|].
  intros r Hr. by apply Hc.
Qed.

Lemma same_cores_wf s s' : same_cores s s' -> wf s -> wf s'.
Proof. intros (Ha & Hl & _). unfold wf. by rewrite Ha, Hl. Qed.

(** The part of the array from [left] to [k - 1] has been written with
    [out]; [A] lies before [left] and [D] after [right]. *)
Definition filled (A D out : list (Z * bool)) (n right k : Z) (s : state) : Prop :=
  wf s /\ Z.of_nat (length (arr s)) = n /\ 0 <= k <= right + 1 /\ right < n /\
  take (Z.to_nat k) (proj core s) = A ++ out /\
  drop (Z.to_nat (right + 1)) (proj core s) = D.

Lemma filled_same_cores A D out n right k s s' :
  same_cores s s' -> filled A D out n right k s -> filled A D out n right k s'.
Proof.
  intros Hs (Hwf & Hn & Hk & Hr & Ht & Hd). pose proof Hs as (Ha & _).
  unfold filled. rewrite (same_cores_proj _ _ Hs), Ha.
  split_and!; try done; try lia. by eapply same_cores_wf.
Qed.

(** [arr[k] = { ...x, isSwapped: true }] *)
Definition st_put (k : Z) (x : ref) (s : state) : state :=
  st_store (Z.to_nat k) (length (heap s)) (st_alloc (withSwapped true (deref (heap s) x)) s).

Lemma st_put_heap_ext k x s : heap_ext s (st_put k x s).
Proof.
  split; simpl; [rewrite length_app; lia|].
  intros r Hr. unfold coreOf; simpl. by rewrite deref_app_l.
Qed.

Lemma filled_put A D out n right k x s :
  k <= right -> filled A D out n right k s ->
  filled A D (out ++ [coreOf s x]) n right (k + 1) (st_put k x s).
Proof.
  intros Hk (Hwf & Hn & Hk' & Hr & Ht & Hd). unfold filled, st_put.
  rewrite proj_store, proj_alloc by done. st_cbn.
  assert (deref (heap s ++ [withSwapped true (deref (heap s) x)]) (length (heap s))
          = withSwapped true (deref (heap s) x)) as ->.
  { unfold deref. rewrite list_lookup_total_middle; done. }
  split_and!.
  - unfold wf in *; simpl. rewrite length_app; simpl.
    apply Forall_insert; [|lia]. eapply Forall_impl; [exact Hwf|]. simpl; intros; lia.
  - by rewrite length_insert.
  - lia.
  - lia.
  - done.
  - replace (Z.to_nat (k + 1)) with (S (Z.to_nat k)) by lia.
    erewrite take_S_r; [|apply list_lookup_insert_eq; rewrite length_proj; lia].
    rewrite take_insert_ge by lia. rewrite Ht, <- app_assoc. done.
  - rewrite drop_insert_lt by lia. done.
Qed.


Lemma length_arr_put k x s : length (arr (st_put k x s)) = length (arr s).
Proof. simpl. apply length_insert. Qed.
#[local] Hint Rewrite length_arr_put : st.

Lemma wp_put {R} k x (Q : unit -> state -> Prop) (QR : R -> state -> Prop) s :
  0 <= k < Z.of_nat (length (arr s)) ->
  Q tt (st_put k x s) ->
  wp (o <- spreadSwapped x ;; store k o) Q QR s.
Proof.
  intros Hk HQ. apply wp_bind, wp_spreadSwapped, wp_store; [by simpl|done].
Qed.

Ltac same_cores_tac :=
  lazymatch goal with
  | |- same_cores ?s ?s => apply same_cores_refl
  | |- same_cores ?s (st_alter _ _ ?s') =>
      apply (same_cores_trans s s');
        [same_cores_tac | apply same_cores_alter; intros []; reflexivity]
  | |- same_cores ?s (st_publish ?s') =>
      apply (same_cores_trans s s'); [same_cores_tac | apply same_cores_publish]
  | |- same_cores ?s (st_sleep ?s') =>
      apply (same_cores_trans s s'); [same_cores_tac | apply same_cores_sleep]
  end.

Lemma put_chain A D out n right k x s s1 s4 :
  same_cores s s1 -> same_cores (st_put k x s1) s4 ->
  filled A D out n right k s -> k <= right -> valid s x ->
  filled A D (out ++ [coreOf s x]) n right (k + 1) s4 /\ heap_ext s s4.
Proof.
  intros H1 H4 Hf Hk Hx. split.
  - eapply filled_same_cores; [exact H4|].
    pose proof H1 as (_ & _ & Hc). rewrite <- (Hc x).
    apply filled_put; [done|]. eapply filled_same_cores; [|exact Hf]. done.
  - eapply heap_ext_trans; [apply same_cores_heap_ext, H1|].
    eapply heap_ext_trans; [apply st_put_heap_ext|]. by apply same_cores_heap_ext.
Qed.

Lemma merge_both_cons l ls r rs k :
  merge_both None (l :: ls) (r :: rs) k =
    (check None tt ;;
     arrSetCompared k true ;;
     updateArray ;;
     sleep ;;
     a <- valueOf l ;;
     b <- valueOf r ;;
     if a <=? b then
       (o <- spreadSwapped l ;; store k o) ;;
       updateArray ;;
       sleep ;;
       arrSetCompared k false ;;
       arrSetSwapped k false ;;
       merge_both None ls (r :: rs) (k + 1)
     else
       (o <- spreadSwapped r ;; store k o) ;;
       updateArray ;;
       sleep ;;
       arrSetCompared k false ;;
       arrSetSwapped k false ;;
       merge_both None (l :: ls) rs (k + 1))%M.
Proof. done. Qed.

Definition merge_post (A D : list (Z * bool)) (n right : Z) (s : state)
    (ls rs : list ref) (out : list (Z * bool)) (ls' rs' : list ref) (k' : Z) (s' : state) : Prop :=
  heap_ext s s' /\ Forall (valid s') ls' /\ Forall (valid s') rs' /\
  k' + Z.of_nat (length ls') + Z.of_nat (length rs') = right + 1 /\
  exists out', filled A D out' n right k' s' /\
    out' ++ stable_merge fst (coreOf s' <$> ls') (coreOf s' <$> rs')
    = out ++ stable_merge fst (coreOf s <$> ls) (coreOf s <$> rs).

Lemma merge_post_step A D n right s s4 ls rs ls0 rs0 out c ls' rs' k' s' :
  heap_ext s s4 -> Forall (valid s) ls0 -> Forall (valid s) rs0 ->
  Forall (valid s) ls -> Forall (valid s) rs ->
  out ++ stable_merge fst (coreOf s <$> ls0) (coreOf s <$> rs0)
  = (out ++ [c]) ++ stable_merge fst (coreOf s <$> ls) (coreOf s <$> rs) ->
  merge_post A D n right s4 ls rs (out ++ [c]) ls' rs' k' s' ->
  merge_post A D n right s ls0 rs0 out ls' rs' k' s'.
Proof.
  intros Hext Hl0 Hr0 Hl Hr Heq (Hext' & Hvl & Hvr & Hk & out' & Hf & Hout).
  refine (conj _ (conj Hvl (conj Hvr (conj Hk (ex_intro _ out' (conj Hf _)))))).
  - by eapply heap_ext_trans.
  - rewrite Hout, Heq. by rewrite !(heap_ext_cores s s4).
Qed.

Lemma merge_both_ok A D n right ls : forall rs out k s,
  filled A D out n right k s ->
  Forall (valid s) ls -> Forall (valid s) rs ->
  k + Z.of_nat (length ls) + Z.of_nat (length rs) = right + 1 ->
  wpN (merge_both None ls rs k)
    (fun lrk s' => let '(ls', rs', k') := lrk in
       (ls' = [] \/ rs' = []) /\ merge_post A D n right s ls rs out ls' rs' k' s')
    NoRet s.
Proof.
  induction ls as [|l ls IHl]; intros rs; induction rs as [|r rs IHr];
    intros out k s Hf Hvl Hvr Hk.
  - apply wp_ret. split; [by left|]. split_and!; try done. by exists out.
  - apply wp_ret. split; [by left|]. split_and!; try done. by exists out.
  - apply wp_ret. split; [by right|]. split_and!; try done. by exists out.
  - rewrite merge_both_cons. pose proof Hf as (Hwf & Hn & Hk' & Hr & _).
    simpl in Hk. apply Forall_cons in Hvl as [Hl Hvl]. apply Forall_cons in Hvr as [Hr' Hvr].
    do 6 wp_step.
    set (s1 := st_sleep (st_publish (st_alter (withCompared true) r0 s))).
    assert (same_cores s s1) as Hs1 by (subst s1; same_cores_tac).
    change (value (deref (heap s1) l)) with (fst (coreOf s1 l)).
    change (value (deref (heap s1) r)) with (fst (coreOf s1 r)).
    pose proof Hs1 as (Ha1 & Hl1 & Hc1). rewrite !Hc1.
    assert (Z.of_nat (length (arr s1)) = n) as Hn1 by (by rewrite Ha1).
    destruct (fst (coreOf s l) <=? fst (coreOf s r)) eqn:Hcmp.
    + apply wp_bind, wp_put; [lia|]. do 4 wp_step.
      match goal with |- wp _ _ _ ?s4 =>
        destruct (put_chain A D out n right k l s s1 s4) as [Hf4 Hext];
          [done|same_cores_tac|done|lia|done|] end.
      eapply wp_mono; [apply (IHl (r :: rs) (out ++ [coreOf s l])); [done|..]| |done].
      * by eapply heap_ext_valid.
      * eapply heap_ext_valid; [done|]. by constructor.
      * simpl. lia.
      * intros [[ls' rs'] k'] s' [Hor Hpost]. split; [done|].
        apply (merge_post_step A D n right s _ ls (r :: rs) (l :: ls) (r :: rs) out
                 (coreOf s l) ls' rs' k' s' Hext); [first [done | by constructor]..| |done].
        rewrite !fmap_cons, stable_merge_cons, Hcmp. by rewrite <- app_assoc.
    + apply wp_bind, wp_put; [lia|]. do 4 wp_step.
      match goal with |- wp _ _ _ ?s4 =>
        destruct (put_chain A D out n right k r s s1 s4) as [Hf4 Hext];
          [done|same_cores_tac|done|lia|done|] end.
      eapply wp_mono; [apply (IHr (out ++ [coreOf s r])); [done|..]| |done].
      * eapply heap_ext_valid; [done|]. by constructor.
      * by eapply heap_ext_valid.
      * simpl. lia.
      * intros [[ls' rs'] k'] s' [Hor Hpost]. split; [done|].
        apply (merge_post_step A D n right s _ (l :: ls) rs (l :: ls) (r :: rs) out
                 (coreOf s r) ls' rs' k' s' Hext); [first [done | by constructor]..| |done].
        rewrite !fmap_cons, stable_merge_cons, Hcmp. by rewrite <- app_assoc.
Qed.


Lemma merge_rest_ok A D n right xs : forall out k s,
  filled A D out n right k s -> Forall (valid s) xs ->
  k + Z.of_nat (length xs) <= right + 1 ->
  wpN (merge_rest None xs k)
    (fun k' s' => k' = k + Z.of_nat (length xs) /\ heap_ext s s' /\
       filled A D (out ++ (coreOf s <$> xs)) n right k' s')
    NoRet s.
Proof.
  induction xs as [|x xs IH]; intros out k s Hf Hv Hk.
  - apply wp_ret. simpl. rewrite app_nil_r. split_and!; [lia|done|done].
  - cbn [merge_rest]. pose proof Hf as (Hwf & Hn & Hk' & Hr & _).
    simpl in Hk. apply Forall_cons in Hv as [Hx Hv].
    wp_step. apply wp_bind, wp_put; [lia|]. do 3 wp_step.
    match goal with |- wp _ _ _ ?s4 =>
      destruct (put_chain A D out n right k x s s s4) as [Hf4 Hext];
        [done|same_cores_tac|done|lia|done|] end.
    eapply wp_mono; [apply (IH (out ++ [coreOf s x])); [done|by eapply heap_ext_valid|lia]| |done].
    intros k' s' (-> & Hext' & Hf'). split_and!; [simpl; lia|by eapply heap_ext_trans|].
    rewrite (heap_ext_cores _ _ _ Hext Hv), <- app_assoc in Hf'. done.
Qed.

Lemma slice_take_drop {A} (l : list A) a b :
  0 <= a <= b -> b <= Z.of_nat (length l) ->
  slice l a b = take (Z.to_nat (b - a)) (drop (Z.to_nat a) l).
Proof.
  intros Ha Hb. unfold slice, slice_bound.
  destruct (Z.ltb_spec a 0); [lia|]. destruct (Z.ltb_spec b 0); [lia|].
  by rewrite !Z.min_l by lia.
Qed.

Lemma deref_markAll rs h r' :
  core (deref (foldl (fun h r => alter (withSorted true) r h) h rs) r') =
    if decide (r' ∈ rs /\ (r' < length h)%nat)
    then ((core (deref h r')).1, true) else core (deref h r').
Proof.
  revert h. induction rs as [|r rs IH]; intros h; cbn [foldl].
  - case_decide as H; [|done]. destruct H as [H _]. by apply elem_of_nil in H.
  - rewrite IH, length_alter, deref_alter.
    repeat case_decide; simplify_eq; try done;
      exfalso; rewrite ?elem_of_cons in *; intuition (subst; lia || eauto).
Qed.

Definition mark_if (b : bool) (c : Z * bool) : Z * bool := if b then (c.1, true) else c.

Lemma proj_core_markAll s :
  wf s -> proj core (st_markAll s) = mark_if true <$> proj core s.
Proof.
  intros Hwf. unfold proj, view, view_of; simpl. rewrite <- !list_fmap_compose.
  apply Forall_fmap_ext_1. apply Forall_forall. intros r Hr. simpl.
  rewrite deref_markAll. rewrite decide_True; [done|].
  split; [done|]. by eapply Forall_forall in Hwf.
Qed.

Lemma wf_markAll s : wf s -> wf (st_markAll s).
Proof.
  unfold wf; simpl. intros H. eapply Forall_impl; [exact H|]. simpl. intros r Hr.
  assert (forall rs h, length (foldl (fun h r => alter (withSorted true) r h) h rs) = length h)
    as ->; [|done].
  induction rs as [|? ? IH]; intros h; simpl; [done|]. by rewrite IH, length_alter.
Qed.

Lemma proj_value_core s : proj value s = fst <$> proj core s.
Proof. unfold proj. by rewrite <- list_fmap_compose. Qed.

Lemma proj_core_arr s : proj core s = coreOf s <$> arr s.
Proof. unfold proj, view, view_of. by rewrite <- list_fmap_compose. Qed.

(** [merge]: the two runs [Lc] and [Rc] of the array are replaced by their
    stable merge, and the call that covers the whole array marks every
    element sorted. *)
Lemma merge_ok A Lc Rc D left mid right s :
  wf s -> 0 <= left <= mid -> mid < right ->
  proj core s = A ++ Lc ++ Rc ++ D ->
  Z.of_nat (length A) = left -> Z.of_nat (length Lc) = mid - left + 1 ->
  Z.of_nat (length Rc) = right - mid ->
  wpN (merge_ None left mid right)
    (fun _ s' => wf s' /\ length (arr s') = length (arr s) /\
       proj core s' =
         mark_if ((left =? 0) && (right =? Z.of_nat (length (arr s)) - 1))
           <$> (A ++ stable_merge fst Lc Rc ++ D) /\
       ((left =? 0) && (right =? Z.of_nat (length (arr s)) - 1) = true -> synced s'))
    NoRet s.
Proof.
  intros Hwf Hl Hm Hc HA HL HR. unfold merge_.
  assert (Z.of_nat (length (arr s)) = right + 1 + Z.of_nat (length D)) as Hn.
  { rewrite <- (length_proj core), Hc, !length_app. lia. }
  do 3 wp_step.
  rewrite !slice_take_drop by lia.
  set (ls := take _ (drop _ (arr s))). set (rs := take _ (drop _ (arr s))).
  assert (coreOf s <$> ls = Lc) as HLc.
  { subst ls. rewrite fmap_take, fmap_drop, <- proj_core_arr, Hc.
    rewrite drop_app_length' by lia. apply take_app_length'. lia. }
  assert (coreOf s <$> rs = Rc) as HRc.
  { subst rs. rewrite fmap_take, fmap_drop, <- proj_core_arr, Hc.
    rewrite (app_assoc A Lc), drop_app_length' by (rewrite length_app; lia).
    apply take_app_length'. lia. }
  assert (Forall (valid s) ls /\ Forall (valid s) rs) as [Hvl Hvr].
  { split; apply Forall_take, Forall_drop, Hwf. }
  assert (length ls = length Lc /\ length rs = length Rc) as [Hll Hlr].
  { rewrite <- HLc, <- HRc, !length_fmap. done. }
  clearbody ls rs.
  assert (filled A D [] (Z.of_nat (length (arr s))) right left s) as Hf.
  { split_and!; [done|done|lia|lia|lia| |].
    - rewrite Hc, app_nil_r. apply take_app_length'. lia.
    - rewrite Hc, !app_assoc. apply drop_app_length'. rewrite !length_app. lia. }
  apply wp_bind.
  eapply wp_mono; [apply (merge_both_ok A D _ right ls rs [] left s Hf); [done|done|lia]| |done].
  intros [[ls' rs'] k'] s1 (Hor & Hext1 & Hvl1 & Hvr1 & Hk1 & out1 & Hf1 & Hout1). simpl in Hout1.
  apply wp_bind.
  eapply wp_mono; [apply (merge_rest_ok A D _ right ls' out1 k' s1 Hf1); [done|lia]| |done].
  intros k2 s2 (-> & Hext2 & Hf2). simpl.
  apply wp_bind.
  eapply wp_mono; [apply (merge_rest_ok A D _ right rs' _ _ s2 Hf2);
                    [by eapply heap_ext_valid|lia]| |done].
  intros k3 s3 (-> & Hext3 & Hf3). simpl.
  rewrite (heap_ext_cores _ _ _ Hext2 Hvr1) in Hf3.
  assert (out1 ++ (coreOf s1 <$> ls') ++ (coreOf s1 <$> rs') = stable_merge fst Lc Rc) as Hout.
  { rewrite <- HLc, <- HRc, <- Hout1. f_equal.
    destruct Hor as [-> | ->]; rewrite ?fmap_nil.
    - by rewrite stable_merge_nil_l.
    - by rewrite stable_merge_nil_r, app_nil_r. }
  rewrite <- app_assoc, Hout in Hf3.
  destruct Hf3 as (Hwf3 & Hn3 & _ & _ & Ht3 & Hd3).
  replace (k' + Z.of_nat (length ls') + Z.of_nat (length rs')) with (right + 1) in Ht3 by lia.
  assert (proj core s3 = A ++ stable_merge fst Lc Rc ++ D) as Hc3.
  { rewrite <- (take_drop (Z.to_nat (right + 1)) (proj core s3)), Ht3, Hd3.
    by rewrite <- app_assoc. }
  wp_step. apply Nat2Z.inj in Hn3. rewrite Hn3.
  destruct ((left =? 0) && (right =? Z.of_nat (length (arr s)) - 1)).
  - do 2 wp_step. split_and!; [by apply wf_markAll|done| |intros _; apply synced_publish].
    change (proj core (st_markAll s3) = mark_if true <$> (A ++ stable_merge fst Lc Rc ++ D)).
    by rewrite proj_core_markAll, Hc3.
  - wp_step. split_and!; [done|done| |done]. rewrite Hc3. symmetry. apply list_fmap_id.
Qed.


Lemma split_at {X} (l : list X) (a : nat) :
  (a <= length l)%nat -> exists l1 l2, l = l1 ++ l2 /\ length l1 = a.
Proof.
  intros Ha. exists (take a l), (drop a l). split; [by rewrite take_drop|].
  rewrite length_take. lia.
Qed.

Lemma Sorted_short (l : list Z) : (length l <= 1)%nat -> Sorted Z.le l.
Proof.
  destruct l as [|x [|y l]]; simpl; intros; [constructor|repeat constructor|lia].
Qed.

Lemma fst_mark_if b (l : list (Z * bool)) : fst <$> (mark_if b <$> l) = fst <$> l.
Proof. rewrite <- list_fmap_compose. apply list_fmap_ext. intros i [] _. by destruct b. Qed.

Lemma mark_if_false (l : list (Z * bool)) : mark_if false <$> l = l.
Proof. apply list_fmap_id. Qed.

(** The recursion of [mergeSort] on the part [B] of the array between
    [left] and [right]: the elements of [B] are rearranged in order of
    their values, and only the call on the whole array marks them. *)
Lemma mergeSort_rec_ok fuel : forall left right s (A B D : list (Z * bool)),
  wf s -> 0 <= left -> right - left <= Z.of_nat fuel ->
  proj core s = A ++ B ++ D ->
  Z.of_nat (length A) = left -> Z.of_nat (length B) = right - left + 1 ->
  wpN (mergeSort_ None fuel left right)
    (fun _ s' => wf s' /\ length (arr s') = length (arr s) /\
       (left < right -> left = 0 -> right = Z.of_nat (length (arr s)) - 1 -> synced s') /\
       exists B',
         proj core s' =
           mark_if ((left <? right) && (left =? 0) && (right =? Z.of_nat (length (arr s)) - 1))
             <$> (A ++ B' ++ D) /\
         Sorted Z.le (fst <$> B') /\ B' ≡ₚ B)
    NoRet s.
Proof.
  induction fuel as [|fuel IH]; intros left right s A B D Hwf Hl Hfuel Hv HA HB.
  - cbn [mergeSort_]. destruct (Z.ltb_spec left right); [lia|]. apply wp_ret.
    split_and!; [done|done|lia|]. exists B. cbn [andb]. rewrite mark_if_false.
    split_and!; [done| |done]. apply Sorted_short. rewrite length_fmap. lia.
  - cbn [mergeSort_]. destruct (Z.ltb_spec left right) as [Hlt|Hge]; cycle 1.
    { apply wp_ret. split_and!; [done|done|lia|]. exists B. cbn [andb]. rewrite mark_if_false.
      split_and!; [done| |done]. apply Sorted_short. rewrite length_fmap. lia. }
    set (mid := (left + right) / 2).
    assert (left <= mid < right) as Hmid.
    { subst mid. split; [apply Z.div_le_lower_bound; lia|apply Z.div_lt_upper_bound; lia]. }
    clearbody mid.
    assert (Z.of_nat (length (arr s)) = right + 1 + Z.of_nat (length D)) as Hn.
    { rewrite <- (length_proj core), Hv, !length_app. lia. }
    destruct (split_at B (Z.to_nat (mid - left + 1))) as (B1 & B2 & -> & HB1); [lia|].
    rewrite length_app in HB.
    apply wp_bind, wp_call.
    eapply wp_mono; [apply (IH left mid s A B1 (B2 ++ D)); [done|lia|lia| |lia|lia]| |done].
    { by rewrite <- app_assoc in Hv. }
    intros _ s1 (Hwf1 & Hlen1 & _ & B1' & Hv1 & Hs1 & Hp1).
    replace (mid =? Z.of_nat (length (arr s)) - 1) with false in Hv1 by lia.
    rewrite !andb_false_r, mark_if_false in Hv1.
    assert (length B1' = length B1) as HB1' by (by rewrite Hp1).
    apply wp_bind, wp_call.
    eapply wp_mono;
      [apply (IH (mid + 1) right s1 (A ++ B1') B2 D); [done|lia|lia| | |lia]| |done].
    { by rewrite <- app_assoc. }
    { rewrite length_app. lia. }
    intros _ s2 (Hwf2 & Hlen2 & _ & B2' & Hv2 & Hs2 & Hp2).
    replace (mid + 1 =? 0) with false in Hv2 by lia.
    rewrite !andb_false_r, mark_if_false, <- app_assoc in Hv2.
    assert (length B2' = length B2) as HB2' by (by rewrite Hp2).
    apply wp_call.
    eapply wp_mono;
      [apply (merge_ok A B1' B2' D left mid right s2); [done|lia|lia|done|lia..]| |done].
    intros _ s3 (Hwf3 & Hlen3 & Hc3 & Hsync). rewrite Hlen2, Hlen1 in Hc3, Hsync.
    split_and!; [done|congruence| |].
    { intros _ -> ->. apply Hsync. rewrite Z.eqb_refl. simpl. apply Z.eqb_refl. }
    exists (stable_merge fst B1' B2'). split_and!.
    + done.
    + by apply stable_merge_sorted.
    + rewrite stable_merge_perm. by rewrite Hp1, Hp2.
Qed.

Lemma mergeSort_ok (l : list ArrayElement) :
  wpN (mergeSort None)
    (fun _ s' => Sorted Z.le (vals s') /\ vals s' ≡ₚ value <$> l /\
                 (synced s' \/ (length l <= 1)%nat /\ s' = init l))
    NoRet (init l).
Proof.
  unfold mergeSort. wp_step. rewrite length_arr_init.
  destruct (decide (length l <= 1)%nat) as [Hshort|Hlong].
  { assert (mergeSort_ None (Z.to_nat (Z.of_nat (length l))) 0 (Z.of_nat (length l) - 1)
            = ret tt) as ->.
    { destruct (Z.to_nat _); cbn [mergeSort_];
        by destruct (Z.ltb_spec 0 (Z.of_nat (length l) - 1)); try lia. }
    apply wp_ret. rewrite !vals_proj, proj_init.
    split_and!; [apply Sorted_short; by rewrite length_fmap|done|by right]. }
  eapply wp_mono;
    [apply (mergeSort_rec_ok _ 0 _ (init l) [] (core <$> l) []);
       [apply wf_init|lia|lia| |done|]| |done].
  - by rewrite proj_init, app_nil_r.
  - rewrite length_fmap. lia.
  - intros _ s' (_ & _ & Hsync & B' & Hv & Hs & Hp).
    rewrite !vals_proj, proj_value_core, Hv, fst_mark_if, app_nil_r. cbn [app].
    split_and!; [done| |].
    + rewrite Hp, <- list_fmap_compose. done.
    + left. apply Hsync; [lia|done|]. by rewrite length_arr_init.
Qed.

(** *** Quick sort *)

(** The [isSorted] flags of the element objects, by address. *)
Definition sortedFlags (s : state) : list bool := isSorted <$> heap s.

Lemma sortedFlags_alter g r s :
  (forall e, isSorted (g e) = isSorted e) -> sortedFlags (st_alter g r s) = sortedFlags s.
Proof.
  intros Hg. unfold sortedFlags; simpl. apply list_eq. intros i.
  rewrite !list_lookup_fmap. destruct (decide (i = r)) as [->|].
  - rewrite list_lookup_alter_eq. destruct (_ !! _); simpl; [|done]. by rewrite Hg.
  - rewrite list_lookup_alter_ne; [done|congruence].
Qed.
Lemma sortedFlags_store k r s : sortedFlags (st_store k r s) = sortedFlags s.
Proof. done. Qed.
Lemma sortedFlags_publish s : sortedFlags (st_publish s) = sortedFlags s.
Proof. done. Qed.
Lemma sortedFlags_sleep s : sortedFlags (st_sleep s) = sortedFlags s.
Proof. done. Qed.
#[local] Hint Rewrite sortedFlags_alter using (intros []; reflexivity) : st.
#[local] Hint Rewrite sortedFlags_store sortedFlags_publish sortedFlags_sleep : st.

Lemma wf_alter g r s : wf s -> wf (st_alter g r s).
Proof. unfold wf; simpl. by rewrite length_alter. Qed.
Lemma wf_publish s : wf s -> wf (st_publish s).
Proof. done. Qed.
Lemma wf_sleep s : wf s -> wf (st_sleep s).
Proof. done. Qed.
Lemma wf_aget s k r : wf s -> aget (arr s) k = Some r -> (r < length (heap s))%nat.
Proof.
  intros Hwf Hr. unfold aget in Hr. destruct (k <? 0); [done|].
  eapply Forall_lookup_1 in Hwf; [|exact Hr]. done.
Qed.
Lemma wf_swap i j ri rj s :
  wf s -> aget (arr s) i = Some ri -> aget (arr s) j = Some rj ->
  wf (st_store (Z.to_nat j) ri (st_store (Z.to_nat i) rj s)).
Proof.
  intros Hwf Hi Hj. pose proof (wf_aget _ _ _ Hwf Hi). pose proof (wf_aget _ _ _ Hwf Hj).
  unfold wf in *; simpl. by repeat apply Forall_insert.
Qed.

Ltac wf_tac :=
  repeat first
    [ assumption | apply wf_alter | apply wf_publish | apply wf_sleep
    | eapply wf_swap; [ | eassumption | eassumption ] ].

(** Where an element object is marked swapped, the rendered array shows it. *)
Lemma aget_view_swapped s r k :
  wf s -> aget (arr s) k = Some r ->
  isSwapped <$> aget (view (st_alter (withSwapped true) r s)) k = Some true.
Proof.
  intros Hwf Hr. pose proof (wf_aget _ _ _ Hwf Hr).
  unfold view, view_of; simpl. rewrite aget_fmap, Hr; simpl.
  rewrite deref_alter, decide_True by done. by rewrite decide_True.
Qed.

Lemma aget_view_swapped_keep s r r' k :
  aget (arr s) k = Some r' ->
  isSwapped <$> aget (view s) k = Some true ->
  isSwapped <$> aget (view (st_alter (withSwapped true) r s)) k = Some true.
Proof.
  intros Hr. unfold view, view_of; simpl. rewrite !aget_fmap, Hr; simpl.
  rewrite deref_alter. intros [= Hs]. repeat case_decide; subst; simpl; by f_equal.
Qed.

(** [frame P V l]: at the positions satisfying [P] the list [l] still holds
    what [V] holds. *)
Definition frame (P : Z -> Prop) (V l : list Z) : Prop :=
  forall a, P a -> aget l a = aget V a.

Ltac frame_solve :=
  once (clear_refs;
        lazymatch goal with
        | H : frame _ _ _ |- frame _ _ _ =>
            intros ?a ?HP; cbn in HP;
            rewrite ?aget_zswap by (autorewrite with st; lia);
            repeat case_decide; try lia; apply H; cbn; lia
        | |- frame _ ?V ?V => intros ?a ?HP; reflexivity
        end).

Definition partition_inv (V : list Z) (F : list bool) (n low high pv : Z) (pivot : ref)
    (j i : Z) (s : state) : Prop :=
  wf s /\ sortedFlags s = F /\
  Z.of_nat (length (arr s)) = n /\ value (deref (heap s) pivot) = pv /\
  low - 1 <= i < j /\
  proj value s ≡ₚ V /\
  frame (fun a => a < low \/ high <= a) V (proj value s) /\
  bounded (fun a => low <= a <= i) (fun x => x < pv) (proj value s) /\
  bounded (fun a => i < a < j) (fun x => pv <= x) (proj value s).

Lemma partition_step_ok V F n low high pv pivot j i s :
  0 <= low -> low <= j < high -> high < n ->
  partition_inv V F n low high pv pivot j i s ->
  wp (partition_step None pivot low j i)
    (fun i' s' => partition_inv V F n low high pv pivot (j + 1) i' s')
    (fun _ _ => False) s.
Proof.
  intros Hlow Hj Hhigh (Hwf & HF & Hn & Hpv & Hi & Hperm & Hfr & Hlt & Hge).
  unfold partition_step, partition_inv.
  do 6 wp_step. st_norm. rewrite Hpv. apply wp_bind.
  destruct (Z.ltb_spec x pv).
  - do 8 wp_step. do 2 wp_step. split; [wf_tac|]. st_norm.
    split_and!; [done|done|done|lia|lia|by rewrite zswap_perm|frame_solve| |]; order_solve.
  - do 3 wp_step. split; [wf_tac|]. st_norm.
    split_and!; [done|done|done|lia|lia|done|done| |]; order_solve.
Qed.

(** [partition]: the pivot value [pv], read at [high], ends at the
    returned index [p]; the values before [p] in the range are smaller,
    the values after it are not, and nothing outside the range moves. *)
Definition partition_post (V : list Z) (low high pv p : Z) (l : list Z) : Prop :=
  low <= p <= high /\ l ≡ₚ V /\
  frame (fun a => a < low \/ high < a) V l /\
  aget l p = Some pv /\
  bounded (fun a => low <= a < p) (fun x => x < pv) l /\
  bounded (fun a => p < a <= high) (fun x => pv <= x) l.

(** The last two [updateArray] calls of [partition]: the array after the
    final swap with both exchanged positions highlighted, then the same
    array with the highlight removed. *)
Definition swap_published (p high : Z) (s' : state) : Prop :=
  exists t snap rest,
    published s' = (S t, view s') :: (t, snap) :: rest /\
    value <$> snap = proj value s' /\
    isSwapped <$> aget snap p = Some true /\
    isSwapped <$> aget snap high = Some true.

Lemma partition_ok n low high pv s :
  wf s ->
  0 <= low < high -> high < n -> Z.of_nat (length (arr s)) = n ->
  aget (proj value s) high = Some pv ->
  wp (partition None low high)
    (fun p s' => wf s' /\ sortedFlags s' = sortedFlags s /\
                 swap_published p high s' /\
                 length (arr s') = length (arr s) /\
                 partition_post (proj value s) low high pv p (proj value s'))
    (fun _ _ => False) s.
Proof.
  intros Hwf Hlow Hhigh Hn Hpv. unfold partition.
  do 5 wp_step. apply wp_bind.
  rewrite aget_proj, Hr in Hpv. simplify_eq/=.
  apply (wp_for_fold
           (fun j i s' => partition_inv (proj value s) (sortedFlags s)
                            (Z.of_nat (length (arr s))) low high
                            (value (deref (heap s) r)) r j i s')); [lia| | |].
  - unfold partition_inv. split; [wf_tac|]. st_norm.
    split_and!; [done|done|done|lia|lia|done|frame_solve| |]; order_solve.
  - intros j i s' Hj Hinv. apply partition_step_ok; [lia|lia|lia|done].
  - intros i s' (Hwf' & HF' & Hn' & Hpv' & Hi & Hperm & Hfr & Hlt & Hge).
    do 3 wp_step.
    match goal with |- wp _ _ _ ?X => set (s2 := X) end.
    assert (wf s2) as Hwf2 by (subst s2; wf_tac).
    assert (isSwapped <$> aget (view s2) (i + 1) = Some true
            /\ isSwapped <$> aget (view s2) high = Some true) as [Hsw1 Hsw2].
    { subst s2. split.
      - eapply aget_view_swapped_keep; [exact Hr0|].
        apply aget_view_swapped; [wf_tac|exact Hr0].
      - apply aget_view_swapped; [wf_tac|exact Hr1]. }
    assert (proj value s2 = zswap (proj value s') (i + 1) high) as Hv2
      by (subst s2; by st_norm).
    assert (sortedFlags s2 = sortedFlags s /\
            Z.of_nat (length (arr s2)) = Z.of_nat (length (arr s))) as (HF2 & Ha2)
      by (subst s2; by st_norm).
    clearbody s2.
    do 5 wp_step. do 2 wp_step. unfold partition_post.
    split; [wf_tac|]. split; [by st_norm|].
    split.
    { eexists (sleeps s2), (view s2), _. split; [reflexivity|].
      split; [by st_norm|]. done. }
    st_norm. rewrite Hv2. apply Nat2Z.inj in Ha2. clear Hsw1 Hsw2 Hv2 HF2 Hwf2.
    assert (aget (proj value s') high = Some (value (deref (heap s) r))) as Hph.
    { rewrite (Hfr high) by lia. by rewrite aget_proj, Hr. }
    split; [done|]. split; [lia|]. split; [by rewrite zswap_perm|].
    split; [frame_solve|]. split; [|split; order_solve].
    rewrite aget_zswap by (st_norm; lia). repeat case_decide; try lia; congruence.
Qed.


Lemma aget_app {A} (l1 l2 : list A) k :
  aget (l1 ++ l2) k =
    if k <? Z.of_nat (length l1) then aget l1 k else aget l2 (k - Z.of_nat (length l1)).
Proof.
  destruct (Z.ltb_spec k (Z.of_nat (length l1))); [by apply aget_app_l|by apply aget_app_r].
Qed.

Lemma aget_cons {A} (x : A) l k :
  aget (x :: l) k = if k =? 0 then Some x else aget l (k - 1).
Proof.
  unfold aget. destruct (Z.eqb_spec k 0) as [->|]; [done|].
  destruct (Z.ltb_spec k 0), (Z.ltb_spec (k - 1) 0); try lia; [done|].
  replace (Z.to_nat k) with (S (Z.to_nat (k - 1))) by lia. done.
Qed.

Lemma Forall_aget {A} (Q : A -> Prop) (l : list A) :
  (forall k x, aget l k = Some x -> Q x) -> Forall Q l.
Proof.
  intros H. apply Forall_lookup. intros i x Hi. apply (H (Z.of_nat i)).
  unfold aget. destruct (Z.ltb_spec (Z.of_nat i) 0); [lia|]. by rewrite Nat2Z.id.
Qed.

(** The result of [partition] on the part [B] of [A ++ B ++ D]. *)
Lemma partition_segments A B D low high pv p l :
  Z.of_nat (length A) = low -> Z.of_nat (length B) = high - low + 1 ->
  length l = length (A ++ B ++ D) ->
  partition_post (A ++ B ++ D) low high pv p l ->
  exists B1 B2, l = A ++ (B1 ++ pv :: B2) ++ D /\
    Z.of_nat (length B1) = p - low /\ Z.of_nat (length B2) = high - p /\
    Forall (fun x => x < pv) B1 /\ Forall (fun x => pv <= x) B2 /\
    B1 ++ pv :: B2 ≡ₚ B.
Proof.
  intros HA HB Hlen (Hp & Hperm & Hfr & Hpv & Hlt & Hge). rewrite !length_app in Hlen.
  destruct (split_at l (length A)) as (A' & l1 & -> & HA'); [lia|].
  rewrite length_app in Hlen.
  destruct (split_at l1 (Z.to_nat (p - low))) as (B1 & l2 & -> & HB1); [lia|].
  rewrite length_app in Hlen.
  destruct l2 as [|x l3]; [simpl in Hlen; lia|]. simpl in Hlen.
  destruct (split_at l3 (Z.to_nat (high - p))) as (B2 & D' & -> & HB2); [lia|].
  rewrite length_app in Hlen.
  assert (A' = A) as ->.
  { apply aget_ext. intros k. destruct (Z.ltb_spec k low).
    - specialize (Hfr k (or_introl H)). rewrite !aget_app in Hfr.
      destruct (Z.ltb_spec k (Z.of_nat (length A'))), (Z.ltb_spec k (Z.of_nat (length A)));
        try lia. done.
    - transitivity (@None Z); [|symmetry]; apply aget_None_range; lia. }
  assert (x = pv) as ->.
  { rewrite !aget_app, aget_cons in Hpv.
    destruct (Z.ltb_spec p (Z.of_nat (length A))); [lia|].
    destruct (Z.ltb_spec (p - Z.of_nat (length A)) (Z.of_nat (length B1))); [lia|].
    destruct (Z.eqb_spec (p - Z.of_nat (length A) - Z.of_nat (length B1)) 0); [|lia].
    by simplify_eq. }
  assert (D' = D) as ->.
  { apply aget_ext. intros k. destruct (Z.ltb_spec k 0).
    { transitivity (@None Z); [|symmetry]; apply aget_None_range; lia. }
    assert (high < k + high + 1) as Hk by lia.
    specialize (Hfr (k + high + 1) (or_intror Hk)).
    rewrite !aget_app, aget_cons, aget_app in Hfr.
    repeat (match type of Hfr with context [?a <? ?b] => destruct (Z.ltb_spec a b); try lia end).
    destruct (Z.eqb_spec (k + high + 1 - Z.of_nat (length A) - Z.of_nat (length B1)) 0); [lia|].
    etrans; [|etrans; [exact Hfr|]]; f_equal; lia. }
  exists B1, B2. split_and!; [by rewrite <- !app_assoc|lia|lia| | |].
  - apply Forall_aget. intros k y Hk. pose proof (aget_Some_range _ _ _ Hk).
    apply (Hlt (k + low)); [cbn; lia|].
    rewrite !aget_app.
    destruct (Z.ltb_spec (k + low) (Z.of_nat (length A))); [lia|].
    destruct (Z.ltb_spec (k + low - Z.of_nat (length A)) (Z.of_nat (length B1))); [|lia].
    rewrite <- Hk. f_equal. lia.
  - apply Forall_aget. intros k y Hk. pose proof (aget_Some_range _ _ _ Hk).
    apply (Hge (k + p + 1)); [cbn; lia|].
    rewrite !aget_app, aget_cons, aget_app.
    destruct (Z.ltb_spec (k + p + 1) (Z.of_nat (length A))); [lia|].
    destruct (Z.ltb_spec (k + p + 1 - Z.of_nat (length A)) (Z.of_nat (length B1))); [lia|].
    destruct (Z.eqb_spec (k + p + 1 - Z.of_nat (length A) - Z.of_nat (length B1)) 0); [lia|].
    destruct (Z.ltb_spec (k + p + 1 - Z.of_nat (length A) - Z.of_nat (length B1) - 1)
                (Z.of_nat (length B2))); [|lia].
    rewrite <- Hk. f_equal. lia.
  - apply (inj (A ++.)) in Hperm.
    change (B1 ++ (pv :: B2) ++ D ≡ₚ B ++ D) in Hperm.
    rewrite app_assoc in Hperm. by apply (inj (.++ D)) in Hperm.
Qed.


Lemma Sorted_around_pivot (B1 B2 : list Z) pv :
  Sorted Z.le B1 -> Sorted Z.le B2 ->
  Forall (fun x => x < pv) B1 -> Forall (fun x => pv <= x) B2 ->
  Sorted Z.le (B1 ++ pv :: B2).
Proof.
  intros H1%Sorted_StronglySorted H2%Sorted_StronglySorted Hlt Hge; [|apply _..].
  apply StronglySorted_Sorted, StronglySorted_app_2; [|done|].
  - intros x1 x2 Hx1 [->|Hx2]%elem_of_cons.
    + eapply Forall_forall in Hlt; [|done]. simpl in Hlt. lia.
    + eapply Forall_forall in Hlt; [|exact Hx1]. eapply Forall_forall in Hge; [|exact Hx2].
      simpl in *. lia.
  - by constructor.
Qed.

Lemma view_markAll_sorted s :
  wf s -> Forall (fun e => isSorted e = true) (view (st_markAll s)).
Proof.
  intros Hwf. unfold view, view_of; simpl. apply Forall_fmap, Forall_forall.
  intros r Hr. simpl.
  pose proof (deref_markAll (arr s) (heap s) r) as H.
  rewrite decide_True in H; [by injection H|].
  split; [done|]. by eapply Forall_forall in Hwf.
Qed.

Lemma sortedFlags_markAll_publish s : synced (st_publish (st_markAll s)).
Proof. apply synced_publish. Qed.

(** The recursion of [quickSort] on the part [B] of the array between
    [low] and [high]: only the call on the whole array marks elements. *)
Definition quick_post (s : state) (low high : Z) (A B D : list Z) (s' : state) : Prop :=
  wf s' /\ length (arr s') = length (arr s) /\
  (low = 0 -> high = Z.of_nat (length (arr s)) - 1 ->
     synced s' /\ Forall (fun e => isSorted e = true) (view s')) /\
  (~ (low = 0 /\ high = Z.of_nat (length (arr s)) - 1) -> sortedFlags s' = sortedFlags s) /\
  exists B', proj value s' = A ++ B' ++ D /\ Sorted Z.le B' /\ B' ≡ₚ B.

Lemma quick_mark_ok s low high A B D s' :
  wf s' -> length (arr s') = length (arr s) -> sortedFlags s' = sortedFlags s ->
  (exists B', proj value s' = A ++ B' ++ D /\ Sorted Z.le B' /\ B' ≡ₚ B) ->
  wpN (n <- arrLength ;;
       if (low =? 0) && (high =? n - 1) then markAllSorted ;; updateArray else ret tt)
    (fun _ s'' => quick_post s low high A B D s'') NoRet s'.
Proof.
  intros Hwf Hlen HF (B' & Hv & Hs & Hp). wp_step. rewrite Hlen. unfold quick_post.
  destruct (Z.eqb_spec low 0), (Z.eqb_spec high (Z.of_nat (length (arr s)) - 1));
    cbn [andb]; [do 2 wp_step|wp_step..].
  - split; [by apply wf_publish, wf_markAll|]. split; [done|].
    split; [intros _ _; split; [apply synced_publish|by apply view_markAll_sorted]|].
    split; [intros []; by split|]. exists B'. by st_norm.
  - split; [done|]. split; [done|]. split; [intros; lia|]. split; [done|]. by exists B'.
  - split; [done|]. split; [done|]. split; [intros; lia|]. split; [done|]. by exists B'.
  - split; [done|]. split; [done|]. split; [intros; lia|]. split; [done|]. by exists B'.
Qed.

Lemma quickSort_rec_ok fuel : forall low high s A B D,
  wf s -> 0 <= low -> high - low <= Z.of_nat fuel ->
  proj value s = A ++ B ++ D ->
  Z.of_nat (length A) = low -> Z.of_nat (length B) = high - low + 1 ->
  wpN (quickSort_ None fuel low high) (fun _ s' => quick_post s low high A B D s') NoRet s.
Proof.
  induction fuel as [|fuel IH]; intros low high s A B D Hwf Hl Hfuel Hv HA HB.
  - cbn [quickSort_]. destruct (Z.ltb_spec low high); [lia|].
    apply wp_bind, wp_ret. apply quick_mark_ok; [done..|].
    exists B. split_and!; [done| |done]. apply Sorted_short. lia.
  - cbn [quickSort_]. apply wp_bind.
    eapply wp_mono with
      (Q := fun _ s' => wf s' /\ length (arr s') = length (arr s) /\
              sortedFlags s' = sortedFlags s /\
              exists B', proj value s' = A ++ B' ++ D /\ Sorted Z.le B' /\ B' ≡ₚ B)
      (QR := NoRet);
      [| |done]; cycle 1.
    { intros _ s' (Hwf' & Hlen & HF & HB'). by apply quick_mark_ok. }
    destruct (Z.ltb_spec low high) as [Hlt|Hge]; cycle 1.
    { apply wp_ret. split_and!; [done..|]. exists B. split_and!; [done| |done].
      apply Sorted_short. lia. }
    assert (Z.of_nat (length (arr s)) = Z.of_nat (length (A ++ B ++ D))) as Hn.
    { by rewrite <- (length_proj value), Hv. }
    pose proof Hn as Hn'. rewrite !length_app in Hn'.
    destruct (aget_in_range (proj value s) high) as [pv Hpv]; [st_norm; lia|].
    apply wp_bind, wp_call.
    eapply wp_mono;
      [apply (partition_ok (Z.of_nat (length (arr s))) low high pv s);
         [done|lia|lia|done|done]| |done].
    intros p s1 (Hwf1 & HF1 & _ & Hlen1 & Hpost). rewrite Hv in Hpost.
    apply partition_segments in Hpost as (B1 & B2 & Hv1 & HB1 & HB2 & Hlt1 & Hge2 & Hperm);
      [|done|done|]; cycle 1.
    { rewrite length_proj. lia. }
    apply wp_bind, wp_call.
    eapply wp_mono;
      [apply (IH low (p - 1) s1 A B1 (pv :: B2 ++ D)); [done|lia|lia| |lia|lia]| |done].
    { rewrite Hv1. by rewrite <- !app_assoc. }
    intros _ s2 (Hwf2 & Hlen2 & _ & HF2 & B1' & Hv2 & Hs1 & Hp1).
    specialize (HF2 ltac:(lia)).
    apply wp_call.
    eapply wp_mono;
      [apply (IH (p + 1) high s2 (A ++ B1' ++ [pv]) B2 D); [done|lia|lia| | |lia]| |done].
    { rewrite Hv2. by rewrite <- !app_assoc. }
    { rewrite !length_app, Hp1. simpl. lia. }
    intros _ s3 (Hwf3 & Hlen3 & _ & HF3 & B2' & Hv3 & Hs2 & Hp2).
    specialize (HF3 ltac:(lia)).
    split; [done|]. split; [congruence|]. split; [congruence|].
    exists (B1' ++ pv :: B2'). split_and!.
    + rewrite Hv3. by rewrite <- !app_assoc.
    + apply Sorted_around_pivot; [done|done|by rewrite Hp1|by rewrite Hp2].
    + by rewrite Hp1, Hp2.
Qed.

Lemma quickSort_ok (l : list ArrayElement) :
  wpN (quickSort None)
    (fun _ s' => Sorted Z.le (vals s') /\ vals s' ≡ₚ value <$> l /\ synced s')
    NoRet (init l).
Proof.
  unfold quickSort. wp_step. rewrite length_arr_init.
  eapply wp_mono;
    [apply (quickSort_rec_ok _ 0 _ (init l) [] (value <$> l) []);
       [apply wf_init|lia|lia| |done|]| |done].
  - by rewrite proj_init, app_nil_r.
  - rewrite length_fmap. lia.
  - intros _ s' (_ & _ & Hsync & _ & B' & Hv & Hs & Hp). rewrite !vals_proj, Hv, app_nil_r.
    split_and!; [done|done|]. apply Hsync; [done|]. by rewrite length_arr_init.
Qed.

Lemma wp_val {A} (m : M unit A) (Q : A -> state -> Prop) s :
  wpN m Q NoRet s -> exists a s', m s = Val a s' /\ Q a s'.
Proof. unfold wp. destruct (m s) as [a s'| |]; [|done..]. intros HQ. by exists a, s'. Qed.

Lemma call_val {R R'} (m : M R R) r s s' : m s = Val r s' -> call (R' := R') m s = Val r s'.
Proof. unfold call. by intros ->. Qed.


(** *** All five variants *)

Lemma wp_call_final (m : M unit unit) (P : state -> Prop) s :
  wpN m (fun _ => P) NoRet s ->
  exists s', call (R' := unit) m s = Val tt s' /\ P s'.
Proof.
  unfold wp, call. destruct (m s) as [[] s'| |]; [|done..]. intros HP. by exists s'.
Qed.

Lemma sort_ok alg (l : list ArrayElement) :
  l <> [] ->
  exists s', sort None alg (init l) = Val tt s' /\
    Sorted Z.le (vals s') /\ vals s' ≡ₚ value <$> l /\
    (synced s' \/ s' = init l).
Proof.
  intros Hne. destruct alg; cbn [sort]; apply wp_call_final.
  - eapply wp_mono; [by apply bubbleSort_ok| |done]. intros _ s' (? & ? & ?). auto.
  - eapply wp_mono; [by apply selectionSort_ok| |done]. intros _ s' (? & ? & ?). auto.
  - eapply wp_mono; [by apply insertionSort_ok| |done]. intros _ s' (? & ? & ?). auto.
  - eapply wp_mono; [by apply mergeSort_ok| |done].
    intros _ s' (? & ? & [?|[_ ?]]); auto.
  - eapply wp_mono; [by apply quickSort_ok| |done]. intros _ s' (? & ? & ?). auto.
Qed.

End SortProofs.

(** C8.  One call of [mergeSort] on a range [left < right] without
    cancellation: the range is divided at [floor((left + right) / 2)]; the
    two recursive calls rearrange their halves and mark nothing; [merge]
    then writes the stable merge of the two halves, in which the element of
    the left half comes first on equal values; and every element is marked
    sorted exactly when the range is the whole array. *)
Theorem mergeSort_divide_merge_mark fuel left right s (A B D : list (Z * bool)) :
  wf s -> 0 <= left -> left < right -> right - left <= Z.of_nat (S fuel) ->
  proj core s = A ++ B ++ D ->
  Z.of_nat (length A) = left -> Z.of_nat (length B) = right - left + 1 ->
  let mid := (left + right) / 2 in
  let n := Z.of_nat (length (arr s)) in
  (left <= mid < right /\ 2 * mid <= left + right < 2 * mid + 2) /\
  (forall (x y : Z * bool) xs ys, fst x = fst y ->
     stable_merge fst (x :: xs) (y :: ys) = x :: stable_merge fst xs (y :: ys)) /\
  exists s1 s2 s3 B1 B2 B1' B2',
    B = B1 ++ B2 /\ Z.of_nat (length B1) = mid - left + 1 /\
    call (R' := unit) (mergeSort_ None fuel left mid) s = Val tt s1 /\
    proj core s1 = A ++ B1' ++ B2 ++ D /\ B1' ≡ₚ B1 /\
    call (R' := unit) (mergeSort_ None fuel (mid + 1) right) s1 = Val tt s2 /\
    proj core s2 = A ++ B1' ++ B2' ++ D /\ B2' ≡ₚ B2 /\
    call (R' := unit) (merge_ None left mid right) s2 = Val tt s3 /\
    mergeSort_ None (S fuel) left right s = Val tt s3 /\
    proj core s3 =
      mark_if ((left =? 0) && (right =? n - 1)) <$> (A ++ stable_merge fst B1' B2' ++ D).
Proof.
  intros Hwf Hl Hlt Hfuel Hv HA HB mid n.
  assert (left <= mid < right) as Hmid.
  { subst mid. split; [apply Z.div_le_lower_bound; lia|apply Z.div_lt_upper_bound; lia]. }
  split; [|split].
  { split; [done|]. subst mid. pose proof (Z.div_mod (left + right) 2).
    pose proof (Z.mod_pos_bound (left + right) 2). lia. }
  { intros x y xs ys Hxy. rewrite stable_merge_cons, Hxy, Z.leb_refl. done. }
  assert (n = right + 1 + Z.of_nat (length D)) as Hn.
  { subst n. rewrite <- (length_proj core), Hv, !length_app. lia. }
  destruct (split_at B (Z.to_nat (mid - left + 1))) as (B1 & B2 & -> & HB1); [lia|].
  rewrite length_app in HB.
  destruct (wp_val _ _ _ (mergeSort_rec_ok fuel left mid s A B1 (B2 ++ D) Hwf Hl
              ltac:(lia) ltac:(by rewrite <- app_assoc in Hv) HA ltac:(lia)))
    as ([] & s1 & Hr1 & Hwf1 & Hlen1 & _ & B1' & Hv1 & _ & Hp1).
  fold n in Hv1. replace (mid =? n - 1) with false in Hv1 by lia.
  rewrite !andb_false_r, mark_if_false in Hv1.
  assert (length B1' = length B1) as HB1' by (by rewrite Hp1).
  destruct (wp_val _ _ _ (mergeSort_rec_ok fuel (mid + 1) right s1 (A ++ B1') B2 D Hwf1
              ltac:(lia) ltac:(lia) ltac:(by rewrite <- app_assoc)
              ltac:(rewrite length_app; lia) ltac:(lia)))
    as ([] & s2 & Hr2 & Hwf2 & Hlen2 & _ & B2' & Hv2 & _ & Hp2).
  replace (mid + 1 =? 0) with false in Hv2 by lia.
  rewrite !andb_false_r, mark_if_false, <- app_assoc in Hv2.
  assert (length B2' = length B2) as HB2' by (by rewrite Hp2).
  destruct (wp_val _ _ _ (merge_ok A B1' B2' D left mid right s2 Hwf2
              ltac:(lia) ltac:(lia) Hv2 HA ltac:(lia) ltac:(lia)))
    as ([] & s3 & Hr3 & Hwf3 & Hlen3 & Hc3 & _).
  rewrite Hlen2, Hlen1 in Hc3. fold n in Hc3.
  exists s1, s2, s3, B1, B2, B1', B2'.
  split_and!; try done; try lia; try (by apply call_val).
  cbn [mergeSort_]. destruct (Z.ltb_spec left right); [|lia].
  fold mid. unfold bind. by rewrite (call_val _ _ _ _ Hr1), (call_val _ _ _ _ Hr2), (call_val _ _ _ _ Hr3).
Qed.

Lemma mergeSort_divide_merge_mark_witness :
  exists s3, mergeSort_ None 1 0 1 (init [fresh 5; fresh 5; fresh 3]) = Val tt s3 /\
    proj core s3 = [(5, false); (5, false); (3, false)].
Proof.
  destruct (mergeSort_divide_merge_mark 0 0 1 (init [fresh 5; fresh 5; fresh 3])
              [] [(5, false); (5, false)] [(3, false)])
    as (_ & _ & s1 & s2 & s3 & B1 & B2 & B1' & B2' & HB & HB1 & Hr1 & Hc1 & Hp1
          & Hr2 & Hc2 & Hp2 & Hr3 & Hr & Hc3).
  - unfold wf; simpl. repeat constructor.
  - lia.
  - lia.
  - simpl. lia.
  - reflexivity.
  - reflexivity.
  - reflexivity.
  - exists s3. split; [exact Hr|]. vm_compute in Hr. injection Hr as <-. reflexivity.
Defined.


Lemma wp_val_noret {R A} (m : M R A) (Q : A -> state -> Prop) s :
  wp m Q (fun _ _ => False) s -> exists a s', m s = Val a s' /\ Q a s'.
Proof. unfold wp. destruct (m s) as [a s'| |]; [|done..]. intros HQ. by exists a, s'. Qed.

(** C7.  One call of [quickSort] on a range [low < high] without
    cancellation.  [partition] takes the value [pv] at [high] as pivot and
    returns its final index [p]: the values of the range before [p] are the
    ones strictly less than [pv], the values after [p] are not less, and the
    last two [updateArray] calls show the final exchange of the positions
    [p] and [high] (also when [p = high]).  Neither [partition] nor the two
    recursive calls change an [isSorted] flag; all elements are marked
    exactly when the range is the whole array. *)
Theorem quickSort_partition_mark fuel low high s (A B D : list Z) :
  wf s -> 0 <= low -> low < high -> high - low <= Z.of_nat (S fuel) ->
  proj value s = A ++ B ++ D ->
  Z.of_nat (length A) = low -> Z.of_nat (length B) = high - low + 1 ->
  let n := Z.of_nat (length (arr s)) in
  exists pv p s1 s2 s3 s4 B1 B2,
    aget (proj value s) high = Some pv /\
    partition None low high s = Val p s1 /\ low <= p <= high /\
    proj value s1 = A ++ (B1 ++ pv :: B2) ++ D /\ Z.of_nat (length B1) = p - low /\
    Forall (fun x => x < pv) B1 /\ Forall (fun x => pv <= x) B2 /\
    B1 ++ pv :: B2 ≡ₚ B /\
    swap_published p high s1 /\
    sortedFlags s1 = sortedFlags s /\
    call (R' := unit) (quickSort_ None fuel low (p - 1)) s1 = Val tt s2 /\
    sortedFlags s2 = sortedFlags s /\
    call (R' := unit) (quickSort_ None fuel (p + 1) high) s2 = Val tt s3 /\
    sortedFlags s3 = sortedFlags s /\
    quickSort_ None (S fuel) low high s = Val tt s4 /\
    if (low =? 0) && (high =? n - 1)
    then s4 = st_publish (st_markAll s3) /\ Forall (fun e => isSorted e = true) (view s4)
    else s4 = s3.
Proof.
  intros Hwf Hl Hlt Hfuel Hv HA HB n.
  assert (n = Z.of_nat (length (A ++ B ++ D))) as Hn.
  { subst n. by rewrite <- (length_proj value), Hv. }
  pose proof Hn as Hn'. rewrite !length_app in Hn'.
  destruct (aget_in_range (proj value s) high) as [pv Hpv]; [st_norm; lia|].
  destruct (wp_val_noret _ _ _ (partition_ok n low high pv s Hwf ltac:(lia) ltac:(lia)
              eq_refl Hpv)) as (p & s1 & Hr1 & Hwf1 & HF1 & Hpub & Hlen1 & Hpost).
  pose proof Hpost as (Hp & _). rewrite Hv in Hpost.
  apply partition_segments in Hpost as (B1 & B2 & Hv1 & HB1 & HB2 & Hlt1 & Hge2 & Hperm);
    [|done|done|]; cycle 1.
  { rewrite length_proj. lia. }
  destruct (wp_val _ _ _ (quickSort_rec_ok fuel low (p - 1) s1 A B1 (pv :: B2 ++ D) Hwf1
              ltac:(lia) ltac:(lia) ltac:(rewrite Hv1; by rewrite <- !app_assoc)
              ltac:(lia) ltac:(lia)))
    as ([] & s2 & Hr2 & Hwf2 & Hlen2 & _ & HF2 & B1' & Hv2 & Hs1 & Hp1).
  specialize (HF2 ltac:(lia)).
  destruct (wp_val _ _ _ (quickSort_rec_ok fuel (p + 1) high s2 (A ++ B1' ++ [pv]) B2 D Hwf2
              ltac:(lia) ltac:(lia) ltac:(rewrite Hv2; by rewrite <- !app_assoc)
              ltac:(rewrite !length_app, Hp1; simpl; lia) ltac:(lia)))
    as ([] & s3 & Hr3 & Hwf3 & Hlen3 & _ & HF3 & B2' & Hv3 & Hs2 & Hp2).
  specialize (HF3 ltac:(lia)).
  assert (length (arr s3) = length (arr s)) as Hlen by congruence.
  exists pv, p, s1, s2, s3.
  exists (if (low =? 0) && (high =? n - 1) then st_publish (st_markAll s3) else s3), B1, B2.
  split_and!; try done; try lia; try congruence; try (by apply call_val).
  - cbn [quickSort_]. destruct (Z.ltb_spec low high); [|lia].
    unfold bind at 1. unfold bind at 1.
    rewrite (call_val _ _ _ _ Hr1). unfold bind at 1. rewrite (call_val _ _ _ _ Hr2).
    rewrite (call_val _ _ _ _ Hr3). unfold bind, arrLength. rewrite Hlen. fold n.
    by destruct ((low =? 0) && (high =? n - 1)).
  - destruct ((low =? 0) && (high =? n - 1)); [|done].
    split; [done|]. by apply view_markAll_sorted.
Qed.

Lemma quickSort_partition_mark_witness :
  exists s4, quickSort_ None 1 0 1 (init [fresh 1; fresh 2]) = Val tt s4 /\
             view s4 = [mkElement 1 false false true; mkElement 2 false false true].
Proof.
  destruct (quickSort_partition_mark 0 0 1 (init [fresh 1; fresh 2]) [] [1; 2] [])
    as (pv & p & s1 & s2 & s3 & s4 & B1 & B2 & _ & _ & _ & _ & _ & _ & _ & _ & _ & _ & _ & _
          & _ & _ & Hr & _).
  - unfold wf; simpl. repeat constructor.
  - lia.
  - lia.
  - simpl. lia.
  - reflexivity.
  - reflexivity.
  - reflexivity.
  - exists s4. split; [exact Hr|]. vm_compute in Hr. injection Hr as <-. reflexivity.
Defined.


(** ** Outcomes of cancelled runs *)

(** The general form of [wp]: a condition for each way a piece of code can
    end, the thrown exception included. *)
Definition wp3 {R A} (m : M R A) (Q : A -> state -> Prop) (QR : R -> state -> Prop)
    (QT : state -> Prop) (s : state) : Prop :=
  match m s with
  | Val a s' => Q a s'
  | Ret r s' => QR r s'
  | Throw _ s' => QT s'
  end.

Section WP3.
Variable cancel : option nat.
Context {R : Type}.
Implicit Types (QR : R -> state -> Prop) (QT : state -> Prop) (s : state).

Lemma wp3_ret {A} (a : A) (Q : A -> state -> Prop) QR QT s : Q a s -> wp3 (ret a) Q QR QT s.
Proof. done. Qed.

Lemma wp3_throw {A} e (Q : A -> state -> Prop) QR QT s : QT s -> wp3 (throw e) Q QR QT s.
Proof. done. Qed.

Lemma wp3_bind {A B} (m : M R A) (f : A -> M R B) (Q : B -> state -> Prop) QR QT s :
  wp3 m (fun a s' => wp3 (f a) Q QR QT s') QR QT s -> wp3 (bind m f) Q QR QT s.
Proof. unfold wp3, bind. by destruct (m s). Qed.

Lemma wp3_mono {A} (m : M R A) (Q Q' : A -> state -> Prop) QR QR' QT QT' s :
  wp3 m Q QR QT s -> (forall a s', Q a s' -> Q' a s') -> (forall r s', QR r s' -> QR' r s') ->
  (forall s', QT s' -> QT' s') -> wp3 m Q' QR' QT' s.
Proof. unfold wp3. destruct (m s); auto. Qed.

Lemma wp3_call {R'} (m : M R' R') (Q : R' -> state -> Prop) QR QT s :
  wp3 m Q Q QT s -> wp3 (call m) Q QR QT s.
Proof. unfold wp3, call. by destruct (m s). Qed.

Lemma wp3_check r (Q : unit -> state -> Prop) QR QT s :
  (isRunning cancel s = true -> Q tt s) -> (isRunning cancel s = false -> QR r s) ->
  wp3 (check cancel r) Q QR QT s.
Proof. unfold wp3, check. destruct (isRunning cancel s); auto. Qed.

Lemma wp3_arrLength (Q : Z -> state -> Prop) QR QT s :
  Q (Z.of_nat (length (arr s))) s -> wp3 arrLength Q QR QT s.
Proof. done. Qed.

Lemma wp3_elem k (Q : ref -> state -> Prop) QR QT s :
  QT s -> (forall r, aget (arr s) k = Some r -> Q r s) -> wp3 (elem k) Q QR QT s.
Proof. intros HT HQ. unfold wp3, elem. destruct (aget (arr s) k); auto. Qed.

Lemma wp3_valueOf r (Q : Z -> state -> Prop) QR QT s :
  Q (value (deref (heap s) r)) s -> wp3 (valueOf r) Q QR QT s.
Proof. done. Qed.

Lemma wp3_arrValue k (Q : Z -> state -> Prop) QR QT s :
  QT s -> (forall x, Q x s) -> wp3 (arrValue k) Q QR QT s.
Proof. intros HT HQ. apply wp3_bind, wp3_elem; [done|]. intros r _. apply HQ. Qed.

Lemma wp3_setCompared r b (Q : unit -> state -> Prop) QR QT s :
  Q tt (st_alter (withCompared b) r s) -> wp3 (setCompared r b) Q QR QT s.
Proof. done. Qed.
Lemma wp3_setSwapped r b (Q : unit -> state -> Prop) QR QT s :
  Q tt (st_alter (withSwapped b) r s) -> wp3 (setSwapped r b) Q QR QT s.
Proof. done. Qed.
Lemma wp3_setSorted r b (Q : unit -> state -> Prop) QR QT s :
  Q tt (st_alter (withSorted b) r s) -> wp3 (setSorted r b) Q QR QT s.
Proof. done. Qed.

Lemma wp3_arrSetCompared k b (Q : unit -> state -> Prop) QR QT s :
  QT s -> (forall r, aget (arr s) k = Some r -> Q tt (st_alter (withCompared b) r s)) ->
  wp3 (arrSetCompared k b) Q QR QT s.
Proof. intros HT HQ. apply wp3_bind, wp3_elem; [done|]. intros r Hr. by apply HQ. Qed.
Lemma wp3_arrSetSwapped k b (Q : unit -> state -> Prop) QR QT s :
  QT s -> (forall r, aget (arr s) k = Some r -> Q tt (st_alter (withSwapped b) r s)) ->
  wp3 (arrSetSwapped k b) Q QR QT s.
Proof. intros HT HQ. apply wp3_bind, wp3_elem; [done|]. intros r Hr. by apply HQ. Qed.
Lemma wp3_arrSetSorted k b (Q : unit -> state -> Prop) QR QT s :
  QT s -> (forall r, aget (arr s) k = Some r -> Q tt (st_alter (withSorted b) r s)) ->
  wp3 (arrSetSorted k b) Q QR QT s.
Proof. intros HT HQ. apply wp3_bind, wp3_elem; [done|]. intros r Hr. by apply HQ. Qed.

Lemma wp3_store k r (Q : unit -> state -> Prop) QR QT s :
  QT s -> (0 <= k < Z.of_nat (length (arr s)) -> Q tt (st_store (Z.to_nat k) r s)) ->
  wp3 (store k r) Q QR QT s.
Proof.
  intros HT HQ. unfold wp3, store.
  destruct (Z.leb_spec 0 k), (Z.ltb_spec k (Z.of_nat (length (arr s)))); simpl; auto.
Qed.

Lemma wp3_swap i j (Q : unit -> state -> Prop) QR QT s :
  QT s ->
  (forall ri rj, aget (arr s) i = Some ri -> aget (arr s) j = Some rj ->
     Q tt (st_store (Z.to_nat j) ri (st_store (Z.to_nat i) rj s))) ->
  wp3 (swap i j) Q QR QT s.
Proof.
  intros HT HQ. unfold wp3, swap.
  destruct (aget (arr s) j) as [rj|] eqn:Hj; [|done].
  destruct (aget (arr s) i) as [ri|] eqn:Hi; [|done].
  pose proof (aget_Some_range _ _ _ Hi). pose proof (aget_Some_range _ _ _ Hj).
  assert ((0 <=? i) && (i <? Z.of_nat (length (arr s))) = true) as Ei.
  { apply andb_true_intro. split; [apply Z.leb_le|apply Z.ltb_lt]; lia. }
  assert ((0 <=? j) && (j <? Z.of_nat (length (arr s))) = true) as Ej.
  { apply andb_true_intro. split; [apply Z.leb_le|apply Z.ltb_lt]; lia. }
  unfold bind, store. rewrite Ei. cbn [arr st_store]. rewrite length_insert, Ej.
  by apply HQ.
Qed.

Lemma wp3_put k x (Q : unit -> state -> Prop) QR QT s :
  QT (st_alloc (withSwapped true (deref (heap s) x)) s) ->
  (0 <= k < Z.of_nat (length (arr s)) -> Q tt (st_put k x s)) ->
  wp3 (o <- spreadSwapped x ;; store k o) Q QR QT s.
Proof. intros HT HQ. apply wp3_bind. unfold wp3 at 1. simpl. by apply wp3_store. Qed.

Lemma wp3_arrSlice a b (Q : list ref -> state -> Prop) QR QT s :
  Q (slice (arr s) a b) s -> wp3 (arrSlice a b) Q QR QT s.
Proof. done. Qed.
Lemma wp3_updateArray (Q : unit -> state -> Prop) QR QT s :
  Q tt (st_publish s) -> wp3 updateArray Q QR QT s.
Proof. done. Qed.
Lemma wp3_sleep (Q : unit -> state -> Prop) QR QT s :
  Q tt (st_sleep s) -> wp3 sleep Q QR QT s.
Proof. done. Qed.
Lemma wp3_markAllSorted (Q : unit -> state -> Prop) QR QT s :
  Q tt (st_markAll s) -> wp3 markAllSorted Q QR QT s.
Proof. done. Qed.

Lemma wp3_for_from {A} (I : Z -> A -> state -> Prop) n lo body acc QR QT s :
  I lo acc s ->
  (forall j a s', lo <= j < lo + Z.of_nat n -> I j a s' ->
     wp3 (body j a) (fun a' s'' => I (j + 1) a' s'') QR QT s') ->
  wp3 (for_from n lo body acc) (fun a s' => I (lo + Z.of_nat n) a s') QR QT s.
Proof.
  revert lo acc s. induction n as [|n IH]; intros lo acc s HI Hbody.
  - simpl. apply wp3_ret. by replace (lo + Z.of_nat 0) with lo by lia.
  - simpl. apply wp3_bind. eapply wp3_mono; [apply (Hbody lo); [lia|done]| |done|done].
    intros a s' HI'. simpl in HI'.
    replace (lo + Z.of_nat (S n)) with ((lo + 1) + Z.of_nat n) by lia.
    apply IH; [done|]. intros j a' s'' Hj. apply Hbody. lia.
Qed.

Lemma wp3_for_fold {A} (I : Z -> A -> state -> Prop) lo hi body acc
    (Q : A -> state -> Prop) QR QT s :
  I lo acc s ->
  (forall j a s', lo <= j < hi -> I j a s' ->
     wp3 (body j a) (fun a' s'' => I (j + 1) a' s'') QR QT s') ->
  (forall a s', I (Z.max lo hi) a s' -> Q a s') ->
  wp3 (for_fold lo hi body acc) Q QR QT s.
Proof.
  intros HI Hbody HQ. unfold for_fold.
  eapply wp3_mono; [apply (wp3_for_from I); [done|]| |done|done].
  - intros j a s' Hj. apply Hbody. lia.
  - intros a s'. replace (lo + Z.of_nat (Z.to_nat (hi - lo))) with (Z.max lo hi) by lia.
    apply HQ.
Qed.

Lemma wp3_for_loop (I : Z -> state -> Prop) lo hi body (Q : unit -> state -> Prop) QR QT s :
  I lo s ->
  (forall j s', lo <= j < hi -> I j s' -> wp3 (body j) (fun _ s'' => I (j + 1) s'') QR QT s') ->
  (forall s', I (Z.max lo hi) s' -> Q tt s') ->
  wp3 (for_loop lo hi body) Q QR QT s.
Proof.
  intros HI Hbody HQ. unfold for_loop.
  apply (wp3_for_fold (fun j _ s => I j s)); auto.
  intros a s'. destruct a. apply HQ.
Qed.

(** A call followed by the rest of the body, when the callee establishes
    [P] however it returns. *)
Lemma wp3_call_bind {R' B} (m : M R' R') (P : R' -> state -> Prop) (f : R' -> M R B)
    (Q : B -> state -> Prop) QR QT s :
  wp3 m P P QT s ->
  (forall a s', P a s' -> wp3 (f a) Q QR QT s') ->
  wp3 (bind (call m) f) Q QR QT s.
Proof.
  intros Hm Hf. unfold wp3, bind, call in *. destruct (m s); auto; by apply Hf.
Qed.

End WP3.


(** ** The sorted flag along a run *)

Definition unflagged (e : ArrayElement) : Prop := isSorted e = false.

(** [le_flags f1 f2]: every position marked in [f1] is marked in [f2]. *)
Definition le_flags (f1 f2 : list bool) : Prop :=
  forall k, f1 !! k = Some true -> f2 !! k = Some true.

(** The published snapshots, latest first, never lose a mark, up to the
    flags [cur] of the array as it is now. *)
Fixpoint chain (log : list snapshot) (cur : list bool) : Prop :=
  match log with
  | [] => True
  | sn :: rest => le_flags (isSorted <$> sn.2) cur /\ chain rest (isSorted <$> sn.2)
  end.

Definition flags_ok (s : state) : Prop := chain (published s) (sflags s).

Definition quiet_log (log : list snapshot) : Prop :=
  Forall (fun sn => Forall unflagged sn.2) log.

(** No element is marked, now or in any snapshot; the array has [n] entries. *)
Definition U (n : nat) (s : state) : Prop :=
  length (arr s) = n /\ Forall unflagged (heap s) /\ quiet_log (published s).

Lemma le_flags_refl f : le_flags f f.
Proof. by intros k. Qed.
Lemma le_flags_trans f1 f2 f3 : le_flags f1 f2 -> le_flags f2 f3 -> le_flags f1 f3.
Proof. intros H1 H2 k Hk. by apply H2, H1. Qed.

Lemma le_flags_unflagged (l : list ArrayElement) f :
  Forall unflagged l -> le_flags (isSorted <$> l) f.
Proof.
  intros Hl k Hk. rewrite list_lookup_fmap in Hk.
  destruct (l !! k) as [e|] eqn:He; [|done]. simpl in Hk.
  eapply Forall_lookup_1 in Hl; [|exact He]. unfold unflagged in Hl. congruence.
Qed.

Lemma chain_quiet log cur : quiet_log log -> chain log cur.
Proof.
  revert cur. induction log as [|sn log IH]; intros cur Hq; [done|].
  apply Forall_cons in Hq as [Hsn Hq]. split; [by apply le_flags_unflagged|by apply IH].
Qed.

Lemma chain_le log f1 f2 : chain log f1 -> le_flags f1 f2 -> chain log f2.
Proof.
  destruct log as [|sn log]; [done|]. intros [H1 H2] Hle. split; [|done].
  by eapply le_flags_trans.
Qed.

Lemma unflagged_deref h r : Forall unflagged h -> unflagged (deref h r).
Proof.
  intros Hh. unfold deref. rewrite list_lookup_total_alt.
  destruct (_ !! _) as [e|] eqn:He; simpl; [|reflexivity]. by eapply Forall_lookup_1 in Hh.
Qed.

Lemma unflagged_view h a : Forall unflagged h -> Forall unflagged (view_of h a).
Proof.
  intros Hh. unfold view_of. apply Forall_fmap, Forall_forall. intros r _.
  by apply unflagged_deref.
Qed.

Lemma U_flags_ok n s : U n s -> flags_ok s.
Proof. intros (_ & _ & Hq). by apply chain_quiet. Qed.

Lemma U_alter n g r s :
  (forall e, isSorted (g e) = isSorted e) -> U n s -> U n (st_alter g r s).
Proof.
  intros Hg (Hn & Hh & Hq). split_and!; [done| |done]. simpl.
  apply Forall_alter; [done|]. intros e _. unfold unflagged. by rewrite Hg.
Qed.
Lemma U_store n k r s : U n s -> U n (st_store k r s).
Proof. intros (Hn & Hh & Hq). split_and!; [|done|done]. simpl. by rewrite length_insert. Qed.
Lemma U_sleep n s : U n s -> U n (st_sleep s).
Proof. done. Qed.
Lemma U_publish n s : U n s -> U n (st_publish s).
Proof.
  intros (Hn & Hh & Hq). split_and!; [done|done|]. simpl.
  apply Forall_cons. split; [|done]. by apply unflagged_view.
Qed.
Lemma U_spread n x s : U n s -> U n (st_alloc (withSwapped true (deref (heap s) x)) s).
Proof.
  intros (Hn & Hh & Hq). split_and!; [done| |done]. simpl.
  apply Forall_app_2; [done|]. apply Forall_singleton.
  by apply (unflagged_deref _ x) in Hh.
Qed.
Lemma U_put n k x s : U n s -> U n (st_put k x s).
Proof. intros HU. unfold st_put. by apply U_store, U_spread. Qed.

Ltac U_tac :=
  repeat first
    [ assumption
    | apply U_alter; [intros []; reflexivity|]
    | apply U_store | apply U_sleep | apply U_publish | apply U_put | apply U_spread ].

(** After [arr.forEach(el => el.isSorted = true); updateArray(arr)] on a
    state without marks, the history is in order. *)
Lemma flags_ok_mark n s : U n s -> flags_ok (st_publish (st_markAll s)).
Proof.
  intros (_ & _ & Hq). unfold flags_ok; simpl. split; [apply le_flags_refl|].
  by apply chain_quiet.
Qed.

Ltac wp3_prim tac :=
  lazymatch goal with
  | |- wp3 (ret _) _ _ _ _ => apply wp3_ret
  | |- wp3 (throw _) _ _ _ _ => apply wp3_throw
  | |- wp3 (check _ _) _ _ _ _ => apply wp3_check; [intros ?Hrun | intros ?Hstop; tac]
  | |- wp3 arrLength _ _ _ _ => apply wp3_arrLength
  | |- wp3 (elem _) _ _ _ _ => apply wp3_elem; [tac | intros ?r ?Hr]
  | |- wp3 (valueOf _) _ _ _ _ => apply wp3_valueOf
  | |- wp3 (arrValue _) _ _ _ _ => apply wp3_arrValue; [tac | intros ?x]
  | |- wp3 (setCompared _ _) _ _ _ _ => apply wp3_setCompared
  | |- wp3 (setSwapped _ _) _ _ _ _ => apply wp3_setSwapped
  | |- wp3 (setSorted _ _) _ _ _ _ => apply wp3_setSorted
  | |- wp3 (arrSetCompared _ _) _ _ _ _ => apply wp3_arrSetCompared; [tac | intros ?r ?Hr]
  | |- wp3 (arrSetSwapped _ _) _ _ _ _ => apply wp3_arrSetSwapped; [tac | intros ?r ?Hr]
  | |- wp3 (arrSetSorted _ _) _ _ _ _ => apply wp3_arrSetSorted; [tac | intros ?r ?Hr]
  | |- wp3 (store _ _) _ _ _ _ => apply wp3_store; [tac | intros ?Hk]
  | |- wp3 (swap _ _) _ _ _ _ => apply wp3_swap; [tac | intros ?ri ?rj ?Hri ?Hrj]
  | |- wp3 (bind (spreadSwapped _) _) _ _ _ _ => apply wp3_put; [tac | intros ?Hk]
  | |- wp3 (arrSlice _ _) _ _ _ _ => apply wp3_arrSlice
  | |- wp3 updateArray _ _ _ _ => apply wp3_updateArray
  | |- wp3 sleep _ _ _ _ => apply wp3_sleep
  | |- wp3 markAllSorted _ _ _ _ => apply wp3_markAllSorted
  end.

Ltac wp3_step tac :=
  lazymatch goal with
  | |- wp3 (bind (spreadSwapped _) _) _ _ _ _ => wp3_prim tac
  | |- wp3 (bind _ _) _ _ _ _ => apply wp3_bind; wp3_step tac
  | |- wp3 (if ?b then _ else _) _ _ _ _ => destruct b
  | |- _ => wp3_prim tac
  end.

(** Run a block of straight-line code in which every state satisfies [U n]. *)
Ltac wp3_U := repeat (wp3_step ltac:(U_tac)); try (by U_tac).

(** *** Bubble sort and selection sort: marks inside the run *)

(** The positions satisfying [P] hold unmarked elements, no object occurs
    twice in the array, and the history so far is in order. *)
Definition zone (P : Z -> Prop) (s : state) : Prop :=
  NoDup (arr s) /\ flags_ok s /\
  forall k r, P k -> aget (arr s) k = Some r -> isSorted (deref (heap s) r) = false.

Lemma aget_lookup {A} (l : list A) k x : aget l k = Some x -> l !! Z.to_nat k = Some x.
Proof. unfold aget. by destruct (k <? 0). Qed.

Lemma zone_flags_ok P s : zone P s -> flags_ok s.
Proof. by intros (_ & H & _). Qed.

Lemma zone_weaken (P P' : Z -> Prop) s : (forall k, P' k -> P k) -> zone P s -> zone P' s.
Proof. intros HP (Hnd & Hf & Hz). split_and!; [done|done|]. intros k r Hk. by apply Hz, HP. Qed.

Lemma zone_alter P g r s :
  (forall e, isSorted (g e) = isSorted e) -> zone P s -> zone P (st_alter g r s).
Proof.
  intros Hg (Hnd & Hf & Hz). split_and!; [done| |].
  - unfold flags_ok. rewrite sflags_proj, proj_alter by done. exact Hf.
  - intros k r' Hk Hr'. simpl in *. rewrite (deref_alter_stable isSorted) by done. by eapply Hz.
Qed.

Lemma zone_publish P s : zone P s -> zone P (st_publish s).
Proof.
  intros (Hnd & Hf & Hz). split_and!; [done| |done].
  split; [apply le_flags_refl|exact Hf].
Qed.

Lemma zone_sleep P s : zone P s -> zone P (st_sleep s).
Proof. done. Qed.

Lemma zone_swap P i j ri rj s :
  zone P s -> P i -> P j -> aget (arr s) i = Some ri -> aget (arr s) j = Some rj ->
  zone P (st_store (Z.to_nat j) ri (st_store (Z.to_nat i) rj s)).
Proof.
  intros (Hnd & Hf & Hz) Hi Hj Hri Hrj.
  pose proof (aget_Some_range _ _ _ Hri). pose proof (aget_Some_range _ _ _ Hrj).
  split_and!.
  - simpl. rewrite insert_insert_perm by (by apply aget_lookup). done.
  - unfold flags_ok in *. rewrite sflags_proj, !proj_store in *. simpl.
    rewrite (Hz i ri Hi Hri), (Hz j rj Hj Hrj).
    rewrite (list_insert_id (proj isSorted s) (Z.to_nat i)).
    + rewrite list_insert_id; [done|].
      apply aget_lookup. rewrite aget_proj, Hrj. simpl. by rewrite (Hz j rj).
    + apply aget_lookup. rewrite aget_proj, Hri. simpl. by rewrite (Hz i ri).
  - intros k r Hk. simpl. rewrite !aget_insert by (rewrite ?length_insert; lia).
    repeat case_decide; intros Hr; simplify_eq; eauto.
Qed.

Lemma le_flags_mark r s : le_flags (sflags s) (sflags (st_alter (withSorted true) r s)).
Proof.
  intros k. unfold sflags, view, view_of; simpl. rewrite <- !list_fmap_compose.
  rewrite !list_lookup_fmap. destruct (arr s !! k) as [r'|]; [|done]. simpl.
  rewrite deref_alter. repeat case_decide; subst; auto.
Qed.

Lemma flags_ok_markOne r s : flags_ok s -> flags_ok (st_alter (withSorted true) r s).
Proof. intros Hf. eapply chain_le; [exact Hf|apply le_flags_mark]. Qed.

(** [arr[k].isSorted = true] takes [k] out of the zone. *)
Lemma zone_mark (P P' : Z -> Prop) k r s :
  zone P s -> aget (arr s) k = Some r -> (forall k', P' k' -> P k' /\ k' <> k) ->
  zone P' (st_alter (withSorted true) r s).
Proof.
  intros (Hnd & Hf & Hz) Hr HP. split_and!; [done|by apply flags_ok_markOne|].
  intros k' r' [Hk' Hne]%HP Hr'. simpl in *.
  rewrite deref_alter. destruct (decide (r' = r)) as [->|]; [|by eapply Hz].
  exfalso. apply Hne.
  pose proof (aget_Some_range _ _ _ Hr). pose proof (aget_Some_range _ _ _ Hr').
  apply aget_lookup in Hr, Hr'.
  pose proof (NoDup_lookup _ _ _ _ Hnd Hr' Hr). lia.
Qed.

Lemma zone_init l : Forall unflagged l -> zone (fun _ => True) (init l).
Proof.
  intros Hl. split_and!.
  - simpl. apply NoDup_seq.
  - done.
  - intros k r _ Hr. simpl in *. by apply unflagged_deref.
Qed.

Ltac Z_tac :=
  repeat first
    [ eassumption
    | apply zone_alter; [intros []; reflexivity|]
    | apply zone_sleep | apply zone_publish ].
Ltac ZF_tac := first [ by Z_tac | by eapply zone_flags_ok; Z_tac ].


Section FlagProofs.
Variable cancel : option nat.
Variable n : nat.

Abbreviation keepsU m :=
  (forall s, U n s -> wp3 m (fun _ s' => U n s') (fun _ s' => U n s') (U n) s).

Lemma insertion_shift_U m key : keepsU (insertion_shift cancel m key).
Proof.
  induction m as [|m IH]; intros s HU; cbn [insertion_shift]; [by apply wp3_ret|].
  cbv zeta. do 2 (wp3_step ltac:(U_tac)). destruct (x >? _); [|by apply wp3_ret].
  do 3 (wp3_step ltac:(U_tac)). do 6 (wp3_step ltac:(U_tac)).
  apply IH. U_tac.
Qed.

Lemma insertion_pass_U i : keepsU (insertion_pass cancel i).
Proof.
  intros s HU. unfold insertion_pass. do 5 (wp3_step ltac:(U_tac)).
  apply wp3_bind. eapply wp3_mono; [apply insertion_shift_U; U_tac| |done|done].
  intros j s' HU'. wp3_U.
Qed.

Lemma insertionSort_flags s :
  U n s ->
  wp3 (insertionSort cancel) (fun _ s' => flags_ok s') (fun _ s' => flags_ok s') flags_ok s.
Proof.
  intros HU. unfold insertionSort. wp3_step ltac:(U_tac). apply wp3_bind.
  eapply wp3_mono with (Q := fun _ s' => U n s') (QR := fun _ s' => U n s') (QT := U n).
  - apply (wp3_for_loop (fun _ s' => U n s')); [done| |done].
    intros j s' _ HU'. by apply insertion_pass_U.
  - intros _ s' HU'. do 2 (wp3_step ltac:(U_tac)). by eapply flags_ok_mark.
  - intros _ s'. apply U_flags_ok.
  - intros s'. apply U_flags_ok.
Qed.

Lemma merge_both_U ls : forall rs k, keepsU (merge_both cancel ls rs k).
Proof.
  induction ls as [|l ls IHl]; intros rs; induction rs as [|r rs IHr]; intros k s HU;
    try (by apply wp3_ret).
  change (merge_both cancel (l :: ls) (r :: rs) k) with
    (check cancel tt ;;
     arrSetCompared k true ;;
     updateArray ;;
     sleep ;;
     a <- valueOf l ;;
     b <- valueOf r ;;
     if a <=? b then
       (o <- spreadSwapped l ;; store k o) ;;
       updateArray ;;
       sleep ;;
       arrSetCompared k false ;;
       arrSetSwapped k false ;;
       merge_both cancel ls (r :: rs) (k + 1)
     else
       (o <- spreadSwapped r ;; store k o) ;;
       updateArray ;;
       sleep ;;
       arrSetCompared k false ;;
       arrSetSwapped k false ;;
       merge_both cancel (l :: ls) rs (k + 1))%M.
  do 6 (wp3_step ltac:(U_tac)). destruct (_ <=? _).
  - do 5 (wp3_step ltac:(U_tac)). apply IHl. U_tac.
  - do 5 (wp3_step ltac:(U_tac)). apply IHr. U_tac.
Qed.

Lemma merge_rest_U xs : forall k, keepsU (merge_rest cancel xs k).
Proof.
  induction xs as [|x xs IH]; intros k s HU; [by apply wp3_ret|].
  cbn [merge_rest]. do 5 (wp3_step ltac:(U_tac)). apply IH. U_tac.
Qed.

(** [merge] up to its last statement. *)
Lemma merge_flags left mid right s :
  U n s ->
  wp3 (merge_ cancel left mid right)
    (fun _ s' => flags_ok s' /\ (~ (left = 0 /\ right = Z.of_nat n - 1) -> U n s'))
    (fun _ s' => U n s') (U n) s.
Proof.
  intros HU. unfold merge_. do 3 (wp3_step ltac:(U_tac)).
  apply wp3_bind. eapply wp3_mono; [apply merge_both_U; U_tac| |done|done].
  intros [[ls rs] k] s1 HU1. simpl.
  apply wp3_bind. eapply wp3_mono; [apply merge_rest_U; U_tac| |done|done].
  intros k1 s2 HU2. simpl.
  apply wp3_bind. eapply wp3_mono; [apply merge_rest_U; U_tac| |done|done].
  intros k2 s3 HU3. simpl.
  wp3_step ltac:(U_tac).
  destruct ((left =? 0) && (right =? Z.of_nat (length (arr s3)) - 1)) eqn:E.
  - do 2 (wp3_step ltac:(U_tac)). split; [exact (flags_ok_mark n s3 HU3)|].
    intros Hne. exfalso. apply Hne. destruct HU3 as (Hn & _). rewrite Hn in E.
    apply andb_true_iff in E as [E1 E2]. lia.
  - apply wp3_ret. split; [exact (U_flags_ok n s3 HU3)|done].
Qed.

Lemma mergeSort_rec_U fuel : forall left right,
  0 <= left -> right <= Z.of_nat n - 1 -> ~ (left = 0 /\ right = Z.of_nat n - 1) ->
  keepsU (mergeSort_ cancel fuel left right).
Proof.
  induction fuel as [|fuel IH]; intros left right Hl Hr Hne s HU; cbn [mergeSort_].
  - destruct (left <? right); [by apply wp3_throw|by apply wp3_ret].
  - destruct (Z.ltb_spec left right) as [Hlt|]; [|by apply wp3_ret]. cbv zeta.
    assert (left <= (left + right) / 2 < right) as Hmid.
    { split; [apply Z.div_le_lower_bound; lia|apply Z.div_lt_upper_bound; lia]. }
    apply (wp3_call_bind _ (fun _ => U n)); [apply IH; [lia|lia|lia|done]|].
    intros [] s1 HU1; cbv beta.
    apply (wp3_call_bind _ (fun _ => U n)); [apply IH; [lia|lia|lia|done]|].
    intros [] s2 HU2; cbv beta.
    apply wp3_call.
    eapply wp3_mono; [by apply merge_flags| |done|done].
    intros _ s3 [_ HU3]. by apply HU3.
Qed.

Lemma mergeSort_flags s :
  U n s ->
  wp3 (mergeSort cancel) (fun _ s' => flags_ok s') (fun _ s' => flags_ok s') flags_ok s.
Proof.
  intros HU. unfold mergeSort. wp3_step ltac:(U_tac).
  pose proof HU as (Hn & _). rewrite Hn.
  destruct (Z.to_nat (Z.of_nat n)) as [|fuel] eqn:Ef; cbn [mergeSort_].
  - destruct (Z.ltb_spec 0 (Z.of_nat n - 1)); [lia|]. apply wp3_ret. by eapply U_flags_ok.
  - destruct (Z.ltb_spec 0 (Z.of_nat n - 1)) as [Hlt|]; [|apply wp3_ret; by eapply U_flags_ok].
    cbv zeta.
    assert (0 <= (0 + (Z.of_nat n - 1)) / 2 < Z.of_nat n - 1) as Hmid.
    { split; [apply Z.div_le_lower_bound; lia|apply Z.div_lt_upper_bound; lia]. }
    apply (wp3_call_bind _ (fun _ => U n)).
    { eapply wp3_mono; [apply mergeSort_rec_U; [lia|lia|lia|done]|done|done|apply U_flags_ok]. }
    intros [] s1 HU1; cbv beta.
    apply (wp3_call_bind _ (fun _ => U n)).
    { eapply wp3_mono; [apply mergeSort_rec_U; [lia|lia|lia|done]|done|done|apply U_flags_ok]. }
    intros [] s2 HU2; cbv beta.
    apply wp3_call.
    eapply wp3_mono; [by apply merge_flags| | |].
    + intros ? s3 [H _]. exact H.
    + intros ? s3. apply U_flags_ok.
    + intros s3. apply U_flags_ok.
Qed.

Lemma partition_step_U pivot low j i s :
  U n s -> low - 1 <= i < j ->
  wp3 (partition_step cancel pivot low j i)
    (fun i' s' => U n s' /\ low - 1 <= i' < j + 1)
    (fun p s' => U n s' /\ p = low) (U n) s.
Proof.
  intros HU Hi. unfold partition_step.
  do 6 (wp3_step ltac:(try (split; [|lia]); U_tac)).
  apply wp3_bind. destruct (_ <? _).
  - do 9 (wp3_step ltac:(try (split; [|lia]); U_tac)). split; [U_tac|lia].
  - do 3 (wp3_step ltac:(try (split; [|lia]); U_tac)). split; [U_tac|lia].
Qed.

Lemma partition_U low high s :
  U n s -> low < high ->
  wp3 (partition cancel low high)
    (fun p s' => U n s' /\ low <= p <= high)
    (fun p s' => U n s' /\ low <= p <= high) (U n) s.
Proof.
  intros HU Hlt. unfold partition.
  do 5 (wp3_step ltac:(try (split; [|lia]); U_tac)).
  apply wp3_bind.
  apply (wp3_for_fold (fun j i s' => U n s' /\ low - 1 <= i < j)).
  - split; [U_tac|lia].
  - intros j i s' Hj [HU' Hi].
    eapply wp3_mono; [by apply partition_step_U|done| |done].
    intros p s'' [HU'' ->]. split; [done|lia].
  - intros i s' [HU' Hi]. cbv beta.
    do 10 (wp3_step ltac:(try (split; [|lia]); U_tac)). split; [U_tac|lia].
Qed.

Lemma quickSort_rec_U fuel : forall low high,
  0 <= low -> high <= Z.of_nat n - 1 -> ~ (low = 0 /\ high = Z.of_nat n - 1) ->
  keepsU (quickSort_ cancel fuel low high).
Proof.
  induction fuel as [|fuel IH]; intros low high Hl Hh Hne s HU; cbn [quickSort_].
  - apply wp3_bind. destruct (low <? high); [by apply wp3_throw|].
    apply wp3_ret. wp3_step ltac:(U_tac). destruct HU as (Hn & HU). rewrite Hn.
    destruct (Z.eqb_spec low 0), (Z.eqb_spec high (Z.of_nat n - 1)); simpl;
      first [lia | by apply wp3_ret].
  - apply wp3_bind.
    eapply wp3_mono with (Q := fun _ s' => U n s') (QR := fun _ s' => U n s') (QT := U n).
    + destruct (Z.ltb_spec low high) as [Hlt|]; [|by apply wp3_ret].
      apply (wp3_call_bind _ (fun p s' => U n s' /\ low <= p <= high));
        [by apply partition_U|].
      intros p s1 [HU1 Hp]. cbv beta.
      apply (wp3_call_bind _ (fun _ => U n)); [apply IH; [lia|lia|lia|done]|].
      intros [] s2 HU2; cbv beta.
      apply wp3_call. apply IH; [lia|lia|lia|done].
    + intros [] s' HU'. wp3_step ltac:(U_tac). pose proof HU' as (Hn & _). rewrite Hn.
      destruct (Z.eqb_spec low 0), (Z.eqb_spec high (Z.of_nat n - 1)); simpl;
        first [lia | by apply wp3_ret].
    + done.
    + done.
Qed.

Lemma quickSort_flags s :
  U n s ->
  wp3 (quickSort cancel) (fun _ s' => flags_ok s') (fun _ s' => flags_ok s') flags_ok s.
Proof.
  intros HU. unfold quickSort. wp3_step ltac:(U_tac).
  pose proof HU as (Hn & _). rewrite Hn.
  assert (forall s', U n s' ->
    wp3 (n0 <- arrLength ;;
         if (0 =? 0) && (Z.of_nat n - 1 =? n0 - 1) then markAllSorted ;; updateArray else ret tt)
      (fun _ s' => flags_ok s') (fun _ : unit => flags_ok) flags_ok s') as Hend.
  { intros s' HU'. wp3_step ltac:(U_tac). destruct (_ && _).
    - do 2 (wp3_step ltac:(U_tac)). by eapply flags_ok_mark.
    - apply wp3_ret. by eapply U_flags_ok. }
  destruct (Z.to_nat (Z.of_nat n)) as [|fuel] eqn:Ef; cbn [quickSort_].
  - apply wp3_bind. destruct (Z.ltb_spec 0 (Z.of_nat n - 1)); [lia|].
    apply wp3_ret. by apply Hend.
  - apply wp3_bind.
    eapply wp3_mono with (Q := fun _ s' => U n s') (QR := fun _ s' => U n s') (QT := U n).
    + destruct (Z.ltb_spec 0 (Z.of_nat n - 1)) as [Hlt|]; [|by apply wp3_ret].
      apply (wp3_call_bind _ (fun p s' => U n s' /\ 0 <= p <= Z.of_nat n - 1));
        [by apply partition_U|].
      intros p s1 [HU1 Hp]. cbv beta.
      apply (wp3_call_bind _ (fun _ => U n)); [apply quickSort_rec_U; [lia|lia|lia|done]|].
      intros [] s2 HU2; cbv beta.
      apply wp3_call. apply quickSort_rec_U; [lia|lia|lia|done].
    + intros [] s' HU'. by apply Hend.
    + intros ? s'. apply U_flags_ok.
    + intros s'. apply U_flags_ok.
Qed.

Lemma bubble_step_Z (P : Z -> Prop) j s :
  zone P s -> P j -> P (j + 1) ->
  wp3 (bubble_step cancel j) (fun _ s' => zone P s') (fun _ s' => zone P s') (zone P) s.
Proof.
  intros HZ Hj Hj1. unfold bubble_step.
  do 7 (wp3_step ltac:(Z_tac)). apply wp3_bind. destruct (_ >? _).
  - wp3_step ltac:(Z_tac).
    assert (zone P (st_store (Z.to_nat (j + 1)) ri (st_store (Z.to_nat j) rj
              (st_sleep (st_publish (st_alter (withCompared true) r0
                 (st_alter (withCompared true) r s))))))) as HZ'.
    { apply zone_swap; [Z_tac|done|done|done|done]. }
    do 8 (wp3_step ltac:(Z_tac)). Z_tac.
  - do 5 (wp3_step ltac:(Z_tac)). Z_tac.
Qed.

Lemma bubble_pass_Z nz i s :
  zone (fun k => k < nz - i) s ->
  wp3 (bubble_pass cancel nz i) (fun _ s' => zone (fun k => k < nz - (i + 1)) s')
    (fun _ s' => flags_ok s') flags_ok s.
Proof.
  intros HZ. unfold bubble_pass. apply wp3_bind.
  apply (wp3_for_loop (fun _ s' => zone (fun k => k < nz - i) s')); [done| |].
  - intros j s' Hj HZ'.
    eapply wp3_mono; [apply bubble_step_Z; [done|simpl; lia|simpl; lia]|done| |];
      intros; cbv beta in *; by eapply zone_flags_ok.
  - intros s' HZ'. wp3_step ltac:(ZF_tac). wp3_step ltac:(ZF_tac).
    apply zone_publish. eapply zone_mark; [done|done|]. intros k' Hk'. simpl in *. lia.
Qed.

Lemma bubbleSort_flags s :
  zone (fun _ => True) s ->
  wp3 (bubbleSort cancel) (fun _ s' => flags_ok s') (fun _ s' => flags_ok s') flags_ok s.
Proof.
  intros HZ. unfold bubbleSort. wp3_step ltac:(ZF_tac).
  set (nz := Z.of_nat (length (arr s))). apply wp3_bind.
  apply (wp3_for_loop (fun i s' => zone (fun k => k < nz - i) s')).
  - eapply zone_weaken; [|exact HZ]. done.
  - intros i s' Hi HZ'. by apply bubble_pass_Z.
  - intros s' HZ'. wp3_step ltac:(ZF_tac). wp3_step ltac:(ZF_tac).
    eapply zone_flags_ok, zone_publish, (zone_mark _ (fun _ => False)); [done|done|done].
Qed.

Lemma selection_step_Z (P : Z -> Prop) j m s :
  zone P s ->
  wp3 (selection_step cancel j m) (fun m' s' => zone P s' /\ (m' = j \/ m' = m))
    (fun _ s' => zone P s') (zone P) s.
Proof.
  intros HZ. unfold selection_step.
  do 6 (wp3_step ltac:(Z_tac)). apply wp3_bind. destruct (_ <? _).
  - do 5 (wp3_step ltac:(Z_tac)). split; [Z_tac|by left].
  - do 4 (wp3_step ltac:(Z_tac)). split; [Z_tac|by right].
Qed.

Lemma selection_pass_Z nz i s :
  zone (fun k => i <= k) s ->
  wp3 (selection_pass cancel nz i) (fun _ s' => zone (fun k => i + 1 <= k) s')
    (fun _ s' => flags_ok s') flags_ok s.
Proof.
  intros HZ. unfold selection_pass. wp3_step ltac:(ZF_tac). apply wp3_bind.
  apply (wp3_for_fold (fun j m s' => zone (fun k => i <= k) s' /\ i <= m)).
  - split; [Z_tac|lia].
  - intros j m s' Hj [HZ' Hm].
    eapply wp3_mono; [by apply selection_step_Z| | |].
    + intros m' s'' [HZ'' Hm']. split; [done|lia].
    + intros; cbv beta in *; by eapply zone_flags_ok.
    + intros; cbv beta in *; by eapply zone_flags_ok.
  - intros m s' [HZ' Hm]. cbv beta. apply wp3_bind.
    eapply wp3_mono with (Q := fun _ s'' => zone (fun k => i <= k) s'')
                         (QR := fun _ s'' => flags_ok s'') (QT := flags_ok).
    + destruct (negb _); [|by apply wp3_ret].
      wp3_step ltac:(ZF_tac).
      assert (zone (fun k => i <= k) (st_store (Z.to_nat m) ri (st_store (Z.to_nat i) rj s')))
        as HZ''.
      { apply zone_swap; [done|simpl; lia|simpl; lia|done|done]. }
      do 5 (wp3_step ltac:(ZF_tac)). Z_tac.
    + intros [] s'' HZ''. do 4 (wp3_step ltac:(ZF_tac)).
      apply zone_publish. eapply zone_mark; [Z_tac|done|]. intros k' Hk'. simpl in *. lia.
    + done.
    + done.
Qed.

Lemma selectionSort_flags s :
  zone (fun _ => True) s ->
  wp3 (selectionSort cancel) (fun _ s' => flags_ok s') (fun _ s' => flags_ok s') flags_ok s.
Proof.
  intros HZ. unfold selectionSort. wp3_step ltac:(ZF_tac).
  set (nz := Z.of_nat (length (arr s))). apply wp3_bind.
  apply (wp3_for_loop (fun i s' => zone (fun k => i <= k) s')).
  - eapply zone_weaken; [|exact HZ]. done.
  - intros i s' Hi HZ'. by apply selection_pass_Z.
  - intros s' HZ'. wp3_step ltac:(ZF_tac). wp3_step ltac:(ZF_tac).
    eapply zone_flags_ok, zone_publish, (zone_mark _ (fun _ => False)); [done|done|done].
Qed.


End FlagProofs.


(** ** The run controller *)

(** The array shown after a run started on [array]: the argument of the
    last [setArray] call, if there was one. *)
Definition rendered (array : list ArrayElement) (s : state) : list ArrayElement :=
  match published s with
  | (_, snap) :: _ => snap
  | [] => array
  end.

Lemma rendered_view array s : synced s \/ s = init array -> rendered array s = view s.
Proof.
  unfold rendered. intros [(t & rest & ->)| ->]; [done|]. simpl. by rewrite view_init.
Qed.

(** ** Stopping a run *)

(** [stopSorting]: the argument of its [setArray] call, applied to the
    array on display. *)
Definition stopSorting (prev : list ArrayElement) : list ArrayElement :=
  (fun el => withSwapped false (withCompared false el)) <$> prev.

(** ** The history of the sorted flags *)

(** The [isSorted] flags of the arrays handed to [setArray] during a run,
    oldest first, followed by those of the array the engine ends with. *)
Definition flag_history (s : state) : list (list bool) :=
  reverse ((fun sn : snapshot => isSorted <$> sn.2) <$> published s) ++ [sflags s].

(** A position marked at some point of the history is marked at every
    later point. *)
Definition monotone_flags (h : list (list bool)) : Prop :=
  forall a b fa fb k, (a <= b)%nat -> h !! a = Some fa -> h !! b = Some fb ->
    fa !! k = Some true -> fb !! k = Some true.

Lemma monotone_flags_snoc h x y :
  monotone_flags (h ++ [x]) -> le_flags x y -> monotone_flags ((h ++ [x]) ++ [y]).
Proof.
  intros Hm Hle a b fa fb k Hab Ha Hb Hk.
  assert (length (h ++ [x]) = S (length h)) as Hlen by (rewrite length_app; simpl; lia).
  destruct (decide (b < length (h ++ [x]))%nat) as [Hb'|Hb'].
  - rewrite lookup_app_l in Ha, Hb by lia. exact (Hm a b fa fb k Hab Ha Hb Hk).
  - pose proof (lookup_lt_Some _ _ _ Hb) as Hb2. rewrite length_app in Hb2; simpl in Hb2.
    assert (b = length (h ++ [x])) as -> by lia.
    rewrite list_lookup_middle in Hb by done. injection Hb as <-.
    destruct (decide (a = length (h ++ [x]))) as [->|Hne].
    + rewrite list_lookup_middle in Ha by done. by injection Ha as <-.
    + rewrite lookup_app_l in Ha by lia. apply Hle.
      eapply (Hm a (length h)); [lia|exact Ha| |exact Hk].
      by rewrite list_lookup_middle.
Qed.

Lemma chain_monotone log cur :
  chain log cur ->
  monotone_flags (reverse ((fun sn : snapshot => isSorted <$> sn.2) <$> log) ++ [cur]).
Proof.
  revert cur. induction log as [|sn log IH]; intros cur Hc.
  - intros a b fa fb k Hab Ha Hb Hk.
    change ([cur] !! a = Some fa) in Ha. change ([cur] !! b = Some fb) in Hb.
    destruct a as [|a], b as [|b]; simpl in *; rewrite ?lookup_nil in *;
      first [lia | congruence].
  - destruct Hc as [Hle Hc]. rewrite fmap_cons, reverse_cons.
    apply monotone_flags_snoc; [by apply IH|done].
Qed.

Lemma flags_ok_monotone s : flags_ok s -> monotone_flags (flag_history s).
Proof. apply chain_monotone. Qed.

Lemma U_init l : Forall unflagged l -> U (length l) (init l).
Proof.
  intros Hl. split_and!; [apply length_arr_init|done|]. by apply Forall_nil.
Qed.

Lemma wp3_call_final (m : M unit unit) (P : state -> Prop) s :
  wp3 m (fun _ s' => P s') (fun _ s' => P s') P s -> P (final (call (R' := unit) m s)).
Proof. unfold wp3, call. by destruct (m s). Qed.

Lemma sort_flags_ok cancel alg l :
  Forall unflagged l -> flags_ok (final (sort cancel alg (init l))).
Proof.
  intros Hl. destruct alg; simpl; apply wp3_call_final.
  - by apply bubbleSort_flags, zone_init.
  - by apply selectionSort_flags, zone_init.
  - by eapply insertionSort_flags, U_init.
  - by eapply mergeSort_flags, U_init.
  - by eapply quickSort_flags, U_init.
Qed.





(** ** Quick sort under cancellation *)

Section CancelProofs.
Variable cancel : option nat.
Variable n : Z.

Definition has_length (s : state) : Prop := wf s /\ Z.of_nat (length (arr s)) = n.

Ltac wf_keep :=
  repeat first
    [ assumption | apply wf_alter | apply wf_publish | apply wf_sleep
    | eapply wf_swap; [ | eassumption | eassumption ] ].
Ltac len_tac := cbv beta; unfold has_length; split; [split; [wf_keep | st_norm; lia] | try lia].

Lemma partition_step_len pivot low high j i s :
  has_length s -> 0 <= low -> low - 1 <= i < j -> j < high < n ->
  wp (partition_step cancel pivot low j i)
     (fun i' s' => has_length s' /\ low - 1 <= i' < j + 1)
     (fun p s' => has_length s' /\ p = low) s.
Proof.
  intros [Hwf Hn] Hl Hi Hj. unfold partition_step.
  wp_step; [|by len_tac]. do 5 wp_step. apply wp_bind. destruct (_ <? _).
  - repeat wp_step. len_tac.
  - repeat wp_step. len_tac.
Qed.

Lemma partition_len low high s :
  has_length s -> 0 <= low -> low < high < n ->
  wp (partition cancel low high)
     (fun p s' => has_length s' /\ low <= p <= high)
     (fun p s' => has_length s' /\ low <= p <= high) s.
Proof.
  intros [Hwf Hn] Hl Hh. unfold partition.
  wp_step; [|by len_tac]. do 4 wp_step. apply wp_bind.
  apply (wp_for_fold (fun j i s' => has_length s' /\ low - 1 <= i < j)); [lia| | |].
  - len_tac.
  - intros j i s' Hj [Hn' Hi].
    eapply wp_mono; [apply (partition_step_len _ low high); [done|lia|lia|lia]|done|].
    intros p s'' [Hn'' ->]. split; [done|lia].
  - intros i s' [[Hwf' Hn'] Hi].
    repeat wp_step. len_tac.
Qed.

Definition all_marked (s : state) : Prop :=
  Forall (fun e => isSorted e = true) (view s) /\
  exists rest, published s = (sleeps s, view s) :: rest.

Lemma quickSort_end low high s :
  has_length s ->
  wp (n0 <- arrLength ;;
      if (low =? 0) && (high =? n0 - 1) then markAllSorted ;; updateArray else ret tt)
     (fun _ s' => has_length s' /\ (low = 0 -> high = n - 1 -> all_marked s'))
     (fun (_ : unit) _ => False) s.
Proof.
  intros [Hwf Hn]. wp_step. rewrite Hn.
  destruct (Z.eqb_spec low 0), (Z.eqb_spec high (n - 1)); simpl;
    [|apply wp_ret; cbv beta; split; [done|lia]..].
  do 2 wp_step. cbv beta. split; [split; [by apply wf_publish, wf_markAll|done]|].
  intros _ _. split; [by apply view_markAll_sorted|]. by eexists.
Qed.

Lemma quickSort_rec_len fuel : forall low high s,
  has_length s -> 0 <= low -> high < n -> high - low <= Z.of_nat fuel ->
  wp (quickSort_ cancel fuel low high)
     (fun _ s' => has_length s' /\ (low = 0 -> high = n - 1 -> all_marked s'))
     (fun _ _ => False) s.
Proof.
  induction fuel as [|fuel IH]; intros low high s Hn Hl Hh Hf; cbn [quickSort_].
  - apply wp_bind. destruct (Z.ltb_spec low high); [lia|]. apply wp_ret.
    by apply quickSort_end.
  - apply wp_bind.
    eapply wp_mono with (Q := fun _ s' => has_length s') (QR := fun _ _ => False);
      [|intros [] s' Hn'; by apply quickSort_end|done].
    destruct (Z.ltb_spec low high) as [Hlt|]; [|by apply wp_ret].
    apply (wp_call_bind _ (fun p s' => has_length s' /\ low <= p <= high));
      [by apply partition_len|].
    intros p s1 [Hn1 Hp]. cbv beta.
    apply (wp_call_bind _ (fun _ s' => has_length s')).
    { eapply wp_mono; [apply (IH low (p - 1)); [done|lia|lia|lia]|..].
      - intros ? s' [H _]. exact H.
      - done. }
    intros [] s2 Hn2. cbv beta.
    apply wp_call.
    eapply wp_mono; [apply (IH (p + 1) high); [done|lia|lia|lia]|..].
    + intros ? s' [H _]. exact H.
    + done.
Qed.

End CancelProofs.

Lemma quickSort_marks cancel (l : list ArrayElement) :
  exists s', sort cancel quick (init l) = Val tt s' /\ all_marked s'.
Proof.
  assert (wp (quickSort cancel)
            (fun _ s' => all_marked s') (fun (_ : unit) _ => False) (init l)) as H.
  { unfold quickSort. wp_step. rewrite length_arr_init.
    eapply wp_mono; [apply (quickSort_rec_len cancel (Z.of_nat (length l)))| |done].
    - split; [apply wf_init|by rewrite length_arr_init].
    - lia.
    - lia.
    - lia.
    - intros [] s' [_ Hm]. apply Hm; [done|lia]. }
  apply wp_val_noret in H as ([] & s' & Hr & Hm).
  exists s'. split; [|done]. simpl. by apply call_val.
Qed.


(** Cancelled before its first check, [mergeSort] does nothing at all: the
    recursion runs down to the single elements and every [merge] returns at
    its first statement. *)
Lemma mergeSort_rec_idle fuel : forall left right s,
  right - left <= Z.of_nat fuel ->
  mergeSort_ (Some 0%nat) fuel left right s = Val tt s.
Proof.
  induction fuel as [|fuel IH]; intros left right s Hf; cbn [mergeSort_];
    destruct (Z.ltb_spec left right) as [Hlt|Hge]; try done; [lia|].
  assert (left <= (left + right) / 2 < right)
    by (split; [apply Z.div_le_lower_bound|apply Z.div_lt_upper_bound]; lia).
  unfold bind, call. rewrite !IH by lia. reflexivity.
Qed.

Lemma mergeSort_idle (l : list ArrayElement) :
  sort (Some 0%nat) merge (init l) = Val tt (init l).
Proof.
  cbn [sort]. unfold call, mergeSort, bind, arrLength.
  rewrite mergeSort_rec_idle; [done|]. lia.
Qed.



(** ** Complete runs *)

(** C1.  Each of the five sorting variants, run without cancellation on
    any array, leaves the array with its values in non-decreasing order and
    a permutation of the input values, and the array shown last is that
    array.  The run completes, except that [bubbleSort] and [selectionSort]
    throw on the empty array before doing anything (an input on which
    [startSorting] does not call them). *)
Theorem sorts_sorted_permutation (alg : SortingAlgorithm) (l : list ArrayElement) :
  let r := sort None alg (init l) in
  Sorted Z.le (vals (final r)) /\
  vals (final r) ≡ₚ value <$> l /\
  rendered l (final r) = view (final r) /\
  (completes r = true \/ l = [] /\ r = Throw TypeError (init [])).
Proof.
  destruct (decide (l = [])) as [->|Hne].
  - destruct alg; vm_compute;
      (split; [constructor|]; split; [constructor|]; split; [reflexivity|]);
      first [left; reflexivity | right; split; reflexivity].
  - destruct (sort_ok alg l Hne) as (s' & Hr & Hs & Hp & Hsync).
    cbv zeta. rewrite Hr. simpl. split_and!; [done|done| |by left].
    by apply rendered_view.
Qed.



(** ** Winding down after cancellation *)

Lemma wf_store k r s : wf s -> (r < length (heap s))%nat -> wf (st_store k r s).
Proof. intros Hwf Hr. unfold wf in *; simpl. by apply Forall_insert. Qed.

Lemma wf_put k e s : wf s -> wf (st_store k (length (heap s)) (st_alloc e s)).
Proof.
  intros Hwf. apply wf_store.
  - unfold wf in *; simpl. rewrite length_app; simpl.
    eapply Forall_impl; [exact Hwf|]. simpl. lia.
  - simpl. rewrite length_app; simpl. lia.
Qed.

Ltac wf_solve :=
  repeat first
    [ assumption | simple apply wf_alter | simple apply wf_publish | simple apply wf_sleep
    | simple apply wf_markAll
    | match goal with |- wf (st_store _ _ (st_alloc _ _)) => apply wf_put end
    | match goal with |- wf (st_put _ _ _) => apply wf_put end
    | simple eapply wf_swap; [ | eassumption | eassumption ]
    | simple apply wf_store; [ | eapply wf_aget; [ | eassumption ] ] ].

Section WindDown.
Variable c : nat.
Variable n : Z.

(** The array has its [n] elements, and at most [b] suspensions have
    completed after the [c]-th, the one during which the flag was cleared. *)
Definition calm (b : nat) (s : state) : Prop :=
  has_length n s /\ (sleeps s <= c + b)%nat.

Lemma calm_weaken b b' s : (b <= b')%nat -> calm b s -> calm b' s.
Proof. intros Hb [Hn Hs]. split; [done|lia]. Qed.

Ltac running :=
  repeat match goal with
         | H : isRunning (Some _) _ = true |- _ => unfold isRunning in H; apply Nat.ltb_lt in H
         end.
Ltac calm_tac :=
  running; cbv beta; unfold calm, has_length; st_cbn;
  repeat split; first [ by wf_solve | st_norm; lia ].

Lemma bubble_step_calm j s :
  calm 1 s -> 0 <= j -> j + 1 < n ->
  wp (bubble_step (Some c) j) (fun _ s' => calm 1 s') (fun _ s' => calm 1 s') s.
Proof.
  intros [[Hwf Hn] Hs] Hj Hj1. unfold bubble_step.
  wp_step; [|done]. do 6 wp_step. apply wp_bind. destruct (_ >? _).
  - repeat wp_step. calm_tac.
  - repeat wp_step. calm_tac.
Qed.

Lemma bubble_pass_calm i s :
  calm 1 s -> 0 <= i < n - 1 ->
  wp (bubble_pass (Some c) n i) (fun _ s' => calm 1 s') (fun _ s' => calm 1 s') s.
Proof.
  intros Hc Hi. unfold bubble_pass. apply wp_bind.
  apply (wp_for_loop (fun _ s' => calm 1 s')); [lia|done| |].
  - intros j s' Hj Hc'. apply bubble_step_calm; [done|lia|lia].
  - intros s' [[Hwf Hn] Hs]. repeat wp_step. calm_tac.
Qed.

Lemma bubbleSort_calm s :
  calm 1 s -> 0 < n ->
  wp (bubbleSort (Some c)) (fun _ s' => calm 1 s') (fun _ s' => calm 1 s') s.
Proof.
  intros Hc Hn0. unfold bubbleSort. wp_step. destruct Hc as [[Hwf Hn] Hs]. rewrite Hn.
  apply wp_bind. apply (wp_for_loop (fun _ s' => calm 1 s')); [lia|done| |].
  - intros i s' Hi Hc'. by apply bubble_pass_calm.
  - intros s' [[Hwf' Hn'] Hs']. repeat wp_step. calm_tac.
Qed.

Lemma selection_step_calm i j minIdx s :
  calm 1 s -> 0 <= i <= minIdx -> minIdx < j < n ->
  wp (selection_step (Some c) j minIdx)
     (fun m s' => calm 0 s' /\ i <= m < j + 1) (fun _ s' => calm 1 s') s.
Proof.
  intros [[Hwf Hn] Hs] Hi Hj. unfold selection_step.
  wp_step; [|done]. do 5 wp_step. apply wp_bind. destruct (_ <? _).
  - repeat wp_step. calm_tac.
  - repeat wp_step. calm_tac.
Qed.

Lemma selection_pass_calm i s :
  calm 1 s -> 0 <= i < n - 1 ->
  wp (selection_pass (Some c) n i) (fun _ s' => calm 1 s') (fun _ s' => calm 1 s') s.
Proof.
  intros [[Hwf Hn] Hs] Hi. unfold selection_pass. wp_step. apply wp_bind.
  apply (wp_for_fold (fun j m s' => calm 1 s' /\ i <= m < j /\
                                    (i + 1 < j -> (sleeps s' <= c)%nat))); [lia| | |].
  - split; [calm_tac|lia].
  - intros j m s' Hj (Hc' & Hm & _).
    eapply wp_mono; [apply (selection_step_calm i); [done|lia|lia]| |done].
    intros m' s'' [[Hl Hs''] Hm']. split; [split; [done|lia]|]. split; [lia|]. intros _. lia.
  - intros m s' ([[Hwf' Hn'] _] & Hm & Hs'). specialize (Hs' ltac:(lia)).
    apply wp_bind. destruct (negb (m =? i)).
    + repeat wp_step. calm_tac.
    + repeat wp_step. calm_tac.
Qed.

Lemma selectionSort_calm s :
  calm 1 s -> 0 < n ->
  wp (selectionSort (Some c)) (fun _ s' => calm 1 s') (fun _ s' => calm 1 s') s.
Proof.
  intros Hc Hn0. unfold selectionSort. wp_step. destruct Hc as [[Hwf Hn] Hs]. rewrite Hn.
  apply wp_bind. apply (wp_for_loop (fun _ s' => calm 1 s')); [lia|done| |].
  - intros i s' Hi Hc'. by apply selection_pass_calm.
  - intros s' [[Hwf' Hn'] Hs']. repeat wp_step. calm_tac.
Qed.

Lemma insertion_shift_calm key m : forall s,
  calm 0 s -> Z.of_nat m < n -> (key < length (heap s))%nat ->
  wp (insertion_shift (Some c) m key)
     (fun j s' => calm 0 s' /\ -1 <= j < Z.of_nat m /\ (key < length (heap s'))%nat)
     (fun _ s' => calm 0 s') s.
Proof.
  induction m as [|m IH]; intros s [[Hwf Hn] Hs] Hm Hkey; cbn [insertion_shift].
  - apply wp_ret. split; [done|]. split; [lia|done].
  - do 2 wp_step. destruct (_ >? _); [|apply wp_ret; split; [done|]; split; [lia|done]].
    wp_step; [|done]. do 8 wp_step.
    eapply wp_mono; [apply IH| |done].
    + calm_tac.
    + lia.
    + st_cbn. by rewrite !length_alter.
    + intros j s' (Hc' & Hj & Hk'). split; [done|]. split; [lia|done].
Qed.

Lemma insertion_pass_calm i s :
  calm 0 s -> 1 <= i < n ->
  wp (insertion_pass (Some c) i) (fun _ s' => calm 0 s') (fun _ s' => calm 0 s') s.
Proof.
  intros [[Hwf Hn] Hs] Hi. unfold insertion_pass.
  wp_step; [|done]. do 4 wp_step. apply wp_bind.
  eapply wp_mono; [apply (insertion_shift_calm r)| |done].
  - calm_tac.
  - lia.
  - st_cbn. rewrite length_alter. by eapply wf_aget.
  - intros j s' ([[Hwf' Hn'] Hs'] & Hj & Hk). repeat wp_step.
    unfold calm, has_length. st_cbn. repeat split; [|st_norm; lia|lia].
    apply wf_publish, wf_alter. by apply wf_store.
Qed.

Lemma insertionSort_calm s :
  calm 0 s -> 0 < n ->
  wp (insertionSort (Some c)) (fun _ s' => calm 0 s') (fun _ s' => calm 0 s') s.
Proof.
  intros Hc Hn0. unfold insertionSort. wp_step. destruct Hc as [[Hwf Hn] Hs]. rewrite Hn.
  apply wp_bind. apply (wp_for_loop (fun _ s' => calm 0 s')); [lia|done| |].
  - intros i s' Hi Hc'. by apply insertion_pass_calm.
  - intros s' [[Hwf' Hn'] Hs']. repeat wp_step. calm_tac.
Qed.

Lemma merge_both_calm ls : forall rs k s,
  calm 1 s -> 0 <= k -> k + Z.of_nat (length ls) + Z.of_nat (length rs) <= n ->
  wp (merge_both (Some c) ls rs k)
     (fun r s' => calm 1 s' /\ k <= r.2 /\
                  r.2 + Z.of_nat (length r.1.1) + Z.of_nat (length r.1.2) =
                    k + Z.of_nat (length ls) + Z.of_nat (length rs))
     (fun _ s' => calm 1 s') s.
Proof.
  induction ls as [|l ls IHl]; intros rs; induction rs as [|r rs IHr];
    intros k s [[Hwf Hn] Hs] Hk Hlen;
    try (apply wp_ret; cbn [fst snd]; split; [done|lia]).
  change (merge_both (Some c) (l :: ls) (r :: rs) k) with
    (check (Some c) tt ;;
     arrSetCompared k true ;;
     updateArray ;;
     sleep ;;
     a <- valueOf l ;;
     b <- valueOf r ;;
     if a <=? b then
       (o <- spreadSwapped l ;; store k o) ;;
       updateArray ;;
       sleep ;;
       arrSetCompared k false ;;
       arrSetSwapped k false ;;
       merge_both (Some c) ls (r :: rs) (k + 1)
     else
       (o <- spreadSwapped r ;; store k o) ;;
       updateArray ;;
       sleep ;;
       arrSetCompared k false ;;
       arrSetSwapped k false ;;
       merge_both (Some c) (l :: ls) rs (k + 1))%M.
  cbn [length] in Hlen.
  wp_step; [|done]. do 5 wp_step. destruct (_ <=? _).
  - do 6 wp_step.
    eapply wp_mono; [apply IHl; [calm_tac|lia|cbn [length]; lia]| |done].
    intros [[ls' rs'] k'] s' (Hc' & Hk' & Hl'). cbn [fst snd length] in *.
    split; [done|lia].
  - do 6 wp_step.
    eapply wp_mono; [apply IHr; [calm_tac|lia|cbn [length]; lia]| |done].
    intros [[ls' rs'] k'] s' (Hc' & Hk' & Hl'). cbn [fst snd length] in *.
    split; [done|lia].
Qed.

Lemma merge_rest_calm xs : forall k s,
  calm 1 s -> 0 <= k -> k + Z.of_nat (length xs) <= n ->
  wp (merge_rest (Some c) xs k)
     (fun k' s' => calm 1 s' /\ k' = k + Z.of_nat (length xs)) (fun _ s' => calm 1 s') s.
Proof.
  induction xs as [|x xs IH]; intros k s [[Hwf Hn] Hs] Hk Hlen; cbn [merge_rest length] in *.
  - apply wp_ret. split; [done|lia].
  - wp_step; [|done]. do 5 wp_step.
    eapply wp_mono; [apply IH; [calm_tac|lia|lia]| |done].
    intros k' s' [Hc' ->]. split; [done|lia].
Qed.

Lemma length_slice {A} (l : list A) a b :
  0 <= a <= b -> b <= Z.of_nat (length l) -> Z.of_nat (length (slice l a b)) = b - a.
Proof.
  intros Ha Hb. rewrite slice_take_drop by done. rewrite length_take, length_drop. lia.
Qed.

Lemma merge_calm left mid right s :
  calm 1 s -> 0 <= left <= mid -> mid < right < n ->
  wp (merge_ (Some c) left mid right) (fun _ s' => calm 1 s') (fun _ s' => calm 1 s') s.
Proof.
  intros [[Hwf Hn] Hs] Hl Hr. unfold merge_. wp_step; [|done]. do 2 wp_step.
  pose proof (length_slice (arr s) left (mid + 1) ltac:(lia) ltac:(lia)) as Hll.
  pose proof (length_slice (arr s) (mid + 1) (right + 1) ltac:(lia) ltac:(lia)) as Hlr.
  apply wp_bind. eapply wp_mono; [apply merge_both_calm; [done|lia|lia]| |done].
  intros [[ls rs] k] s1 (Hc1 & Hk1 & Hl1). cbn [fst snd] in *.
  apply wp_bind. eapply wp_mono; [apply merge_rest_calm; [done|lia|lia]| |done].
  intros k2 s2 [Hc2 ->]. cbv beta.
  apply wp_bind. eapply wp_mono; [apply merge_rest_calm; [done|lia|lia]| |done].
  intros k3 s3 [[[Hwf3 Hn3] Hs3] ->]. cbv beta.
  wp_step. destruct (_ && _).
  - repeat wp_step. calm_tac.
  - apply wp_ret. calm_tac.
Qed.

Lemma mergeSort_rec_calm fuel : forall left right s,
  calm 1 s -> 0 <= left -> right < n -> right - left <= Z.of_nat fuel ->
  wp (mergeSort_ (Some c) fuel left right) (fun _ s' => calm 1 s') (fun _ s' => calm 1 s') s.
Proof.
  induction fuel as [|fuel IH]; intros left right s Hc Hl Hr Hf; cbn [mergeSort_].
  - destruct (Z.ltb_spec left right); [lia|]. by apply wp_ret.
  - destruct (Z.ltb_spec left right) as [Hlt|]; [|by apply wp_ret]. cbv zeta.
    assert (left <= (left + right) / 2 < right) as Hmid.
    { split; [apply Z.div_le_lower_bound; lia|apply Z.div_lt_upper_bound; lia]. }
    apply (wp_call_bind _ (fun _ s' => calm 1 s')); [apply IH; [done|lia|lia|lia]|].
    intros [] s1 Hc1; cbv beta.
    apply (wp_call_bind _ (fun _ s' => calm 1 s')); [apply IH; [done|lia|lia|lia]|].
    intros [] s2 Hc2; cbv beta.
    apply wp_call. apply merge_calm; [done|lia|lia].
Qed.

Lemma mergeSort_calm s :
  calm 1 s ->
  wp (mergeSort (Some c)) (fun _ s' => calm 1 s') (fun _ s' => calm 1 s') s.
Proof.
  intros Hc. unfold mergeSort. wp_step. pose proof Hc as [[Hwf Hn] Hs]. rewrite Hn.
  apply mergeSort_rec_calm; [done|lia|lia|lia].
Qed.

Lemma partition_step_calm pivot low high j i s :
  calm 1 s -> 0 <= low -> low - 1 <= i < j -> j < high < n ->
  wp (partition_step (Some c) pivot low j i)
     (fun i' s' => calm 1 s' /\ low - 1 <= i' < j + 1)
     (fun p s' => calm 1 s' /\ p = low) s.
Proof.
  intros [[Hwf Hn] Hs] Hl Hi Hj. unfold partition_step.
  wp_step; [|done]. do 5 wp_step. apply wp_bind. destruct (_ <? _).
  - repeat wp_step. calm_tac.
  - repeat wp_step. calm_tac.
Qed.

Lemma partition_calm low high s :
  calm 2 s -> 0 <= low -> low < high < n ->
  wp (partition (Some c) low high)
     (fun p s' => calm 2 s' /\ low <= p <= high)
     (fun p s' => calm 2 s' /\ low <= p <= high) s.
Proof.
  intros [[Hwf Hn] Hs] Hl Hh. unfold partition.
  wp_step; [|split; [done|lia]]. do 4 wp_step. apply wp_bind.
  apply (wp_for_fold (fun j i s' => calm 1 s' /\ low - 1 <= i < j)); [lia| | |].
  - calm_tac.
  - intros j i s' Hj [Hc' Hi].
    eapply wp_mono; [apply (partition_step_calm _ low high); [done|lia|lia|lia]|done|].
    intros p s'' [Hc'' ->]. split; [apply (calm_weaken 1); [lia|done]|lia].
  - intros i s' [[[Hwf' Hn'] Hs'] Hi].
    repeat wp_step. calm_tac.
Qed.

Lemma quickSort_end_calm low high s :
  calm 2 s ->
  wp (n0 <- arrLength ;;
      if (low =? 0) && (high =? n0 - 1) then markAllSorted ;; updateArray else ret tt)
     (fun _ s' => calm 2 s') (fun (_ : unit) s' => calm 2 s') s.
Proof.
  intros [[Hwf Hn] Hs]. wp_step. destruct (_ && _).
  - repeat wp_step. calm_tac.
  - apply wp_ret. calm_tac.
Qed.

Lemma quickSort_rec_calm fuel : forall low high s,
  calm 2 s -> 0 <= low -> high < n -> high - low <= Z.of_nat fuel ->
  wp (quickSort_ (Some c) fuel low high) (fun _ s' => calm 2 s') (fun _ s' => calm 2 s') s.
Proof.
  induction fuel as [|fuel IH]; intros low high s Hc Hl Hh Hf; cbn [quickSort_].
  - apply wp_bind. destruct (Z.ltb_spec low high); [lia|]. apply wp_ret.
    by apply quickSort_end_calm.
  - apply wp_bind.
    eapply wp_mono with (Q := fun _ s' => calm 2 s') (QR := fun _ s' => calm 2 s');
      [|intros [] s' Hc'; by apply quickSort_end_calm|done].
    destruct (Z.ltb_spec low high) as [Hlt|]; [|by apply wp_ret].
    apply (wp_call_bind _ (fun p s' => calm 2 s' /\ low <= p <= high));
      [by apply partition_calm|].
    intros p s1 [Hc1 Hp]. cbv beta.
    apply (wp_call_bind _ (fun _ s' => calm 2 s')); [apply IH; [done|lia|lia|lia]|].
    intros [] s2 Hc2. cbv beta.
    apply wp_call. apply IH; [done|lia|lia|lia].
Qed.

Lemma quickSort_calm s :
  calm 2 s ->
  wp (quickSort (Some c)) (fun _ s' => calm 2 s') (fun _ s' => calm 2 s') s.
Proof.
  intros Hc. unfold quickSort. wp_step. pose proof Hc as [[Hwf Hn] Hs]. rewrite Hn.
  apply quickSort_rec_calm; [done|lia|lia|lia].
Qed.

End WindDown.

(** The number of suspensions that an algorithm can still complete after
    the one during which the run was cancelled. *)
Definition overrun (alg : SortingAlgorithm) : nat :=
  match alg with
  | insertion => 0
  | bubble | selection | merge => 1
  | quick => 2
  end.

Lemma wp_call_val (m : M unit unit) (P : state -> Prop) s :
  wp m (fun _ s' => P s') (fun _ s' => P s') s ->
  exists s', call (R' := unit) m s = Val tt s' /\ P s'.
Proof.
  unfold wp, call. destruct (m s) as [[] s'|[] s'|]; [| |done]; intros HP; by exists s'.
Qed.




(** ** The last frame of a complete run *)

(** The array has [n] entries, and those at the positions satisfying [P]
    are marked sorted. *)
Definition marked (n : Z) (P : Z -> Prop) (s : state) : Prop :=
  has_length n s /\
  forall k r, P k -> aget (arr s) k = Some r -> isSorted (deref (heap s) r) = true.

Lemma marked_alter n P g r s :
  (forall e, isSorted e = true -> isSorted (g e) = true) ->
  marked n P s -> marked n P (st_alter g r s).
Proof.
  intros Hg [[Hwf Hn] Hm]. split; [split; [by apply wf_alter|done]|].
  intros k r' Hk Hr'. simpl in *. rewrite deref_alter.
  repeat case_decide; subst; eauto.
Qed.

Lemma marked_publish n P s : marked n P s -> marked n P (st_publish s).
Proof. done. Qed.
Lemma marked_sleep n P s : marked n P s -> marked n P (st_sleep s).
Proof. done. Qed.

Lemma marked_swap n P i j ri rj s :
  marked n P s -> ~ P i -> ~ P j -> aget (arr s) i = Some ri -> aget (arr s) j = Some rj ->
  marked n P (st_store (Z.to_nat j) ri (st_store (Z.to_nat i) rj s)).
Proof.
  intros [[Hwf Hn] Hm] Hi Hj Hri Hrj.
  pose proof (aget_Some_range _ _ _ Hri). pose proof (aget_Some_range _ _ _ Hrj).
  split; [split; [by eapply wf_swap|simpl; by rewrite !length_insert]|].
  intros k r Hk. simpl. rewrite !aget_insert by (rewrite ?length_insert; lia).
  repeat case_decide; intros Hr; simplify_eq; eauto.
Qed.

(** [arr[k].isSorted = true] brings [k] into the marked positions. *)
Lemma marked_mark n (P P' : Z -> Prop) k r s :
  marked n P s -> aget (arr s) k = Some r ->
  (forall k', P' k' -> 0 <= k' < n -> P k' \/ k' = k) ->
  marked n P' (st_alter (withSorted true) r s).
Proof.
  intros [[Hwf Hn] Hm] Hr HP. split; [split; [by apply wf_alter|done]|].
  intros k' r' Hk' Hr'. simpl in *. rewrite deref_alter.
  pose proof (wf_aget _ _ _ Hwf Hr).
  destruct (decide (r' = r)) as [->|Hne]; [by rewrite decide_True|].
  pose proof (aget_Some_range _ _ _ Hr') as Hrange. rewrite Hn in Hrange.
  destruct (HP k' Hk' Hrange) as [?| ->]; [by eapply Hm|congruence].
Qed.

Lemma marked_all n s : marked n (fun _ => True) s -> Forall (fun e => isSorted e = true) (view s).
Proof.
  intros [_ Hm]. unfold view, view_of. apply Forall_fmap, Forall_lookup_2.
  intros i r Hr. simpl. apply (Hm (Z.of_nat i)); [done|].
  unfold aget. destruct (Z.ltb_spec (Z.of_nat i) 0); [lia|]. by rewrite Nat2Z.id.
Qed.

Lemma marked_init (P : Z -> Prop) l :
  (forall k, P k -> Z.of_nat (length l) <= k) -> marked (Z.of_nat (length l)) P (init l).
Proof.
  intros HP. split; [split; [apply wf_init|by rewrite length_arr_init]|]. intros k r Hk Hr.
  apply aget_Some_range in Hr. rewrite length_arr_init in Hr. specialize (HP k Hk). lia.
Qed.

Ltac M_tac :=
  repeat first
    [ eassumption
    | apply marked_alter; [by intros []|]
    | apply marked_sleep | apply marked_publish ].
Ltac M_side := first [ exact I | discriminate ].

Abbreviation Thrown := (fun _ : state => True).
Abbreviation Returned := (fun (_ : unit) (_ : state) => False).

Section Finish.
Variable n : Z.

Lemma bubble_step_M (P : Z -> Prop) j s :
  marked n P s -> ~ P j -> ~ P (j + 1) ->
  wp3 (bubble_step None j) (fun _ s' => marked n P s') Returned Thrown s.
Proof.
  intros HM Hj Hj1. unfold bubble_step.
  do 7 (wp3_step ltac:(M_side)). apply wp3_bind. destruct (_ >? _).
  - wp3_step ltac:(M_side).
    assert (marked n P (st_store (Z.to_nat (j + 1)) ri (st_store (Z.to_nat j) rj
              (st_sleep (st_publish (st_alter (withCompared true) r0
                 (st_alter (withCompared true) r s))))))) as HM'.
    { apply marked_swap; [M_tac|done|done|done|done]. }
    do 8 (wp3_step ltac:(M_side)). M_tac.
  - do 5 (wp3_step ltac:(M_side)). M_tac.
Qed.

Lemma bubble_pass_M i s :
  marked n (fun k => n - i <= k) s -> 0 <= i ->
  wp3 (bubble_pass None n i) (fun _ s' => marked n (fun k => n - (i + 1) <= k) s')
    Returned Thrown s.
Proof.
  intros HM Hi. unfold bubble_pass. apply wp3_bind.
  apply (wp3_for_loop (fun _ s' => marked n (fun k => n - i <= k) s')); [done| |].
  - intros j s' Hj HM'. apply bubble_step_M; [done|lia|lia].
  - intros s' HM'. wp3_step ltac:(M_side). wp3_step ltac:(M_side).
    apply marked_publish. eapply marked_mark; [done|done|]. intros k' Hk'. simpl in *. lia.
Qed.

Lemma bubbleSort_M s :
  marked n (fun k => n <= k) s -> 0 < n ->
  wp3 (bubbleSort None) (fun _ s' => marked n (fun _ => True) s') Returned Thrown s.
Proof.
  intros HM Hn0. unfold bubbleSort. wp3_step ltac:(M_side).
  pose proof HM as [[_ ->] _]. apply wp3_bind.
  apply (wp3_for_loop (fun i s' => 0 <= i /\ marked n (fun k => n - i <= k) s')).
  - split; [lia|]. destruct HM as [Hl Hm]. split; [done|]. intros k r Hk. apply Hm. lia.
  - intros i s' Hi [_ HM'].
    eapply wp3_mono; [apply bubble_pass_M; [done|lia]| |done|done].
    intros ? s'' HM''. split; [lia|done].
  - intros s' [_ HM']. wp3_step ltac:(M_side). wp3_step ltac:(M_side).
    apply marked_publish. eapply marked_mark; [done|done|]. intros k' _ Hk'. simpl in *. lia.
Qed.

Lemma selection_step_M (P : Z -> Prop) j m s :
  marked n P s ->
  wp3 (selection_step None j m) (fun m' s' => marked n P s' /\ (m' = j \/ m' = m))
    (fun _ _ => False) Thrown s.
Proof.
  intros HM. unfold selection_step.
  do 6 (wp3_step ltac:(M_side)). apply wp3_bind. destruct (_ <? _).
  - do 5 (wp3_step ltac:(M_side)). split; [M_tac|by left].
  - do 4 (wp3_step ltac:(M_side)). split; [M_tac|by right].
Qed.

Lemma selection_pass_M i s :
  marked n (fun k => k < i) s ->
  wp3 (selection_pass None n i) (fun _ s' => marked n (fun k => k < i + 1) s')
    Returned Thrown s.
Proof.
  intros HM. unfold selection_pass. wp3_step ltac:(M_side). apply wp3_bind.
  apply (wp3_for_fold (fun j m s' => marked n (fun k => k < i) s' /\ i <= m)).
  - split; [M_tac|lia].
  - intros j m s' Hj [HM' Hm].
    eapply wp3_mono; [by apply selection_step_M| |done|done].
    intros m' s'' [HM'' Hm']. split; [done|lia].
  - intros m s' [HM' Hm]. cbv beta. apply wp3_bind.
    eapply wp3_mono with (Q := fun _ s'' => marked n (fun k => k < i) s'')
                         (QR := Returned) (QT := Thrown).
    + destruct (negb _); [|by apply wp3_ret].
      wp3_step ltac:(M_side).
      assert (marked n (fun k => k < i)
                (st_store (Z.to_nat m) ri (st_store (Z.to_nat i) rj s'))) as HM''.
      { apply marked_swap; [done|simpl; lia|simpl; lia|done|done]. }
      do 5 (wp3_step ltac:(M_side)). M_tac.
    + intros [] s'' HM''. do 4 (wp3_step ltac:(M_side)).
      apply marked_publish. eapply marked_mark; [M_tac|done|]. intros k' Hk'. simpl in *. lia.
    + done.
    + done.
Qed.

Lemma selectionSort_M s :
  marked n (fun k => k < 0) s -> 0 < n ->
  wp3 (selectionSort None) (fun _ s' => marked n (fun _ => True) s') Returned Thrown s.
Proof.
  intros HM Hn0. unfold selectionSort. wp3_step ltac:(M_side).
  pose proof HM as [[_ ->] _]. apply wp3_bind.
  apply (wp3_for_loop (fun i s' => marked n (fun k => k < i) s')).
  - done.
  - intros i s' Hi HM'. by apply selection_pass_M.
  - intros s' HM'. wp3_step ltac:(M_side). wp3_step ltac:(M_side).
    apply marked_publish. eapply marked_mark; [done|done|]. intros k' _ Hk'. simpl in *. lia.
Qed.

Ltac L_tac := cbv beta; unfold has_length, st_put; split; [by wf_solve | st_norm; lia].

Lemma insertion_shift_L m key : forall s,
  has_length n s -> (key < length (heap s))%nat ->
  wp3 (insertion_shift None m key)
      (fun _ s' => has_length n s' /\ (key < length (heap s'))%nat) Returned Thrown s.
Proof.
  induction m as [|m IH]; intros s [Hwf Hn] Hkey; cbn [insertion_shift]; [by apply wp3_ret|].
  cbv zeta. do 2 (wp3_step ltac:(M_side)). destruct (x >? _); [|by apply wp3_ret].
  do 9 (wp3_step ltac:(M_side)). apply IH; [L_tac|]. st_cbn. by rewrite !length_alter.
Qed.

Lemma insertion_pass_L i s :
  has_length n s ->
  wp3 (insertion_pass None i) (fun _ s' => has_length n s') Returned Thrown s.
Proof.
  intros [Hwf Hn]. unfold insertion_pass. do 5 (wp3_step ltac:(M_side)).
  apply wp3_bind. eapply wp3_mono; [apply (insertion_shift_L _ r)| |done|done].
  - L_tac.
  - st_cbn. rewrite length_alter. by eapply wf_aget.
  - intros j s' [[Hwf' Hn'] Hk]. do 3 (wp3_step ltac:(M_side)).
    unfold has_length. split; [|st_norm; lia]. apply wf_publish, wf_alter. by apply wf_store.
Qed.

Lemma insertionSort_M s :
  has_length n s ->
  wp3 (insertionSort None) (fun _ s' => Forall (fun e => isSorted e = true) (view s'))
      Returned Thrown s.
Proof.
  intros HL. unfold insertionSort. wp3_step ltac:(M_side). apply wp3_bind.
  apply (wp3_for_loop (fun _ s' => has_length n s')); [done| |].
  - intros j s' _ HL'. by apply insertion_pass_L.
  - intros s' [Hwf' Hn']. do 2 (wp3_step ltac:(M_side)). by apply view_markAll_sorted.
Qed.

Lemma merge_both_L ls : forall rs k s,
  has_length n s ->
  wp3 (merge_both None ls rs k) (fun _ s' => has_length n s') Returned Thrown s.
Proof.
  induction ls as [|l ls IHl]; intros rs; induction rs as [|r rs IHr]; intros k s [Hwf Hn];
    try (by apply wp3_ret).
  change (merge_both None (l :: ls) (r :: rs) k) with
    (check None tt ;;
     arrSetCompared k true ;;
     updateArray ;;
     sleep ;;
     a <- valueOf l ;;
     b <- valueOf r ;;
     if a <=? b then
       (o <- spreadSwapped l ;; store k o) ;;
       updateArray ;;
       sleep ;;
       arrSetCompared k false ;;
       arrSetSwapped k false ;;
       merge_both None ls (r :: rs) (k + 1)
     else
       (o <- spreadSwapped r ;; store k o) ;;
       updateArray ;;
       sleep ;;
       arrSetCompared k false ;;
       arrSetSwapped k false ;;
       merge_both None (l :: ls) rs (k + 1))%M.
  do 6 (wp3_step ltac:(M_side)). destruct (_ <=? _).
  - do 5 (wp3_step ltac:(M_side)). apply IHl. L_tac.
  - do 5 (wp3_step ltac:(M_side)). apply IHr. L_tac.
Qed.

Lemma merge_rest_L xs : forall k s,
  has_length n s ->
  wp3 (merge_rest None xs k) (fun _ s' => has_length n s') Returned Thrown s.
Proof.
  induction xs as [|x xs IH]; intros k s [Hwf Hn]; [by apply wp3_ret|].
  cbn [merge_rest]. do 5 (wp3_step ltac:(M_side)). apply IH. L_tac.
Qed.

Lemma merge_M left mid right s :
  has_length n s ->
  wp3 (merge_ None left mid right)
    (fun _ s' => has_length n s' /\
                 (left = 0 -> right = n - 1 -> Forall (fun e => isSorted e = true) (view s')))
    Returned Thrown s.
Proof.
  intros HL. unfold merge_. do 3 (wp3_step ltac:(M_side)).
  apply wp3_bind. eapply wp3_mono; [by apply merge_both_L| |done|done].
  intros [[ls rs] k] s1 HL1. simpl.
  apply wp3_bind. eapply wp3_mono; [by apply merge_rest_L| |done|done].
  intros k1 s2 HL2. simpl.
  apply wp3_bind. eapply wp3_mono; [by apply merge_rest_L| |done|done].
  intros k2 s3 [Hwf3 Hn3]. simpl.
  wp3_step ltac:(M_side). rewrite Hn3.
  destruct (Z.eqb_spec left 0), (Z.eqb_spec right (n - 1)); simpl;
    try (apply wp3_ret; split; [done|intros; lia]).
  do 2 (wp3_step ltac:(M_side)). split; [L_tac|]. intros _ _. by apply view_markAll_sorted.
Qed.

Lemma mergeSort_rec_M fuel : forall left right s,
  has_length n s ->
  wp3 (mergeSort_ None fuel left right)
    (fun _ s' => has_length n s' /\
                 (left = 0 -> right = n - 1 -> left < right ->
                  Forall (fun e => isSorted e = true) (view s')))
    Returned Thrown s.
Proof.
  induction fuel as [|fuel IH]; intros left right s HL; cbn [mergeSort_].
  - destruct (Z.ltb_spec left right); [by apply wp3_throw|].
    apply wp3_ret. split; [done|lia].
  - destruct (Z.ltb_spec left right) as [Hlt|]; [|apply wp3_ret; split; [done|lia]]. cbv zeta.
    apply (wp3_call_bind _ (fun _ s' => has_length n s')).
    { eapply wp3_mono; [by apply IH| | |done].
      - by intros ? s' [? _].
      - done. }
    intros [] s1 HL1; cbv beta.
    apply (wp3_call_bind _ (fun _ s' => has_length n s')).
    { eapply wp3_mono; [by apply IH| | |done].
      - by intros ? s' [? _].
      - done. }
    intros [] s2 HL2; cbv beta.
    apply wp3_call.
    eapply wp3_mono; [by apply merge_M| | |done].
    + intros ? s3 [HL3 Hm]. split; [done|]. intros; by apply Hm.
    + done.
Qed.

End Finish.

(** [getBarColor]: the class of the bar drawn for an element. *)
Definition getBarColor (element : ArrayElement) : string :=
  if isSorted element then "bg-green-400"%string
  else if isSwapped element then "bg-accent-pink"%string
  else if isCompared element then "bg-accent-cyan"%string
  else "bg-primary-blue"%string.

Lemma wp3_call_result (m : M unit unit) (Q : state -> Prop) s s' :
  wp3 m (fun _ s'' => Q s'') Returned Thrown s -> call (R' := unit) m s = Val tt s' -> Q s'.
Proof. unfold wp3, call. destruct (m s) as [[] s1|[] s1|e s1]; [|done..]. by intros HQ [= <-]. Qed.

(** X7.  After a complete run of any sorting variant on a non-empty array
    every bar of the array on display is drawn in the colour of a sorted
    element, except that merge sort does nothing on an array of one element:
    it publishes nothing and the bar keeps its colour.  The colour hides
    that [isCompared] can stay set: quick sort and merge sort leave it on
    an element of [3, 1, 2, 5, 4]. *)
Theorem complete_run_all_green (alg : SortingAlgorithm) (l : list ArrayElement) :
  l <> [] -> (alg = merge -> length l <> 1%nat) ->
  let shown := rendered l (final (sort None alg (init l))) in
  (value <$> shown ≡ₚ value <$> l /\
   Forall (fun e => getBarColor e = "bg-green-400"%string) shown) /\
  (forall e, sort None merge (init [e]) = Val tt (init [e])) /\
  (let ex := fresh <$> [3; 1; 2; 5; 4] in
   isCompared <$> rendered ex (final (sort None quick (init ex))) =
     [true; false; false; false; false] /\
   isCompared <$> rendered ex (final (sort None merge (init ex))) =
     [false; false; false; false; true]).
Proof.
  intros Hne Hone. cbv zeta. split; [|split; [done|split; vm_compute; reflexivity]].
  destruct (sort_ok alg l Hne) as (s' & Hr & _ & Hp & Hsync).
  rewrite Hr. cbn [final]. rewrite (rendered_view l s' Hsync). split; [exact Hp|].
  assert (0 < Z.of_nat (length l)) as Hlen by (destruct l; [done|simpl; lia]).
  assert (has_length (Z.of_nat (length l)) (init l)) as HL.
  { split; [apply wf_init|by rewrite length_arr_init]. }
  assert (Forall (fun e => isSorted e = true) (view s')) as Hall.
  { destruct alg; cbn [sort] in Hr.
    - assert (marked (Z.of_nat (length l)) (fun k => Z.of_nat (length l) <= k) (init l)) as H0
        by (by apply marked_init).
      apply (marked_all (Z.of_nat (length l))).
      apply (wp3_call_result _ _ _ _ (bubbleSort_M _ _ H0 Hlen) Hr).
    - assert (marked (Z.of_nat (length l)) (fun k => k < 0) (init l)) as H0.
      { split; [done|]. intros k r Hk Hr'. apply aget_Some_range in Hr'. lia. }
      apply (marked_all (Z.of_nat (length l))).
      apply (wp3_call_result _ _ _ _ (selectionSort_M _ _ H0 Hlen) Hr).
    - apply (wp3_call_result _ _ _ _ (insertionSort_M _ _ HL) Hr).
    - assert (wp3 (mergeSort None) (fun _ s'' => Forall (fun e => isSorted e = true) (view s''))
                Returned Thrown (init l)) as Hm.
      { unfold mergeSort. wp3_step ltac:(M_side). rewrite length_arr_init.
        eapply wp3_mono; [by apply (mergeSort_rec_M (Z.of_nat (length l)))| |done|done].
        intros ? s'' [_ Hm]. apply Hm; [done|done|].
        specialize (Hone eq_refl). destruct l as [|? [|? ?]]; simpl in *; [done|done|lia]. }
      apply (wp3_call_result _ _ _ _ Hm Hr).
    - destruct (quickSort_marks None l) as (s'' & Hr' & Hm & _). cbn [sort] in Hr'.
      rewrite Hr in Hr'. by injection Hr' as <-. }
  eapply Forall_impl; [exact Hall|]. intros e He. unfold getBarColor. by rewrite He.
Qed.

Lemma complete_run_all_green_witness :
  Forall (fun e => getBarColor e = "bg-green-400"%string)
    (rendered [fresh 2; fresh 1] (final (sort None merge (init [fresh 2; fresh 1])))).
Proof.
  destruct (complete_run_all_green merge [fresh 2; fresh 1]) as [[_ H] _]; [done|done|exact H].
Defined.


(** ** The values on display *)

(** The array and every array handed to [setArray] so far hold the values
    [vs], in some order. *)
Definition intact (vs : list Z) (s : state) : Prop :=
  vals s ≡ₚ vs /\ Forall (fun sn : snapshot => value <$> sn.2 ≡ₚ vs) (published s).

Lemma intact_alter vs g r s :
  (forall e, value (g e) = value e) -> intact vs s -> intact vs (st_alter g r s).
Proof. intros Hg [Hv Hp]. split; [|done]. by rewrite vals_proj, proj_alter, <-vals_proj. Qed.

Lemma intact_publish vs s : intact vs s -> intact vs (st_publish s).
Proof. intros [Hv Hp]. split; [done|]. simpl. by apply Forall_cons. Qed.

Lemma intact_sleep vs s : intact vs s -> intact vs (st_sleep s).
Proof. done. Qed.

Lemma intact_markAll vs s : intact vs s -> intact vs (st_markAll s).
Proof.
  intros [Hv Hp]. split; [|done]. rewrite vals_proj, proj_markAll, <-vals_proj; [done|].
  by intros [].
Qed.

Lemma intact_swap vs i j ri rj s :
  intact vs s -> aget (arr s) i = Some ri -> aget (arr s) j = Some rj ->
  intact vs (st_store (Z.to_nat j) ri (st_store (Z.to_nat i) rj s)).
Proof.
  intros [Hv Hp] Hi Hj. split; [|done].
  rewrite vals_proj, (proj_swap value i j ri rj s Hi Hj), zswap_perm, <-vals_proj. done.
Qed.

Lemma intact_init l : intact (value <$> l) (init l).
Proof. split; [|by apply Forall_nil]. unfold vals. by rewrite view_init. Qed.

Ltac I_tac :=
  repeat first
    [ eassumption
    | simple apply intact_alter; [by intros []|]
    | simple apply intact_sleep | simple apply intact_publish | simple apply intact_markAll
    | simple eapply intact_swap; [ |eassumption|eassumption] ].
Ltac I_run := repeat (wp3_step ltac:(I_tac)); try (by I_tac).

Section Intact.
Variable cancel : option nat.
Variable vs : list Z.

Abbreviation keeps := (fun (_ : unit) s' => intact vs s').

Lemma bubble_step_intact j s :
  intact vs s -> wp3 (bubble_step cancel j) keeps keeps (intact vs) s.
Proof. intros HI. unfold bubble_step. I_run. Qed.

Lemma bubble_pass_intact n i s :
  intact vs s -> wp3 (bubble_pass cancel n i) keeps keeps (intact vs) s.
Proof.
  intros HI. unfold bubble_pass. apply wp3_bind.
  apply (wp3_for_loop (fun _ s' => intact vs s')); [done| |].
  - intros j s' _ HI'. by apply bubble_step_intact.
  - intros s' HI'. I_run.
Qed.

Lemma bubbleSort_intact s :
  intact vs s -> wp3 (bubbleSort cancel) keeps keeps (intact vs) s.
Proof.
  intros HI. unfold bubbleSort. wp3_step ltac:(I_tac). apply wp3_bind.
  apply (wp3_for_loop (fun _ s' => intact vs s')); [done| |].
  - intros i s' _ HI'. by apply bubble_pass_intact.
  - intros s' HI'. I_run.
Qed.

Lemma selection_step_intact j m s :
  intact vs s ->
  wp3 (selection_step cancel j m) (fun _ s' => intact vs s') keeps (intact vs) s.
Proof. intros HI. unfold selection_step. I_run. Qed.

Lemma selection_pass_intact n i s :
  intact vs s -> wp3 (selection_pass cancel n i) keeps keeps (intact vs) s.
Proof.
  intros HI. unfold selection_pass. wp3_step ltac:(I_tac). apply wp3_bind.
  apply (wp3_for_fold (fun _ _ s' => intact vs s')); [by I_tac| |].
  - intros j m s' _ HI'. by apply selection_step_intact.
  - intros m s' HI'. I_run.
Qed.

Lemma selectionSort_intact s :
  intact vs s -> wp3 (selectionSort cancel) keeps keeps (intact vs) s.
Proof.
  intros HI. unfold selectionSort. wp3_step ltac:(I_tac). apply wp3_bind.
  apply (wp3_for_loop (fun _ s' => intact vs s')); [done| |].
  - intros i s' _ HI'. by apply selection_pass_intact.
  - intros s' HI'. I_run.
Qed.

Lemma partition_step_intact pivot low j i s :
  intact vs s ->
  wp3 (partition_step cancel pivot low j i) (fun _ s' => intact vs s')
    (fun _ s' => intact vs s') (intact vs) s.
Proof. intros HI. unfold partition_step. I_run. Qed.

Lemma partition_intact low high s :
  intact vs s ->
  wp3 (partition cancel low high) (fun _ s' => intact vs s') (fun _ s' => intact vs s')
    (intact vs) s.
Proof.
  intros HI. unfold partition. do 5 (wp3_step ltac:(I_tac)). apply wp3_bind.
  apply (wp3_for_fold (fun _ _ s' => intact vs s')); [by I_tac| |].
  - intros j i s' _ HI'. by apply partition_step_intact.
  - intros i s' HI'. I_run.
Qed.

Lemma quickSort_rec_intact fuel : forall low high s,
  intact vs s -> wp3 (quickSort_ cancel fuel low high) keeps keeps (intact vs) s.
Proof.
  induction fuel as [|fuel IH]; intros low high s HI; cbn [quickSort_].
  - I_run.
  - apply wp3_bind.
    eapply wp3_mono with (Q := keeps) (QR := keeps) (QT := intact vs);
      [|intros [] s' HI'; I_run|done|done].
    destruct (low <? high); [|by apply wp3_ret].
    apply (wp3_call_bind _ (fun _ s' => intact vs s')); [by apply partition_intact|].
    intros p s1 HI1. cbv beta.
    apply (wp3_call_bind _ keeps); [by apply IH|].
    intros [] s2 HI2. cbv beta. apply wp3_call. by apply IH.
Qed.

Lemma quickSort_intact s :
  intact vs s -> wp3 (quickSort cancel) keeps keeps (intact vs) s.
Proof. intros HI. unfold quickSort. wp3_step ltac:(I_tac). by apply quickSort_rec_intact. Qed.

End Intact.

Lemma intact_rendered l s : intact (value <$> l) s -> value <$> rendered l s ≡ₚ value <$> l.
Proof.
  intros [_ Hp]. unfold rendered. destruct (published s) as [|[t snap] rest]; [done|].
  by apply Forall_cons in Hp as [Hp _].
Qed.

(** X11.  Bubble, selection and quick sort only ever exchange elements:
    wherever the run is cancelled, or if it is not, every array handed to
    [setArray] and the array on display at the end hold the values of the
    input, each as often as the input does.  Insertion sort and merge sort
    do not have this property: stopped between two writes they show a value
    of [2, 3, 1] twice and have lost another. *)
Theorem exchange_sorts_keep_values (cancel : option nat) (alg : SortingAlgorithm)
    (l : list ArrayElement) :
  alg <> insertion -> alg <> merge ->
  let s' := final (sort cancel alg (init l)) in
  (Forall (fun sn : snapshot => value <$> sn.2 ≡ₚ value <$> l) (published s') /\
   value <$> rendered l s' ≡ₚ value <$> l) /\
  (let ex := fresh <$> [2; 3; 1] in
   value <$> rendered ex (final (sort (Some 3%nat) insertion (init ex))) = [2; 3; 3] /\
   value <$> rendered ex (final (sort (Some 4%nat) merge (init ex))) = [1; 3; 1]).
Proof.
  intros Hi Hm. cbv zeta. split; [|split; vm_compute; reflexivity].
  assert (intact (value <$> l) (final (sort cancel alg (init l)))) as HI.
  { pose proof (intact_init l) as H0.
    destruct alg; try done; cbn [sort]; apply wp3_call_final.
    - by apply bubbleSort_intact.
    - by apply selectionSort_intact.
    - by apply quickSort_intact. }
  split; [apply HI|by apply intact_rendered].
Qed.

Lemma exchange_sorts_keep_values_witness :
  value <$> rendered [fresh 3; fresh 1; fresh 2]
              (final (sort (Some 3%nat) quick (init [fresh 3; fresh 1; fresh 2])))
  ≡ₚ [3; 1; 2].
Proof.
  destruct (exchange_sorts_keep_values (Some 3%nat) quick [fresh 3; fresh 1; fresh 2])
    as [[_ H] _]; [done|done|exact H].
Defined.


End Sorting.


(* ===================================================================== *)
(** * Graph visualizer *)
(* ===================================================================== *)

Module Graph.

Local Open Scope string_scope.
Local Open Scope Z_scope.
Local Open Scope stdpp_scope.
Local Open Scope list_scope.

(** ** Strings

    A string is its sequence of code units; the embedding covers the code
    units below 256. *)

(** [WhiteSpace] and [LineTerminator], as [trim] and [parseInt] skip them. *)
Definition is_space (c : ascii) : bool :=
  let n := nat_of_ascii c in
  ((9 <=? n) && (n <=? 13) || (n =? 32) || (n =? 160))%nat.

Definition is_digit (c : ascii) : bool :=
  let n := nat_of_ascii c in ((48 <=? n) && (n <=? 57))%nat.

(** [\w] *)
Definition is_word (c : ascii) : bool :=
  let n := nat_of_ascii c in
  (is_digit c || ((65 <=? n) && (n <=? 90)) || ((97 <=? n) && (n <=? 122)) || (n =? 95))%nat.

Fixpoint trimStart (s : string) : string :=
  match s with
  | EmptyString => EmptyString
  | String c s' => if is_space c then trimStart s' else s
  end.

Fixpoint trimEnd (s : string) : string :=
  match s with
  | EmptyString => EmptyString
  | String c s' =>
      match trimEnd s' with
      | EmptyString => if is_space c then EmptyString else String c EmptyString
      | t => String c t
      end
  end.

Definition trim (s : string) : string := trimEnd (trimStart s).

(** [s.split(sep)] for a separator of one character. *)
Fixpoint split (sep : ascii) (s : string) : list string :=
  match s with
  | EmptyString => [EmptyString]
  | String c s' =>
      if Ascii.eqb c sep then EmptyString :: split sep s'
      else match split sep s' with
           | p :: ps => String c p :: ps
           | [] => [String c EmptyString]
           end
  end.

(** [s.includes(c)] for a string [c] of one character. *)
Fixpoint includes (c : ascii) (s : string) : bool :=
  match s with
  | EmptyString => false
  | String c' s' => Ascii.eqb c' c || includes c s'
  end.

(** The longest prefix of characters satisfying [p], and the rest. *)
Fixpoint span (p : ascii -> bool) (s : string) : string * string :=
  match s with
  | EmptyString => (EmptyString, EmptyString)
  | String c s' =>
      if p c then let '(a, b) := span p s' in (String c a, b)
      else (EmptyString, s)
  end.

(** [/(\w+)\((\d+)\)/] tried at the start of [s].  Both groups are greedy
    and the character that has to follow each of them is not in its class,
    so only the longest run can succeed. *)
Definition match_here (s : string) : option (string * string) :=
  let '(w, r) := span is_word s in
  match w, r with
  | String _ _, String "(" r1 =>
      let '(d, r2) := span is_digit r1 in
      match d, r2 with
      | String _ _, String ")" _ => Some (w, d)
      | _, _ => None
      end
  | _, _ => None
  end.

(** [s.match(/(\w+)\((\d+)\)/)]: the groups of the leftmost match. *)
Fixpoint regex_match (s : string) : option (string * string) :=
  match match_here s with
  | Some m => Some m
  | None =>
      match s with
      | EmptyString => None
      | String _ s' => regex_match s'
      end
  end.

(** ** Numbers

    The numbers the page computes with are integers, [Infinity] and [NaN];
    integers are exact here (a JavaScript number is exact up to 2^53). *)
Inductive number := Int (z : Z) | Infinity | NaN.

#[global] Instance number_eq_dec : EqDecision number.
Proof. solve_decision. Defined.

(** [a < b] *)
Definition lt (a b : number) : bool :=
  match a, b with
  | Int x, Int y => x <? y
  | Int _, Infinity => true
  | _, _ => false
  end.

(** [a + b] *)
Definition add (a b : number) : number :=
  match a, b with
  | Int x, Int y => Int (x + y)
  | NaN, _ | _, NaN => NaN
  | _, _ => Infinity
  end.

Definition digit_value (c : ascii) : option Z :=
  let n := nat_of_ascii c in
  if ((48 <=? n) && (n <=? 57))%nat then Some (Z.of_nat n - 48)
  else if ((97 <=? n) && (n <=? 102))%nat then Some (Z.of_nat n - 87)
  else if ((65 <=? n) && (n <=? 70))%nat then Some (Z.of_nat n - 55)
  else None.

(** The digits of [s] in [radix], read until the first other character:
    the value so far and whether a digit was seen. *)
Fixpoint read_digits (radix : Z) (s : string) (acc : Z) (seen : bool) : Z * bool :=
  match s with
  | EmptyString => (acc, seen)
  | String c s' =>
      match digit_value c with
      | Some d => if d <? radix then read_digits radix s' (acc * radix + d) true
                  else (acc, seen)
      | None => (acc, seen)
      end
  end.

(** [parseInt(s)] without a radix argument. *)
Definition parseInt (s : string) : number :=
  let s := trimStart s in
  let '(sign, s) :=
    match s with
    | String "-" s' => (-1, s')
    | String "+" s' => (1, s')
    | _ => (1, s)
    end in
  let '(radix, s) :=
    match s with
    | String "0" (String "x" s') | String "0" (String "X" s') => (16, s')
    | _ => (10, s)
    end in
  let '(v, seen) := read_digits radix s 0 false in
  if seen then Int (sign * v) else NaN.

(** ** Objects used as maps

    [{ [key: string]: V }]: the own properties in the order in which
    [Object.keys] and [Object.entries] list them, that is, the keys that are
    array indices first, in ascending numeric order, then the other keys in
    the order of their creation.  Only own properties are modelled: no
    property is inherited from [Object.prototype]. *)
Definition Obj (V : Type) : Type := list (string * V).

Fixpoint all_digits (s : string) : bool :=
  match s with
  | EmptyString => true
  | String c s' => is_digit c && all_digits s'
  end.

Fixpoint decimal (s : string) (acc : N) : N :=
  match s with
  | EmptyString => acc
  | String c s' => decimal s' (acc * 10 + N.of_nat (nat_of_ascii c - 48))%N
  end.

(** The array index that [k] denotes: the canonical decimal form of an
    integer below 2^32 - 1. *)
Definition array_index (k : string) : option N :=
  match k with
  | EmptyString => None
  | String c rest =>
      if all_digits k && (negb (Ascii.eqb c "0") || bool_decide (rest = EmptyString))
      then let n := decimal k 0 in
           if (n <? 4294967295)%N then Some n else None
      else None
  end.

(** [o[k]] *)
Fixpoint obj_get {V} (o : Obj V) (k : string) : option V :=
  match o with
  | [] => None
  | (k', v) :: o' => if decide (k' = k) then Some v else obj_get o' k
  end.

Fixpoint obj_update {V} (k : string) (v : V) (o : Obj V) : Obj V :=
  match o with
  | [] => []
  | (k', v') :: o' => if decide (k' = k) then (k, v) :: o' else (k', v') :: obj_update k v o'
  end.

Fixpoint obj_insert_index {V} (n : N) (k : string) (v : V) (o : Obj V) : Obj V :=
  match o with
  | [] => [(k, v)]
  | (k', v') :: o' =>
      match array_index k' with
      | Some n' => if (n' <? n)%N then (k', v') :: obj_insert_index n k v o'
                   else (k, v) :: o
      | None => (k, v) :: o
      end
  end.

(** [o[k] = v] *)
Definition obj_set {V} (k : string) (v : V) (o : Obj V) : Obj V :=
  match obj_get o k with
  | Some _ => obj_update k v o
  | None =>
      match array_index k with
      | Some n => obj_insert_index n k v o
      | None => o ++ [(k, v)]
      end
  end.

(** [Object.keys(o)] *)
Definition keys {V} (o : Obj V) : list string := fst <$> o.

(** [interface Graph] *)
Definition Graph : Type := Obj (Obj number).

(** ** The parsers *)

Inductive exn :=
| Error (message : string)   (* [throw new Error(message)] *)
| TypeError.                 (* a property of [undefined] was written *)

Inductive result (A : Type) :=
| Returns (a : A)
| Throws (e : exn).
Arguments Returns {A} a.
Arguments Throws {A} e.

Definition and_then {A B} (r : result A) (f : A -> result B) : result B :=
  match r with
  | Returns a => f a
  | Throws e => Throws e
  end.

(** [xs.forEach(x => { g = body(g, x) })], where [body] may throw. *)
Fixpoint forEach {A S} (body : S -> A -> result S) (xs : list A) (g : S) : result S :=
  match xs with
  | [] => Returns g
  | x :: xs' => and_then (body g x) (forEach body xs')
  end.

(** The property key that a value used as a key denotes. *)
Definition prop_key (k : option string) : string := default "undefined" k.

(** [graph[from][to] = w] *)
Definition set_edge (graph : Graph) (from to : string) (w : number) : result Graph :=
  match obj_get graph from with
  | Some neighbors => Returns (obj_set from (obj_set to w neighbors) graph)
  | None => Throws TypeError
  end.

Definition nl : ascii := ascii_of_nat 10.

Section Parsers.
Variable isWeighted : bool.

Definition add_neighbor (node : string) (graph : Graph) (neighbor : string) : result Graph :=
  let trimmed := trim neighbor in
  if isWeighted && includes "(" trimmed then
    match regex_match trimmed with
    | Some (m1, m2) => set_edge graph node m1 (parseInt m2)
    | None => Returns graph
    end
  else set_edge graph node trimmed (Int 1).

Definition parse_line (graph : Graph) (line : string) : result Graph :=
  match split ":" (trim line) with
  | [p0; p1] =>
      let node := trim p0 in
      let neighbors := trim p1 in
      let graph := if obj_get graph node is Some _ then graph else obj_set node [] graph in
      if bool_decide (neighbors = EmptyString) then Returns graph
      else forEach (add_neighbor node) (split "," neighbors) graph
  | _ => Throws (Error "Invalid format")
  end.

Definition parseAdjacencyList (input : string) : result Graph :=
  forEach parse_line (split nl (trim input)) [].

(** One cell of a matrix row: [if (weight > 0) graph[fromNode][toNode] = ...]. *)
Definition matrix_cell (nodeLabels : list string) (fromNode : option string)
    (gj : Graph * nat) (weight : number) : result (Graph * nat) :=
  let '(graph, j) := gj in
  if lt (Int 0) weight then
    let toNode := nodeLabels !! j in
    and_then (set_edge graph (prop_key fromNode) (prop_key toNode)
                (if isWeighted then weight else Int 1))
             (fun graph => Returns (graph, S j))
  else Returns (graph, S j).

(** The body of [for (let i = 1; i < lines.length; i++)]. *)
Definition matrix_row (nodeLabels : list string) (gi : Graph * nat) (line : string)
    : result (Graph * nat) :=
  let '(graph, i) := gi in
  let row := (fun s => parseInt (trim s)) <$> split "," line in
  let fromNode := nodeLabels !! (i - 1)%nat in
  and_then (forEach (matrix_cell nodeLabels fromNode) row (graph, 0%nat))
           (fun gj => Returns (gj.1, S i)).

Definition parseAdjacencyMatrix (input : string) : result Graph :=
  let lines := split nl (trim input) in
  let nodeLabels := trim <$> split "," (default EmptyString (head lines)) in
  let graph := foldl (fun g label => obj_set label [] g) [] nodeLabels in
  and_then (forEach (matrix_row nodeLabels) (tail lines) (graph, 1%nat))
           (fun gi => Returns gi.1).

End Parsers.


(** ** The page *)

Inductive Algorithm := bfs_ | dfs_ | dijkstra_ | bellman_ford.
Inductive InputMode := adjacency_list | adjacency_matrix | random.

Inductive toast :=
| toast_success (message : string)
| toast_error (message : string).

Section Page.

(** Canvas coordinates, and the position [place index count] of a node on
    the circle of [createVisualization]; the trigonometry is not modelled. *)
Variable coord : Type.
Variable place : nat -> nat -> coord * coord.

(** [interface Node] *)
Record Node := mkNode {
  node_id : string;
  x : coord;
  y : coord;
  visited : bool;
  current : bool;
  inQueue : bool;
  distance : option number   (* [None]: [undefined] *)
}.

(** [interface Edge] *)
Record Edge := mkEdge {
  edge_from : string;
  edge_to : string;
  weight : option number;
  highlighted : bool
}.

(** The component state that the functions below read or set, the toasts
    shown so far (latest first) and the number of completed suspensions. *)
Record page := mkPage {
  nodes : list Node;
  edges : list Edge;
  graph : Graph;
  startNode : string;
  traversalOrder : list string;
  toasts : list toast;
  sleeps : nat
}.

Definition setNodes (f : list Node -> list Node) (p : page) : page :=
  mkPage (f (nodes p)) (edges p) (graph p) (startNode p) (traversalOrder p) (toasts p) (sleeps p).
Definition setEdges (f : list Edge -> list Edge) (p : page) : page :=
  mkPage (nodes p) (f (edges p)) (graph p) (startNode p) (traversalOrder p) (toasts p) (sleeps p).
Definition setGraph (g : Graph) (p : page) : page :=
  mkPage (nodes p) (edges p) g (startNode p) (traversalOrder p) (toasts p) (sleeps p).
Definition setStartNode (s : string) (p : page) : page :=
  mkPage (nodes p) (edges p) (graph p) s (traversalOrder p) (toasts p) (sleeps p).
Definition setTraversalOrder (o : list string) (p : page) : page :=
  mkPage (nodes p) (edges p) (graph p) (startNode p) o (toasts p) (sleeps p).
Definition show_toast (t : toast) (p : page) : page :=
  mkPage (nodes p) (edges p) (graph p) (startNode p) (traversalOrder p) (t :: toasts p) (sleeps p).
(** [await sleep()] *)
Definition sleep (p : page) : page :=
  mkPage (nodes p) (edges p) (graph p) (startNode p) (traversalOrder p) (toasts p) (S (sleeps p)).

(** The settings of the page that the functions read. *)
Variable algorithm : Algorithm.
Variable isDirected : bool.
Variable isWeighted : bool.

Definition uses_distances : bool :=
  match algorithm with
  | dijkstra_ | bellman_ford => true
  | _ => false
  end.

Definition initial_distance (id start : string) : option number :=
  if uses_distances then Some (if decide (id = start) then Int 0 else Infinity) else None.

Definition createVisualization (graphData : Graph) (p : page) : page :=
  let nodeIds := keys graphData in
  let newNodes :=
    imap (fun index id =>
            let '(px, py) := place index (length nodeIds) in
            mkNode id px py false false false (initial_distance id (startNode p)))
         nodeIds in
  let newEdges :=
    flat_map (fun fn : string * Obj number =>
                (fun tw : string * number =>
                   mkEdge fn.1 tw.1 (if isWeighted then Some tw.2 else None) false) <$> fn.2)
             graphData in
  setEdges (fun _ => newEdges) (setNodes (fun _ => newNodes) p).

(** The [switch] of [generateGraph], with the text of the input box and,
    for the random mode, the graph that [generateRandomGraph] returns. *)
Definition graph_of_input (inputMode : InputMode) (inputText : string) (randomGraph : Graph)
    : result Graph :=
  match inputMode with
  | adjacency_list => parseAdjacencyList isWeighted inputText
  | adjacency_matrix => parseAdjacencyMatrix isWeighted inputText
  | random => Returns randomGraph
  end.

Definition generateGraph (inputMode : InputMode) (inputText : string) (randomGraph : Graph)
    (p : page) : page :=
  match graph_of_input inputMode inputText randomGraph with
  | Returns graphData =>
      let p := setGraph graphData p in
      let p := createVisualization graphData p in
      let p := match keys graphData with
               | first :: _ => setStartNode first p
               | [] => p
               end in
      show_toast (toast_success "Graph generated successfully!") p
  | Throws _ =>
      show_toast (toast_error "Failed to parse graph. Please check your input format.") p
  end.

(** [stopVisualization]: what it does to the component state. *)
Definition stopVisualization (p : page) : page :=
  let p := setNodes (fmap (fun node =>
             mkNode (node_id node) (x node) (y node) false false false (distance node))) p in
  let p := setEdges (fmap (fun edge =>
             mkEdge (edge_from edge) (edge_to edge) (weight edge) false)) p in
  setTraversalOrder [] p.

End Page.


(** ** Properties of objects *)

Lemma obj_get_update {V} (k : string) (v : V) o k' :
  obj_get (obj_update k v o) k' =
    if decide (k' = k) then (fun _ => v) <$> obj_get o k else obj_get o k'.
Proof.
  induction o as [|[k0 v0] o IH]; simpl; [by case_decide|].
  repeat (case_decide; simpl; simplify_eq); try done; by rewrite IH; case_decide.
Qed.

Lemma obj_get_insert_index {V} n (k : string) (v : V) o k' :
  obj_get o k = None ->
  obj_get (obj_insert_index n k v o) k' = if decide (k' = k) then Some v else obj_get o k'.
Proof.
  induction o as [|[k0 v0] o IH]; simpl; intros Hk.
  - repeat case_decide; simplify_eq; done.
  - destruct (decide (k0 = k)) as [->|Hne]; [done|].
    destruct (array_index k0) as [n0|]; [destruct (n0 <? n)%N|]; simpl;
      repeat (case_decide; simplify_eq); try done; rewrite IH by done;
      by repeat (case_decide; simplify_eq).
Qed.

Lemma obj_get_snoc {V} (k : string) (v : V) o k' :
  obj_get o k = None ->
  obj_get (o ++ [(k, v)]) k' = if decide (k' = k) then Some v else obj_get o k'.
Proof.
  induction o as [|[k0 v0] o IH]; simpl; intros Hk.
  - repeat case_decide; simplify_eq; done.
  - destruct (decide (k0 = k)) as [->|Hne]; [done|].
    repeat (case_decide; simplify_eq); try done; rewrite IH by done;
      by repeat (case_decide; simplify_eq).
Qed.

Lemma obj_get_set {V} (k : string) (v : V) o k' :
  obj_get (obj_set k v o) k' = if decide (k' = k) then Some v else obj_get o k'.
Proof.
  unfold obj_set. destruct (obj_get o k) as [v0|] eqn:Hk.
  - rewrite obj_get_update, Hk. by case_decide.
  - destruct (array_index k); [by apply obj_get_insert_index|by apply obj_get_snoc].
Qed.

Lemma obj_get_keys {V} (o : Obj V) k : is_Some (obj_get o k) <-> k ∈ keys o.
Proof.
  induction o as [|[k0 v0] o IH]; simpl.
  - split; [by intros [??]|by intros ?%elem_of_nil].
  - rewrite elem_of_cons, <- IH. case_decide; simplify_eq.
    + split; [by left|by eexists].
    + split; [by right|]. intros [?|?]; [congruence|done].
Qed.

(** A key that is not an array index is listed after the keys the object
    had when it was created; setting an existing key moves nothing. *)
Lemma keys_set_new {V} (k : string) (v : V) o :
  k ∉ keys o -> array_index k = None -> keys (obj_set k v o) = keys o ++ [k].
Proof.
  intros Hk Hi. unfold obj_set.
  destruct (obj_get o k) eqn:E; [exfalso; apply Hk, obj_get_keys; by eexists|].
  rewrite Hi. unfold keys. by rewrite fmap_app.
Qed.

Lemma keys_update {V} (k : string) (v : V) o : keys (obj_update k v o) = keys o.
Proof.
  induction o as [|[k0 v0] o IH]; simpl; [done|].
  case_decide; simpl; [by subst|by rewrite IH].
Qed.

Lemma keys_set_old {V} (k : string) (v : V) o :
  k ∈ keys o -> keys (obj_set k v o) = keys o.
Proof.
  intros [v0 Hk]%obj_get_keys. unfold obj_set. rewrite Hk. apply keys_update.
Qed.


(** ** The parsers: when they throw *)

Section ParserProofs.
Variable isWeighted : bool.

(** [has_nodes ks g]: every name of [ks] is a node of [g]. *)
Definition has_nodes (ks : list string) (g : Graph) : Prop :=
  forall k, k ∈ ks -> is_Some (obj_get g k).

Lemma has_nodes_set ks k v (g : Graph) : has_nodes ks g -> has_nodes ks (obj_set k v g).
Proof.
  intros H k' Hk'. rewrite obj_get_set. case_decide; [by eexists|by apply H].
Qed.

Lemma set_edge_returns ks (g : Graph) from to w :
  has_nodes ks g -> from ∈ ks ->
  exists g', set_edge g from to w = Returns g' /\ has_nodes ks g'.
Proof.
  intros H [nb Hnb]%H. unfold set_edge. rewrite Hnb.
  eexists. split; [done|]. by apply has_nodes_set.
Qed.

Lemma add_neighbor_returns ks node (g : Graph) neighbor :
  has_nodes ks g -> node ∈ ks ->
  exists g', add_neighbor isWeighted node g neighbor = Returns g' /\ has_nodes ks g'.
Proof.
  intros H Hn. unfold add_neighbor.
  destruct (isWeighted && includes "(" (trim neighbor)).
  - destruct (regex_match (trim neighbor)) as [[m1 m2]|]; [by apply set_edge_returns|].
    by exists g.
  - by apply set_edge_returns.
Qed.

Lemma forEach_add_neighbor ks node neighbors : forall g : Graph,
  has_nodes ks g -> node ∈ ks ->
  exists g', forEach (add_neighbor isWeighted node) neighbors g = Returns g' /\ has_nodes ks g'.
Proof.
  induction neighbors as [|nb neighbors IH]; intros g H Hn; simpl; [by exists g|].
  destruct (add_neighbor_returns ks node g nb H Hn) as (g1 & -> & H1). simpl.
  by apply IH.
Qed.

(** A line of the adjacency list is read or rejected on its number of
    colon-delimited parts alone. *)
Lemma parse_line_two_parts (g : Graph) line :
  length (split ":" (trim line)) = 2%nat -> exists g', parse_line isWeighted g line = Returns g'.
Proof.
  intros Hlen. unfold parse_line.
  destruct (split ":" (trim line)) as [|p0 [|p1 [|p2 ps]]]; simplify_eq/=.
  set (node := trim p0).
  set (g1 := if obj_get g node is Some _ then g else obj_set node [] g).
  case_bool_decide; [by exists g1|].
  destruct (forEach_add_neighbor [node] node (split "," (trim p1)) g1) as (g' & Hg' & _).
  - intros k ->%list_elem_of_singleton. subst g1.
    destruct (obj_get g node) eqn:E; [by rewrite E|].
    rewrite obj_get_set. by rewrite decide_True.
  - by apply list_elem_of_singleton.
  - by exists g'.
Qed.

Lemma parse_line_other (g : Graph) line :
  length (split ":" (trim line)) <> 2%nat ->
  parse_line isWeighted g line = Throws (Error "Invalid format").
Proof.
  intros Hlen. unfold parse_line.
  by destruct (split ":" (trim line)) as [|p0 [|p1 [|p2 ps]]].
Qed.

Lemma forEach_parse_line lines : forall (g : Graph) line,
  line ∈ lines -> length (split ":" (trim line)) <> 2%nat ->
  forEach (parse_line isWeighted) lines g = Throws (Error "Invalid format").
Proof.
  induction lines as [|l lines IH]; intros g line Hin Hbad; [by apply elem_of_nil in Hin|].
  simpl. destruct (decide (length (split ":" (trim l)) = 2%nat)) as [Hl|Hl].
  - destruct (parse_line_two_parts g l Hl) as [g' ->]. simpl.
    apply elem_of_cons in Hin as [->|Hin]; [done|]. by eapply IH.
  - by rewrite parse_line_other.
Qed.

Lemma has_nodes_labels labels : forall g : Graph,
  has_nodes labels (foldl (fun g label => obj_set label [] g) g labels).
Proof.
  induction labels as [|l labels IH]; intros g k Hk; simpl; [by apply elem_of_nil in Hk|].
  apply elem_of_cons in Hk as [->|Hk]; [|by apply IH].
  assert (forall ls (g0 : Graph), is_Some (obj_get g0 l) ->
            is_Some (obj_get (foldl (fun g label => obj_set label [] g) g0 ls) l)) as Hkeep.
  { clear. induction ls as [|l' ls IH]; intros g0 H0; simpl; [done|].
    apply IH. rewrite obj_get_set. case_decide; [by eexists|done]. }
  apply Hkeep. rewrite obj_get_set, decide_True by done. by eexists.
Qed.

Lemma forEach_matrix_cell labels from row : forall (g : Graph) j,
  has_nodes labels g -> from ∈ labels ->
  exists g' j', forEach (matrix_cell isWeighted labels (Some from)) row (g, j) = Returns (g', j')
                /\ has_nodes labels g'.
Proof.
  induction row as [|w row IH]; intros g j H Hf; [by exists g, j|].
  cbn [forEach]. unfold matrix_cell at 1. destruct (lt (Int 0) w).
  - destruct (set_edge_returns labels g from (prop_key (labels !! j))
                (if isWeighted then w else Int 1) H Hf) as (g1 & Hg1 & H1).
    change (prop_key (Some from)) with from. rewrite Hg1. cbn [and_then]. by apply IH.
  - cbn [and_then]. by apply IH.
Qed.

Lemma forEach_matrix_row labels rows : forall (g : Graph) i,
  has_nodes labels g -> (1 <= i)%nat -> (i - 1 + length rows <= length labels)%nat ->
  exists gi, forEach (matrix_row isWeighted labels) rows (g, i) = Returns gi.
Proof.
  induction rows as [|r rows IH]; intros g i H Hi Hlen; [by eexists|].
  cbn [length] in Hlen. cbn [forEach]. unfold matrix_row at 1.
  destruct (lookup_lt_is_Some_2 labels (i - 1)) as [from Hfrom]; [lia|].
  rewrite Hfrom.
  destruct (forEach_matrix_cell labels from ((fun s => parseInt (trim s)) <$> split "," r)
              g 0%nat H) as (g1 & j1 & -> & H1); [by eapply list_elem_of_lookup_2|].
  cbn [and_then fst]. apply IH; [done|lia|lia].
Qed.

End ParserProofs.


Lemma forEach_parse_line_all isWeighted lines : forall g : Graph,
  Forall (fun line => length (split ":" (trim line)) = 2%nat) lines ->
  exists g', forEach (parse_line isWeighted) lines g = Returns g'.
Proof.
  induction lines as [|l lines IH]; intros g Hall; [by exists g|].
  apply Forall_cons in Hall as [Hl Hall]. cbn [forEach].
  destruct (parse_line_two_parts isWeighted g l Hl) as [g1 ->]. by apply IH.
Qed.

Lemma set_edge_throws (g : Graph) from to w e : set_edge g from to w = Throws e -> e = TypeError.
Proof. unfold set_edge. destruct (obj_get g from); congruence. Qed.

Lemma forEach_throws {A S} (body : S -> A -> result S) (P : exn -> Prop) xs : forall g e,
  (forall g x e, body g x = Throws e -> P e) -> forEach body xs g = Throws e -> P e.
Proof.
  induction xs as [|x xs IH]; intros g e Hbody; simpl; [done|].
  destruct (body g x) as [g1|e1] eqn:E; simpl; [by apply IH|].
  intros [= <-]. by eapply Hbody.
Qed.

Lemma parseAdjacencyMatrix_throws isWeighted input e :
  parseAdjacencyMatrix isWeighted input = Throws e -> e = TypeError.
Proof.
  unfold parseAdjacencyMatrix.
  destruct (forEach _ _ _) as [gi|e1] eqn:E; simpl; [done|]. intros [= <-].
  eapply (forEach_throws _ (fun e => e = TypeError)); [|exact E].
  intros [g i] line e. unfold matrix_row.
  destruct (forEach (matrix_cell _ _ _) _ _) as [gj|e2] eqn:E2; simpl; [done|]. intros [= <-].
  eapply (forEach_throws _ (fun e => e = TypeError)); [|exact E2].
  intros [g' j] w e. unfold matrix_cell. destruct (lt (Int 0) w); [|done].
  destruct (set_edge _ _ _ _) as [g2|e3] eqn:E3; simpl; [done|]. intros [= <-].
  by eapply set_edge_throws.
Qed.




(** ** The traversals

    [queue], [order]: arrays of node names; [visited], [unvisited]: [Set]s,
    as the lists of their members in insertion order.  The functions return
    nothing in the page; here their result carries the final values of
    their local variables next to the component state. *)

(** [xs.includes(k)], [s.has(k)] *)
Definition has (xs : list string) (k : string) : bool := bool_decide (k ∈ xs).
(** [s.add(k)] *)
Definition set_add (s : list string) (k : string) : list string :=
  if has s k then s else s ++ [k].
(** [s.delete(k)] *)
Definition set_delete (s : list string) (k : string) : list string :=
  filter (fun k' => k' <> k) s.

Section Traversals.
Variable coord : Type.
Variable isDirected : bool.

(** As for the sorts: [cancel = Some n] makes [isRunningRef.current] read
    [false] once [n] suspensions have completed. *)
Variable cancel : option nat.

Abbreviation Node := (Node coord).
Abbreviation page := (page coord).

Definition isRunning (p : page) : bool :=
  match cancel with
  | None => true
  | Some n => (sleeps coord p <? n)%nat
  end.

(** [distances[id] === Infinity ? undefined : distances[id]] *)
Definition shown_distance (distances : Obj number) (id : string) : option number :=
  match obj_get distances id with
  | Some Infinity => None
  | d => d
  end.

(** [distances[id] !== Infinity] *)
Definition reached (distances : Obj number) (id : string) : bool :=
  match obj_get distances id with
  | Some Infinity => false
  | _ => true
  end.

(** The updaters handed to [setNodes] and [setEdges]. *)
Definition mark_current (current : string) (visited : list string) (node : Node) : Node :=
  mkNode coord (node_id _ node) (x _ node) (y _ node)
    (has visited (node_id _ node)) (bool_decide (node_id _ node = current))
    (inQueue _ node) (distance _ node).
Definition mark_inQueue (neighbor : string) (node : Node) : Node :=
  mkNode coord (node_id _ node) (x _ node) (y _ node) (visited _ node) (current _ node)
    (bool_decide (node_id _ node = neighbor) || inQueue _ node) (distance _ node).
Definition mark_visited (visited queue : list string) (node : Node) : Node :=
  mkNode coord (node_id _ node) (x _ node) (y _ node)
    (has visited (node_id _ node)) false (has queue (node_id _ node)) (distance _ node).
Definition highlight (a b : string) (edge : Edge) : Edge :=
  mkEdge (edge_from edge) (edge_to edge) (weight edge)
    (bool_decide (edge_from edge = a) && bool_decide (edge_to edge = b)
     || negb isDirected && bool_decide (edge_from edge = b) && bool_decide (edge_to edge = a)).
Definition unhighlight (edge : Edge) : Edge :=
  mkEdge (edge_from edge) (edge_to edge) (weight edge) false.

(** *** Breadth-first search *)

(** [for (const neighbor of Object.keys(graph[current]))] *)
Fixpoint bfs_neighbors (current : string) (visited : list string) (neighbors : list string)
    (queue : list string) (p : page) : list string * page :=
  match neighbors with
  | [] => (queue, p)
  | neighbor :: rest =>
      if negb (has visited neighbor) && negb (has queue neighbor) then
        let queue := queue ++ [neighbor] in
        let p := setNodes _ (fmap (mark_inQueue neighbor)) p in
        let p := setEdges _ (fmap (highlight current neighbor)) p in
        let p := sleep _ p in
        bfs_neighbors current visited rest queue p
      else bfs_neighbors current visited rest queue p
  end.

(** The body of the [while] loop after [queue.shift()], for a node that is
    not in [visited]. *)
Definition bfs_visit (g : Graph) (current : string) (queue visited order : list string)
    (p : page) : list string * list string * list string * page :=
  let visited := set_add visited current in
  let order := order ++ [current] in
  let p := setTraversalOrder _ order p in
  let p := setNodes _ (fmap (mark_current current visited)) p in
  let p := sleep _ p in
  let '(queue, p) :=
    match obj_get g current with
    | Some neighbors => bfs_neighbors current visited (keys neighbors) queue p
    | None => (queue, p)
    end in
  let p := setNodes _ (fmap (mark_visited visited queue)) p in
  let p := setEdges _ (fmap unhighlight) p in
  (queue, visited, order, p).

(** [while (queue.length > 0 && isRunningRef.current)], at most [fuel]
    iterations. *)
Fixpoint bfs_loop (fuel : nat) (g : Graph) (queue visited order : list string) (p : page)
    : option (list string * list string * page) :=
  match queue with
  | [] => Some (visited, order, p)
  | current :: queue' =>
      if isRunning p then
        match fuel with
        | O => None
        | S fuel' =>
            if has visited current then bfs_loop fuel' g queue' visited order p
            else
              let '(queue, visited, order, p) := bfs_visit g current queue' visited order p in
              bfs_loop fuel' g queue visited order p
        end
      else Some (visited, order, p)
  end.

Definition bfs (fuel : nat) (startNodeId : string) (p : page)
    : option (list string * list string * page) :=
  bfs_loop fuel (graph _ p) [startNodeId] [] [] p.

End Traversals.


(** ** Shortest paths *)

(** [o[k]] where a number is expected: [undefined] takes part in [+] and
    [<] as [NaN]. *)
Definition get_num (o : Obj number) (k : string) : number := default NaN (obj_get o k).

(** [nodeIds.forEach(nodeId => distances[nodeId] = nodeId === start ? 0 : Infinity)] *)
Definition init_distances (nodeIds : list string) (startNodeId : string) : Obj number :=
  foldl (fun d nodeId =>
           obj_set nodeId (if decide (nodeId = startNodeId) then Int 0 else Infinity) d)
        [] nodeIds.

(** One call of the function handed to [unvisited.forEach]: the pair is
    [(current, minDistance)]. *)
Definition select_step (distances : Obj number) (acc : string * number) (nodeId : string)
    : string * number :=
  if lt (get_num distances nodeId) acc.2 then (nodeId, get_num distances nodeId) else acc.

Definition select_min (distances : Obj number) (unvisited : list string) : string * number :=
  foldl (select_step distances) (EmptyString, Infinity) unvisited.

(** [newDistance < distances[to]] for the edge to [to] with weight [w]. *)
Definition relaxes (distances : Obj number) (from : string) (w : number) (to : string) : bool :=
  lt (add (get_num distances from) w) (get_num distances to).

(** How a loop body ends: it falls through, or the function returns. *)
Inductive flow (A : Type) :=
| Next (a : A)
| Return (a : A).
Arguments Next {A} a.
Arguments Return {A} a.

Section ShortestPaths.
Variable coord : Type.
Variable isDirected : bool.
Variable cancel : option nat.

Abbreviation Node := (Node coord).
Abbreviation page := (page coord).
Abbreviation running := (isRunning coord cancel).

Definition show_distances (distances : Obj number) (node : Node) : Node :=
  mkNode coord (node_id _ node) (x _ node) (y _ node) (visited _ node) (current _ node)
    (inQueue _ node) (shown_distance distances (node_id _ node)).
Definition clear_current (distances : Obj number) (node : Node) : Node :=
  mkNode coord (node_id _ node) (x _ node) (y _ node) (visited _ node) false
    (inQueue _ node) (shown_distance distances (node_id _ node)).
Definition dijkstra_mark (current : string) (visited : list string) (distances : Obj number)
    (node : Node) : Node :=
  mkNode coord (node_id _ node) (x _ node) (y _ node)
    (has visited (node_id _ node)) (bool_decide (node_id _ node = current))
    (inQueue _ node) (shown_distance distances (node_id _ node)).
Definition bf_mark (from : string) (distances : Obj number) (node : Node) : Node :=
  mkNode coord (node_id _ node) (x _ node) (y _ node)
    (reached distances (node_id _ node)) (bool_decide (node_id _ node = from))
    (inQueue _ node) (shown_distance distances (node_id _ node)).
Definition bf_show (distances : Obj number) (node : Node) : Node :=
  mkNode coord (node_id _ node) (x _ node) (y _ node)
    (reached distances (node_id _ node)) (current _ node)
    (inQueue _ node) (shown_distance distances (node_id _ node)).

(** *** Dijkstra *)

(** [for (const neighbor of Object.keys(graph[current]))] *)
Fixpoint dijkstra_neighbors (edges_out : Obj number) (current : string) (visited : list string)
    (neighbors : list string) (distances : Obj number) (p : page) : Obj number * page :=
  match neighbors with
  | [] => (distances, p)
  | neighbor :: rest =>
      if negb (has visited neighbor) && relaxes distances current (get_num edges_out neighbor) neighbor
      then
        let newDistance := add (get_num distances current) (get_num edges_out neighbor) in
        let distances := obj_set neighbor newDistance distances in
        let p := setEdges _ (fmap (highlight isDirected current neighbor)) p in
        let p := setNodes _ (fmap (show_distances distances)) p in
        let p := sleep _ p in
        dijkstra_neighbors edges_out current visited rest distances p
      else dijkstra_neighbors edges_out current visited rest distances p
  end.

(** The body of the [while] loop from [unvisited.delete(current)] on. *)
Definition dijkstra_visit (g : Graph) (current : string) (distances : Obj number)
    (visited unvisited order : list string) (p : page)
    : Obj number * list string * list string * list string * page :=
  let unvisited := set_delete unvisited current in
  let visited := set_add visited current in
  let order := order ++ [current] in
  let p := setTraversalOrder _ order p in
  let p := setNodes _ (fmap (dijkstra_mark current visited distances)) p in
  let p := sleep _ p in
  let '(distances, p) :=
    match obj_get g current with
    | Some edges_out =>
        dijkstra_neighbors edges_out current visited (keys edges_out) distances p
    | None => (distances, p)
    end in
  let p := setNodes _ (fmap (clear_current distances)) p in
  let p := setEdges _ (fmap unhighlight) p in
  (distances, visited, unvisited, order, p).

(** [while (unvisited.size > 0 && isRunningRef.current)], at most [fuel]
    iterations. *)
Fixpoint dijkstra_loop (fuel : nat) (g : Graph) (distances : Obj number)
    (visited unvisited order : list string) (p : page)
    : option (Obj number * list string * list string * page) :=
  match unvisited with
  | [] => Some (distances, visited, order, p)
  | _ :: _ =>
      if running p then
        if negb (running p) then Some (distances, visited, order, p)
        else
          let '(current, minDistance) := select_min distances unvisited in
          if bool_decide (current = EmptyString) || negb (reached distances current)
          then Some (distances, visited, order, p)
          else
            match fuel with
            | O => None
            | S fuel' =>
                let '(distances, visited, unvisited, order, p) :=
                  dijkstra_visit g current distances visited unvisited order p in
                dijkstra_loop fuel' g distances visited unvisited order p
            end
      else Some (distances, visited, order, p)
  end.

Definition dijkstra (fuel : nat) (startNodeId : string) (p : page)
    : option (Obj number * list string * list string * page) :=
  let g := graph _ p in
  let nodeIds := keys g in
  dijkstra_loop fuel g (init_distances nodeIds startNodeId) [] (foldl set_add [] nodeIds) [] p.

(** *** Bellman-Ford *)

(** [for (const to of Object.keys(graph[from]))] of a relaxation round. *)
Fixpoint bf_edges (edges_out : Obj number) (from : string) (tos : list string)
    (distances : Obj number) (hasUpdate : bool) (p : page) : Obj number * bool * page :=
  match tos with
  | [] => (distances, hasUpdate, p)
  | to :: rest =>
      if relaxes distances from (get_num edges_out to) to then
        let newDistance := add (get_num distances from) (get_num edges_out to) in
        let distances := obj_set to newDistance distances in
        let p := setEdges _ (fmap (highlight isDirected from to)) p in
        let p := setNodes _ (fmap (bf_show distances)) p in
        let p := sleep _ p in
        bf_edges edges_out from rest distances true p
      else bf_edges edges_out from rest distances hasUpdate p
  end.

(** [for (const from of nodeIds)] of a relaxation round. *)
Fixpoint bf_round (g : Graph) (froms : list string) (distances : Obj number)
    (order : list string) (hasUpdate : bool) (p : page)
    : flow (Obj number * list string * bool * page) :=
  match froms with
  | [] => Next (distances, order, hasUpdate, p)
  | from :: rest =>
      if negb (running p) then Return (distances, order, hasUpdate, p)
      else
        let '(order, p) :=
          if has order from then (order, p)
          else (order ++ [from], setTraversalOrder _ (order ++ [from]) p) in
        let p := setNodes _ (fmap (bf_mark from distances)) p in
        let p := sleep _ p in
        let '(distances, hasUpdate, p) :=
          match obj_get g from with
          | Some edges_out =>
              if reached distances from
              then bf_edges edges_out from (keys edges_out) distances hasUpdate p
              else (distances, hasUpdate, p)
          | None => (distances, hasUpdate, p)
          end in
        let p := setNodes _ (fmap (clear_current distances)) p in
        let p := setEdges _ (fmap unhighlight) p in
        bf_round g rest distances order hasUpdate p
  end.

(** [for (let i = 0; i < nodeIds.length - 1 && isRunningRef.current; i++)],
    with [n] iterations to go. *)
Fixpoint bf_rounds (n : nat) (g : Graph) (nodeIds : list string) (distances : Obj number)
    (order : list string) (p : page) : flow (Obj number * list string * page) :=
  match n with
  | O => Next (distances, order, p)
  | S n' =>
      if running p then
        match bf_round g nodeIds distances order false p with
        | Return (distances, order, _, p) => Return (distances, order, p)
        | Next (distances, order, hasUpdate, p) =>
            if hasUpdate then bf_rounds n' g nodeIds distances order p
            else Next (distances, order, p)
        end
      else Next (distances, order, p)
  end.

(** The last loop: [toast.error("Negative cycle detected!"); return] at the
    first edge that still relaxes. *)
Fixpoint bf_check (g : Graph) (froms : list string) (distances : Obj number) (p : page) : page :=
  match froms with
  | [] => p
  | from :: rest =>
      if negb (running p) then p
      else
        match obj_get g from with
        | Some edges_out =>
            if reached distances from &&
               existsb (fun to => relaxes distances from (get_num edges_out to) to)
                       (keys edges_out)
            then show_toast _ (toast_error "Negative cycle detected!") p
            else bf_check g rest distances p
        | None => bf_check g rest distances p
        end
  end.

Definition bellmanFord (startNodeId : string) (p : page) : Obj number * list string * page :=
  let g := graph _ p in
  let nodeIds := keys g in
  let distances := init_distances nodeIds startNodeId in
  let p := setNodes _ (fmap (show_distances distances)) p in
  match bf_rounds (length nodeIds - 1) g nodeIds distances [] p with
  | Return r => r
  | Next (distances, order, p) => (distances, order, bf_check g nodeIds distances p)
  end.

End ShortestPaths.


(** ** Breadth-first search: the reference traversal *)

(** Every object has each of its keys once. *)
Definition wf_graph (g : Graph) : Prop :=
  NoDup (keys g) /\ Forall (fun kv : string * Obj number => NoDup (keys kv.2)) g.

(** The neighbours of a node in the order of [Object.keys]. *)
Definition neighbors (g : Graph) (id : string) : list string :=
  match obj_get g id with
  | Some nb => keys nb
  | None => []
  end.

(** The traversal as the specification words it: a FIFO queue; the node
    taken from the queue is marked visited and recorded; its neighbours that
    are neither visited nor in the queue are appended to the queue. *)
Fixpoint bfs_ref (fuel : nat) (g : Graph) (queue visited : list string) : list string :=
  match fuel, queue with
  | S fuel', current :: rest =>
      let visited' := visited ++ [current] in
      let fresh := filter (fun n => (n ∉ visited') /\ (n ∉ rest)) (neighbors g current) in
      current :: bfs_ref fuel' g (rest ++ fresh) visited'
  | _, _ => []
  end.

(** Every name that can enter the queue. *)
Definition names (g : Graph) (start : string) : list string :=
  start :: flat_map (fun kv : string * Obj number => keys kv.2) g.

Lemma filter_ext_elem {A} (P Q : A -> Prop) `{!forall x, Decision (P x)}
    `{!forall x, Decision (Q x)} (l : list A) :
  (forall x, x ∈ l -> (P x <-> Q x)) -> filter P l = filter Q l.
Proof.
  induction l as [|a l IH]; intros Hext; [done|].
  rewrite !filter_cons. rewrite IH by (intros x Hx; apply Hext; by right).
  pose proof (Hext a ltac:(by left)) as Ha.
  destruct (decide (P a)) as [HP|HP], (decide (Q a)) as [HQ|HQ]; try done; tauto.
Qed.

Lemma has_true xs k : has xs k = true <-> k ∈ xs.
Proof. unfold has. by rewrite bool_decide_eq_true. Qed.
Lemma has_false xs k : has xs k = false <-> k ∉ xs.
Proof. unfold has. by rewrite bool_decide_eq_false. Qed.

Lemma obj_get_elem {V} (o : Obj V) k v : obj_get o k = Some v -> (k, v) ∈ o.
Proof.
  induction o as [|[k0 v0] o IH]; simpl; [done|].
  case_decide; [intros [= <-]; subst; by left|intros Hk; right; by apply IH].
Qed.

Lemma neighbors_NoDup g id : wf_graph g -> NoDup (neighbors g id).
Proof.
  intros [_ Hg]. unfold neighbors. destruct (obj_get g id) as [nb|] eqn:E; [|constructor].
  apply obj_get_elem in E. by eapply Forall_forall in Hg; [|exact E].
Qed.

Lemma neighbors_names g start id n : n ∈ neighbors g id -> n ∈ names g start.
Proof.
  unfold neighbors, names. destruct (obj_get g id) as [nb|] eqn:E; [|by intros ?%elem_of_nil].
  intros Hn. right. apply list_elem_of_In, in_flat_map. exists (id, nb).
  split; [by apply list_elem_of_In, obj_get_elem|by apply list_elem_of_In].
Qed.


Section BfsProofs.
Variable coord : Type.
Variable isDirected : bool.
Variable g : Graph.
Hypothesis Hwf : wf_graph g.

Abbreviation pg := (page coord).

(** What the last [setNodes] of an iteration shows. *)
Definition shows (visited queue : list string) (p : pg) : Prop :=
  Forall (fun node => Graph.visited _ node = has visited (node_id _ node) /\
                      current _ node = false /\
                      inQueue _ node = has queue (node_id _ node)) (nodes _ p).

Lemma bfs_neighbors_spec current visited ns : forall queue (p : pg),
  NoDup ns ->
  exists p',
    bfs_neighbors coord isDirected current visited ns queue p =
      (queue ++ filter (fun n => (n ∉ visited) /\ (n ∉ queue)) ns, p') /\
    traversalOrder _ p' = traversalOrder _ p.
Proof.
  induction ns as [|n ns IH]; intros queue p Hnd; cbn [bfs_neighbors].
  - exists p. by rewrite filter_nil, app_nil_r.
  - apply NoDup_cons in Hnd as [Hn Hnd]. rewrite filter_cons.
    destruct (has visited n) eqn:Ev; [|destruct (has queue n) eqn:Eq]; cbn [negb andb].
    + apply has_true in Ev. rewrite decide_False by tauto. by apply IH.
    + apply has_true in Eq. rewrite decide_False by tauto. by apply IH.
    + apply has_false in Ev, Eq. rewrite decide_True by done.
      edestruct (IH (queue ++ [n])) as (p' & -> & Ht); [done|].
      exists p'. split; [|exact Ht]. f_equal. rewrite <- app_assoc. f_equal. simpl. f_equal.
      apply filter_ext_elem. intros m Hm. rewrite not_elem_of_app, list_elem_of_singleton.
      split; [tauto|]. intros [? ?]. split_and!; [done|done|]. by intros ->.
Qed.

Lemma bfs_visit_spec current rest visited order (p : pg) :
  current ∉ visited ->
  exists p',
    bfs_visit coord isDirected g current rest visited order p =
      (rest ++ filter (fun n => (n ∉ visited ++ [current]) /\ (n ∉ rest)) (neighbors g current),
       visited ++ [current], order ++ [current], p') /\
    traversalOrder _ p' = order ++ [current] /\
    shows (visited ++ [current])
      (rest ++ filter (fun n => (n ∉ visited ++ [current]) /\ (n ∉ rest)) (neighbors g current))
      p'.
Proof.
  intros Hc. unfold bfs_visit, set_add. apply has_false in Hc. rewrite Hc.
  unfold neighbors.
  destruct (obj_get g current) as [nb|] eqn:E.
  - edestruct (bfs_neighbors_spec current (visited ++ [current]) (keys nb) rest) as (p' & -> & Ht).
    { pose proof (neighbors_NoDup g current Hwf) as H. unfold neighbors in H. by rewrite E in H. }
    eexists. split; [done|]. split; [cbn [traversalOrder setEdges setNodes]; by rewrite Ht|].
    unfold shows; simpl. apply Forall_fmap, Forall_forall. by intros.
  - rewrite filter_nil, app_nil_r. eexists. split; [done|]. split; [done|].
    unfold shows; simpl. rewrite <- list_fmap_compose. apply Forall_fmap, Forall_forall.
    by intros.
Qed.

Lemma NoDup_length_le (l k : list string) :
  NoDup l -> (forall x, x ∈ l -> x ∈ k) -> (length l <= length k)%nat.
Proof. intros Hl Hk. by apply submseteq_length, NoDup_submseteq. Qed.

(** The loop, from any state in which queue and visited set are disjoint
    and duplicate-free: it ends, and the nodes it adds to the order are
    those of the reference traversal. *)
Lemma bfs_loop_spec start fuel : forall queue visited (p : pg),
  NoDup (queue ++ visited) ->
  (forall x, x ∈ queue ++ visited -> x ∈ names g start) ->
  (length (names g start) - length visited <= fuel)%nat ->
  (visited <> [] -> traversalOrder _ p = visited /\ shows visited queue p) ->
  exists order p',
    bfs_loop coord isDirected None fuel g queue visited visited p = Some (order, order, p') /\
    order = visited ++ bfs_ref fuel g queue visited /\
    NoDup order /\
    (order <> [] -> traversalOrder _ p' = order /\ shows order [] p').
Proof.
  induction fuel as [|fuel IH]; intros queue visited p Hnd Hsub Hfuel Hshow.
  - destruct queue as [|current rest].
    + exists visited, p. simpl. rewrite app_nil_r. by apply NoDup_app in Hnd as (_ & _ & ?).
    + exfalso. pose proof (NoDup_length_le _ _ Hnd Hsub) as Hle.
      rewrite length_app in Hle. cbn [length] in Hle. lia.
  - destruct queue as [|current rest].
    + exists visited, p. simpl. rewrite app_nil_r. by apply NoDup_app in Hnd as (_ & _ & ?).
    + pose proof (NoDup_length_le _ _ Hnd Hsub) as Hle.
      rewrite length_app in Hle. cbn [length] in Hle.
      pose proof Hnd as Hnd'. simpl in Hnd'.
      apply NoDup_cons in Hnd' as [Hc Hnd']. rewrite not_elem_of_app in Hc.
      destruct Hc as [Hcr Hcv].
      apply NoDup_app in Hnd' as (Hr & Hrv & Hv).
      destruct (bfs_visit_spec current rest visited visited p Hcv) as (p1 & Hvisit & Ht1 & Hs1).
      cbn [bfs_loop isRunning]. rewrite (proj2 (has_false visited current) Hcv), Hvisit.
      set (fresh := filter (fun n => (n ∉ visited ++ [current]) /\ (n ∉ rest))
                      (neighbors g current)) in *.
      destruct (IH (rest ++ fresh) (visited ++ [current]) p1) as (order & p' & Hloop & Ho & Hnd1 & Hs).
      * rewrite <- app_assoc. apply NoDup_app. split_and!; [done| |].
        -- intros y Hy. rewrite !elem_of_app, list_elem_of_singleton.
           intros [Hf|[Hyv| ->]]; [|by eapply Hrv|done].
           subst fresh. apply list_elem_of_filter in Hf as [[_ ?] _]. done.
        -- apply NoDup_app. split_and!.
           ++ subst fresh. by apply NoDup_filter, neighbors_NoDup.
           ++ intros y Hf. subst fresh. apply list_elem_of_filter in Hf as [[? _] _]. done.
           ++ apply NoDup_app. split_and!; [done| |apply NoDup_singleton].
              intros y Hy Hy'. apply list_elem_of_singleton in Hy' as ->. done.
      * intros y. rewrite !elem_of_app. intros [[Hy|Hy]|Hy].
        -- apply Hsub. rewrite elem_of_app. left. by right.
        -- subst fresh. apply list_elem_of_filter in Hy as [_ Hy]. by eapply neighbors_names.
        -- apply Hsub. destruct Hy as [Hy|Hy].
           ++ rewrite elem_of_app. by right.
           ++ apply list_elem_of_singleton in Hy as ->. by left.
      * rewrite length_app. cbn [length]. lia.
      * intros _. done.
      * exists order, p'. split; [exact Hloop|]. split; [|done].
        rewrite Ho. cbn [bfs_ref]. fold fresh. by rewrite <- app_assoc.
Qed.

End BfsProofs.


(** Lines joined by line feeds, to write the example texts. *)
Definition unlines (ls : list string) : string := String.concat (String nl EmptyString) ls.

(** The example of the adjacency-list input box. *)
Definition example_list : string :=
  unlines ["A: B,C"; "B: A,D,E"; "C: A,F"; "D: B"; "E: B,F"; "F: C,E"].

(** A page that holds the graph [g] and nothing else. *)
Definition page_of (g : Graph) : page unit := mkPage unit [] [] g EmptyString [] [] 0.





(** ** Bellman-Ford: the reference computation *)

(** The edges in node order. *)
Definition edges_from (from : string) (edges_out : Obj number) : list (string * string * number) :=
  (fun tw : string * number => (from, tw.1, tw.2)) <$> edges_out.
Definition edge_list (g : Graph) : list (string * string * number) :=
  flat_map (fun fn : string * Obj number => edges_from fn.1 fn.2) g.

(** An edge relaxes when its source is reached and the path through it is
    shorter than the distance of its target. *)
Definition can_relax (d : Obj number) (e : string * string * number) : bool :=
  reached d e.1.1 && relaxes d e.1.1 e.2 e.1.2.

(** Relaxing one edge: the distances and whether anything was relaxed. *)
Definition relax_edge (acc : Obj number * bool) (e : string * string * number)
    : Obj number * bool :=
  if can_relax acc.1 e then (obj_set e.1.2 (add (get_num acc.1 e.1.1) e.2) acc.1, true)
  else acc.

(** One round over all edges. *)
Definition relax_round (g : Graph) (d : Obj number) : Obj number * bool :=
  foldl relax_edge (d, false) (edge_list g).

(** At most [n] rounds, ending with the first round that relaxes nothing. *)
Fixpoint relax_rounds (n : nat) (g : Graph) (d : Obj number) : Obj number :=
  match n with
  | O => d
  | S n' => let '(d', updated) := relax_round g d in
            if updated then relax_rounds n' g d' else d'
  end.

(** The additional pass: some edge would still relax. *)
Definition negative_cycle (g : Graph) (d : Obj number) : bool :=
  existsb (can_relax d) (edge_list g).

Lemma obj_get_of_elem {V} (o : Obj V) k v : NoDup (keys o) -> (k, v) ∈ o -> obj_get o k = Some v.
Proof.
  induction o as [|[k0 v0] o IH]; simpl; intros Hnd Hin; [by apply elem_of_nil in Hin|].
  apply NoDup_cons in Hnd as [Hk0 Hnd]. apply elem_of_cons in Hin as [[= -> ->]|Hin].
  - by rewrite decide_True.
  - rewrite decide_False; [by apply IH|]. intros ->. apply Hk0.
    apply list_elem_of_fmap. by exists (k, v).
Qed.

Lemma lt_Int a b : lt a b = true -> exists z, a = Int z.
Proof. destruct a, b; simpl; try done; by eexists. Qed.

Lemma reached_set d to z from : reached d from = true -> reached (obj_set to (Int z) d) from = true.
Proof. unfold reached. rewrite obj_get_set. by case_decide. Qed.

Section BfProofs.
Variable coord : Type.
Variable isDirected : bool.

Abbreviation bpage := (page coord).

Lemma bf_edges_spec edges_out from : forall (es : list (string * number)) d u (p : bpage),
  (forall tw, tw ∈ es -> get_num edges_out tw.1 = tw.2) ->
  reached d from = true ->
  exists p',
    bf_edges coord isDirected edges_out from (keys es) d u p =
      ((foldl relax_edge (d, u) (edges_from from es)).1,
       (foldl relax_edge (d, u) (edges_from from es)).2, p') /\
    toasts _ p' = toasts _ p /\
    reached (foldl relax_edge (d, u) (edges_from from es)).1 from = true.
Proof.
  induction es as [|[to w] es IH]; intros d u p Hes Hr; [by exists p|].
  cbn [keys fmap list_fmap fst bf_edges edges_from foldl].
  pose proof (Hes (to, w) ltac:(by left)) as Hw. cbn [fst snd] in Hw. rewrite Hw.
  unfold relax_edge at 2 4 6, can_relax. cbn [fst snd]. rewrite Hr. cbn [andb].
  destruct (relaxes d from w to) eqn:Er.
  - destruct (lt_Int _ _ Er) as [z Hz]. rewrite Hz.
    edestruct (IH (obj_set to (Int z) d) true) as (p' & -> & Ht & Hr'); [|by apply reached_set|].
    { intros tw Htw. apply Hes. by right. }
    exists p'. split; [done|]. split; [by rewrite Ht|done].
  - apply IH; [|done]. intros tw Htw. apply Hes. by right.
Qed.

Lemma relax_unreached from : forall (es : list (string * number)) acc,
  reached acc.1 from = false -> foldl relax_edge acc (edges_from from es) = acc.
Proof.
  induction es as [|[to w] es IH]; intros acc Hr; [done|].
  cbn [edges_from fmap list_fmap foldl]. unfold relax_edge at 2, can_relax. cbn [fst snd].
  rewrite Hr. cbn [andb]. by apply IH.
Qed.

Lemma bf_round_spec (g : Graph) : forall (gs : Graph) d order u (p : bpage),
  (forall fn, fn ∈ gs -> obj_get g fn.1 = Some fn.2 /\ NoDup (keys fn.2)) ->
  exists order' p',
    bf_round coord isDirected None g (keys gs) d order u p =
      Next ((foldl relax_edge (d, u) (edge_list gs)).1, order',
            (foldl relax_edge (d, u) (edge_list gs)).2, p') /\
    toasts _ p' = toasts _ p.
Proof.
  induction gs as [|[from nb] gs IH]; intros d order u p Hgs; [by exists order, p|].
  cbn [keys fmap list_fmap fst bf_round isRunning negb].
  destruct (Hgs (from, nb)) as [Hget Hnd]; [by left|]. cbn [fst snd] in Hget, Hnd.
  rewrite Hget. cbn [edge_list flat_map fst snd]. rewrite foldl_app.
  assert (forall fn, fn ∈ gs -> obj_get g fn.1 = Some fn.2 /\ NoDup (keys fn.2)) as Hgs'
    by (intros fn Hfn; apply Hgs; by right).
  set (op := if has order from then (order, p)
             else (order ++ [from], setTraversalOrder coord (order ++ [from]) p)).
  assert (toasts _ op.2 = toasts _ p) as Hop by (subst op; by destruct (has order from)).
  destruct op as [order1 p1]. cbn [snd] in Hop.
  destruct (reached d from) eqn:Er.
  - edestruct (bf_edges_spec nb from nb d u) as (p2 & -> & Ht2 & _); [|exact Er|].
    { intros [to w] Htw. unfold get_num. cbn [fst snd].
      by rewrite (obj_get_of_elem nb to w Hnd Htw). }
    edestruct (IH (foldl relax_edge (d, u) (edges_from from nb)).1) as (order' & p' & Hr & Ht);
      [exact Hgs'|].
    exists order', p'. split.
    + rewrite Hr. by destruct (foldl relax_edge (d, u) (edges_from from nb)).
    + rewrite Ht. simpl. by rewrite Ht2.
  - rewrite (relax_unreached from nb (d, u)) by done.
    edestruct (IH d) as (order' & p' & Hr & Ht); [exact Hgs'|].
    exists order', p'. split; [exact Hr|]. by rewrite Ht.
Qed.

Lemma wf_graph_entries g fn : wf_graph g -> fn ∈ g -> obj_get g fn.1 = Some fn.2 /\ NoDup (keys fn.2).
Proof.
  intros [Hk Hall] Hfn. split.
  - destruct fn as [from nb]. by apply obj_get_of_elem.
  - by eapply Forall_forall in Hall.
Qed.

Lemma bf_rounds_spec g n : forall d order (p : bpage),
  wf_graph g ->
  exists order' p',
    bf_rounds coord isDirected None n g (keys g) d order p =
      Next (relax_rounds n g d, order', p') /\
    toasts _ p' = toasts _ p.
Proof.
  induction n as [|n IH]; intros d order p Hwf; [by exists order, p|].
  cbn [bf_rounds isRunning relax_rounds].
  destruct (bf_round_spec g g d order false p) as (order1 & p1 & -> & Ht1).
  { intros fn Hfn. by apply wf_graph_entries. }
  unfold relax_round. destruct (foldl relax_edge (d, false) (edge_list g)) as [d1 [|]]; cbn [fst snd].
  - destruct (IH d1 order1 p1 Hwf) as (order' & p' & -> & Ht).
    exists order', p'. split; [done|]. by rewrite Ht.
  - by exists order1, p1.
Qed.

Lemma bf_check_spec (g : Graph) d (p : bpage) : forall gs : Graph,
  (forall fn, fn ∈ gs -> obj_get g fn.1 = Some fn.2 /\ NoDup (keys fn.2)) ->
  bf_check coord None g (keys gs) d p =
    if existsb (can_relax d) (edge_list gs)
    then show_toast _ (toast_error "Negative cycle detected!") p
    else p.
Proof.
  induction gs as [|[from nb] gs IH]; intros Hgs; [done|].
  cbn [keys fmap list_fmap fst bf_check isRunning negb].
  destruct (Hgs (from, nb)) as [Hget Hnd]; [by left|]. cbn [fst snd] in Hget, Hnd.
  rewrite Hget. cbn [edge_list flat_map fst snd]. rewrite existsb_app.
  assert (existsb (can_relax d) (edges_from from nb) =
          reached d from && existsb (fun to => relaxes d from (get_num nb to) to) (keys nb)) as ->.
  { unfold edges_from, keys. clear Hget.
    assert (forall es : list (string * number),
              (forall tw, tw ∈ es -> get_num nb tw.1 = tw.2) ->
              existsb (can_relax d) ((fun tw : string * number => (from, tw.1, tw.2)) <$> es) =
              reached d from && existsb (fun to => relaxes d from (get_num nb to) to) (fst <$> es))
      as Hes.
    { induction es as [|[to w] es IHes]; intros Hall; [cbn; by rewrite andb_false_r|].
      cbn [fmap list_fmap existsb fst snd].
      rewrite IHes by (intros tw Htw; apply Hall; by right).
      pose proof (Hall (to, w) ltac:(by left)) as Hw. cbn [fst snd] in Hw. rewrite Hw.
      unfold can_relax at 1. cbn [fst snd].
      by destruct (reached d from), (relaxes d from w to). }
    apply Hes. intros [to w] Htw. unfold get_num. cbn [fst snd].
    by rewrite (obj_get_of_elem nb to w Hnd Htw). }
  destruct (reached d from && _); [done|]. cbn [orb].
  apply IH. intros fn Hfn. apply Hgs. by right.
Qed.

End BfProofs.


Lemma relax_stable (d : Obj number) : forall es u,
  existsb (can_relax d) es = false -> foldl relax_edge (d, u) es = (d, u).
Proof.
  induction es as [|e es IH]; intros u Hex; [done|].
  cbn [existsb] in Hex. apply orb_false_iff in Hex as [He Hes].
  cbn [foldl]. unfold relax_edge at 2. cbn [fst]. rewrite He. by apply IH.
Qed.

(** The graph of the negative-cycle example: A -> B (1), B -> C (-3),
    C -> A (1). *)
Definition example_negative : Graph :=
  [("A", [("B", Int 1)]); ("B", [("C", Int (-3))]); ("C", [("A", Int 1)])].




(** ** Dijkstra: the reference computation *)

Definition is_finite (a : number) : bool :=
  match a with
  | Int _ => true
  | _ => false
  end.

(** The unvisited node of minimum finite distance, the first in iteration
    order among equals. *)
Definition choose (d : Obj number) (unvisited : list string) : option string :=
  find (fun u => is_finite (get_num d u) &&
                 forallb (fun u' => negb (lt (get_num d u') (get_num d u))) unvisited)
       unvisited.

(** Relaxing the edge of weight [tw.2] from [c] to [tw.1]. *)
Definition relax_one (c : string) (d : Obj number) (tw : string * number) : Obj number :=
  if relaxes d c tw.2 tw.1 then obj_set tw.1 (add (get_num d c) tw.2) d else d.

(** Relaxing all outgoing edges of [c]. *)
Definition relax_out (g : Graph) (c : string) (d : Obj number) : Obj number :=
  match obj_get g c with
  | Some edges_out => foldl (relax_one c) d edges_out
  | None => d
  end.

(** The algorithm as the specification words it: select, relax all
    outgoing edges, repeat; stop when no unvisited node has a finite
    distance.  The result is the distances and the order of selection. *)
Fixpoint dijkstra_ref (fuel : nat) (g : Graph) (d : Obj number) (unvisited order : list string)
    : Obj number * list string :=
  match fuel with
  | O => (d, order)
  | S fuel' =>
      match choose d unvisited with
      | Some c => dijkstra_ref fuel' g (relax_out g c d) (set_delete unvisited c) (order ++ [c])
      | None => (d, order)
      end
  end.

(** Every weight is a non-negative integer. *)
Definition nonneg_weights (g : Graph) : Prop :=
  forall e, e ∈ edge_list g -> exists z, e.2 = Int z /\ 0 <= z.

(** [a] is a number other than [NaN]. *)
Definition is_number (a : number) : Prop := a <> NaN.

Lemma lt_irrefl a : lt a a = false.
Proof. destruct a; simpl; [apply Z.ltb_irrefl|done|done]. Qed.

Lemma lt_trans a b c : lt a b = true -> lt b c = true -> lt a c = true.
Proof. destruct a, b, c; simpl; try done. intros ?%Z.ltb_lt ?%Z.ltb_lt. apply Z.ltb_lt. lia. Qed.

(** Among numbers, [a < b] or [b <= a]. *)
Lemma lt_le_trans a b c :
  is_number a -> is_number b -> is_number c ->
  lt a b = true -> lt c b = false -> lt a c = true.
Proof.
  unfold is_number. destruct a, b, c; simpl; try done.
  intros _ _ _ ?%Z.ltb_lt ?%Z.ltb_ge. apply Z.ltb_lt. lia.
Qed.

Lemma le_lt_trans a b c :
  is_number a -> is_number b -> is_number c ->
  lt b a = false -> lt b c = true -> lt a c = true.
Proof.
  unfold is_number. destruct a, b, c; simpl; try done.
  intros _ _ _ ?%Z.ltb_ge ?%Z.ltb_lt. apply Z.ltb_lt. lia.
Qed.

Lemma lt_finite a b : lt a b = true -> is_finite a = true.
Proof. by destruct a, b. Qed.

Lemma find_none_elem {A} (f : A -> bool) (l : list A) :
  (forall x, x ∈ l -> f x = false) -> find f l = None.
Proof.
  induction l as [|a l IH]; intros H; [done|]. simpl.
  rewrite (H a) by (by left). apply IH. intros x Hx. apply H. by right.
Qed.

Lemma find_ext_elem {A} (f h : A -> bool) (l : list A) :
  (forall x, x ∈ l -> f x = h x) -> find f l = find h l.
Proof.
  induction l as [|a l IH]; intros H; [done|]. simpl.
  rewrite (H a) by (by left). rewrite IH; [done|]. intros x Hx. apply H. by right.
Qed.

Lemma forallb_false_elem {A} (f : A -> bool) (l : list A) :
  forallb f l = false -> exists x, x ∈ l /\ f x = false.
Proof.
  induction l as [|a l IH]; simpl; [done|].
  destruct (f a) eqn:Ea; simpl.
  - intros (x & Hx & Hf)%IH. exists x. split; [by right|done].
  - intros _. exists a. split; [by left|done].
Qed.

Section Selection.
Variable d : Obj number.

Abbreviation dist := (get_num d).

(** A list of numbers has a least element below any given one. *)
Lemma exists_minimal l : forall u',
  Forall (fun u => is_number (dist u)) l -> u' ∈ l ->
  exists c, c ∈ l /\ forallb (fun x => negb (lt (dist x) (dist c))) l = true /\
            lt (dist u') (dist c) = false.
Proof.
  induction l as [|a l IH]; intros u' Hl Hu'; [by apply elem_of_nil in Hu'|].
  apply Forall_cons in Hl as [Ha Hl].
  assert (forall c, c ∈ l -> forallb (fun x => negb (lt (dist x) (dist c))) l = true ->
            exists c', c' ∈ a :: l /\
              forallb (fun x => negb (lt (dist x) (dist c'))) (a :: l) = true /\
              lt (dist c) (dist c') = false /\ lt (dist a) (dist c') = false) as Hcmp.
  { intros c Hc Hmin. eapply Forall_forall in Hl as Hnc; [|exact Hc].
    destruct (lt (dist a) (dist c)) eqn:Eac.
    - exists a. split; [by left|]. cbn [forallb]. rewrite lt_irrefl. cbn [negb andb].
      split; [|split; [|done]].
      + apply forallb_forall. intros x Hx%list_elem_of_In.
        rewrite forallb_forall in Hmin. specialize (Hmin x ltac:(by apply list_elem_of_In)).
        apply negb_true_iff in Hmin. apply negb_true_iff, not_true_iff_false. intros Hxa.
        eapply Forall_forall in Hl as Hnx; [|exact Hx].
        pose proof (lt_trans _ _ _ Hxa Eac) as Hbad. by rewrite Hbad in Hmin.
      + apply not_true_iff_false. intros Hca.
        pose proof (lt_trans _ _ _ Hca Eac) as Hbad. by rewrite lt_irrefl in Hbad.
    - exists c. split; [by right|]. cbn [forallb]. rewrite Eac, Hmin. cbn [negb andb].
      split; [done|]. split; [apply lt_irrefl|done]. }
  apply elem_of_cons in Hu' as [->|Hu'].
  - destruct l as [|b l].
    + exists a. split; [by left|]. cbn [forallb]. rewrite lt_irrefl. by split.
    + destruct (IH b Hl ltac:(by left)) as (c & Hc & Hmin & _).
      destruct (Hcmp c Hc Hmin) as (c' & Hc' & Hmin' & _ & Hac'). by exists c'.
  - destruct (IH u' Hl Hu') as (c & Hc & Hmin & Hle).
    destruct (Hcmp c Hc Hmin) as (c' & Hc' & Hmin' & Hcc' & _).
    exists c'. split; [done|]. split; [done|].
    apply not_true_iff_false. intros Hlt.
    eapply Forall_forall in Hl as Hnu; [|exact Hu'].
    eapply Forall_forall in Hl as Hnc; [|exact Hc].
    assert (is_number (dist c')) as Hnc'.
    { apply elem_of_cons in Hc' as [->|Hc']; [done|]. by eapply Forall_forall in Hl. }
    pose proof (lt_le_trans _ _ _ Hnu Hnc' Hnc Hlt Hcc') as Hbad. by rewrite Hbad in Hle.
Qed.

(** The selection loop started with [(c0, m0)] on [l] ends with the first
    node of [l] that is below [m0] and minimal in [l], if there is one. *)
Lemma select_fold l : forall c0 m0,
  is_number m0 -> Forall (fun u => is_number (dist u)) l ->
  foldl (select_step d) (c0, m0) l =
    match find (fun u => lt (dist u) m0 &&
                         forallb (fun u' => negb (lt (dist u') (dist u))) l) l with
    | Some c => (c, dist c)
    | None => (c0, m0)
    end.
Proof.
  induction l as [|a l IH]; intros c0 m0 Hm Hl; [done|].
  pose proof Hl as Hal. apply Forall_cons in Hl as [Ha Hl].
  cbn [foldl find forallb]. unfold select_step at 2. cbn [snd].
  rewrite lt_irrefl. cbn [negb andb].
  destruct (lt (dist a) m0) eqn:Eam; cbn [andb].
  - rewrite IH by done.
    destruct (forallb (fun u' => negb (lt (dist u') (dist a))) l) eqn:Emin.
    + (* [a] is minimal: nothing in [l] is below it *)
      rewrite find_none_elem; [done|].
      intros u Hu. apply andb_false_iff. left.
      rewrite forallb_forall in Emin. specialize (Emin u ltac:(by apply list_elem_of_In)).
      by apply negb_true_iff in Emin.
    + (* something in [l] is below [a] *)
      apply forallb_false_elem in Emin as (u' & Hu' & Hlt). apply negb_false_iff in Hlt.
      rewrite (find_ext_elem
                 (fun u => lt (dist u) (dist a) &&
                           forallb (fun u'0 => negb (lt (dist u'0) (dist u))) l)
                 (fun u => lt (dist u) m0 &&
                           (negb (lt (dist a) (dist u)) &&
                            forallb (fun u'0 => negb (lt (dist u'0) (dist u))) l)) l).
      * destruct (find _ l) as [c|] eqn:Efind; [done|]. exfalso.
        destruct (exists_minimal l u' Hl Hu') as (c & Hc & Hcmin & Hcu).
        eapply Forall_forall in Hl as Hnc; [|exact Hc].
        eapply Forall_forall in Hl as Hnu'; [|exact Hu'].
        pose proof (find_none _ _ Efind c ltac:(by apply list_elem_of_In)) as Hf.
        cbn beta in Hf. rewrite Hcmin, andb_true_r in Hf.
        assert (lt (dist c) (dist a) = true) as Hca by (by eapply (le_lt_trans _ (dist u'))).
        rewrite (lt_trans _ _ _ Hca Eam) in Hf. cbn [andb] in Hf.
        apply negb_false_iff in Hf.
        pose proof (lt_trans _ _ _ Hf Hca) as Hbad. by rewrite lt_irrefl in Hbad.
      * intros u Hu. cbn beta.
        destruct (forallb (fun u'0 => negb (lt (dist u'0) (dist u))) l) eqn:Eu;
          [|by rewrite !andb_false_r].
        rewrite !andb_true_r.
        rewrite forallb_forall in Eu. specialize (Eu u' ltac:(by apply list_elem_of_In)).
        apply negb_true_iff in Eu.
        eapply Forall_forall in Hl as Hnu; [|exact Hu].
        eapply Forall_forall in Hl as Hnu'; [|exact Hu'].
        assert (lt (dist u) (dist a) = true) as Hua by (by eapply (le_lt_trans _ (dist u'))).
        rewrite Hua, (lt_trans _ _ _ Hua Eam).
        assert (lt (dist a) (dist u) = false) as ->; [|done].
        apply not_true_iff_false. intros Hau.
        pose proof (lt_trans _ _ _ Hau Hua) as Hbad. by rewrite lt_irrefl in Hbad.
  - rewrite IH by done.
    rewrite (find_ext_elem
               (fun u => lt (dist u) m0 &&
                         forallb (fun u'0 => negb (lt (dist u'0) (dist u))) l)
               (fun u => lt (dist u) m0 &&
                         (negb (lt (dist a) (dist u)) &&
                          forallb (fun u'0 => negb (lt (dist u'0) (dist u))) l)) l); [done|].
    intros u Hu. cbn beta.
    destruct (lt (dist u) m0) eqn:Eum; [|done]. cbn [andb].
    assert (lt (dist a) (dist u) = false) as ->; [|done].
    apply not_true_iff_false. intros Hau.
    pose proof (lt_trans _ _ _ Hau Eum) as Hbad. by rewrite Hbad in Eam.
Qed.

End Selection.


Lemma select_min_choose d unvisited :
  Forall (fun u => is_number (get_num d u)) unvisited ->
  select_min d unvisited =
    match choose d unvisited with
    | Some c => (c, get_num d c)
    | None => (EmptyString, Infinity)
    end.
Proof.
  intros Hl. unfold select_min, choose. rewrite select_fold by done.
  erewrite (find_ext_elem _ (fun u => is_finite (get_num d u) &&
              forallb (fun u' => negb (lt (get_num d u') (get_num d u))) unvisited)); [done|].
  intros u _. cbn beta. by destruct (get_num d u).
Qed.

Lemma choose_Some d unvisited c :
  choose d unvisited = Some c ->
  c ∈ unvisited /\ (exists zc, get_num d c = Int zc) /\
  forall u, u ∈ unvisited -> lt (get_num d u) (get_num d c) = false.
Proof.
  intros [Hin Hc]%find_some. apply andb_true_iff in Hc as [Hfin Hmin].
  split; [by apply list_elem_of_In|]. split.
  - destruct (get_num d c) as [zc| |]; try done. by exists zc.
  - intros u Hu. rewrite forallb_forall in Hmin.
    specialize (Hmin u ltac:(by apply list_elem_of_In)). by apply negb_true_iff in Hmin.
Qed.

Lemma get_num_set d k v k' :
  get_num (obj_set k v d) k' = if decide (k' = k) then v else get_num d k'.
Proof. unfold get_num. rewrite obj_get_set. by case_decide. Qed.

Lemma init_distances_get ks start k : forall acc,
  obj_get (foldl (fun d nodeId =>
                    obj_set nodeId (if decide (nodeId = start) then Int 0 else Infinity) d)
                 acc ks) k =
    if decide (k ∈ ks) then Some (if decide (k = start) then Int 0 else Infinity)
    else obj_get acc k.
Proof.
  induction ks as [|a ks IH]; intros acc; cbn [foldl].
  - destruct (decide (k ∈ [])) as [Hk|]; [|done]. by apply elem_of_nil in Hk.
  - rewrite IH. destruct (decide (k ∈ ks)) as [Hk|Hk].
    + destruct (decide (k ∈ a :: ks)) as [|Hn]; [done|]. exfalso. apply Hn. by right.
    + rewrite obj_get_set. destruct (decide (k = a)) as [->|Hne].
      * destruct (decide (a ∈ a :: ks)) as [|Hn]; [done|]. exfalso. apply Hn. by left.
      * destruct (decide (k ∈ a :: ks)) as [[?|?]%elem_of_cons|]; done.
Qed.

Lemma foldl_set_add ks : forall acc, NoDup (acc ++ ks) -> foldl set_add acc ks = acc ++ ks.
Proof.
  induction ks as [|a ks IH]; intros acc Hnd; cbn [foldl]; [by rewrite app_nil_r|].
  assert (a ∉ acc) as Ha.
  { apply NoDup_app in Hnd as (_ & Hd & _). intros Hin. apply (Hd a Hin). by left. }
  unfold set_add at 2. rewrite (proj2 (has_false acc a) Ha).
  rewrite IH; rewrite <- app_assoc; done.
Qed.

Lemma length_set_delete l c : c ∈ l -> (length (set_delete l c) < length l)%nat.
Proof.
  unfold set_delete. induction l as [|a l IH]; intros Hc; [by apply elem_of_nil in Hc|].
  rewrite filter_cons. destruct (decide (a <> c)) as [Hne|Heq]; cbn [length].
  - apply elem_of_cons in Hc as [->|Hc]; [done|]. specialize (IH Hc). lia.
  - pose proof (length_filter (fun k' => k' <> c) l). lia.
Qed.

Lemma edge_list_elem (g : Graph) from nb tw :
  (from, nb) ∈ g -> tw ∈ nb -> (from, tw.1, tw.2) ∈ edge_list g.
Proof.
  intros Hg Htw. unfold edge_list. apply list_elem_of_In, in_flat_map.
  exists (from, nb). split; [by apply list_elem_of_In|].
  apply list_elem_of_In. unfold edges_from. cbn [fst snd].
  apply list_elem_of_fmap. by exists tw.
Qed.


Section DijkstraProofs.
Variable coord : Type.
Variable isDirected : bool.
Variable g : Graph.
Hypothesis Hwf : wf_graph g.
Hypothesis Hnonneg : nonneg_weights g.

Abbreviation dpage := (page coord).

(** After relaxing from [c], at distance [zc]: every distance is as before
    or belongs to a node outside [visited] and is an integer not below
    [zc]. *)
Definition relaxed_from (zc : Z) (visited : list string) (d d' : Obj number) : Prop :=
  forall k, get_num d' k = get_num d k \/
            ((k ∉ visited) /\ exists z', get_num d' k = Int z' /\ zc <= z').

(** The loop over the neighbours relaxes every outgoing edge: the edges to
    visited nodes, which it skips, would not relax. *)
Lemma dijkstra_neighbors_spec edges_out c visited zc : forall (es : list (string * number)) d
    (p : dpage),
  (forall tw, tw ∈ es -> get_num edges_out tw.1 = tw.2 /\ exists z, tw.2 = Int z /\ 0 <= z) ->
  get_num d c = Int zc -> c ∈ visited ->
  (forall v, v ∈ visited -> exists zv, get_num d v = Int zv /\ zv <= zc) ->
  exists p',
    dijkstra_neighbors coord isDirected edges_out c visited (keys es) d p =
      (foldl (relax_one c) d es, p') /\
    relaxed_from zc visited d (foldl (relax_one c) d es).
Proof.
  induction es as [|[to w] es IH]; intros d p Hes Hc Hcv Hv.
  - exists p. split; [done|]. intros k. by left.
  - destruct (Hes (to, w) ltac:(by left)) as (Hw & z & Hwz & Hz).
    cbn [fst snd] in Hw, Hwz. rewrite Hwz in Hw |- *. clear Hwz.
    cbn [keys fmap list_fmap fst dijkstra_neighbors foldl]. rewrite Hw.
    assert (forall tw, tw ∈ es ->
              get_num edges_out tw.1 = tw.2 /\ exists z, tw.2 = Int z /\ 0 <= z) as Hes'
      by (intros tw Htw; apply Hes; by right).
    unfold relax_one at 2 4. cbn [fst snd].
    destruct (has visited to) eqn:Eto; cbn [negb andb].
    + apply has_true in Eto. destruct (Hv to Eto) as (zv & Hzv & Hle).
      assert (relaxes d c (Int z) to = false) as ->.
      { unfold relaxes. rewrite Hc, Hzv. simpl. apply Z.ltb_ge. lia. }
      by apply IH.
    + apply has_false in Eto. destruct (relaxes d c (Int z) to) eqn:Er; [|by apply IH].
      rewrite Hc. cbn [add].
      assert (to <> c) as Hne by (intros ->; done).
      edestruct (IH (obj_set to (Int (zc + z)) d)) as (p' & -> & Hrel); [exact Hes'| |exact Hcv| |].
      * rewrite get_num_set. by rewrite decide_False.
      * intros v Hvin. rewrite get_num_set. rewrite decide_False; [by apply Hv|].
        intros ->. done.
      * exists p'. split; [done|]. intros k. destruct (Hrel k) as [Hk|Hk]; [|by right].
        rewrite Hk, get_num_set. case_decide; [subst|by left].
        right. split; [done|]. exists (zc + z). split; [done|lia].
Qed.

(** What the loop maintains. *)
Definition settled (d : Obj number) (visited unvisited : list string) : Prop :=
  NoDup unvisited /\ (EmptyString ∉ unvisited) /\
  (forall u, u ∈ unvisited -> (u ∉ visited) /\ is_number (get_num d u)) /\
  (forall v, v ∈ visited ->
     exists zv, get_num d v = Int zv /\
                forall u, u ∈ unvisited -> lt (get_num d u) (Int zv) = false).

Lemma dijkstra_visit_spec c d visited unvisited order (p : dpage) :
  settled d visited unvisited -> choose d unvisited = Some c ->
  exists p',
    dijkstra_visit coord isDirected g c d visited unvisited order p =
      (relax_out g c d, visited ++ [c], set_delete unvisited c, order ++ [c], p') /\
    settled (relax_out g c d) (visited ++ [c]) (set_delete unvisited c).
Proof.
  intros (Hnd & Hempty & Hun & Hvis) (Hc & (zc & Hzc) & Hmin)%choose_Some.
  destruct (Hun c Hc) as [Hcv _].
  assert (forall v, v ∈ visited ++ [c] -> exists zv, get_num d v = Int zv /\ zv <= zc) as Hbelow.
  { intros v [Hv| ->%list_elem_of_singleton]%elem_of_app; [|by exists zc].
    destruct (Hvis v Hv) as (zv & Hzv & Hle). exists zv. split; [done|].
    specialize (Hle c Hc). rewrite Hzc in Hle. simpl in Hle. by apply Z.ltb_ge in Hle. }
  assert (exists p', dijkstra_visit coord isDirected g c d visited unvisited order p =
            (relax_out g c d, visited ++ [c], set_delete unvisited c, order ++ [c], p') /\
            relaxed_from zc (visited ++ [c]) d (relax_out g c d)) as (p' & Hvisit & Hrel).
  { unfold dijkstra_visit, set_add, relax_out.
    rewrite (proj2 (has_false visited c) Hcv).
    destruct (obj_get g c) as [nb|] eqn:Eg.
    - edestruct (dijkstra_neighbors_spec nb c (visited ++ [c]) zc nb d) as (p' & -> & Hrel);
        [|exact Hzc| |exact Hbelow|].
      + intros [to w] Htw. cbn [fst snd].
        pose proof (wf_graph_entries g (c, nb) Hwf (obj_get_elem _ _ _ Eg)) as [_ Hnb].
        cbn [snd] in Hnb. split.
        * unfold get_num. by rewrite (obj_get_of_elem nb to w Hnb Htw).
        * apply (Hnonneg (c, to, w)).
          apply (edge_list_elem g c nb (to, w)); [by apply obj_get_elem|done].
      + apply elem_of_app. right. by left.
      + by eexists.
    - eexists. split; [done|]. intros k. by left. }
  exists p'. split; [exact Hvisit|].
  assert (forall u, u ∈ set_delete unvisited c -> u ∈ unvisited /\ u <> c) as Hdel.
  { intros u Hu. unfold set_delete in Hu. by apply list_elem_of_filter in Hu as [? ?]. }
  split_and!.
  - by apply NoDup_filter.
  - intros [H _]%Hdel. done.
  - intros u [Hu Hne]%Hdel. destruct (Hun u Hu) as [Huv Hnum]. split.
    + intros [?| ->%list_elem_of_singleton]%elem_of_app; done.
    + destruct (Hrel u) as [-> | (_ & z' & -> & _)]; done.
  - intros v Hv. destruct (Hbelow v Hv) as (zv & Hzv & Hle).
    exists zv. split.
    + destruct (Hrel v) as [-> | (Hnv & _)]; done.
    + intros u [Hu Hne]%Hdel.
      destruct (Hrel u) as [-> | (_ & z' & -> & Hz')]; [|simpl; apply Z.ltb_ge; lia].
      apply elem_of_app in Hv as [Hv| ->%list_elem_of_singleton].
      * destruct (Hvis v Hv) as (zv' & Hzv' & Hall). rewrite Hzv in Hzv'.
        injection Hzv' as <-. by apply Hall.
      * rewrite Hzc in Hzv. injection Hzv as <-. rewrite <- Hzc. by apply Hmin.
Qed.

Lemma dijkstra_loop_spec fuel : forall d visited unvisited (p : dpage),
  settled d visited unvisited -> (length unvisited <= fuel)%nat ->
  exists d' order p',
    dijkstra_loop coord isDirected None fuel g d visited unvisited visited p =
      Some (d', order, order, p') /\
    (d', order) = dijkstra_ref fuel g d unvisited visited.
Proof.
  induction fuel as [|fuel IH]; intros d visited unvisited p Hs Hlen.
  - destruct unvisited; [|simpl in Hlen; lia]. by exists d, visited, p.
  - destruct unvisited as [|u0 us] eqn:Eu.
    + exists d, visited, p. split; [done|]. by cbn.
    + rewrite <- Eu in *. clear Eu.
      assert (dijkstra_loop coord isDirected None (S fuel) g d visited unvisited visited p =
              let '(current, minDistance) := select_min d unvisited in
              if bool_decide (current = EmptyString) || negb (reached d current)
              then Some (d, visited, visited, p)
              else
                let '(distances, visited', unvisited', order, p) :=
                  dijkstra_visit coord isDirected g current d visited unvisited visited p in
                dijkstra_loop coord isDirected None fuel g distances visited' unvisited' order p)
        as ->.
      { destruct unvisited; [|done]. by cbn. }
      cbn [dijkstra_ref].
      pose proof Hs as (Hnd & Hempty & Hun & Hvis).
      rewrite select_min_choose by (apply Forall_forall; intros u Hu; by apply Hun).
      destruct (choose d unvisited) as [c|] eqn:Ec.
      * pose proof Ec as (Hc & (zc & Hzc) & Hmin)%choose_Some.
        rewrite bool_decide_eq_false_2 by (intros ->; done).
        assert (reached d c = true) as ->.
        { unfold reached. unfold get_num in Hzc. by destruct (obj_get d c) as [[]|]. }
        cbn [negb orb].
        destruct (dijkstra_visit_spec c d visited unvisited visited p Hs Ec)
          as (p1 & -> & Hs1).
        apply IH; [done|]. pose proof (length_set_delete unvisited c Hc). lia.
      * rewrite bool_decide_eq_true_2 by done. cbn [orb]. by exists d, visited, p.
Qed.

End DijkstraProofs.


(** The weighted example: the cycle A -> B -> C -> D -> A with the
    shortcut A -> C, every weight 1. *)
Definition example_weighted : string :=
  unlines ["A: B(1),C(1)"; "B: C(1)"; "C: D(1)"; "D: A(1)"].

(** C5.  [dijkstra] on a graph with non-negative integer weights in which
    the empty string is not a node, run without cancellation with one unit
    of fuel per node: it ends, and its distances and its order of visits are
    those of the reference computation, which selects the unvisited node of
    minimum finite distance (the first in iteration order among equals),
    relaxes all its outgoing edges, and stops when no unvisited node has a
    finite distance.  The selection loop computes that choice for any
    distances.  On the example the distances from [A] are 0, 1, 1, 2. *)
Theorem dijkstra_selects_minimum (coord : Type) (isDirected : bool) (p : page coord)
    (startNodeId : string) :
  wf_graph (graph _ p) -> nonneg_weights (graph _ p) -> EmptyString ∉ keys (graph _ p) ->
  let g := graph _ p in
  let fuel := length (keys g) in
  (exists d order p',
     dijkstra coord isDirected None fuel startNodeId p = Some (d, order, order, p') /\
     (d, order) = dijkstra_ref fuel g (init_distances (keys g) startNodeId) (keys g) []) /\
  (forall d unvisited,
     Forall (fun u => is_number (get_num d u)) unvisited ->
     select_min d unvisited =
       match choose d unvisited with
       | Some c => (c, get_num d c)
       | None => (EmptyString, Infinity)
       end) /\
  (exists gex d order q',
     parseAdjacencyList true example_weighted = Returns gex /\
     dijkstra unit true None (length (keys gex)) "A" (page_of gex) = Some (d, order, order, q') /\
     d = [("A", Int 0); ("B", Int 1); ("C", Int 1); ("D", Int 2)]).
Proof.
  intros Hwf Hnonneg Hempty g fuel. split_and!.
  - unfold dijkstra. fold g. pose proof Hwf as [Hk _].
    rewrite (foldl_set_add (keys g) []) by done. cbn [app].
    apply (dijkstra_loop_spec coord isDirected g Hwf Hnonneg); [|done].
    split_and!; [done|done| |by intros v ?%elem_of_nil].
    intros u Hu. split; [apply not_elem_of_nil|].
    unfold is_number, get_num, init_distances. rewrite init_distances_get.
    rewrite decide_True by done. simpl. by case_decide.
  - apply select_min_choose.
  - eexists _, _, _, _. split; [by vm_compute|]. split; [by vm_compute|done].
Qed.

Lemma dijkstra_selects_minimum_witness :
  let g := [("A", [("B", Int 2); ("C", Int 1)]); ("B", []); ("C", [("B", Int 0)])] in
  exists d order p',
    dijkstra unit false None 3 "A" (page_of g) = Some (d, order, order, p') /\
    (d, order) = dijkstra_ref 3 g (init_distances ["A"; "B"; "C"] "A") ["A"; "B"; "C"] [].
Proof.
  destruct (dijkstra_selects_minimum unit false
              (page_of [("A", [("B", Int 2); ("C", Int 1)]); ("B", []); ("C", [("B", Int 0)])])
              "A") as (H & _).
  - apply (bool_decide_unpack _). vm_compute. reflexivity.
  - intros e He. cbn in He.
    repeat (apply elem_of_cons in He as [->|He]; [eexists; split; [reflexivity|lia]|]).
    by apply elem_of_nil in He.
  - apply (bool_decide_unpack _). vm_compute. reflexivity.
  - exact H.
Defined.

(** A node named by the empty string is never selected: [current === '']
    also reads "nothing found".  For the text [A: ,B / : C / C:] the node
    [""] is at distance 1 from [A] and unvisited when the loop stops, and
    [C], reachable through it, keeps the distance [Infinity]; the reference
    computation visits all three. *)
Lemma dijkstra_empty_name_stops :
  let g := [("A", [("", Int 1); ("B", Int 1)]); ("", [("C", Int 1)]); ("C", [])] in
  parseAdjacencyList false (unlines ["A: ,B"; ": C"; "C:"]) = Returns g /\
  (fun r => (r.1.1.1, r.1.2)) <$> dijkstra unit false None 3 "A" (page_of g) =
    Some ([("A", Int 0); ("", Int 1); ("C", Infinity)], ["A"]) /\
  choose [("A", Int 0); ("", Int 1); ("C", Infinity)] [""; "C"] = Some "" /\
  dijkstra_ref 3 g (init_distances (keys g) "A") (keys g) [] =
    ([("A", Int 0); ("", Int 1); ("C", Int 2)], ["A"; ""; "C"]).
Proof. cbv zeta. split_and!; by vm_compute. Qed.


(** ** The graphs that the parsers return

    They are objects in the sense of [wf_graph], with non-negative integer
    weights: the assumptions made on the graph in the theorems about the
    traversals hold for every graph that comes from the input box. *)

Definition ok_obj (o : Obj number) : Prop :=
  NoDup (keys o) /\ forall tw, tw ∈ o -> exists z, tw.2 = Int z /\ 0 <= z.

Definition ok_graph (g : Graph) : Prop :=
  NoDup (keys g) /\ forall fn, fn ∈ g -> ok_obj fn.2.

Lemma elem_of_obj_update {V} (k : string) (v : V) o kv :
  kv ∈ obj_update k v o -> kv = (k, v) \/ kv ∈ o.
Proof.
  induction o as [|[k0 v0] o IH]; simpl; [by intros ?%elem_of_nil|].
  case_decide; intros [->|Hin]%elem_of_cons; auto.
  - right. by right.
  - right. by left.
  - destruct (IH Hin); auto. right. by right.
Qed.

Lemma elem_of_obj_insert_index {V} n (k : string) (v : V) o kv :
  kv ∈ obj_insert_index n k v o -> kv = (k, v) \/ kv ∈ o.
Proof.
  induction o as [|[k0 v0] o IH]; simpl.
  - intros ->%list_elem_of_singleton. by left.
  - destruct (array_index k0) as [n0|]; [destruct (n0 <? n)%N|];
      intros [->|Hin]%elem_of_cons; auto.
    + right. by left.
    + destruct (IH Hin); auto. right. by right.
Qed.

Lemma elem_of_obj_set {V} (k : string) (v : V) o kv :
  kv ∈ obj_set k v o -> kv = (k, v) \/ kv ∈ o.
Proof.
  unfold obj_set. destruct (obj_get o k); [apply elem_of_obj_update|].
  destruct (array_index k); [apply elem_of_obj_insert_index|].
  intros [?| ->%list_elem_of_singleton]%elem_of_app; auto.
Qed.

Lemma keys_insert_index {V} n (k : string) (v : V) o :
  keys (obj_insert_index n k v o) ≡ₚ k :: keys o.
Proof.
  induction o as [|[k0 v0] o IH]; simpl; [done|].
  destruct (array_index k0) as [n0|]; [destruct (n0 <? n)%N|]; simpl; try done.
  unfold keys in IH. rewrite IH. apply perm_swap.
Qed.

Lemma NoDup_keys_set {V} (k : string) (v : V) o : NoDup (keys o) -> NoDup (keys (obj_set k v o)).
Proof.
  intros Hnd. unfold obj_set. destruct (obj_get o k) as [v0|] eqn:Hk.
  - by rewrite keys_update.
  - assert (k ∉ keys o) as Hnk.
    { intros Hin%obj_get_keys. rewrite Hk in Hin. by destruct Hin. }
    destruct (array_index k).
    + rewrite keys_insert_index. by apply NoDup_cons.
    + unfold keys. rewrite fmap_app. apply NoDup_app. split_and!; [done| |apply NoDup_singleton].
      intros x Hx Hx'. apply list_elem_of_singleton in Hx' as ->. done.
Qed.

Lemma ok_obj_set to z o : 0 <= z -> ok_obj o -> ok_obj (obj_set to (Int z) o).
Proof.
  intros Hz [Hnd Hw]. split; [by apply NoDup_keys_set|].
  intros tw [->|Hin]%elem_of_obj_set; [by exists z|by apply Hw].
Qed.

Lemma ok_graph_set from nb (g : Graph) : ok_obj nb -> ok_graph g -> ok_graph (obj_set from nb g).
Proof.
  intros Hnb [Hnd Hg]. split; [by apply NoDup_keys_set|].
  intros fn [->|Hin]%elem_of_obj_set; [done|by apply Hg].
Qed.

Lemma ok_graph_wf g : ok_graph g -> wf_graph g /\ nonneg_weights g.
Proof.
  intros [Hnd Hg]. split.
  - split; [done|]. apply Forall_forall. intros fn Hfn. by apply Hg.
  - intros e He. unfold edge_list in He.
    apply list_elem_of_In, in_flat_map in He as ([from nb] & Hfn & He).
    apply list_elem_of_In in Hfn, He. unfold edges_from in He.
    apply list_elem_of_fmap in He as (tw & -> & Htw).
    destruct (Hg _ Hfn) as [_ Hw]. by apply Hw.
Qed.

Lemma set_edge_ok (g g' : Graph) from to z :
  0 <= z -> ok_graph g -> set_edge g from to (Int z) = Returns g' -> ok_graph g'.
Proof.
  intros Hz Hg. unfold set_edge. destruct (obj_get g from) as [nb|] eqn:E; [|done].
  intros [= <-]. apply ok_graph_set; [|done]. apply ok_obj_set; [done|].
  destruct Hg as [_ Hg]. by apply (Hg (from, nb)), obj_get_elem.
Qed.


Lemma digit_value_digit c :
  is_digit c = true -> exists dv, digit_value c = Some dv /\ 0 <= dv < 10.
Proof.
  unfold is_digit, digit_value. intros H. cbv zeta in *. rewrite H.
  apply andb_true_iff in H as [H1%Nat.leb_le H2%Nat.leb_le].
  eexists. split; [done|]. lia.
Qed.

Lemma read_digits_all s : forall acc,
  all_digits s = true -> 0 <= acc ->
  exists v, read_digits 10 s acc true = (v, true) /\ 0 <= v.
Proof.
  induction s as [|c s IH]; intros acc Hall Hacc; simpl; [by exists acc|].
  simpl in Hall. apply andb_true_iff in Hall as [Hc Hs].
  destruct (digit_value_digit c Hc) as (dv & -> & Hdv).
  destruct (Z.ltb_spec dv 10); [|lia]. apply IH; [done|lia].
Qed.

(** [parseInt] of a non-empty string of decimal digits. *)
Lemma parseInt_digits d :
  d <> EmptyString -> all_digits d = true -> exists z, parseInt d = Int z /\ 0 <= z.
Proof.
  destruct d as [|c rest]; [done|]. intros _ Hall.
  assert (exists v, read_digits 10 (String c rest) 0 false = (v, true) /\ 0 <= v) as (v & Hv & Hv0).
  { simpl in Hall. apply andb_true_iff in Hall as [Hc Hs].
    simpl. destruct (digit_value_digit c Hc) as (dv & -> & Hdv).
    destruct (Z.ltb_spec dv 10); [|lia]. apply read_digits_all; [done|lia]. }
  exists v. split; [|done].
  assert (forall c2 rest2, rest = String c2 rest2 -> c2 <> "x"%char /\ c2 <> "X"%char) as Hx.
  { intros c2 rest2 ->. simpl in Hall. apply andb_true_iff in Hall as [_ Hall].
    apply andb_true_iff in Hall as [Hc2 _]. split; intros ->; by vm_compute in Hc2. }
  simpl in Hall. apply andb_true_iff in Hall as [Hc _].
  unfold parseInt. revert Hv. generalize read_digits as R. intros R Hv.
  destruct c as [[] [] [] [] [] [] [] []]; try (by vm_compute in Hc);
    try (simpl; rewrite Hv; f_equal; lia).
  destruct rest as [|c2 rest2]; [simpl; rewrite Hv; f_equal; lia|].
  destruct (Hx c2 rest2 eq_refl) as [Hx1 Hx2].
  destruct c2 as [[] [] [] [] [] [] [] []]; try done; simpl; rewrite Hv; f_equal; lia.
Qed.

Fixpoint string_forall (p : ascii -> bool) (s : string) : bool :=
  match s with
  | EmptyString => true
  | String c s' => p c && string_forall p s'
  end.

Lemma span_forall p s a b : span p s = (a, b) -> string_forall p a = true.
Proof.
  revert a b. induction s as [|c s IH]; intros a b; simpl; [by intros [= <- <-]|].
  destruct (p c) eqn:Ec; [|by intros [= <- <-]].
  destruct (span p s) as [a' b']. intros [= <- <-]. simpl. rewrite Ec. by eapply IH.
Qed.

Lemma match_here_digits s m1 m2 :
  match_here s = Some (m1, m2) -> m2 <> EmptyString /\ all_digits m2 = true.
Proof.
  unfold match_here. destruct (span is_word s) as [w r].
  destruct w as [|? ?]; [done|]. destruct r as [|c r1]; [done|].
  destruct c as [[] [] [] [] [] [] [] []]; try done.
  destruct (span is_digit r1) as [dg r2] eqn:Ed.
  destruct dg as [|c1 dg]; [done|]. destruct r2 as [|c2 r2]; [done|].
  destruct c2 as [[] [] [] [] [] [] [] []]; try done.
  intros [= <- <-]. split; [done|].
  apply span_forall in Ed. clear -Ed. revert Ed. generalize (String c1 dg).
  induction s as [|c s IH]; simpl; [done|]. intros [-> Hs]%andb_true_iff. by apply IH.
Qed.

Lemma regex_match_digits s m1 m2 :
  regex_match s = Some (m1, m2) -> exists z, parseInt m2 = Int z /\ 0 <= z.
Proof.
  induction s as [|c s IH]; cbn [regex_match].
  - intros H. by vm_compute in H.
  - destruct (match_here (String c s)) as [[a b]|] eqn:E; [|exact IH].
    intros [= -> ->]. apply match_here_digits in E as [? ?]. by apply parseInt_digits.
Qed.


Lemma forEach_invariant {A S} (body : S -> A -> result S) (P : S -> Prop) (Q : A -> Prop) xs :
  (forall g x g', Q x -> P g -> body g x = Returns g' -> P g') ->
  forall g g', Forall Q xs -> P g -> forEach body xs g = Returns g' -> P g'.
Proof.
  intros Hbody. induction xs as [|x xs IH]; intros g g' HQ HP; simpl; [by intros [= <-]|].
  apply Forall_cons in HQ as [Hx HQ].
  destruct (body g x) as [g1|e] eqn:E; simpl; [|done]. apply IH; [done|]. by eapply Hbody.
Qed.

Lemma parseInt_Int s : lt (Int 0) (parseInt s) = true -> exists z, parseInt s = Int z /\ 0 <= z.
Proof.
  unfold parseInt. destruct (match trimStart s with String "+"%char _ => _ | _ => _ end) as [sg s1].
  destruct (match s1 with String "0"%char _ => _ | _ => _ end) as [radix s2].
  destruct (read_digits radix s2 0 false) as [v [|]]; simpl; [|done].
  intros H%Z.ltb_lt. eexists. split; [done|]. lia.
Qed.

Section ParserResults.
Variable isWeighted : bool.

Lemma add_neighbor_ok node (g g' : Graph) neighbor :
  ok_graph g -> add_neighbor isWeighted node g neighbor = Returns g' -> ok_graph g'.
Proof.
  intros Hg. unfold add_neighbor.
  destruct (isWeighted && includes "(" (trim neighbor)).
  - destruct (regex_match (trim neighbor)) as [[m1 m2]|] eqn:E; [|by intros [= <-]].
    destruct (regex_match_digits _ _ _ E) as (z & -> & Hz). by apply set_edge_ok.
  - by apply set_edge_ok.
Qed.

Lemma parse_line_ok (g g' : Graph) line :
  ok_graph g -> parse_line isWeighted g line = Returns g' -> ok_graph g'.
Proof.
  intros Hg. unfold parse_line.
  destruct (split ":" (trim line)) as [|p0 [|p1 [|p2 ps]]]; try done.
  set (g1 := if obj_get g (trim p0) is Some _ then g else obj_set (trim p0) [] g).
  assert (ok_graph g1) as Hg1.
  { subst g1. destruct (obj_get g (trim p0)); [done|].
    apply ok_graph_set; [|done]. split; [constructor|]. by intros tw ?%elem_of_nil. }
  case_bool_decide; [by intros [= <-]|].
  apply (forEach_invariant _ ok_graph (fun _ => True)); [|by apply Forall_forall|done].
  intros g2 x g3 _. apply add_neighbor_ok.
Qed.

(** The adjacency-list parser returns objects with non-negative weights. *)
Lemma parseAdjacencyList_ok input g :
  parseAdjacencyList isWeighted input = Returns g -> wf_graph g /\ nonneg_weights g.
Proof.
  intros H. apply ok_graph_wf. revert H.
  apply (forEach_invariant _ ok_graph (fun _ => True)).
  - intros g1 x g2 _. apply parse_line_ok.
  - by apply Forall_forall.
  - split; [constructor|]. by intros fn ?%elem_of_nil.
Qed.

Lemma matrix_cell_ok labels from (gj gj' : Graph * nat) s :
  ok_graph gj.1 ->
  matrix_cell isWeighted labels from gj (parseInt s) = Returns gj' -> ok_graph gj'.1.
Proof.
  destruct gj as [g j]. cbn [fst]. intros Hg. unfold matrix_cell.
  destruct (lt (Int 0) (parseInt s)) eqn:E; [|by intros [= <-]].
  destruct (parseInt_Int s E) as (z & Hz & Hz0).
  destruct (set_edge _ _ _ _) as [g1|e] eqn:Es; simpl; [|done]. intros [= <-]. cbn [fst].
  destruct isWeighted; [rewrite Hz in Es|]; by eapply set_edge_ok in Es.
Qed.

(** So does the adjacency-matrix parser. *)
Lemma parseAdjacencyMatrix_ok input g :
  parseAdjacencyMatrix isWeighted input = Returns g -> wf_graph g /\ nonneg_weights g.
Proof.
  intros H. apply ok_graph_wf. revert H. unfold parseAdjacencyMatrix.
  set (labels := trim <$> split "," (default EmptyString (head (split nl (trim input))))).
  destruct (forEach _ _ _) as [[g1 i1]|e] eqn:E; simpl; [|done]. intros [= <-].
  change g1 with (g1, i1).1.
  revert E. apply (forEach_invariant _ (fun gi : Graph * nat => ok_graph gi.1) (fun _ => True));
    [|by apply Forall_forall|].
  - intros [g2 i2] line [g3 i3] _ Hg2. unfold matrix_row.
    destruct (forEach _ _ _) as [[g4 j4]|e] eqn:E4; simpl; [|done]. intros [= <- <-].
    change g4 with (g4, j4).1.
    revert E4.
    apply (forEach_invariant _ (fun gj : Graph * nat => ok_graph gj.1)
             (fun w => exists s, w = parseInt s)); [| |done].
    + intros gj w gj' [s ->]. apply matrix_cell_ok.
    + apply Forall_fmap, Forall_forall. intros s _. by eexists.
  - cbn [fst]. generalize labels. clear.
    assert (forall ls (g0 : Graph), ok_graph g0 ->
              ok_graph (foldl (fun g label => obj_set label [] g) g0 ls)) as H.
    { induction ls as [|l ls IH]; intros g0 H0; simpl; [done|].
      apply IH, ok_graph_set; [|done]. split; [constructor|]. by intros tw ?%elem_of_nil. }
    intros ls. apply H. split; [constructor|]. by intros fn ?%elem_of_nil.
Qed.

End ParserResults.


(** ** Stopping *)

(** C10.  [stopSorting] maps the array on display to one of the same
    length with the same values and sorted flags, in which no element is
    compared or swapped.  [stopVisualization] keeps the identity, position
    and distance of every node and the ends and weight of every edge, clears
    [visited], [current] and [inQueue] on every node and [highlighted] on
    every edge, empties the traversal order and leaves the graph, the start
    node and the toasts as they are. *)
Theorem stop_resets_transient_state (prev : list Sorting.ArrayElement)
    (coord : Type) (p : page coord) :
  let shown := Sorting.stopSorting prev in
  let p' := stopVisualization coord p in
  (Sorting.value <$> shown = Sorting.value <$> prev /\
   Sorting.isSorted <$> shown = Sorting.isSorted <$> prev /\
   Forall (fun el => Sorting.isCompared el = false /\ Sorting.isSwapped el = false) shown) /\
  (node_id coord <$> nodes coord p' = node_id coord <$> nodes coord p /\
   x coord <$> nodes coord p' = x coord <$> nodes coord p /\
   y coord <$> nodes coord p' = y coord <$> nodes coord p /\
   distance coord <$> nodes coord p' = distance coord <$> nodes coord p /\
   Forall (fun node => visited coord node = false /\ current coord node = false /\
                       inQueue coord node = false) (nodes coord p')) /\
  (edge_from <$> edges coord p' = edge_from <$> edges coord p /\
   edge_to <$> edges coord p' = edge_to <$> edges coord p /\
   weight <$> edges coord p' = weight <$> edges coord p /\
   Forall (fun edge => highlighted edge = false) (edges coord p')) /\
  traversalOrder coord p' = [] /\
  graph coord p' = graph coord p /\
  startNode coord p' = startNode coord p /\
  toasts coord p' = toasts coord p.
Proof.
  cbv zeta. unfold Sorting.stopSorting, stopVisualization; simpl.
  rewrite <- !list_fmap_compose.
  split_and!; try done; try (apply Forall_fmap, Forall_forall; by intros).
Qed.


(** ** Reachability *)

(** [reachable g start v]: there is a walk from [start] to [v] along the
    adjacency entries of [g]. *)
Inductive reachable (g : Graph) (start : string) : string -> Prop :=
| reachable_start : reachable g start start
| reachable_step u v : reachable g start u -> v ∈ neighbors g u -> reachable g start v.

Section BfsReach.
Variable g : Graph.
Hypothesis Hwf : wf_graph g.
Variable start : string.

(** Every neighbour of a visited node is visited or waits in the queue. *)
Definition closed (visited queue : list string) : Prop :=
  forall u w, u ∈ visited -> w ∈ neighbors g u -> w ∈ visited \/ w ∈ queue.

Lemma bfs_ref_reachable fuel : forall queue visited,
  (forall x, x ∈ queue -> reachable g start x) ->
  forall v, v ∈ bfs_ref fuel g queue visited -> reachable g start v.
Proof.
  induction fuel as [|fuel IH]; intros queue visited Hq v; [by intros ?%elem_of_nil|].
  destruct queue as [|current rest]; cbn [bfs_ref]; [by intros ?%elem_of_nil|].
  intros [->|Hv]%elem_of_cons; [apply Hq; by left|].
  eapply IH; [|exact Hv]. intros x [Hx|Hx]%elem_of_app.
  - apply Hq. by right.
  - apply list_elem_of_filter in Hx as [_ Hx].
    eapply reachable_step; [|exact Hx]. apply Hq. by left.
Qed.

Lemma bfs_ref_closed fuel : forall queue visited,
  NoDup (queue ++ visited) ->
  (forall x, x ∈ queue ++ visited -> x ∈ names g start) ->
  (length (names g start) - length visited <= fuel)%nat ->
  closed visited queue ->
  let order := visited ++ bfs_ref fuel g queue visited in
  (forall x, x ∈ queue ++ visited -> x ∈ order) /\ closed order [].
Proof.
  induction fuel as [|fuel IH]; intros queue visited Hnd Hsub Hfuel Hcl.
  - destruct queue as [|current rest].
    + simpl. rewrite app_nil_r. done.
    + exfalso. pose proof (NoDup_length_le _ _ Hnd Hsub) as Hle.
      rewrite length_app in Hle. cbn [length] in Hle. lia.
  - destruct queue as [|current rest].
    + simpl. rewrite app_nil_r. done.
    + pose proof (NoDup_length_le _ _ Hnd Hsub) as Hle.
      rewrite length_app in Hle. cbn [length] in Hle.
      pose proof Hnd as Hnd'. simpl in Hnd'.
      apply NoDup_cons in Hnd' as [Hc Hnd']. rewrite not_elem_of_app in Hc.
      destruct Hc as [Hcr Hcv].
      apply NoDup_app in Hnd' as (Hr & Hrv & Hv).
      cbn [bfs_ref].
      set (fresh := filter (fun n => (n ∉ visited ++ [current]) /\ (n ∉ rest))
                      (neighbors g current)) in *.
      destruct (IH (rest ++ fresh) (visited ++ [current])) as [Hin Hclosed].
      * rewrite <- app_assoc. apply NoDup_app. split_and!; [done| |].
        -- intros y Hy. rewrite !elem_of_app, list_elem_of_singleton.
           intros [Hf|[Hyv| ->]]; [|by eapply Hrv|done].
           subst fresh. apply list_elem_of_filter in Hf as [[_ ?] _]. done.
        -- apply NoDup_app. split_and!.
           ++ subst fresh. by apply NoDup_filter, neighbors_NoDup.
           ++ intros y Hf. subst fresh. apply list_elem_of_filter in Hf as [[? _] _]. done.
           ++ apply NoDup_app. split_and!; [done| |apply NoDup_singleton].
              intros y Hy Hy'. apply list_elem_of_singleton in Hy' as ->. done.
      * intros y. rewrite !elem_of_app. intros [[Hy|Hy]|Hy].
        -- apply Hsub. rewrite elem_of_app. left. by right.
        -- subst fresh. apply list_elem_of_filter in Hy as [_ Hy]. by eapply neighbors_names.
        -- apply Hsub. destruct Hy as [Hy|Hy].
           ++ rewrite elem_of_app. by right.
           ++ apply list_elem_of_singleton in Hy as ->. by left.
      * rewrite length_app. cbn [length]. lia.
      * intros u w [Hu| ->%list_elem_of_singleton]%elem_of_app Hw.
        -- destruct (Hcl u w Hu Hw) as [?|[->|?]%elem_of_cons].
           ++ left. apply elem_of_app. by left.
           ++ left. apply elem_of_app. right. by apply list_elem_of_singleton.
           ++ right. apply elem_of_app. by left.
        -- destruct (decide (w ∈ visited ++ [current])) as [?|Hn1]; [by left|].
           right. apply elem_of_app.
           destruct (decide (w ∈ rest)) as [?|Hn2]; [by left|].
           right. subst fresh. by apply list_elem_of_filter.
      * cbv zeta in *.
        replace (visited ++ current :: bfs_ref fuel g (rest ++ fresh) (visited ++ [current]))
          with ((visited ++ [current]) ++ bfs_ref fuel g (rest ++ fresh) (visited ++ [current]))
          by (by rewrite <- app_assoc).
        split; [|exact Hclosed].
        intros x [[->|Hx]%elem_of_cons|Hx]%elem_of_app; apply Hin; rewrite !elem_of_app.
        -- right. right. by apply list_elem_of_singleton.
        -- left. by left.
        -- right. by left.
Qed.

End BfsReach.

(** X2.  Breadth-first search from [startNodeId] on a graph object, run
    without cancellation: it ends, records each node at most once,
    [startNodeId] first, and the recorded nodes are exactly the nodes that
    are reachable from [startNodeId] along the adjacency entries. *)
Theorem bfs_visits_reachable (coord : Type) (isDirected : bool) (p : page coord)
    (startNodeId : string) :
  wf_graph (graph _ p) ->
  let g := graph _ p in
  exists order p',
    bfs coord isDirected None (length (names g startNodeId)) startNodeId p =
      Some (order, order, p') /\
    NoDup order /\
    head order = Some startNodeId /\
    (forall v, v ∈ order <-> reachable g startNodeId v).
Proof.
  intros Hwf g.
  destruct (bfs_loop_spec coord isDirected g Hwf startNodeId (length (names g startNodeId))
              [startNodeId] [] p) as (order & p' & Hloop & Ho & Hnd & Hs).
  { apply NoDup_singleton. }
  { intros x Hx. rewrite app_nil_r in Hx. apply list_elem_of_singleton in Hx as ->. by left. }
  { lia. }
  { done. }
  exists order, p'. split; [exact Hloop|]. split; [exact Hnd|].
  rewrite app_nil_l in Ho. split; [rewrite Ho; cbn [names length bfs_ref]; exact eq_refl|].
  destruct (bfs_ref_closed g Hwf startNodeId (length (names g startNodeId)) [startNodeId] [])
    as [Hin Hcl].
  { apply NoDup_singleton. }
  { intros x Hx. rewrite app_nil_r in Hx. apply list_elem_of_singleton in Hx as ->. by left. }
  { lia. }
  { by intros u w ?%elem_of_nil. }
  rewrite app_nil_l, <- Ho in Hin, Hcl. rewrite app_nil_r in Hin.
  intros v. split.
  - rewrite Ho. apply bfs_ref_reachable. intros x ->%list_elem_of_singleton. constructor.
  - induction 1 as [|u v Hu IH Hv].
    + apply Hin. by left.
    + destruct (Hcl u v IH Hv) as [?|?%elem_of_nil]; done.
Qed.

Lemma bfs_visits_reachable_witness :
  let g := [("A", [("B", Int 1)]); ("B", [("A", Int 1)]); ("C", [("A", Int 1)])] in
  exists order p',
    bfs unit false None 4 "A" (page_of g) = Some (order, order, p') /\
    NoDup order /\
    (forall v, v ∈ order <-> reachable g "A" v).
Proof.
  intros g.
  destruct (bfs_visits_reachable unit false (page_of g) "A") as (order & p' & Hb & Hnd & _ & Hr).
  - apply (bool_decide_unpack _). vm_compute. reflexivity.
  - exists order, p'. split; [exact Hb|]. split; [exact Hnd|exact Hr].
Defined.


(** ** Depth-first search *)

Section Dfs.
Variable coord : Type.
Variable isDirected : bool.
Variable cancel : option nat.

Abbreviation Node := (Node coord).
Abbreviation page := (page coord).
Abbreviation running := (isRunning coord cancel).

(** [{ ...node, current: false }] *)
Definition unmark_current (node : Node) : Node :=
  mkNode coord (node_id _ node) (x _ node) (y _ node) (visited _ node) false
    (inQueue _ node) (distance _ node).

(** [for (const neighbor of Object.keys(graph[current]))], with [visit]
    for the recursive call [dfs(neighbor, visited, order)]. *)
Fixpoint dfs_neighbors
    (visit : string -> list string -> list string -> page -> option (list string * list string * page))
    (current : string) (neighbors : list string) (visited order : list string) (p : page)
    : option (list string * list string * page) :=
  match neighbors with
  | [] => Some (visited, order, p)
  | neighbor :: rest =>
      if negb (has visited neighbor) && running p then
        let p := setEdges _ (fmap (highlight isDirected current neighbor)) p in
        let p := sleep _ p in
        match visit neighbor visited order p with
        | Some (visited, order, p) =>
            let p := setEdges _ (fmap unhighlight) p in
            dfs_neighbors visit current rest visited order p
        | None => None
        end
      else dfs_neighbors visit current rest visited order p
  end.

(** [dfs(current, visited, order)] with the recursion nested at most [fuel]
    deep; the result carries [visited] and [order] as the call leaves them. *)
Fixpoint dfs (fuel : nat) (g : Graph) (current : string) (visited order : list string) (p : page)
    : option (list string * list string * page) :=
  match fuel with
  | O => None
  | S fuel' =>
      if negb (running p) || has visited current then Some (visited, order, p)
      else
        let visited := set_add visited current in
        let order := order ++ [current] in
        let p := setTraversalOrder _ order p in
        let p := setNodes _ (fmap (mark_current coord current visited)) p in
        let p := sleep _ p in
        match
          match obj_get g current with
          | Some neighbors =>
              dfs_neighbors (dfs fuel' g) current (keys neighbors) visited order p
          | None => Some (visited, order, p)
          end
        with
        | Some (visited, order, p) =>
            Some (visited, order, setNodes _ (fmap unmark_current) p)
        | None => None
        end
  end.

End Dfs.

Section DfsProofs.
Variable coord : Type.
Variable isDirected : bool.
Variable g : Graph.
Variable start : string.

Abbreviation pg := (page coord).

(** What the page shows of a traversal that has recorded [order]. *)
Definition shows_order (order : list string) (p : pg) : Prop :=
  order <> [] ->
  traversalOrder _ p = order /\
  Forall (fun node => Graph.visited _ node = has order (node_id _ node)) (nodes _ p).

(** What a call started with [visited] returns for a node or for a list of
    nodes [targets] that are reachable when [from] is: it adds the nodes
    [new], after which the targets are visited and so is every neighbour of
    a node of [new]. *)
Definition explores (r : option (list string * list string * pg))
    (from : string) (targets visited new : list string) (p' : pg) : Prop :=
    r = Some (visited ++ new, visited ++ new, p') /\
    NoDup (visited ++ new) /\
    (forall x, x ∈ new -> x ∈ names g start) /\
    (forall x, x ∈ targets -> x ∈ visited ++ new) /\
    (forall u w, u ∈ new -> w ∈ neighbors g u -> w ∈ visited ++ new) /\
    (reachable g start from -> forall u, u ∈ new -> reachable g start u) /\
    shows_order (visited ++ new) p'.

Definition visit_spec
    (visit : string -> list string -> list string -> pg -> option (list string * list string * pg))
    (bound : nat) : Prop :=
  forall current visited (p : pg),
    NoDup visited ->
    (forall x, x ∈ visited -> x ∈ names g start) ->
    current ∈ names g start ->
    (length (names g start) < bound + length visited)%nat ->
    shows_order visited p ->
    exists new p',
      explores (visit current visited visited p) current [current] visited new p' /\
      (current ∉ visited ->
       head new = Some current /\ Forall (fun node => Graph.current _ node = false) (nodes _ p')).

Lemma shows_order_edges f order (p : pg) :
  shows_order order p -> shows_order order (sleep _ (setEdges _ f p)).
Proof. done. Qed.

Lemma dfs_neighbors_spec visit bound current :
  visit_spec visit bound ->
  forall ns visited (p : pg),
    (forall n, n ∈ ns -> n ∈ neighbors g current) ->
    NoDup visited ->
    (forall x, x ∈ visited -> x ∈ names g start) ->
    (length (names g start) < bound + length visited)%nat ->
    shows_order visited p ->
    exists new p',
      explores (dfs_neighbors coord isDirected None visit current ns visited visited p)
        current ns visited new p'.
Proof.
  intros Hvisit. induction ns as [|n ns IH]; intros visited p Hns Hnd Hsub Hb Hshow.
  - exists [], p. unfold explores. rewrite app_nil_r. split_and!; try done.
    + by intros x ?%elem_of_nil.
    + by intros x ?%elem_of_nil.
    + by intros u w ?%elem_of_nil.
    + by intros _ u ?%elem_of_nil.
  - cbn [dfs_neighbors isRunning]. rewrite andb_true_r.
    assert (n ∈ names g start) as Hn by (eapply neighbors_names, Hns; by left).
    destruct (has visited n) eqn:Ev; cbn [negb].
    + apply has_true in Ev.
      destruct (IH visited p) as (new & p' & Hr & Hnd' & Hsub' & Ht & Hcl & Hre & Hs); try done.
      { intros m Hm. apply Hns. by right. }
      exists new, p'. split_and!; try done.
      intros x [->|Hx]%elem_of_cons; [apply elem_of_app; by left|by apply Ht].
    + apply has_false in Ev.
      destruct (Hvisit n visited (sleep _ (setEdges _ (fmap (highlight isDirected current n)) p)))
        as (new1 & p1 & (Hr1 & Hnd1 & Hsub1 & Ht1 & Hcl1 & Hre1 & Hs1) & _); try done.
      rewrite Hr1.
      destruct (IH (visited ++ new1) (setEdges _ (fmap unhighlight) p1))
        as (new2 & p2 & Hr2 & Hnd2 & Hsub2 & Ht2 & Hcl2 & Hre2 & Hs2); try done.
      { intros m Hm. apply Hns. by right. }
      { intros x [?|?]%elem_of_app; auto. }
      { rewrite length_app. lia. }
      exists (new1 ++ new2), p2. unfold explores. rewrite !app_assoc. split_and!; try done.
      * intros x [?|?]%elem_of_app; auto.
      * intros x [->|Hx]%elem_of_cons; [|by apply Ht2].
        apply elem_of_app. left. apply Ht1. by left.
      * intros u w [Hu|Hu]%elem_of_app Hw; [|by eapply Hcl2].
        apply elem_of_app. left. by eapply Hcl1.
      * intros Hc u [Hu|Hu]%elem_of_app; [|by apply Hre2].
        apply Hre1; [|done]. eapply reachable_step; [exact Hc|]. apply Hns. by left.
Qed.

Lemma dfs_spec fuel : visit_spec (dfs coord isDirected None fuel g) fuel.
Proof.
  induction fuel as [|fuel IH]; intros current visited p Hnd Hsub Hc Hb Hshow.
  - exfalso. pose proof (NoDup_length_le _ _ Hnd Hsub). lia.
  - cbn [dfs isRunning negb orb]. destruct (has visited current) eqn:Ev.
    + apply has_true in Ev. exists [], p. unfold explores. rewrite app_nil_r.
      split; [|done]. split_and!; try done.
      * by intros x ?%elem_of_nil.
      * by intros x ->%list_elem_of_singleton.
      * by intros u w ?%elem_of_nil.
      * by intros _ u ?%elem_of_nil.
    + unfold set_add. rewrite Ev. apply has_false in Ev.
      set (p1 := sleep _ (setNodes _ (fmap (mark_current coord current (visited ++ [current])))
                            (setTraversalOrder _ (visited ++ [current]) p))).
      assert (NoDup (visited ++ [current])) as Hnd1.
      { apply NoDup_app. split_and!; [done| |apply NoDup_singleton].
        by intros x Hx ->%list_elem_of_singleton. }
      assert (forall x, x ∈ visited ++ [current] -> x ∈ names g start) as Hsub1.
      { intros x [?| ->%list_elem_of_singleton]%elem_of_app; auto. }
      assert (shows_order (visited ++ [current]) p1) as Hs1.
      { intros _. split; [done|]. subst p1; simpl. apply Forall_fmap, Forall_forall. by intros. }
      assert (exists new p2, explores
                (match obj_get g current with
                 | Some nb => dfs_neighbors coord isDirected None (dfs coord isDirected None fuel g)
                                current (keys nb) (visited ++ [current]) (visited ++ [current]) p1
                 | None => Some (visited ++ [current], visited ++ [current], p1)
                 end) current (neighbors g current) (visited ++ [current]) new p2)
        as (new & p2 & Hr & Hnd2 & Hsub2 & Ht2 & Hcl2 & Hre2 & Hs2).
      { unfold neighbors. destruct (obj_get g current) as [nb|] eqn:E.
        - apply (dfs_neighbors_spec _ fuel); try done.
          + intros n Hn. unfold neighbors. by rewrite E.
          + rewrite length_app. cbn [length]. lia.
        - exists [], p1. unfold explores. rewrite app_nil_r. split_and!; try done.
          + by intros x ?%elem_of_nil.
          + by intros x ?%elem_of_nil.
          + by intros u w ?%elem_of_nil.
          + by intros _ u ?%elem_of_nil. }
      fold p1. rewrite Hr.
      exists ([current] ++ new). unfold explores. rewrite !app_assoc. eexists.
      split; [split_and!; try done|];
        [| | | | |intros _; split; [done|]; simpl; apply Forall_fmap, Forall_forall; by intros].
      * intros x [->%list_elem_of_singleton|?]%elem_of_app; auto.
      * intros x ->%list_elem_of_singleton. apply elem_of_app. left. apply elem_of_app. right.
        by apply list_elem_of_singleton.
      * intros u w [->%list_elem_of_singleton|Hu]%elem_of_app Hw; [by apply Ht2|by eapply Hcl2].
      * intros Hrc u [->%list_elem_of_singleton|Hu]%elem_of_app; [done|by apply Hre2].
      * intros Hne. destruct (Hs2 Hne) as [Ht Hn]. split; [done|].
        simpl. apply Forall_fmap. eapply Forall_impl; [exact Hn|]. by intros.
Qed.

End DfsProofs.

(** X3.  Depth-first search from [startNode] on any graph object, run
    without cancellation with recursion budget one more than the number of
    names of the graph: it returns; it records each node at most once,
    [startNode] first; the recorded nodes are exactly the nodes reachable
    from [startNode]; the page ends showing that order, with the recorded
    nodes marked visited and no node marked current.  On the example of the
    input box the order from [A] is [A, B, D, E, F, C]. *)
Theorem dfs_visits_reachable (coord : Type) (isDirected : bool) (p : page coord)
    (startNode : string) :
  let g := graph _ p in
  (exists order p',
     dfs coord isDirected None (S (length (names g startNode))) g startNode [] [] p =
       Some (order, order, p') /\
     NoDup order /\
     head order = Some startNode /\
     (forall v, v ∈ order <-> reachable g startNode v) /\
     traversalOrder _ p' = order /\
     Forall (fun node => visited _ node = has order (node_id _ node) /\ current _ node = false)
            (nodes _ p')) /\
  (exists gex q',
     parseAdjacencyList false example_list = Returns gex /\
     dfs unit false None (S (length (names gex "A"))) gex "A" [] [] (page_of gex) =
       Some (["A"; "B"; "D"; "E"; "F"; "C"], ["A"; "B"; "D"; "E"; "F"; "C"], q')).
Proof.
  intros g. split; [|eexists _, _; split; [by vm_compute|vm_compute; reflexivity]].
  destruct (dfs_spec coord isDirected g startNode (S (length (names g startNode)))
              startNode [] p) as (order & p' & (Hr & Hnd & Hsub & Ht & Hcl & Hre & Hs) & Hx).
  { constructor. }
  { by intros x ?%elem_of_nil. }
  { by left. }
  { cbn [length]. lia. }
  { by intros []. }
  rewrite !app_nil_l in Hr, Hnd, Ht, Hcl, Hs.
  destruct Hx as [Hh Hc]; [by intros ?%elem_of_nil|].
  assert (order <> []) as Hne by (by intros ->).
  destruct (Hs Hne) as [Hto Hv].
  exists order, p'. split_and!; try done.
  - intros v. split.
    + apply Hre. constructor.
    + induction 1 as [|u v Hu IH Hv']; [apply Ht; by left|by eapply Hcl].
  - apply Forall_forall. intros node Hn. split.
    + by eapply Forall_forall in Hv.
    + by eapply Forall_forall in Hc.
Qed.


(** ** Bellman-Ford: shortest walks *)

(** [walk g start v z]: there is a walk from [start] to [v] along edges of
    [g] with integer weights, of total weight [z]. *)
Inductive walk (g : Graph) (start : string) : string -> Z -> Prop :=
| walk_start : walk g start start 0
| walk_edge v w z c :
    walk g start v z -> (v, w, Int c) ∈ edge_list g -> walk g start w (z + c).

Lemma edge_list_key (g : Graph) e : e ∈ edge_list g -> e.1.1 ∈ keys g.
Proof.
  unfold edge_list. intros He. apply list_elem_of_In, in_flat_map in He as ([from nb] & Hfn & He).
  apply list_elem_of_In in Hfn, He. unfold edges_from in He.
  apply list_elem_of_fmap in He as (tw & -> & _). cbn [fst].
  apply list_elem_of_fmap. by exists (from, nb).
Qed.

Section Distances.
Variable g : Graph.
Variable start : string.

(** Tentative distances: every finite one is the weight of a walk, the
    nodes of the graph have numbers, and the start node is at most at 0. *)
Definition tentative (d : Obj number) : Prop :=
  (forall v z, get_num d v = Int z -> walk g start v z) /\
  (forall v, v ∈ keys g -> is_number (get_num d v)) /\
  (start ∈ keys g -> exists z, get_num d start = Int z /\ z <= 0).

Lemma tentative_init : tentative (init_distances (keys g) start).
Proof.
  assert (forall v, get_num (init_distances (keys g) start) v =
                    if decide (v ∈ keys g) then if decide (v = start) then Int 0 else Infinity
                    else NaN) as Hget.
  { intros v. unfold get_num, init_distances. rewrite init_distances_get.
    by destruct (decide (v ∈ keys g)). }
  split_and!.
  - intros v z. rewrite Hget. repeat case_decide; try done. intros [= <-]. subst. constructor.
  - intros v Hv. rewrite Hget. rewrite decide_True by done. unfold is_number. by case_decide.
  - intros Hs. exists 0. rewrite Hget, !decide_True by done. done.
Qed.

(** Setting [to] to the weight of a walk through an edge that relaxes. *)
Lemma tentative_relax d from to w :
  tentative d -> (from, to, w) ∈ edge_list g -> relaxes d from w to = true ->
  tentative (obj_set to (add (get_num d from) w) d).
Proof.
  intros (Hsound & Hnum & Hsrc) He Hr. unfold relaxes in Hr.
  destruct (get_num d from) as [a| |] eqn:Ea, w as [c| |]; cbn [add lt] in Hr; try done.
  cbn [add].
  split_and!.
  - intros v z. rewrite get_num_set. case_decide; [|by apply Hsound].
    intros [= <-]. subst v. eapply walk_edge; [by apply Hsound|done].
  - intros v Hv. rewrite get_num_set. case_decide; [done|by apply Hnum].
  - intros Hs. rewrite get_num_set. case_decide; [|by apply Hsrc].
    subst to. destruct (Hsrc Hs) as (z & Hz & Hz0). rewrite Hz in Hr. simpl in Hr.
    apply Z.ltb_lt in Hr. exists (a + c). split; [done|lia].
Qed.

Lemma tentative_relax_edge acc e :
  tentative acc.1 -> e ∈ edge_list g -> tentative (relax_edge acc e).1.
Proof.
  intros Hd He. unfold relax_edge, can_relax. destruct e as [[from to] w]. cbn [fst snd].
  destruct (reached acc.1 from); cbn [andb]; [|done].
  destruct (relaxes acc.1 from w to) eqn:Er; [|done]. cbn [fst]. by apply tentative_relax.
Qed.

Lemma tentative_foldl es : forall acc,
  tentative acc.1 -> (forall e, e ∈ es -> e ∈ edge_list g) ->
  tentative (foldl relax_edge acc es).1.
Proof.
  induction es as [|e es IH]; intros acc Hd Hes; [done|]. cbn [foldl].
  apply IH; [|intros e' He'; apply Hes; by right].
  apply tentative_relax_edge; [done|]. apply Hes. by left.
Qed.

Lemma tentative_rounds n : forall d, tentative d -> tentative (relax_rounds n g d).
Proof.
  induction n as [|n IH]; intros d Hd; [done|]. cbn [relax_rounds]. unfold relax_round.
  pose proof (tentative_foldl (edge_list g) (d, false) Hd ltac:(done)) as H1.
  destruct (foldl relax_edge (d, false) (edge_list g)) as [d1 [|]]; [by apply IH|done].
Qed.

(** Distances that no edge can improve are at most the weight of any walk. *)
Lemma stable_lower_bound d :
  tentative d -> negative_cycle g d = false ->
  forall v W, walk g start v W -> v ∈ keys g -> exists z, get_num d v = Int z /\ z <= W.
Proof.
  intros (Hsound & Hnum & Hsrc) Hneg v W Hw.
  induction Hw as [|v w z c Hw IH He]; intros Hk; [by apply Hsrc|].
  destruct IH as (dv & Hdv & Hle); [by apply (edge_list_key g _ He)|].
  unfold negative_cycle in Hneg.
  assert (can_relax d (v, w, Int c) = false) as Hc.
  { destruct (can_relax d (v, w, Int c)) eqn:E; [|done].
    assert (existsb (can_relax d) (edge_list g) = true) as Hx; [|congruence].
    apply existsb_exists. exists (v, w, Int c). split; [by apply list_elem_of_In|done]. }
  unfold can_relax, reached, relaxes in Hc. cbn [fst snd] in Hc.
  unfold get_num in Hdv, Hc at 1.
  destruct (obj_get d v) as [[x| |]|] eqn:Ev; simplify_eq/=.
  specialize (Hnum w Hk). unfold is_number in Hnum.
  destruct (get_num d w) as [y| |]; simplify_eq/=.
  exists y. split; [done|]. apply Z.ltb_ge in Hc. lia.
Qed.

End Distances.

(** A graph with a negative weight and no negative cycle: A -> B (4),
    A -> C (5), C -> B (-3). *)
Definition example_detour : Graph :=
  [("A", [("B", Int 4); ("C", Int 5)]); ("B", []); ("C", [("B", Int (-3))])].




(** ** Dijkstra: shortest walks *)

Lemma edge_list_entry (g : Graph) from to w :
  wf_graph g -> (from, to, w) ∈ edge_list g ->
  exists nb, obj_get g from = Some nb /\ (to, w) ∈ nb.
Proof.
  intros Hwf He. unfold edge_list in He.
  apply list_elem_of_In, in_flat_map in He as ([from' nb] & Hfn & He).
  apply list_elem_of_In in Hfn, He. unfold edges_from in He.
  apply list_elem_of_fmap in He as ([to' w'] & [= -> -> ->] & Htw).
  exists nb. split; [|done]. by apply (wf_graph_entries g (from', nb)).
Qed.

(** Relaxing the outgoing edges of [c], all of non-negative weight: the
    distance of [c] stays, every other distance stays or becomes a smaller
    one that is not below that of [c], and none of the edges relaxes any
    more. *)
Lemma relax_out_stable c zc : forall (es : list (string * number)) d,
  (forall tw, tw ∈ es -> exists z, tw.2 = Int z /\ 0 <= z) ->
  get_num d c = Int zc ->
  let d' := foldl (relax_one c) d es in
  get_num d' c = Int zc /\
  (forall k, get_num d' k = get_num d k \/
             (lt (get_num d' k) (get_num d k) = true /\
              exists z', get_num d' k = Int z' /\ zc <= z')) /\
  (forall tw, tw ∈ es -> relaxes d' c tw.2 tw.1 = false).
Proof.
  induction es as [|[to w] es IH]; intros d Hes Hc; cbn [foldl].
  - split; [done|]. split; [by left|]. by intros tw ?%elem_of_nil.
  - destruct (Hes (to, w) ltac:(by left)) as (z & Hw & Hz). cbn [snd] in Hw. subst w.
    assert (get_num (relax_one c d (to, Int z)) c = Int zc /\
            (forall k, get_num (relax_one c d (to, Int z)) k = get_num d k \/
                       (lt (get_num (relax_one c d (to, Int z)) k) (get_num d k) = true /\
                        exists z', get_num (relax_one c d (to, Int z)) k = Int z' /\ zc <= z')) /\
            relaxes (relax_one c d (to, Int z)) c (Int z) to = false) as (Hc1 & Hk1 & Hr1).
    { unfold relax_one. cbn [fst snd]. destruct (relaxes d c (Int z) to) eqn:Er.
      - unfold relaxes in Er. rewrite Hc in Er. cbn [add] in Er.
        assert (to <> c) as Hne.
        { intros ->. rewrite Hc in Er. simpl in Er. apply Z.ltb_lt in Er. lia. }
        rewrite Hc. cbn [add]. split_and!.
        + rewrite get_num_set. by rewrite decide_False.
        + intros k. rewrite get_num_set. case_decide; [subst|by left].
          right. split; [done|]. exists (zc + z). split; [done|lia].
        + unfold relaxes. rewrite !get_num_set. rewrite decide_False by done.
          rewrite decide_True by done. rewrite Hc. simpl. apply Z.ltb_irrefl.
      - split; [done|]. split; [by left|done]. }
    destruct (IH (relax_one c d (to, Int z))) as (Hc2 & Hk2 & Hr2); [|done|].
    { intros tw Htw. apply Hes. by right. }
    split; [done|]. split.
    + intros k. destruct (Hk2 k) as [->|[Hlt Hz2]]; [apply Hk1|].
      right. split; [|done].
      destruct (Hk1 k) as [<-|[Hlt1 _]]; [done|]. by eapply lt_trans.
    + intros tw [->|Htw]%elem_of_cons; [|by apply Hr2]. cbn [fst snd].
      unfold relaxes in *. rewrite Hc2. rewrite Hc1 in Hr1. cbn [add] in *.
      destruct (Hk2 to) as [->|[Hlt _]]; [done|].
      destruct (get_num (foldl (relax_one c) (relax_one c d (to, Int z)) es) to) as [y| |],
               (get_num (relax_one c d (to, Int z)) to) as [y1| |]; simpl in *; try done.
      apply Z.ltb_lt in Hlt. apply Z.ltb_ge in Hr1. apply Z.ltb_ge. lia.
Qed.

Section DijkstraShortest.
Variable g : Graph.
Hypothesis Hwf : wf_graph g.
Hypothesis Hnonneg : nonneg_weights g.
Variable start : string.

(** What the loop maintains beyond [settled]: the distances are tentative,
    every node is visited or unvisited, and the edges that leave visited
    nodes do not relax. *)
Definition explored_by (d : Obj number) (visited unvisited : list string) : Prop :=
  settled d visited unvisited /\
  tentative g start d /\
  (forall k, k ∈ keys g -> k ∈ visited \/ k ∈ unvisited) /\
  (forall e, e ∈ edge_list g -> e.1.1 ∈ visited -> can_relax d e = false).

Lemma tentative_relax_out c d : tentative g start d -> tentative g start (relax_out g c d).
Proof.
  intros Hd. unfold relax_out. destruct (obj_get g c) as [nb|] eqn:E; [|done].
  assert (forall es : list (string * number), (forall tw, tw ∈ es -> tw ∈ nb) ->
            forall d0, tentative g start d0 -> tentative g start (foldl (relax_one c) d0 es)) as H.
  { induction es as [|[to w] es IH]; intros Hes d0 Hd0; [done|]. cbn [foldl].
    apply IH; [intros tw Htw; apply Hes; by right|].
    unfold relax_one. cbn [fst snd]. destruct (relaxes d0 c w to) eqn:Er; [|done].
    apply tentative_relax; [done| |done].
    apply (edge_list_elem g c nb (to, w)); [by apply obj_get_elem|apply Hes; by left]. }
  by apply H.
Qed.

Lemma explored_by_step c d visited unvisited :
  explored_by d visited unvisited -> choose d unvisited = Some c ->
  explored_by (relax_out g c d) (visited ++ [c]) (set_delete unvisited c).
Proof.
  intros (Hs & Ht & Hk & Hst) Hch.
  destruct (dijkstra_visit_spec unit false g Hwf Hnonneg c d visited unvisited [] (page_of g) Hs Hch)
    as (_ & _ & Hs').
  pose proof Hch as (Hc & (zc & Hzc) & Hmin)%choose_Some.
  pose proof Hs as (Hnd & Hempty & Hun & Hvis).
  split; [done|]. split; [by apply tentative_relax_out|]. split.
  - intros k Hkk. destruct (decide (k = c)) as [->|Hne].
    + left. apply elem_of_app. right. by left.
    + destruct (Hk k Hkk) as [?|?]; [left; apply elem_of_app; by left|].
      right. unfold set_delete. by apply list_elem_of_filter.
  - assert (exists es : list (string * number),
              relax_out g c d = foldl (relax_one c) d es /\
              (forall tw, tw ∈ es -> exists z, tw.2 = Int z /\ 0 <= z) /\
              (forall to w, (c, to, w) ∈ edge_list g -> (to, w) ∈ es)) as (es & Hro & Hes & Hall).
    { unfold relax_out. destruct (obj_get g c) as [nb|] eqn:E.
      - exists nb. split; [done|]. split.
        + intros [to w] Htw. apply (Hnonneg (c, to, w)).
          apply (edge_list_elem g c nb (to, w)); [by apply obj_get_elem|done].
        + intros to w (nb' & Hnb' & Htw)%edge_list_entry; [|done]. by simplify_eq.
      - exists []. split; [done|]. split; [by intros tw ?%elem_of_nil|].
        intros to w (nb' & Hnb' & Htw)%edge_list_entry; [|done]. by simplify_eq. }
    rewrite Hro. destruct (relax_out_stable c zc es d Hes Hzc) as (Hc' & Hmono & Hrel).
    intros [[v to] w] He. cbn [fst snd].
    intros [Hv| ->%list_elem_of_singleton]%elem_of_app.
    + specialize (Hst _ He Hv). unfold can_relax, relaxes in *. cbn [fst snd] in *.
      destruct (Hvis v Hv) as (zv & Hzv & Hle).
      specialize (Hle c Hc). rewrite Hzc in Hle. simpl in Hle. apply Z.ltb_ge in Hle.
      assert (get_num (foldl (relax_one c) d es) v = Int zv) as Hzv'.
      { destruct (Hmono v) as [->|[Hlt (z' & Hz' & Hzz)]]; [done|]. exfalso.
        rewrite Hz', Hzv in Hlt. simpl in Hlt. apply Z.ltb_lt in Hlt. lia. }
      destruct (Hnonneg _ He) as (cw & Hcw & _). cbn [snd] in Hcw. subst w.
      assert (reached d v = true) as Hrv.
      { unfold reached. unfold get_num in Hzv. by destruct (obj_get d v) as [[]|]. }
      rewrite Hrv, Hzv in Hst. rewrite Hzv'. cbn [andb add] in *.
      apply andb_false_iff. right.
      destruct (Hmono to) as [->|[Hlt (z' & Hz' & _)]]; [done|].
      rewrite Hz' in *.
      destruct (get_num d to) as [y| |]; simpl in *; try done.
      apply Z.ltb_lt in Hlt. apply Z.ltb_ge in Hst. apply Z.ltb_ge. lia.
    + unfold can_relax. cbn [fst snd]. apply andb_false_iff. right.
      apply (Hrel (to, w)). by apply Hall.
Qed.

(** When no unvisited node can be chosen, none has a finite distance. *)
Lemma choose_None d unvisited u :
  Forall (fun u => is_number (get_num d u)) unvisited ->
  choose d unvisited = None -> u ∈ unvisited -> get_num d u = Infinity.
Proof.
  intros Hnum Hch Hu.
  destruct (get_num d u) as [z| |] eqn:Eu; [exfalso|done|].
  - destruct (exists_minimal d unvisited u Hnum Hu) as (c & Hc & Hmin & Hle).
    unfold choose in Hch.
    pose proof (find_none _ _ Hch c ltac:(by apply list_elem_of_In)) as Hf.
    cbn beta in Hf. rewrite Hmin, andb_true_r in Hf.
    eapply Forall_forall in Hnum; [|exact Hc]. unfold is_number in Hnum.
    rewrite Eu in Hle. by destruct (get_num d c).
  - eapply Forall_forall in Hnum; [|exact Hu]. by rewrite Eu in Hnum.
Qed.

Lemma dijkstra_ref_stable fuel : forall d visited unvisited,
  explored_by d visited unvisited -> (length unvisited <= fuel)%nat ->
  let d' := (dijkstra_ref fuel g d unvisited visited).1 in
  tentative g start d' /\ negative_cycle g d' = false.
Proof.
  assert (forall d visited unvisited,
            explored_by d visited unvisited -> choose d unvisited = None ->
            tentative g start d /\ negative_cycle g d = false) as Hend.
  { intros d visited unvisited (Hs & Ht & Hk & Hst) Hch. split; [done|].
    destruct Hs as (_ & _ & Hun & _).
    unfold negative_cycle. apply not_true_iff_false. intros Hex.
    apply existsb_exists in Hex as (e & He%list_elem_of_In & Hr).
    destruct (Hk _ (edge_list_key g e He)) as [Hv|Hu]; [by rewrite (Hst e He Hv) in Hr|].
    assert (get_num d e.1.1 = Infinity) as Hinf.
    { apply (choose_None d unvisited); [|done|done].
      apply Forall_forall. intros u' Hu'. by apply Hun. }
    unfold can_relax, reached in Hr. unfold get_num in Hinf.
    by destruct (obj_get d e.1.1) as [[]|]. }
  induction fuel as [|fuel IH]; intros d visited unvisited Hex Hlen.
  - destruct unvisited; [|simpl in Hlen; lia]. cbn [dijkstra_ref fst]. by eapply Hend.
  - cbn [dijkstra_ref]. destruct (choose d unvisited) as [c|] eqn:Ec.
    + apply IH; [by apply explored_by_step|].
      apply choose_Some in Ec as (Hc & _). pose proof (length_set_delete unvisited c Hc). lia.
    + cbn [fst]. by eapply Hend.
Qed.

End DijkstraShortest.




(** ** The graphs of the input box *)




(** ** Cancelled traversals *)

Lemma bfs_ref_prefix (g : Graph) k : forall fuel queue visited,
  (k <= fuel)%nat -> bfs_ref k g queue visited `prefix_of` bfs_ref fuel g queue visited.
Proof.
  induction k as [|k IH]; intros fuel queue visited Hk; [apply prefix_nil|].
  destruct fuel as [|fuel]; [lia|]. destruct queue as [|current rest]; [done|].
  cbn [bfs_ref]. apply prefix_cons, IH. lia.
Qed.

Section BfsCancel.
Variable coord : Type.
Variable isDirected : bool.
Variable cancel : option nat.
Variable g : Graph.
Hypothesis Hwf : wf_graph g.

(** The loop under cancellation: it ends after some number [k] of visits,
    with the order that the reference traversal has after [k] steps. *)
Lemma bfs_loop_cancel start fuel : forall queue visited (p : page coord),
  NoDup (queue ++ visited) ->
  (forall x, x ∈ queue ++ visited -> x ∈ names g start) ->
  (length (names g start) - length visited <= fuel)%nat ->
  (visited <> [] -> traversalOrder _ p = visited) ->
  exists k order p',
    (k <= fuel)%nat /\
    bfs_loop coord isDirected cancel fuel g queue visited visited p = Some (order, order, p') /\
    order = visited ++ bfs_ref k g queue visited /\
    (order <> [] -> traversalOrder _ p' = order).
Proof.
  induction fuel as [|fuel IH]; intros queue visited p Hnd Hsub Hfuel Hshow.
  - destruct queue as [|current rest].
    + exists 0%nat, visited, p. simpl. by rewrite app_nil_r.
    + exfalso. pose proof (NoDup_length_le _ _ Hnd Hsub) as Hle.
      rewrite length_app in Hle. cbn [length] in Hle. lia.
  - destruct queue as [|current rest].
    + exists 0%nat, visited, p. simpl. rewrite app_nil_r. split; [lia|done].
    + cbn [bfs_loop]. destruct (isRunning coord cancel p) eqn:Erun; cycle 1.
      { exists 0%nat, visited, p. simpl. rewrite app_nil_r. split; [lia|done]. }
      pose proof (NoDup_length_le _ _ Hnd Hsub) as Hle.
      rewrite length_app in Hle. cbn [length] in Hle.
      pose proof Hnd as Hnd'. simpl in Hnd'.
      apply NoDup_cons in Hnd' as [Hc Hnd']. rewrite not_elem_of_app in Hc.
      destruct Hc as [Hcr Hcv].
      apply NoDup_app in Hnd' as (Hr & Hrv & Hv).
      destruct (bfs_visit_spec coord isDirected g Hwf current rest visited visited p Hcv)
        as (p1 & Hvisit & Ht1 & Hs1).
      rewrite (proj2 (has_false visited current) Hcv), Hvisit.
      set (fresh := filter (fun n => (n ∉ visited ++ [current]) /\ (n ∉ rest))
                      (neighbors g current)) in *.
      destruct (IH (rest ++ fresh) (visited ++ [current]) p1)
        as (k & order & p' & Hk & Hloop & Ho & Hs).
      * rewrite <- app_assoc. apply NoDup_app. split_and!; [done| |].
        -- intros y Hy. rewrite !elem_of_app, list_elem_of_singleton.
           intros [Hf|[Hyv| ->]]; [|by eapply Hrv|done].
           subst fresh. apply list_elem_of_filter in Hf as [[_ ?] _]. done.
        -- apply NoDup_app. split_and!.
           ++ subst fresh. by apply NoDup_filter, neighbors_NoDup.
           ++ intros y Hf. subst fresh. apply list_elem_of_filter in Hf as [[? _] _]. done.
           ++ apply NoDup_app. split_and!; [done| |apply NoDup_singleton].
              intros y Hy Hy'. apply list_elem_of_singleton in Hy' as ->. done.
      * intros y. rewrite !elem_of_app. intros [[Hy|Hy]|Hy].
        -- apply Hsub. rewrite elem_of_app. left. by right.
        -- subst fresh. apply list_elem_of_filter in Hy as [_ Hy]. by eapply neighbors_names.
        -- apply Hsub. destruct Hy as [Hy|Hy].
           ++ rewrite elem_of_app. by right.
           ++ apply list_elem_of_singleton in Hy as ->. by left.
      * rewrite length_app. cbn [length]. lia.
      * intros _. done.
      * exists (S k), order, p'. split; [lia|]. split; [exact Hloop|]. split; [|done].
        rewrite Ho. cbn [bfs_ref]. fold fresh. by rewrite <- app_assoc.
Qed.

End BfsCancel.




Section DijkstraCancel.
Variable coord : Type.
Variable isDirected : bool.
Variable cancel : option nat.
Variable g : Graph.
Hypothesis Hwf : wf_graph g.
Hypothesis Hnonneg : nonneg_weights g.
Variable start : string.

(** Relaxing from the chosen node changes no distance of a visited node. *)
Lemma relax_out_visited c d visited unvisited v :
  explored_by g start d visited unvisited -> choose d unvisited = Some c ->
  v ∈ visited ++ [c] -> get_num (relax_out g c d) v = get_num d v.
Proof.
  intros (Hs & _) Hch Hv.
  pose proof Hch as (Hc & (zc & Hzc) & Hmin)%choose_Some.
  pose proof Hs as (Hnd & Hempty & Hun & Hvis).
  assert (exists es : list (string * number),
            relax_out g c d = foldl (relax_one c) d es /\
            (forall tw, tw ∈ es -> exists z, tw.2 = Int z /\ 0 <= z)) as (es & -> & Hes).
  { unfold relax_out. destruct (obj_get g c) as [nb|] eqn:E.
    - exists nb. split; [done|]. intros [to w] Htw. apply (Hnonneg (c, to, w)).
      apply (edge_list_elem g c nb (to, w)); [by apply obj_get_elem|done].
    - exists []. split; [done|]. by intros tw ?%elem_of_nil. }
  destruct (relax_out_stable c zc es d Hes Hzc) as (Hc' & Hmono & _).
  apply elem_of_app in Hv as [Hv| ->%list_elem_of_singleton]; [|by rewrite Hc'].
  destruct (Hvis v Hv) as (zv & Hzv & Hle).
  specialize (Hle c Hc). rewrite Hzc in Hle. simpl in Hle. apply Z.ltb_ge in Hle.
  destruct (Hmono v) as [->|[Hlt (z' & Hz' & Hzz)]]; [done|]. exfalso.
  rewrite Hz', Hzv in Hlt. simpl in Hlt. apply Z.ltb_lt in Hlt. lia.
Qed.

(** The distance of a visited node is final. *)
Lemma dijkstra_ref_visited fuel : forall d visited unvisited v,
  explored_by g start d visited unvisited -> v ∈ visited ->
  get_num (dijkstra_ref fuel g d unvisited visited).1 v = get_num d v.
Proof.
  induction fuel as [|fuel IH]; intros d visited unvisited v Hex Hv; [done|].
  cbn [dijkstra_ref]. destruct (choose d unvisited) as [c|] eqn:Ec; [|done].
  rewrite IH; [|by apply explored_by_step|apply elem_of_app; by left].
  eapply relax_out_visited; [done|done|]. apply elem_of_app. by left.
Qed.

Lemma dijkstra_loop_cancel fuel : forall d visited unvisited (p : page coord),
  explored_by g start d visited unvisited -> (length unvisited <= fuel)%nat ->
  (forall v, v ∈ visited ++ unvisited -> v ∈ keys g) ->
  exists d' order p',
    dijkstra_loop coord isDirected cancel fuel g d visited unvisited visited p =
      Some (d', order, order, p') /\
    tentative g start d' /\
    forall v, v ∈ order ->
      v ∈ keys g /\ get_num d' v = get_num (dijkstra_ref fuel g d unvisited visited).1 v.
Proof.
  induction fuel as [|fuel IH]; intros d visited unvisited p Hex Hlen Hkeys.
  - destruct unvisited; [|simpl in Hlen; lia]. exists d, visited, p.
    split; [done|]. split; [apply Hex|]. intros v Hv. split; [|done].
    apply Hkeys. by rewrite app_nil_r.
  - assert (exists d' order p',
              Some (d, visited, visited, p) = Some (d', order, order, p') /\
              tentative g start d' /\
              forall v, v ∈ order ->
                v ∈ keys g /\
                get_num d' v = get_num (dijkstra_ref (S fuel) g d unvisited visited).1 v) as Hstop.
    { exists d, visited, p. split; [done|]. split; [apply Hex|].
      intros v Hv. split; [apply Hkeys, elem_of_app; by left|].
      by rewrite dijkstra_ref_visited. }
    destruct unvisited as [|u0 us] eqn:Eu; [exact Hstop|].
    rewrite <- Eu in *. clear Eu.
    assert (dijkstra_loop coord isDirected cancel (S fuel) g d visited unvisited visited p =
            if isRunning coord cancel p then
              let '(current, minDistance) := select_min d unvisited in
              if bool_decide (current = EmptyString) || negb (reached d current)
              then Some (d, visited, visited, p)
              else
                let '(distances, visited', unvisited', order, p) :=
                  dijkstra_visit coord isDirected g current d visited unvisited visited p in
                dijkstra_loop coord isDirected cancel fuel g distances visited' unvisited' order p
            else Some (d, visited, visited, p))
      as ->.
    { destruct unvisited; [|cbn; by destruct (isRunning coord cancel p)].
      by destruct (isRunning coord cancel p). }
    destruct (isRunning coord cancel p); [|exact Hstop].
    pose proof Hex as (Hs & _). pose proof Hs as (Hnd & Hempty & Hun & Hvis).
    rewrite select_min_choose by (apply Forall_forall; intros u Hu; by apply Hun).
    destruct (choose d unvisited) as [c|] eqn:Ec.
    + pose proof Ec as (Hc & (zc & Hzc) & Hmin)%choose_Some.
      rewrite bool_decide_eq_false_2 by (intros ->; done).
      assert (reached d c = true) as ->.
      { unfold reached. unfold get_num in Hzc. by destruct (obj_get d c) as [[]|]. }
      cbn [negb orb].
      destruct (dijkstra_visit_spec coord isDirected g Hwf Hnonneg c d visited unvisited visited p Hs Ec)
        as (p1 & -> & Hs1).
      cbn [dijkstra_ref]. rewrite Ec.
      apply IH; [by apply explored_by_step| |].
      * pose proof (length_set_delete unvisited c Hc). lia.
      * intros v [[Hv| ->%list_elem_of_singleton]%elem_of_app|Hv]%elem_of_app.
        -- apply Hkeys, elem_of_app. by left.
        -- apply Hkeys, elem_of_app. by right.
        -- apply Hkeys, elem_of_app. right. unfold set_delete in Hv.
           by apply list_elem_of_filter in Hv as [_ ?].
    + rewrite bool_decide_eq_true_2 by done. cbn [orb]. exact Hstop.
Qed.

End DijkstraCancel.




(** ** Starting a visualization *)

Section Start.
Variable coord : Type.
Variable algorithm : Algorithm.
Variable isDirected : bool.
Variable cancel : option nat.

(** The updater of the reset in [startVisualization]. *)
Definition reset_node (start : string) (node : Node coord) : Node coord :=
  mkNode coord (node_id _ node) (x _ node) (y _ node) false false false
    (initial_distance algorithm (node_id _ node) start).

(** [isRunningRef.current = true]: the suspensions of the run are counted
    from here. *)
Definition begin_run (p : page coord) : page coord :=
  mkPage coord (nodes _ p) (edges _ p) (graph _ p) (startNode _ p) (traversalOrder _ p)
    (toasts _ p) 0.

(** [startVisualization], with [fuel] for the loops of the traversals; the
    result is the page when the function has returned.  The [isRunning]
    state, which only the buttons read, is left out. *)
Definition startVisualization (fuel : nat) (p : page coord) : option (page coord) :=
  if bool_decide (startNode _ p = EmptyString) || bool_decide (length (keys (graph _ p)) = 0%nat)
  then Some (show_toast _
               (toast_error "Please generate a graph and select a start node first!") p)
  else
    let p := begin_run p in
    let p := setTraversalOrder _ [] p in
    let p := setNodes _ (fmap (reset_node (startNode _ p))) p in
    let p := setEdges _ (fmap unhighlight) p in
    match
      match algorithm with
      | bfs_ => snd <$> bfs coord isDirected cancel fuel (startNode _ p) p
      | dfs_ => snd <$> dfs coord isDirected cancel fuel (graph _ p) (startNode _ p) [] [] p
      | dijkstra_ => snd <$> dijkstra coord isDirected cancel fuel (startNode _ p) p
      | bellman_ford => Some (bellmanFord coord isDirected cancel (startNode _ p) p).2
      end
    with
    | Some p =>
        Some (if isRunning coord cancel p
              then show_toast _ (toast_success "Algorithm visualization completed!") p
              else p)
    | None => None
    end.

End Start.

(** What a traversal leaves alone: the graph, the start node and the
    toasts. *)
Definition settings {coord} (p : page coord) : Graph * string * list toast :=
  (graph _ p, startNode _ p, toasts _ p).

Section StartProofs.
Variable coord : Type.
Variable isDirected : bool.
Variable cancel : option nat.

Abbreviation spage := (page coord).

Lemma bfs_neighbors_settings current visited ns : forall queue (p : spage),
  settings (bfs_neighbors coord isDirected current visited ns queue p).2 = settings p.
Proof.
  induction ns as [|n ns IH]; intros queue p; cbn [bfs_neighbors]; [done|].
  case_match; by rewrite IH.
Qed.

Lemma bfs_loop_settings g fuel : forall queue visited order (p : spage) r,
  bfs_loop coord isDirected cancel fuel g queue visited order p = Some r ->
  settings r.2 = settings p.
Proof.
  induction fuel as [|fuel IH]; intros queue visited order p r;
    destruct queue as [|current rest]; cbn [bfs_loop]; try (by intros [= <-]).
  - by case_match; [|intros [= <-]].
  - case_match; [|by intros [= <-]]. case_match; [apply IH|].
    unfold bfs_visit. destruct (obj_get g current) as [nb|].
    + destruct (bfs_neighbors _ _ _ _ _ _ _) as [q p1] eqn:E. intros ->%IH.
      pose proof (bfs_neighbors_settings current (set_add visited current) (keys nb) rest
        (sleep _ (setNodes _ (fmap (mark_current coord current (set_add visited current)))
                    (setTraversalOrder _ (order ++ [current]) p)))) as Hn.
      rewrite E in Hn. exact Hn.
    + by intros ->%IH.
Qed.

(** Depth-first search returns under any cancellation. *)
Section DfsTotal.
Variable g : Graph.
Variable start : string.

Definition returns_within
    (r : option (list string * list string * spage)) (visited : list string) (p : spage) : Prop :=
  exists visited' order' p',
    r = Some (visited', order', p') /\
    NoDup visited' /\ (forall x, x ∈ visited' -> x ∈ names g start) /\
    (length visited <= length visited')%nat /\
    settings p' = settings p.

Definition visit_total
    (visit : string -> list string -> list string -> spage ->
             option (list string * list string * spage))
    (bound : nat) : Prop :=
  forall current visited order (p : spage),
    NoDup visited ->
    (forall x, x ∈ visited -> x ∈ names g start) ->
    current ∈ names g start ->
    (length (names g start) < bound + length visited)%nat ->
    returns_within (visit current visited order p) visited p.

Lemma dfs_neighbors_total visit bound current :
  visit_total visit bound ->
  forall ns visited order (p : spage),
    (forall n, n ∈ ns -> n ∈ neighbors g current) ->
    NoDup visited ->
    (forall x, x ∈ visited -> x ∈ names g start) ->
    (length (names g start) < bound + length visited)%nat ->
    returns_within (dfs_neighbors coord isDirected cancel visit current ns visited order p)
      visited p.
Proof.
  intros Hvisit. induction ns as [|n ns IH]; intros visited order p Hns Hnd Hsub Hb.
  - by exists visited, order, p.
  - cbn [dfs_neighbors].
    assert (forall m, m ∈ ns -> m ∈ neighbors g current) as Hns'
      by (intros m Hm; apply Hns; by right).
    destruct (negb (has visited n) && isRunning coord cancel p); [|by apply IH].
    destruct (Hvisit n visited order
                (sleep _ (setEdges _ (fmap (highlight isDirected current n)) p)))
      as (v1 & o1 & p1 & -> & Hnd1 & Hsub1 & Hlen1 & Hset1); try done.
    { eapply neighbors_names, Hns. by left. }
    destruct (IH v1 o1 (setEdges _ (fmap unhighlight) p1))
      as (v2 & o2 & p2 & -> & Hnd2 & Hsub2 & Hlen2 & Hset2); try done; [lia|].
    exists v2, o2, p2. split_and!; try done; [lia|].
    rewrite Hset2. etrans; [|exact Hset1]. done.
Qed.

Lemma dfs_total fuel : visit_total (dfs coord isDirected cancel fuel g) fuel.
Proof.
  induction fuel as [|fuel IH]; intros current visited order p Hnd Hsub Hc Hb.
  - exfalso. pose proof (NoDup_length_le _ _ Hnd Hsub). lia.
  - cbn [dfs].
    destruct (negb (isRunning coord cancel p) || has visited current) eqn:Ego.
    { by exists visited, order, p. }
    apply orb_false_iff in Ego as [_ Ev]. unfold set_add. rewrite Ev. apply has_false in Ev.
    assert (NoDup (visited ++ [current])) as Hnd1.
    { apply NoDup_app. split_and!; [done| |apply NoDup_singleton].
      by intros x Hx ->%list_elem_of_singleton. }
    assert (forall x, x ∈ visited ++ [current] -> x ∈ names g start) as Hsub1.
    { intros x [?| ->%list_elem_of_singleton]%elem_of_app; auto. }
    destruct (obj_get g current) as [nb|] eqn:Eg.
    + edestruct (dfs_neighbors_total _ fuel current IH (keys nb) (visited ++ [current]))
        as (v2 & o2 & p2 & -> & Hnd2 & Hsub2 & Hlen2 & Hset2); try done.
      { intros n Hn. unfold neighbors. by rewrite Eg. }
      { rewrite length_app. cbn [length]. lia. }
      exists v2, o2, (setNodes _ (fmap (unmark_current coord)) p2). split_and!; try done.
      rewrite length_app in Hlen2. cbn [length] in Hlen2. lia.
    + eexists _, _, _. split_and!; try done. rewrite length_app. lia.
Qed.

End DfsTotal.

(** Dijkstra returns within as many iterations as there are unvisited
    nodes, whatever the weights. *)
Lemma select_min_elem d unvisited :
  (select_min d unvisited).1 = EmptyString \/ (select_min d unvisited).1 ∈ unvisited.
Proof.
  unfold select_min.
  enough (forall l (acc : string * number),
            (foldl (select_step d) acc l).1 = acc.1 \/ (foldl (select_step d) acc l).1 ∈ l)
    as H by apply (H unvisited (EmptyString, Infinity)).
  induction l as [|u l IH]; intros acc; [by left|]. cbn [foldl].
  destruct (IH (select_step d acc u)) as [->|Hin]; [|right; by right].
  unfold select_step. case_match; [right; by left|by left].
Qed.

Lemma dijkstra_neighbors_settings edges_out current visited ns : forall d (p : spage),
  settings (dijkstra_neighbors coord isDirected edges_out current visited ns d p).2 = settings p.
Proof.
  induction ns as [|n ns IH]; intros d p; cbn [dijkstra_neighbors]; [done|].
  case_match; by rewrite IH.
Qed.

Lemma dijkstra_loop_total g fuel : forall d visited unvisited order (p : spage),
  (length unvisited <= fuel)%nat ->
  exists r, dijkstra_loop coord isDirected cancel fuel g d visited unvisited order p = Some r /\
            settings r.2 = settings p.
Proof.
  induction fuel as [|fuel IH]; intros d visited unvisited order p Hlen.
  - destruct unvisited; [|simpl in Hlen; lia]. by eexists.
  - destruct unvisited as [|u us]; [by eexists|].
    cbn [dijkstra_loop]. set (unvisited := u :: us) in *.
    destruct (isRunning coord cancel p); [|by eexists]. cbn [negb].
    destruct (select_min d unvisited) as [c m] eqn:Esel.
    destruct (bool_decide (c = EmptyString) || negb (reached d c)) eqn:Estop; [by eexists|].
    apply orb_false_iff in Estop as [Hc%bool_decide_eq_false _].
    pose proof (select_min_elem d unvisited) as Hin. rewrite Esel in Hin.
    destruct Hin as [?|Hin]; [done|]. simpl in Hin.
    unfold dijkstra_visit.
    destruct (match obj_get g c with Some _ => _ | None => _ end) as [d1 p1] eqn:E1.
    match goal with
    | |- exists r, dijkstra_loop _ _ _ _ _ ?d' ?v ?u' ?o ?q = _ /\ _ =>
        destruct (IH d' v u' o q) as (r & -> & Hr)
    end.
    { pose proof (length_set_delete _ _ Hin). lia. }
    exists r. split; [done|]. rewrite Hr. change (settings p1 = settings p).
    destruct (obj_get g c) as [nb|].
    + match type of E1 with ?t = _ => assert (settings t.2 = settings p1) as Hs by (by rewrite E1) end.
      rewrite dijkstra_neighbors_settings in Hs. by rewrite <-Hs.
    + by injection E1 as <- <-.
Qed.

(** Bellman-Ford changes the toasts by at most its error. *)
Definition adds_toasts (ts : list toast) (p p' : spage) : Prop :=
  graph _ p' = graph _ p /\ startNode _ p' = startNode _ p /\ toasts _ p' = ts ++ toasts _ p.

Lemma bf_edges_settings edges_out from tos : forall d hu (p : spage),
  settings (bf_edges coord isDirected edges_out from tos d hu p).2 = settings p.
Proof.
  induction tos as [|t tos IH]; intros d hu p; cbn [bf_edges]; [done|].
  case_match; by rewrite IH.
Qed.

Definition flow_page {A} (f : flow (A * spage)) : spage :=
  match f with Next r | Return r => r.2 end.

Lemma bf_round_settings g froms : forall d order hu (p : spage),
  settings (flow_page (bf_round coord isDirected cancel g froms d order hu p)) = settings p.
Proof.
  induction froms as [|f froms IH]; intros d order hu p; cbn [bf_round]; [done|].
  destruct (negb (isRunning coord cancel p)); [done|].
  destruct (has order f).
  - destruct (obj_get g f) as [nb|]; [destruct (reached d f)|].
    + destruct (bf_edges _ _ _ _ _ _ _ _) as [[d1 h1] p1] eqn:E. rewrite IH.
      change (settings p1 = settings p).
      match type of E with ?t = _ => assert (settings t.2 = settings p1) as Hs by (by rewrite E) end.
      rewrite bf_edges_settings in Hs. by rewrite <-Hs.
    + by rewrite IH.
    + by rewrite IH.
  - destruct (obj_get g f) as [nb|]; [destruct (reached d f)|].
    + destruct (bf_edges _ _ _ _ _ _ _ _) as [[d1 h1] p1] eqn:E. rewrite IH.
      change (settings p1 = settings p).
      match type of E with ?t = _ => assert (settings t.2 = settings p1) as Hs by (by rewrite E) end.
      rewrite bf_edges_settings in Hs. by rewrite <-Hs.
    + by rewrite IH.
    + by rewrite IH.
Qed.

Lemma bf_rounds_settings g nodeIds n : forall d order (p : spage),
  settings (flow_page (bf_rounds coord isDirected cancel n g nodeIds d order p)) = settings p.
Proof.
  induction n as [|n IH]; intros d order p; cbn [bf_rounds]; [done|].
  destruct (isRunning coord cancel p); [|done].
  pose proof (bf_round_settings g nodeIds d order false p) as Hr.
  destruct (bf_round _ _ _ _ _ _ _ _ _) as [[[[d1 o1] h1] p1]|[[[d1 o1] h1] p1]]; [|done].
  destruct h1; [|done]. by rewrite IH.
Qed.

Lemma bf_check_toasts g d froms : forall p : spage,
  exists ts, adds_toasts ts p (bf_check coord cancel g froms d p) /\
             (ts = [] \/ ts = [toast_error "Negative cycle detected!"]).
Proof.
  induction froms as [|f froms IH]; intros p; cbn [bf_check].
  - exists []. split; [done|by left].
  - destruct (negb (isRunning coord cancel p)); [exists []; split; [done|by left]|].
    destruct (obj_get g f) as [nb|]; [|apply IH].
    case_match; [|apply IH]. eexists. split; [|by right]. done.
Qed.

Lemma bellmanFord_toasts start (p : spage) :
  exists ts, adds_toasts ts p (bellmanFord coord isDirected cancel start p).2 /\
             (ts = [] \/ ts = [toast_error "Negative cycle detected!"]).
Proof.
  unfold bellmanFord.
  set (p0 := setNodes _ _ p).
  pose proof (bf_rounds_settings (graph _ p0) (keys (graph _ p0))
                (length (keys (graph _ p0)) - 1)
                (init_distances (keys (graph _ p0)) start) [] p0) as Hr.
  destruct (bf_rounds _ _ _ _ _ _ _ _ _) as [[[d1 o1] p1]|[[d1 o1] p1]]; simpl in Hr.
  - destruct (bf_check_toasts (graph _ p0) d1 (keys (graph _ p0)) p1) as (ts & (Hg & Hs & Ht) & Hts).
    exists ts. split; [|done]. injection Hr as Hg1 Hs1 Ht1.
    split_and!;
      [exact (eq_trans Hg Hg1)|exact (eq_trans Hs Hs1)|exact (eq_trans Ht (f_equal (app ts) Ht1))].
  - exists []. split; [|by left]. injection Hr as Hg1 Hs1 Ht1. by split_and!.
Qed.

End StartProofs.




(** ** The page after generating a graph *)

Lemma fmap_imap_inv {A B} (f : nat -> A -> B) (h : B -> A) (l : list A) :
  (forall i a, h (f i a) = a) -> h <$> imap f l = l.
Proof.
  revert f. induction l as [|a l IH]; intros f Hf; [done|].
  cbn [imap fmap list_fmap]. rewrite Hf. f_equal. apply (IH (f ∘ S)). intros i b. apply Hf.
Qed.

Lemma shown_edges (isWeighted : bool) (g : Graph) :
  (fun e => (edge_from e, edge_to e, highlighted e)) <$>
    flat_map (fun fn : string * Obj number =>
                (fun tw : string * number =>
                   mkEdge fn.1 tw.1 (if isWeighted then Some tw.2 else None) false) <$> fn.2) g =
  (fun e => (e.1.1, e.1.2, false)) <$> edge_list g.
Proof.
  unfold edge_list. induction g as [|[from nb] g' IH]; [done|].
  cbn [flat_map]. rewrite !fmap_app. f_equal; [|exact IH].
  unfold edges_from. rewrite <-!list_fmap_compose. by apply list_fmap_ext.
Qed.

(** X15.  When the input is accepted, [generateGraph] shows one node for
    each key of the graph, in the order of the keys and with no mark, and
    one edge for each entry, none highlighted; the first key becomes the
    start node, and with no key the start node stays.  It keeps the
    traversal order on display, and the distance [0] goes to the node that
    was the start node before, not to the new one.  A start node named by
    the empty string is possible with the list parser: the graph of the
    input [: B] is generated, and [startVisualization] then refuses to
    run. *)
Theorem generateGraph_outcome coord (place : nat -> nat -> coord * coord)
    (algorithm : Algorithm) (isWeighted : bool) (inputMode : InputMode) (input : string)
    (randomGraph : Graph) (p : page coord) (g : Graph) :
  graph_of_input isWeighted inputMode input randomGraph = Returns g ->
  let p' := generateGraph coord place algorithm isWeighted inputMode input randomGraph p in
  (node_id _ <$> nodes _ p' = keys g /\
   Forall (fun node =>
             visited _ node = false /\ current _ node = false /\ inQueue _ node = false /\
             distance _ node = initial_distance algorithm (node_id _ node) (startNode _ p))
          (nodes _ p') /\
   (fun e => (edge_from e, edge_to e, highlighted e)) <$> edges _ p' =
     (fun e => (e.1.1, e.1.2, false)) <$> edge_list g /\
   startNode _ p' = default (startNode _ p) (head (keys g)) /\
   traversalOrder _ p' = traversalOrder _ p /\
   toasts _ p' = toast_success "Graph generated successfully!" :: toasts _ p) /\
  (let q := generateGraph unit (fun _ _ => (tt, tt)) bfs_ false adjacency_list ": B" []
              (page_of []) in
   graph _ q = [("", [("B", Int 1)])] /\
   startVisualization unit bfs_ false None 2 q =
     Some (show_toast _
             (toast_error "Please generate a graph and select a start node first!") q)).
Proof.
  intros Hg. cbv zeta. split; [|split; vm_compute; reflexivity].
  unfold generateGraph. rewrite Hg.
  assert (forall q : page coord,
            nodes _ (match keys g with first :: _ => setStartNode _ first q | [] => q end)
              = nodes _ q /\
            edges _ (match keys g with first :: _ => setStartNode _ first q | [] => q end)
              = edges _ q /\
            traversalOrder _ (match keys g with first :: _ => setStartNode _ first q | [] => q end)
              = traversalOrder _ q /\
            toasts _ (match keys g with first :: _ => setStartNode _ first q | [] => q end)
              = toasts _ q /\
            startNode _ (match keys g with first :: _ => setStartNode _ first q | [] => q end)
              = default (startNode _ q) (head (keys g))) as Hstart
    by (intros q; by destruct (keys g)).
  cbn [nodes edges startNode traversalOrder toasts show_toast].
  destruct (Hstart (createVisualization coord place algorithm isWeighted g (setGraph _ g p)))
    as (-> & -> & -> & -> & ->).
  unfold createVisualization. cbn [nodes edges startNode traversalOrder toasts setEdges setNodes
    setGraph]. split_and!; try done.
  - apply fmap_imap_inv. intros i a. by destruct (place i (length (keys g))).
  - apply Forall_forall. intros node Hn.
    apply list_elem_of_lookup in Hn as (i & Hi).
    rewrite list_lookup_imap in Hi.
    destruct (keys g !! i) as [id|]; [|done]. simpl in Hi.
    destruct (place i (length (keys g))). by injection Hi as <-.
  - apply shown_edges.
Qed.

Lemma generateGraph_outcome_witness :
  startNode _ (generateGraph unit (fun _ _ => (tt, tt)) dijkstra_ true adjacency_list
                 "A: B(7)" [] (setStartNode _ "B" (page_of []))) = "A".
Proof.
  destruct (generateGraph_outcome unit (fun _ _ => (tt, tt)) dijkstra_ true adjacency_list
              "A: B(7)" [] (setStartNode _ "B" (page_of [])) [("A", [("B", Int 7)])])
    as [(_ & _ & _ & H & _) _].
  - vm_compute. reflexivity.
  - exact H.
Defined.


(** ** Random graphs *)

Section RandomGraph.

(** [Math.floor(Math.random() * k)] at the [i]-th call of [Math.random],
    for an integer [k]: an integer from 0 to [k - 1], and 0 for [k = 0];
    which one is up to [random]. *)
Variable random : nat -> nat.
Variable isDirected : bool.
Variable isWeighted : bool.
Variable count : nat.

Definition floor_random (i k : nat) : nat :=
  match k with
  | O => O
  | S _ => random i mod k
  end.

(** [Array.from({ length: count }, (_, i) => String.fromCharCode(65 + i))] *)
Definition nodeLabels : list string :=
  (fun i => String (ascii_of_nat (65 + i)) EmptyString) <$> seq 0 count.

(** [isWeighted ? Math.floor(Math.random() * k) + 1 : 1], with the number
    [n] of calls of [Math.random] so far. *)
Definition random_weight (k n : nat) : number * nat :=
  if isWeighted then (Int (Z.of_nat (floor_random n k) + 1), S n) else (Int 1, n).

(** [graph[from][to] = weight; if (!isDirected) graph[to][from] = weight] *)
Definition connect (graph : Graph) (from to : string) (weight : number) : result Graph :=
  and_then (set_edge graph from to weight) (fun graph =>
    if isDirected then Returns graph else set_edge graph to from weight).

(** The body of the first loop. *)
Definition ring_edge (gn : Graph * nat) (i : nat) : result (Graph * nat) :=
  let '(graph, n) := gn in
  let from := prop_key (nodeLabels !! i) in
  let to := prop_key (nodeLabels !! ((i + 1) mod length nodeLabels)%nat) in
  let '(weight, n) := random_weight 5 n in
  and_then (connect graph from to weight) (fun graph => Returns (graph, n)).

(** Whether a number, or [undefined], counts as true. *)
Definition truthy (v : option number) : bool :=
  match v with
  | Some (Int z) => negb (z =? 0)
  | Some Infinity => true
  | _ => false
  end.

(** [to !== from && !graph[from][to]] *)
Definition available (graph : Graph) (from to : string) : result bool :=
  if bool_decide (to = from) then Returns false
  else match obj_get graph from with
       | Some neighbors => Returns (negb (truthy (obj_get neighbors to)))
       | None => Throws TypeError
       end.

(** [xs.filter(f)] for a callback that may throw. *)
Fixpoint filter_by {A} (f : A -> result bool) (xs : list A) : result (list A) :=
  match xs with
  | [] => Returns []
  | x :: xs' =>
      and_then (f x) (fun b =>
        and_then (filter_by f xs') (fun ys => Returns (if b then x :: ys else ys)))
  end.

(** The body of the second loop. *)
Definition extra_edge (gn : Graph * nat) (i : nat) : result (Graph * nat) :=
  let '(graph, n) := gn in
  let from := prop_key (nodeLabels !! floor_random n (length nodeLabels)) in
  let n := S n in
  and_then (filter_by (available graph from) nodeLabels) (fun availableTargets =>
    match availableTargets with
    | [] => Returns (graph, n)
    | _ :: _ =>
        let to := prop_key (availableTargets !! floor_random n (length availableTargets)) in
        let n := S n in
        let '(weight, n) := random_weight 10 n in
        and_then (connect graph from to weight) (fun graph => Returns (graph, n))
    end).

Definition generateRandomGraph : result Graph :=
  let graph := foldl (fun graph label => obj_set label [] graph) [] nodeLabels in
  and_then (forEach ring_edge (seq 0 (length nodeLabels)) (graph, O)) (fun gn =>
    let '(graph, n) := gn in
    let maxAdditionalEdges := (count * (count - 1) / 4)%nat in
    let additionalEdges := (floor_random n maxAdditionalEdges + count)%nat in
    and_then (forEach extra_edge (seq 0 additionalEdges) (graph, S n)) (fun gn =>
      Returns gn.1)).

End RandomGraph.

(** [graph[a][b]], when [graph[a]] is defined. *)
Definition weight_of (g : Graph) (a b : string) : option number :=
  match obj_get g a with
  | Some nb => obj_get nb b
  | None => None
  end.

Lemma set_edge_weight (g g' : Graph) from to w :
  set_edge g from to w = Returns g' ->
  keys g' = keys g /\
  (forall a b, weight_of g' a b =
                 if decide (a = from /\ b = to) then Some w else weight_of g a b) /\
  (wf_graph g -> wf_graph g').
Proof.
  unfold set_edge. destruct (obj_get g from) as [nb|] eqn:E; [|done]. intros [= <-].
  split_and!.
  - apply keys_set_old, obj_get_keys. by eexists.
  - intros a b. unfold weight_of. rewrite obj_get_set.
    destruct (decide (a = from)) as [->|Ha].
    + rewrite E, obj_get_set. destruct (decide (b = to)) as [->|Hb].
      * by rewrite decide_True.
      * rewrite decide_False; [done|]. by intros [_ ?].
    + rewrite decide_False; [done|]. by intros [? _].
  - intros [Hk Hall]. split; [by apply NoDup_keys_set|].
    apply Forall_forall. intros fn [->|Hin]%elem_of_obj_set.
    + apply NoDup_keys_set. apply obj_get_elem in E.
      by apply (proj1 (Forall_forall _ _) Hall (from, nb)).
    + by apply (proj1 (Forall_forall _ _) Hall fn).
Qed.

Lemma weight_of_edge (g : Graph) from to w :
  wf_graph g -> ((from, to, w) ∈ edge_list g <-> weight_of g from to = Some w).
Proof.
  intros Hwf. unfold weight_of. split.
  - intros He. destruct (edge_list_entry g from to w Hwf He) as (nb & E & Htw). rewrite E.
    apply obj_get_of_elem; [|done].
    apply (wf_graph_entries g (from, nb) Hwf). by apply obj_get_elem.
  - destruct (obj_get g from) as [nb|] eqn:E; [|done]. intros Hw.
    apply (edge_list_elem g from nb (to, w)); by apply obj_get_elem.
Qed.

Lemma weight_of_neighbor (g : Graph) a b : is_Some (weight_of g a b) -> b ∈ neighbors g a.
Proof.
  unfold weight_of, neighbors. destruct (obj_get g a) as [nb|]; [|by intros [??]].
  apply obj_get_keys.
Qed.

Lemma forEach_total {A S} (body : S -> A -> result S) (P : S -> Prop) xs :
  (forall g x, P g -> exists g', body g x = Returns g' /\ P g') ->
  forall g, P g -> exists g', forEach body xs g = Returns g' /\ P g'.
Proof.
  intros Hbody. induction xs as [|x xs IH]; intros g HP; [by exists g|].
  cbn [forEach]. destruct (Hbody g x HP) as (g1 & -> & HP1). by apply IH.
Qed.

Lemma new_nodes ls : forall acc : Graph,
  NoDup (keys acc ++ ls) -> Forall (fun l => array_index l = None) ls ->
  foldl (fun graph label => obj_set label [] graph) acc ls =
    acc ++ ((fun l => (l, [])) <$> ls).
Proof.
  induction ls as [|l ls IH]; intros acc Hnd Hidx; [by rewrite app_nil_r|].
  apply Forall_cons in Hidx as [Hl Hidx]. cbn [foldl fmap list_fmap].
  assert (obj_set l [] acc = acc ++ [(l, [])]) as ->.
  { unfold obj_set. destruct (obj_get _ _) eqn:E; [|by rewrite Hl].
    exfalso. apply NoDup_app in Hnd as (_ & Hd & _). apply (Hd l); [|by left].
    apply obj_get_keys. by eexists. }
  rewrite IH; [by rewrite <-app_assoc| |done].
  unfold keys in *. rewrite fmap_app. simpl. by rewrite <-app_assoc.
Qed.

Lemma nodeLabels_take count : (count <= 26)%nat -> nodeLabels count = take count (nodeLabels 26).
Proof.
  intros Hc. unfold nodeLabels. rewrite <-fmap_take. f_equal.
  apply list_eq. intros i. destruct (decide (i < count)%nat).
  - rewrite lookup_take_lt, !lookup_seq_lt by lia. done.
  - rewrite lookup_take_ge, lookup_seq_ge by lia. done.
Qed.

Section RandomProofs.
Variable random : nat -> nat.
Variable isDirected : bool.
Variable isWeighted : bool.
Variable count : nat.
Hypothesis Hcount : (2 <= count <= 26)%nat.

Abbreviation labels := (nodeLabels count).

Lemma labels_NoDup : NoDup labels.
Proof.
  rewrite nodeLabels_take by lia. apply (sublist_NoDup _ (nodeLabels 26)); [|apply sublist_take].
  apply (bool_decide_unpack _). vm_compute. reflexivity.
Qed.

Lemma labels_plain : Forall (fun l => array_index l = None /\ l <> EmptyString) labels.
Proof.
  rewrite nodeLabels_take by lia. apply Forall_take.
  apply (bool_decide_unpack _). vm_compute. reflexivity.
Qed.

Lemma length_labels : length labels = count.
Proof. unfold nodeLabels. by rewrite length_fmap, length_seq. Qed.

Lemma labels_lookup i : (i < count)%nat -> exists l, labels !! i = Some l /\ l ∈ labels.
Proof.
  intros Hi. destruct (lookup_lt_is_Some_2 labels i) as [l Hl]; [by rewrite length_labels|].
  exists l. split; [done|]. by eapply list_elem_of_lookup_2.
Qed.

(** A weight that the generator can assign. *)
Definition fair_weight (w : number) : Prop :=
  exists z, w = Int z /\ 1 <= z <= 10 /\ (isWeighted = false -> z = 1).

(** The graph has the labels as its nodes, every edge leads to another
    node and has a weight the generator assigns, and the edges of an
    undirected graph come in pairs of equal weight. *)
Definition random_ok (g : Graph) : Prop :=
  keys g = labels /\ wf_graph g /\
  (forall a b w, weight_of g a b = Some w -> b ∈ labels /\ a <> b /\ fair_weight w) /\
  (isDirected = false -> forall a b, weight_of g a b = weight_of g b a).

Definition extends (g g' : Graph) : Prop :=
  forall a b, is_Some (weight_of g a b) -> is_Some (weight_of g' a b).

Lemma random_weight_fair k n :
  k = 5%nat \/ k = 10%nat -> fair_weight (random_weight random isWeighted k n).1.
Proof.
  intros Hk. unfold random_weight. destruct isWeighted eqn:Ew; cbn [fst].
  - eexists. split; [done|]. split; [|congruence].
    assert (floor_random random n k < k)%nat.
    { unfold floor_random. destruct k; [lia|]. apply Nat.mod_upper_bound. lia. }
    lia.
  - exists 1. split; [done|]. split; [lia|done].
Qed.

Lemma connect_ok g from to w :
  random_ok g -> from ∈ labels -> to ∈ labels -> from <> to -> fair_weight w ->
  exists g', connect isDirected g from to w = Returns g' /\ random_ok g' /\
             is_Some (weight_of g' from to) /\ extends g g'.
Proof.
  intros (Hk & Hwf & Hw & Hsym) Hfrom Hto Hne Hfair. unfold connect.
  assert (is_Some (obj_get g from)) as [nb Hnb] by (apply obj_get_keys; by rewrite Hk).
  destruct (set_edge g from to w) as [g1|] eqn:E1; [|unfold set_edge in E1; by rewrite Hnb in E1].
  destruct (set_edge_weight _ _ _ _ _ E1) as (Hk1 & Hw1 & Hwf1). cbn [and_then].
  destruct isDirected eqn:Ed.
  - exists g1. split_and!; try done.
    + split_and!; [congruence|by apply Hwf1| |intros; congruence].
      intros a b w'. rewrite Hw1. case_decide as Hab; [|apply Hw].
      destruct Hab as [-> ->]. by intros [= <-].
    + rewrite Hw1. by rewrite decide_True.
    + intros a b. rewrite Hw1. by case_decide.
  - assert (is_Some (obj_get g1 to)) as [nb' Hnb'] by (apply obj_get_keys; congruence).
    destruct (set_edge g1 to from w) as [g2|] eqn:E2;
      [|unfold set_edge in E2; by rewrite Hnb' in E2].
    destruct (set_edge_weight _ _ _ _ _ E2) as (Hk2 & Hw2 & Hwf2).
    exists g2. split_and!; try done.
    + split_and!; [congruence|by apply Hwf2, Hwf1| |].
      * intros a b w'. rewrite Hw2, Hw1. case_decide as Hab.
        { destruct Hab as [-> ->]. by intros [= <-]. }
        case_decide as Hab'; [|apply Hw]. destruct Hab' as [-> ->]. by intros [= <-].
      * intros _ a b. rewrite !Hw2, !Hw1. specialize (Hsym eq_refl a b).
        repeat case_decide; try done; exfalso; intuition congruence.
    + rewrite Hw2, Hw1. repeat case_decide; try done. exfalso. intuition congruence.
    + intros a b. rewrite Hw2, Hw1. by repeat case_decide.
Qed.

(** The edge of the first loop for the node at index [j]. *)
Definition ring_present (g : Graph) (j : nat) : Prop :=
  exists a b, labels !! j = Some a /\ labels !! ((j + 1) mod count)%nat = Some b /\
              is_Some (weight_of g a b).

Lemma ring_ok m : forall a g n,
  (a + m <= count)%nat -> random_ok g -> (forall j, (j < a)%nat -> ring_present g j) ->
  exists g' n',
    forEach (ring_edge random isDirected isWeighted count) (seq a m) (g, n) = Returns (g', n') /\
    random_ok g' /\ forall j, (j < a + m)%nat -> ring_present g' j.
Proof.
  induction m as [|m IH]; intros a g n Ham Hok Hring.
  - exists g, n. split_and!; [done|done|]. intros j Hj. apply Hring. lia.
  - cbn [seq forEach]. unfold ring_edge at 1. rewrite length_labels.
    destruct (labels_lookup a) as (from & Hfrom & Hfrom'); [lia|].
    destruct (labels_lookup ((a + 1) mod count)) as (to & Hto & Hto');
      [apply Nat.mod_upper_bound; lia|].
    rewrite Hfrom, Hto. cbn [prop_key default]. unfold id.
    pose proof (random_weight_fair 5 n ltac:(by left)) as Hfair.
    destruct (random_weight random isWeighted 5 n) as [w n1]. cbn [fst] in Hfair.
    cbv beta iota. unfold id.
    destruct (connect_ok g from to w Hok Hfrom' Hto') as (g1 & -> & Hok1 & Hnew & Hext);
      [|done|].
    { intros ->. pose proof (NoDup_lookup _ _ _ _ labels_NoDup Hfrom Hto) as Heq.
      destruct (decide (a + 1 = count)%nat) as [Hc|Hc].
      - rewrite Hc, Nat.Div0.mod_same in Heq. lia.
      - rewrite Nat.mod_small in Heq by lia. lia. }
    cbn [and_then].
    destruct (IH (S a) g1 n1) as (g' & n' & Hr & Hok' & Hring'); [lia|done| |].
    { intros j Hj. destruct (decide (j = a)) as [->|].
      - by exists from, to.
      - destruct (Hring j) as (x & y & Hx & Hy & Hxy); [lia|].
        exists x, y. split_and!; [done|done|by apply Hext]. }
    exists g', n'. split_and!; [done|done|]. intros j Hj. apply Hring'. lia.
Qed.

Lemma filter_available g from xs :
  is_Some (obj_get g from) ->
  exists ys, filter_by (available g from) xs = Returns ys /\
             forall y, y ∈ ys -> y ∈ xs /\ y <> from.
Proof.
  intros [nb Hnb]. induction xs as [|x xs (ys & IH & Hys)].
  - exists []. split; [done|]. by intros y ?%elem_of_nil.
  - cbn [filter_by]. unfold available at 1. rewrite IH. case_bool_decide as Hx.
    + exists ys. split; [done|]. intros y Hy. destruct (Hys y Hy). split; [by right|done].
    + rewrite Hnb. cbn [and_then]. destruct (negb _).
      * exists (x :: ys). split; [done|].
        intros y [->|Hy]%elem_of_cons; [split; [by left|done]|].
        destruct (Hys y Hy). split; [by right|done].
      * exists ys. split; [done|]. intros y Hy. destruct (Hys y Hy). split; [by right|done].
Qed.

Lemma extra_ok g n i :
  random_ok g ->
  exists g' n', extra_edge random isDirected isWeighted count (g, n) i = Returns (g', n') /\
                random_ok g' /\ extends g g'.
Proof.
  intros Hok. unfold extra_edge. rewrite length_labels.
  destruct (labels_lookup (floor_random random n count)) as (from & Hfrom & Hfrom').
  { unfold floor_random. destruct count eqn:Ec; [lia|]. apply Nat.mod_upper_bound. lia. }
  rewrite Hfrom. cbn [prop_key default]. unfold id.
  destruct (filter_available g from labels) as (ys & -> & Hys).
  { apply obj_get_keys. by rewrite (proj1 Hok). }
  cbn [and_then].
  destruct ys as [|y0 ys]; [exists g, (S n); split_and!; [done|done|by intros a b]|].
  destruct (lookup_lt_is_Some_2 (y0 :: ys) (floor_random random (S n) (length (y0 :: ys))))
    as [to Hto].
  { unfold floor_random. cbn [length]. apply Nat.mod_upper_bound. lia. }
  rewrite Hto. cbn [prop_key default]. unfold id.
  destruct (Hys to) as [Hto1 Hto2]; [by eapply list_elem_of_lookup_2|].
  pose proof (random_weight_fair 10 (S (S n)) ltac:(by right)) as Hfair.
  destruct (random_weight random isWeighted 10 (S (S n))) as [w n1]. cbn [fst] in Hfair.
  cbv beta iota. unfold id.
  destruct (connect_ok g from to w Hok Hfrom' Hto1) as (g1 & -> & Hok1 & _ & Hext);
    [done|done|].
  by exists g1, n1.
Qed.

Lemma ring_reaches g :
  random_ok g -> (forall j, (j < count)%nat -> ring_present g j) ->
  forall u v, u ∈ labels -> v ∈ labels -> reachable g u v.
Proof.
  intros Hok Hring u v Hu Hv.
  apply list_elem_of_lookup in Hu as (i & Hi), Hv as (j & Hj).
  pose proof (lookup_lt_Some _ _ _ Hi) as Hi'. pose proof (lookup_lt_Some _ _ _ Hj) as Hj'.
  rewrite length_labels in Hi', Hj'.
  assert (forall k x, labels !! ((i + k) mod count)%nat = Some x -> reachable g u x) as Hall.
  { induction k as [|k IH]; intros x Hx.
    - rewrite Nat.add_0_r, Nat.mod_small in Hx by lia.
      assert (x = u) as -> by congruence. constructor.
    - destruct (Hring ((i + k) mod count)%nat) as (a & b & Ha & Hb & Hab);
        [apply Nat.mod_upper_bound; lia|].
      rewrite Nat.Div0.add_mod_idemp_l in Hb.
      replace (i + k + 1)%nat with (i + S k)%nat in Hb by lia.
      assert (x = b) as -> by congruence.
      eapply reachable_step; [by apply IH|]. by apply weight_of_neighbor. }
  apply (Hall (j + count - i)%nat).
  replace (i + (j + count - i))%nat with (j + 1 * count)%nat by lia.
  by rewrite Nat.Div0.mod_add, Nat.mod_small.
Qed.

End RandomProofs.

Definition alphabet : list string :=
  ["A"; "B"; "C"; "D"; "E"; "F"; "G"; "H"; "I"; "J"; "K"; "L"; "M";
   "N"; "O"; "P"; "Q"; "R"; "S"; "T"; "U"; "V"; "W"; "X"; "Y"; "Z"].

(** X16.  For 2 to 26 nodes (the slider offers 3 to 12) and whatever
    [Math.random] returns, [generateRandomGraph] returns a graph and does
    not throw.  Its nodes are the first [count] capital letters; every edge
    leads to another node of the graph and has an integer weight from 1 to
    10, which is 1 when the graph is not weighted; the edges of an
    undirected graph come in both directions with the same weight; and
    every node is reachable from every node. *)
Theorem random_graph_connected (random : nat -> nat) (isDirected isWeighted : bool)
    (count : nat) :
  (2 <= count <= 26)%nat ->
  exists g,
    generateRandomGraph random isDirected isWeighted count = Returns g /\
    keys g = take count alphabet /\
    wf_graph g /\ nonneg_weights g /\ (EmptyString ∉ keys g) /\
    (forall from to w, (from, to, w) ∈ edge_list g ->
       to ∈ keys g /\ to <> from /\
       exists z, w = Int z /\ 1 <= z <= 10 /\ (isWeighted = false -> z = 1)) /\
    (isDirected = false ->
     forall from to w, (from, to, w) ∈ edge_list g -> (to, from, w) ∈ edge_list g) /\
    (forall u v, u ∈ keys g -> v ∈ keys g -> reachable g u v).
Proof.
  intros Hcount. unfold generateRandomGraph.
  pose proof (labels_NoDup count Hcount) as Hnd.
  pose proof (labels_plain count Hcount) as Hplain.
  assert (foldl (fun graph label => obj_set label [] graph) ([] : Graph) (nodeLabels count) =
          (fun l => (l, ([] : Obj number))) <$> nodeLabels count) as Hinit.
  { apply (new_nodes (nodeLabels count) []); [done|].
    eapply Forall_impl; [exact Hplain|]. by intros l [? _]. }
  cbv zeta.
  match goal with
  | |- context [foldl ?f ?a ?ls] =>
      replace (foldl f a ls) with ((fun l => (l, ([] : Obj number))) <$> nodeLabels count)
        by (symmetry; exact Hinit)
  end.
  rewrite length_labels.
  assert (random_ok isDirected isWeighted count
            ((fun l => (l, ([] : Obj number))) <$> nodeLabels count)) as H0.
  { assert (keys ((fun l => (l, ([] : Obj number))) <$> nodeLabels count) = nodeLabels count)
      as Hkeys by (unfold keys; rewrite <-list_fmap_compose; apply list_fmap_id).
    assert (forall a b,
              weight_of ((fun l => (l, ([] : Obj number))) <$> nodeLabels count) a b = None)
      as Hnone.
    { intros a b. unfold weight_of. destruct (obj_get _ a) as [nb|] eqn:E; [|done].
      by apply obj_get_elem, list_elem_of_fmap in E as (l & [= -> ->] & _). }
    split_and!.
    - exact Hkeys.
    - split; [by rewrite Hkeys|].
      apply Forall_fmap, Forall_forall. intros l _. apply NoDup_nil_2.
    - intros a b w. by rewrite Hnone.
    - intros _ a b. by rewrite !Hnone. }
  destruct (ring_ok random isDirected isWeighted count Hcount count 0%nat _ 0%nat
              ltac:(lia) H0 ltac:(lia)) as (g1 & n1 & Hr1 & Hok1 & Hring1).
  match goal with
  | |- exists g, and_then ?m _ = _ /\ _ =>
      replace m with (Returns (g1, n1)) by (symmetry; exact Hr1)
  end.
  cbn [and_then].
  set (P := fun gn : Graph * nat =>
              random_ok isDirected isWeighted count gn.1 /\
              forall j, (j < count)%nat -> ring_present count gn.1 j).
  destruct (forEach_total (extra_edge random isDirected isWeighted count) P
              (seq 0 (floor_random random n1 (count * (count - 1) / 4) + count)))
    with (g := (g1, S n1)) as ([g n] & Hr2 & Hok & Hring).
  { intros [g n] x [Hok Hring].
    destruct (extra_ok random isDirected isWeighted count Hcount g n x Hok)
      as (g' & n' & -> & Hok' & Hext).
    exists (g', n'). split; [done|]. split; [done|]. intros j Hj.
    destruct (Hring j Hj) as (a & b & Ha & Hb & Hab). exists a, b. split_and!; try done.
    by apply Hext. }
  { split; [done|]. intros j Hj. apply Hring1. lia. }
  match goal with
  | |- exists g, and_then ?m _ = _ /\ _ =>
      replace m with (Returns (g, n)) by (symmetry; exact Hr2)
  end.
  cbn [and_then fst] in *. exists g.
  destruct Hok as (Hk & Hwf & Hw & Hsym).
  assert (forall from to w, (from, to, w) ∈ edge_list g ->
            to ∈ keys g /\ to <> from /\
            exists z, w = Int z /\ 1 <= z <= 10 /\ (isWeighted = false -> z = 1)) as Hedges.
  { intros from to w He%weight_of_edge; [|done].
    destruct (Hw _ _ _ He) as (Hto & Hne & Hfair). rewrite Hk. split_and!; [done|congruence|done]. }
  split_and!; try done.
  - rewrite Hk, nodeLabels_take by lia. f_equal.
  - intros [[from to] w] He. destruct (Hedges from to w He) as (_ & _ & z & -> & Hz & _).
    exists z. split; [done|lia].
  - rewrite Hk. intros Hin.
    by destruct (proj1 (Forall_forall _ _) Hplain EmptyString Hin).
  - intros Hd from to w He%weight_of_edge; [|done]. apply weight_of_edge; [done|].
    by rewrite <-(Hsym Hd).
  - rewrite Hk. apply (ring_reaches isDirected isWeighted count Hcount); [|done].
    by split_and!.
Qed.

Lemma random_graph_connected_witness :
  exists g,
    generateRandomGraph (fun i => (7 * i + 3)%nat) false true 4 = Returns g /\
    reachable g "D" "B".
Proof.
  destruct (random_graph_connected (fun i => (7 * i + 3)%nat) false true 4)
    as (g & Hg & Hk & _ & _ & _ & _ & _ & Hr); [lia|].
  exists g. split; [exact Hg|]. apply Hr; rewrite Hk; vm_compute.
  - do 3 right. by left.
  - right. by left.
Defined.


(** ** The adjacency matrix: what is parsed *)

Lemma keys_set_fresh {V} (k : string) (v : V) o :
  k ∉ keys o -> keys (obj_set k v o) ≡ₚ keys o ++ [k].
Proof.
  intros Hk. unfold obj_set.
  destruct (obj_get o k) eqn:E; [exfalso; apply Hk, obj_get_keys; by eexists|].
  destruct (array_index k).
  - rewrite keys_insert_index. by rewrite Permutation_cons_append.
  - unfold keys. by rewrite fmap_app.
Qed.

Lemma keys_new_nodes ls : forall acc : Graph,
  NoDup (keys acc ++ ls) ->
  keys (foldl (fun g label => obj_set label [] g) acc ls) ≡ₚ keys acc ++ ls.
Proof.
  induction ls as [|l ls IH]; intros acc Hnd; [by rewrite app_nil_r|].
  cbn [foldl].
  assert (l ∉ keys acc) as Hl.
  { apply NoDup_app in Hnd as (_ & Hd & _). intros Hin. apply (Hd l Hin). by left. }
  pose proof (keys_set_fresh l ([] : Obj number) acc Hl) as Hp.
  rewrite IH.
  - rewrite Hp, <-app_assoc. done.
  - rewrite Hp, <-app_assoc. done.
Qed.

Lemma weight_of_new_nodes ls : forall (acc : Graph) a b,
  weight_of acc a b = None ->
  weight_of (foldl (fun g label => obj_set label [] g) acc ls) a b = None.
Proof.
  induction ls as [|l ls IH]; intros acc a b Hacc; [done|].
  cbn [foldl]. apply IH. unfold weight_of in *. rewrite obj_get_set. by case_decide.
Qed.

Section MatrixCells.
Variable isWeighted : bool.
Variable labels : list string.
Hypothesis Hnd : NoDup labels.

(** [isWeighted ? weight : 1] for a cell [weight > 0], nothing otherwise. *)
Definition stored (w : number) : option number :=
  if lt (Int 0) w then Some (if isWeighted then w else Int 1) else None.

Lemma cells_written row : forall (g : Graph) j0 from,
  is_Some (obj_get g from) -> (j0 + length row <= length labels)%nat ->
  exists g',
    forEach (matrix_cell isWeighted labels (Some from)) row (g, j0) =
      Returns (g', (j0 + length row)%nat) /\
    keys g' = keys g /\
    (forall a b, a <> from -> weight_of g' a b = weight_of g a b) /\
    (forall b, (forall j, (j0 <= j < j0 + length row)%nat -> labels !! j <> Some b) ->
               weight_of g' from b = weight_of g from b) /\
    (forall j b w, labels !! j = Some b -> (j0 <= j)%nat -> row !! (j - j0)%nat = Some w ->
       weight_of g' from b = from_option Some (weight_of g from b) (stored w)).
Proof.
  induction row as [|w row IH]; intros g j0 from Hfrom Hlen.
  - exists g. rewrite Nat.add_0_r. split_and!; try done; by intros j b w _ _ ?.
  - cbn [length] in Hlen. cbn [forEach]. unfold matrix_cell at 1.
    destruct (lookup_lt_is_Some_2 labels j0) as [t Ht]; [lia|].
    rewrite Ht. change (prop_key (Some from)) with from. change (prop_key (Some t)) with t.
    assert (exists g1,
              (if lt (Int 0) w
               then and_then (set_edge g from t (if isWeighted then w else Int 1))
                      (fun graph => Returns (graph, S j0))
               else Returns (g, S j0)) = Returns (g1, S j0) /\
              keys g1 = keys g /\
              forall a b, weight_of g1 a b =
                if decide (a = from /\ b = t)
                then from_option Some (weight_of g a b) (stored w)
                else weight_of g a b) as (g1 & -> & Hk1 & Hw1).
    { unfold stored. destruct (lt (Int 0) w).
      - destruct Hfrom as [nb Hnb].
        destruct (set_edge g from t (if isWeighted then w else Int 1)) as [g1|] eqn:E1;
          [|unfold set_edge in E1; by rewrite Hnb in E1].
        destruct (set_edge_weight _ _ _ _ _ E1) as (Hk1 & Hw1 & _).
        exists g1. split_and!; [done|done|]. intros a b. rewrite Hw1. by case_decide.
      - exists g. split_and!; [done|done|]. intros a b. by case_decide. }
    cbn [and_then].
    destruct (IH g1 (S j0) from) as (g' & Hr & Hk & Hother & Hout & Hin); [|lia|].
    { apply obj_get_keys. rewrite Hk1. by apply obj_get_keys. }
    exists g'. cbn [length].
    replace (j0 + S (length row))%nat with (S j0 + length row)%nat by lia.
    split_and!; [done|congruence| | |].
    + intros a b Ha. rewrite Hother, Hw1 by done. rewrite decide_False; [done|]. by intros [? _].
    + intros b Hb. rewrite Hout by (intros j Hj; apply Hb; lia).
      rewrite Hw1, decide_False; [done|]. intros [_ ->]. apply (Hb j0); [lia|done].
    + intros j b w' Hj Hj0 Hw'. destruct (decide (j = j0)) as [->|Hne].
      * rewrite Nat.sub_diag in Hw'. injection Hw' as <-.
        assert (b = t) as -> by congruence.
        rewrite Hout.
        -- by rewrite Hw1, decide_True.
        -- intros j Hj' Hjt. pose proof (NoDup_lookup _ _ _ _ Hnd Ht Hjt). lia.
      * replace (j - j0)%nat with (S (j - S j0)) in Hw' by lia.
        rewrite (Hin j b w' Hj) by (done || lia).
        rewrite Hw1, decide_False; [done|]. intros [_ ->].
        pose proof (NoDup_lookup _ _ _ _ Hnd Ht Hj). lia.
Qed.

(** The cells of a line of the text. *)
Definition cells (line : string) : list number :=
  (fun s => parseInt (trim s)) <$> split "," line.

Lemma rows_written rows : forall (g : Graph) i0,
  has_nodes labels g -> (1 <= i0)%nat -> (i0 - 1 + length rows <= length labels)%nat ->
  Forall (fun line => (length (cells line) <= length labels)%nat) rows ->
  exists g' i',
    forEach (matrix_row isWeighted labels) rows (g, i0) = Returns (g', i') /\
    keys g' = keys g /\
    (forall a b,
       (forall i, (i0 - 1 <= i < i0 - 1 + length rows)%nat -> labels !! i <> Some a) ->
       weight_of g' a b = weight_of g a b) /\
    (forall i a line, labels !! i = Some a -> (i0 - 1 <= i)%nat ->
       rows !! (i - (i0 - 1))%nat = Some line ->
       (forall b, b ∉ labels -> weight_of g' a b = weight_of g a b) /\
       (forall j b, labels !! j = Some b ->
          weight_of g' a b =
            from_option Some (weight_of g a b) (cells line !! j ≫= stored))).
Proof.
  induction rows as [|r rows IH]; intros g i0 Hg Hi0 Hlen Hrows.
  - exists g, i0. split_and!; try done; by intros i a line _ _ ?.
  - cbn [length] in Hlen. apply Forall_cons in Hrows as [Hr Hrows].
    cbn [forEach]. unfold matrix_row at 1. fold (cells r).
    destruct (lookup_lt_is_Some_2 labels (i0 - 1)) as [from Hfrom]; [lia|].
    rewrite Hfrom.
    assert (from ∈ labels) as Hfrom' by (by eapply list_elem_of_lookup_2).
    destruct (cells_written (cells r) g 0%nat from (Hg from Hfrom') Hr)
      as (g1 & -> & Hk1 & Hother1 & Hout1 & Hin1).
    cbn [and_then fst].
    destruct (IH g1 (S i0)) as (g' & i' & Hr' & Hk & Hother & Hin); [|lia|lia|done|].
    { intros k Hk. apply obj_get_keys. rewrite Hk1. by apply obj_get_keys, Hg. }
    exists g', i'. split_and!; [done|congruence| |].
    + intros a b Ha. cbn [length] in Ha.
      rewrite Hother by (intros i Hi; apply Ha; lia).
      apply Hother1. intros ->. apply (Ha (i0 - 1)%nat); [lia|done].
    + intros i a line Hi Hi0' Hline. destruct (decide (i = i0 - 1)%nat) as [->|Hne].
      * rewrite Nat.sub_diag in Hline. injection Hline as <-.
        assert (a = from) as -> by congruence.
        assert (forall b, weight_of g' from b = weight_of g1 from b) as Hsame.
        { intros b. apply Hother. intros i Hi' Hif.
          pose proof (NoDup_lookup _ _ _ _ Hnd Hfrom Hif). lia. }
        split.
        -- intros b Hb. rewrite Hsame. apply Hout1. intros j _ Hj. apply Hb.
           by eapply list_elem_of_lookup_2.
        -- intros j b Hj. rewrite Hsame.
           destruct (cells r !! j) as [w|] eqn:Ew; cbn [mbind option_bind].
           ++ apply (Hin1 j b w Hj); [lia|]. by rewrite Nat.sub_0_r.
           ++ cbn [from_option]. apply Hout1. intros j' Hj1 Hj'.
              pose proof (NoDup_lookup _ _ _ _ Hnd Hj Hj') as <-.
              apply lookup_ge_None in Ew. lia.
      * replace (i - (i0 - 1))%nat with (S (i - (S i0 - 1))) in Hline by lia.
        destruct (Hin i a line Hi ltac:(lia) Hline) as [Ha1 Ha2].
        assert (a <> from) as Haf.
        { intros ->. pose proof (NoDup_lookup _ _ _ _ Hnd Hfrom Hi). lia. }
        split.
        -- intros b Hb. rewrite Ha1 by done. by apply Hother1.
        -- intros j b Hj. rewrite (Ha2 j b Hj). by rewrite Hother1.
Qed.

End MatrixCells.

(** The [j]-th cell of the [i]-th row. *)
Definition cell (rows : list (list number)) (i j : nat) : option number :=
  match rows !! i with
  | Some row => row !! j
  | None => None
  end.




(** ** Bellman-Ford under cancellation *)

Section BfCancel.
Variable coord : Type.
Variable isDirected : bool.
Variable cancel : option nat.
Variable g : Graph.
Hypothesis Hwf : wf_graph g.
Variable start : string.

Lemma bf_round_tentative : forall (gs : Graph) d order u (p : page coord),
  (forall fn, fn ∈ gs -> fn ∈ g) -> tentative g start d ->
  tentative g start
    (match bf_round coord isDirected cancel g (keys gs) d order u p with
     | Next r | Return r => r.1.1.1
     end).
Proof.
  induction gs as [|[from nb] gs IH]; intros d order u p Hgs Hd; [done|].
  cbn [keys fmap list_fmap fst bf_round].
  destruct (negb (isRunning coord cancel p)); [done|].
  destruct (wf_graph_entries g (from, nb) Hwf) as [Hget Hnd]; [apply Hgs; by left|].
  cbn [fst snd] in Hget, Hnd. rewrite Hget.
  assert (forall fn, fn ∈ gs -> fn ∈ g) as Hgs' by (intros fn Hfn; apply Hgs; by right).
  destruct (if has order from then (order, p)
            else (order ++ [from], setTraversalOrder coord (order ++ [from]) p))
    as [order1 p1].
  destruct (reached d from) eqn:Er.
  - edestruct (bf_edges_spec coord isDirected nb from nb d u) as (p2 & -> & _ & _);
      [|exact Er|].
    { intros [to w] Htw. unfold get_num. cbn [fst snd].
      by rewrite (obj_get_of_elem nb to w Hnd Htw). }
    apply IH; [done|]. apply tentative_foldl; [done|].
    intros [[f t] w] He. unfold edges_from in He.
    apply list_elem_of_fmap in He as (tw & [= -> -> ->] & Htw).
    apply (edge_list_elem g from nb tw); [|done]. apply Hgs. by left.
  - by apply IH.
Qed.

Lemma bf_rounds_tentative n : forall d order (p : page coord),
  tentative g start d ->
  tentative g start
    (match bf_rounds coord isDirected cancel n g (keys g) d order p with
     | Next r | Return r => r.1.1
     end).
Proof.
  induction n as [|n IH]; intros d order p Hd; [done|]. cbn [bf_rounds].
  destruct (isRunning coord cancel p); [|done].
  pose proof (bf_round_tentative g d order false p ltac:(done) Hd) as Hr.
  destruct (bf_round _ _ _ _ _ _ _ _ _) as [[[[d1 o1] h1] p1]|[[[d1 o1] h1] p1]];
    cbn [fst] in Hr; [|done].
  destruct h1; [by apply IH|done].
Qed.

Lemma bf_check_running d froms : forall p : page coord,
  bf_check coord cancel g froms d p = p \/
  isRunning coord cancel p = true /\
  bf_check coord cancel g froms d p =
    show_toast _ (toast_error "Negative cycle detected!") p.
Proof.
  induction froms as [|f froms IH]; intros p; cbn [bf_check]; [by left|].
  destruct (isRunning coord cancel p) eqn:Er; cbn [negb]; [|by left].
  destruct (obj_get g f) as [nb|]; [|by destruct (IH p) as [?|[_ ?]]; [left|right]].
  case_match; [by right|]. by destruct (IH p) as [?|[_ ?]]; [left|right].
Qed.

End BfCancel.




(** ** The adjacency list: what is parsed *)

Section ListEdges.
Variable isWeighted : bool.

(** What a field of a line writes: the neighbour and the weight. *)
Definition entry (field : string) : option (string * number) :=
  let trimmed := trim field in
  if isWeighted && includes "(" trimmed then
    match regex_match trimmed with
    | Some (m1, m2) => Some (m1, parseInt m2)
    | None => None
    end
  else Some (trimmed, Int 1).

(** The node of a line, and the fields of its list of neighbours. *)
Definition line_node (line : string) : string :=
  trim (default EmptyString (head (split ":" (trim line)))).
Definition line_fields (line : string) : list string :=
  let neighbors := trim (default EmptyString (split ":" (trim line) !! 1%nat)) in
  if bool_decide (neighbors = EmptyString) then [] else split "," neighbors.

(** The edges that a line writes, in the order of its fields. *)
Definition line_edges (line : string) : list (string * string * number) :=
  omap (fun field => (fun e : string * number => (line_node line, e.1, e.2)) <$> entry field)
       (line_fields line).

Lemma add_neighbor_entry node (g : Graph) field :
  add_neighbor isWeighted node g field =
    match entry field with
    | Some (b, w) => set_edge g node b w
    | None => Returns g
    end.
Proof.
  unfold add_neighbor, entry. destruct (isWeighted && _); [|done].
  by destruct (regex_match _) as [[m1 m2]|].
Qed.

Lemma fields_written node fields : forall g : Graph,
  is_Some (obj_get g node) ->
  exists g',
    forEach (add_neighbor isWeighted node) fields g = Returns g' /\
    keys g' = keys g /\
    (forall a b w, weight_of g' a b = Some w ->
       weight_of g a b = Some w \/
       a = node /\ exists f, f ∈ fields /\ entry f = Some (b, w)) /\
    (forall a b, is_Some (weight_of g a b) -> is_Some (weight_of g' a b)) /\
    (forall f b w, f ∈ fields -> entry f = Some (b, w) -> is_Some (weight_of g' node b)).
Proof.
  induction fields as [|f fields IH]; intros g Hnode.
  - exists g. split_and!; try done; [by left|by intros f b w ?%elem_of_nil].
  - cbn [forEach]. rewrite add_neighbor_entry.
    assert (exists g1,
              match entry f with
              | Some (b, w) => set_edge g node b w
              | None => Returns g
              end = Returns g1 /\
              keys g1 = keys g /\
              forall a b, weight_of g1 a b =
                match entry f with
                | Some (b', w) => if decide (a = node /\ b = b') then Some w else weight_of g a b
                | None => weight_of g a b
                end) as (g1 & -> & Hk1 & Hw1).
    { destruct (entry f) as [[b' w]|]; [|by exists g].
      destruct Hnode as [nb Hnb].
      destruct (set_edge g node b' w) as [g1|] eqn:E1;
        [|unfold set_edge in E1; by rewrite Hnb in E1].
      destruct (set_edge_weight _ _ _ _ _ E1) as (Hk1 & Hw1 & _). by exists g1. }
    cbn [and_then].
    destruct (IH g1) as (g' & -> & Hk & Hsound & Hmono & Hcomplete).
    { apply obj_get_keys. rewrite Hk1. by apply obj_get_keys. }
    exists g'. split_and!; [done|congruence| | |].
    + intros a b w Hw. destruct (Hsound a b w Hw) as [H1|(-> & f' & Hf' & He')].
      * rewrite Hw1 in H1. destruct (entry f) as [[b' w']|] eqn:Ef; [|by left].
        case_decide as Hab; [|by left]. destruct Hab as [-> ->]. injection H1 as ->.
        right. split; [done|]. exists f. split; [by left|done].
      * right. split; [done|]. exists f'. split; [by right|done].
    + intros a b Hab. apply Hmono. rewrite Hw1.
      destruct (entry f) as [[b' w']|]; [|done]. by case_decide.
    + intros f' b w [->|Hf']%elem_of_cons He'; [|by eapply Hcomplete].
      apply Hmono. rewrite Hw1, He'. by rewrite decide_True.
Qed.

Lemma line_written (g : Graph) line :
  length (split ":" (trim line)) = 2%nat ->
  exists g',
    parse_line isWeighted g line = Returns g' /\
    (forall a, a ∈ keys g' <-> a = line_node line \/ a ∈ keys g) /\
    (forall a b w, weight_of g' a b = Some w ->
       weight_of g a b = Some w \/ (a, b, w) ∈ line_edges line) /\
    (forall a b, is_Some (weight_of g a b) -> is_Some (weight_of g' a b)) /\
    (forall a b w, (a, b, w) ∈ line_edges line -> is_Some (weight_of g' a b)).
Proof.
  intros Hlen. unfold parse_line, line_edges, line_node, line_fields.
  destruct (split ":" (trim line)) as [|p0 [|p1 [|p2 ps]]]; simplify_eq/=.
  set (node := trim p0).
  set (g1 := if obj_get g node is Some _ then g else obj_set node [] g).
  assert (is_Some (obj_get g1 node)) as Hnode.
  { subst g1. destruct (obj_get g node) eqn:E; [by rewrite E|].
    rewrite obj_get_set. by rewrite decide_True. }
  assert (forall a, a ∈ keys g1 <-> a = node \/ a ∈ keys g) as Hk1.
  { intros a. subst g1. destruct (obj_get g node) eqn:E.
    - split; [by right|]. intros [->|?]; [|done]. apply obj_get_keys. by eexists.
    - rewrite <-!obj_get_keys, obj_get_set. case_decide.
      + split; [by left|by eexists].
      + split; [by right|by intros [?|?]]. }
  assert (forall a b, weight_of g1 a b = weight_of g a b) as Hw1.
  { intros a b. subst g1. destruct (obj_get g node) eqn:E; [done|].
    unfold weight_of. rewrite obj_get_set. case_decide; [|done]. subst. by rewrite E. }
  case_bool_decide as Hnb.
  - exists g1. split_and!; [done|done| | |].
    + intros a b w. rewrite Hw1. by left.
    + intros a b. by rewrite Hw1.
    + by intros a b w ?%elem_of_nil.
  - destruct (fields_written node (split "," (trim p1)) g1 Hnode)
      as (g' & -> & Hk & Hsound & Hmono & Hcomplete).
    exists g'. split_and!; [done| | | |].
    + intros a. rewrite Hk. apply Hk1.
    + intros a b w Hw. destruct (Hsound a b w Hw) as [H1|(-> & f & Hf & He)].
      * left. by rewrite <-Hw1.
      * right. apply list_elem_of_omap. exists f. split; [done|]. by rewrite He.
    + intros a b Hab. apply Hmono. by rewrite Hw1.
    + intros a b w (f & Hf & He)%list_elem_of_omap.
      destruct (entry f) as [[b' w']|] eqn:Ef; [|done]. injection He as <- <- <-.
      by eapply Hcomplete.
Qed.

Lemma lines_written lines : forall g : Graph,
  Forall (fun line => length (split ":" (trim line)) = 2%nat) lines ->
  exists g',
    forEach (parse_line isWeighted) lines g = Returns g' /\
    (forall a, a ∈ keys g' <-> a ∈ line_node <$> lines \/ a ∈ keys g) /\
    (forall a b w, weight_of g' a b = Some w ->
       weight_of g a b = Some w \/ (a, b, w) ∈ flat_map line_edges lines) /\
    (forall a b, is_Some (weight_of g a b) -> is_Some (weight_of g' a b)) /\
    (forall a b w, (a, b, w) ∈ flat_map line_edges lines -> is_Some (weight_of g' a b)).
Proof.
  induction lines as [|l lines IH]; intros g Hall.
  - exists g. split_and!; try done.
    + intros a. split; [by right|]. by intros [?%elem_of_nil|?].
    + by left.
    + by intros a b w ?%elem_of_nil.
  - apply Forall_cons in Hall as [Hl Hall]. cbn [forEach].
    destruct (line_written g l Hl) as (g1 & -> & Hk1 & Hs1 & Hm1 & Hc1). cbn [and_then].
    destruct (IH g1 Hall) as (g' & -> & Hk & Hs & Hm & Hc).
    exists g'. split_and!; [done| | | |].
    + intros a. rewrite Hk, Hk1, fmap_cons, elem_of_cons. tauto.
    + intros a b w Hw. cbn [flat_map]. setoid_rewrite elem_of_app.
      destruct (Hs a b w Hw) as [H1|H1]; [|by right; right].
      destruct (Hs1 a b w H1) as [H2|H2]; [by left|by right; left].
    + intros a b Hab. by apply Hm, Hm1.
    + intros a b w. cbn [flat_map]. rewrite elem_of_app. intros [H1|H1].
      * apply Hm. by eapply Hc1.
      * by eapply Hc.
Qed.

End ListEdges.




End Graph.


(* ===================================================================== *)
(** * The controls of the sorting page *)
(* ===================================================================== *)

Module Controls.
Import Sorting.

Local Open Scope string_scope.
Local Open Scope Z_scope.
Local Open Scope stdpp_scope.
Local Open Scope list_scope.

(** The component state that [useCustomArray] and [startSorting] read or
    set, and the toasts shown so far (latest first). *)
Record page := mkPage {
  array : list ArrayElement;
  customInput : string;
  isRunning : bool;
  toasts : list Graph.toast
}.

Definition show_toast (t : Graph.toast) (p : page) : page :=
  mkPage (array p) (customInput p) (isRunning p) (t :: toasts p).

(** [isNaN(val) || val < 10 || val > 300] *)
Definition out_of_range (val : Graph.number) : bool :=
  match val with Graph.NaN => true | _ => false end
  || Graph.lt val (Graph.Int 10) || Graph.lt (Graph.Int 300) val.

(** The integer that a number which passed the check is. *)
Definition integer (val : Graph.number) : Z :=
  match val with Graph.Int z => z | _ => 0 end.

Definition useCustomArray (p : page) : page :=
  if isRunning p then p
  else
    let values := (fun val => Graph.parseInt (Graph.trim val)) <$>
                    Graph.split "," (customInput p) in
    if existsb out_of_range values then
      show_toast (Graph.toast_error "Enter only numbers between 10 and 300, comma-separated") p
    else
      let newArray := (fun value => mkElement (integer value) false false false) <$> values in
      mkPage newArray EmptyString (isRunning p)
        (Graph.toast_success "Custom array loaded!" :: toasts p).

(** [startSorting], from the click to the end of its [finally] block, for
    a run in which the flag is cleared as [cancel] says.  The array is the
    one on display at the end, as [rendered] gives it. *)
Definition startSorting (cancel : option nat) (algorithm : SortingAlgorithm) (p : page) : page :=
  if bool_decide (length (array p) = 0%nat) then
    show_toast (Graph.toast_error "Generate an array first!") p
  else
    let r := sort cancel algorithm (init (array p)) in
    mkPage (rendered (array p) (final r)) (customInput p) false
      (match r with
       | Throw _ _ => toasts p
       | _ => Graph.toast_success "Sorting completed!" :: toasts p
       end).

(** ** Loading a custom array *)

(** The number of [sep] in [s]. *)
Fixpoint occurrences (sep : ascii) (s : string) : nat :=
  match s with
  | EmptyString => 0
  | String c s' => (if Ascii.eqb c sep then 1 else 0) + occurrences sep s'
  end.

Lemma length_split sep s : length (Graph.split sep s) = S (occurrences sep s).
Proof.
  induction s as [|c s IH]; [done|]. cbn [Graph.split occurrences].
  destruct (Ascii.eqb c sep); [simpl; by rewrite IH|].
  destruct (Graph.split sep s) as [|f fs]; [done|]. simpl in *. lia.
Qed.

Lemma out_of_range_false val :
  out_of_range val = false -> exists z, val = Graph.Int z /\ 10 <= z <= 300.
Proof.
  destruct val as [z| |]; try done. unfold out_of_range. simpl.
  intros [H1%Z.ltb_ge H2%Z.ltb_ge]%orb_false_iff. exists z. split; [done|lia].
Qed.

(** X12.  [useCustomArray] does nothing during a run.  Otherwise it either
    rejects the input, showing the error toast and leaving the array and
    the input box as they are, or it loads an array and empties the input
    box: the array has one element for each comma of the input and one
    more, so it is never empty; every value is an integer from 10 to 300
    and no flag is set.  With the box emptied, calling it again is
    rejected. *)
Theorem useCustomArray_validates (p : page) :
  let p' := useCustomArray p in
  let failed (q : page) :=
    show_toast (Graph.toast_error "Enter only numbers between 10 and 300, comma-separated") q in
  (isRunning p = true -> p' = p) /\
  (isRunning p = false ->
   p' = failed p \/
   toasts p' = Graph.toast_success "Custom array loaded!" :: toasts p /\
   length (array p') = S (occurrences "," (customInput p)) /\
   Forall (fun e => exists z, e = fresh z /\ 10 <= z <= 300) (array p') /\
   customInput p' = EmptyString /\
   useCustomArray p' = failed p').
Proof.
  cbv zeta. split; intros Hrun; [unfold useCustomArray; by rewrite Hrun|].
  assert (useCustomArray p =
          let values := (fun val => Graph.parseInt (Graph.trim val)) <$>
                          Graph.split "," (customInput p) in
          if existsb out_of_range values then
            show_toast
              (Graph.toast_error "Enter only numbers between 10 and 300, comma-separated") p
          else
            mkPage ((fun value => mkElement (integer value) false false false) <$> values)
              EmptyString (isRunning p) (Graph.toast_success "Custom array loaded!" :: toasts p))
    as Hp by (unfold useCustomArray; by rewrite Hrun).
  cbv zeta in Hp. rewrite Hp. clear Hp.
  destruct (existsb out_of_range _) eqn:E; [by left|right].
  cbn [toasts array customInput]. split_and!; try done.
  - by rewrite length_fmap, length_fmap, length_split.
  - apply Forall_fmap, Forall_fmap, Forall_forall. intros f Hf. simpl.
    assert (out_of_range (Graph.parseInt (Graph.trim f)) = false) as Hr.
    { destruct (out_of_range _) eqn:Er; [|done].
      assert (existsb out_of_range
                ((fun val => Graph.parseInt (Graph.trim val)) <$>
                   Graph.split "," (customInput p)) = true) as Hex; [|congruence].
      apply existsb_exists. exists (Graph.parseInt (Graph.trim f)). split; [|done].
      apply list_elem_of_In, list_elem_of_fmap. by exists f. }
    destruct (out_of_range_false _ Hr) as (z & -> & Hz). by exists z.
  - unfold useCustomArray. cbn [isRunning customInput]. by rewrite Hrun.
Qed.

Lemma useCustomArray_validates_witness :
  array (useCustomArray (mkPage [] "30,10,20" false [])) = [fresh 30; fresh 10; fresh 20].
Proof.
  destruct (useCustomArray_validates (mkPage [] "30,10,20" false [])) as [_ H].
  destruct (H eq_refl) as [Hf|(Ht & _)].
  - exfalso. vm_compute in Hf. discriminate Hf.
  - vm_compute. reflexivity.
Defined.

(** ** What the input box accepts *)

Definition digit (k : Z) : ascii := ascii_of_nat (48 + Z.to_nat k).

(** The decimal numeral of an integer from 0 to 999. *)
Definition numeral (z : Z) : string :=
  if z <? 10 then String (digit z) EmptyString
  else if z <? 100 then String (digit (z / 10)) (String (digit (z mod 10)) EmptyString)
  else String (digit (z / 100))
         (String (digit (z / 10 mod 10)) (String (digit (z mod 10)) EmptyString)).

(** [fields.join(sep)] *)
Fixpoint join (sep : string) (fields : list string) : string :=
  match fields with
  | [] => EmptyString
  | [f] => f
  | f :: rest => f +:+ sep +:+ join sep rest
  end.

Lemma split_app_sep sep f s :
  occurrences sep f = 0%nat ->
  Graph.split sep (f +:+ String sep s) = f :: Graph.split sep s.
Proof.
  induction f as [|c f IH]; intros Hf.
  - simpl. by rewrite Ascii.eqb_refl.
  - cbn [occurrences] in Hf.
    change (String c f +:+ String sep s) with (String c (f +:+ String sep s)).
    cbn [Graph.split]. destruct (Ascii.eqb c sep); [simpl in Hf; lia|]. by rewrite IH.
Qed.

Lemma split_none sep f : occurrences sep f = 0%nat -> Graph.split sep f = [f].
Proof.
  induction f as [|c f IH]; intros Hf; [done|].
  cbn [occurrences] in Hf. cbn [Graph.split].
  destruct (Ascii.eqb c sep); [simpl in Hf; lia|]. by rewrite IH.
Qed.

(** Splitting at the commas what was joined with [","] or [", "]: the
    fields come back, all but the first with the blank of the separator. *)
Lemma split_join blank f fs :
  Forall (fun f => occurrences "," f = 0%nat) (f :: fs) -> occurrences "," blank = 0%nat ->
  Graph.split "," (join (String "," blank) (f :: fs)) = f :: (String.append blank <$> fs).
Proof.
  revert f. induction fs as [|f' fs IH]; intros f Hf Hb.
  - apply split_none. by apply Forall_inv in Hf.
  - change (join (String "," blank) (f :: f' :: fs))
      with (f +:+ String "," (blank +:+ join (String "," blank) (f' :: fs))).
    rewrite split_app_sep by (by apply Forall_inv in Hf). f_equal.
    apply Forall_inv_tail in Hf.
    assert (forall b s, occurrences "," b = 0%nat ->
              Graph.split "," (b +:+ s) =
                match Graph.split "," s with
                | x :: xs => (b +:+ x) :: xs
                | [] => [b]
                end) as Happ.
    { induction b as [|c b IHb]; intros s Hs.
      - simpl. destruct (Graph.split "," s) eqn:E; [|done].
        pose proof (length_split "," s) as Hl. by rewrite E in Hl.
      - cbn [occurrences] in Hs. change (String c b +:+ s) with (String c (b +:+ s)).
        cbn [Graph.split].
        destruct (Ascii.eqb c ","); [simpl in Hs; lia|]. rewrite IHb by done.
        by destruct (Graph.split "," s). }
    rewrite Happ by done. by rewrite IH.
Qed.

(** The numerals of the accepted range, bare or after a blank, read back as
    the numbers they denote. *)
Definition reads_back (n : nat) : bool :=
  let z := Z.of_nat n in
  bool_decide (Graph.parseInt (Graph.trim (numeral z)) = Graph.Int z) &&
  bool_decide (Graph.parseInt (Graph.trim (String " " (numeral z))) = Graph.Int z) &&
  bool_decide (occurrences "," (numeral z) = 0%nat).

Lemma numeral_reads_back z :
  10 <= z <= 300 ->
  Graph.parseInt (Graph.trim (numeral z)) = Graph.Int z /\
  Graph.parseInt (Graph.trim (String " " (numeral z))) = Graph.Int z /\
  occurrences "," (numeral z) = 0%nat.
Proof.
  intros Hz.
  assert (forallb reads_back (seq 10 291) = true) as Hall by (vm_compute; reflexivity).
  assert (reads_back (Z.to_nat z) = true) as H.
  { eapply forallb_forall; [exact Hall|]. apply in_seq. lia. }
  unfold reads_back in H. rewrite Z2Nat.id in H by lia.
  apply andb_true_iff in H as [[H1 H2]%andb_true_iff H3].
  by apply bool_decide_eq_true in H1, H2, H3.
Qed.

Lemma split_trailing sep s :
  exists f fs, Graph.split sep (s +:+ String sep EmptyString) = f :: fs ++ [EmptyString].
Proof.
  induction s as [|c s (f & fs & IH)].
  - exists EmptyString, []. simpl. by rewrite Ascii.eqb_refl.
  - change (String c s +:+ String sep EmptyString)
      with (String c (s +:+ String sep EmptyString)).
    cbn [Graph.split]. rewrite IH. destruct (Ascii.eqb c sep).
    + by exists EmptyString, (f :: fs).
    + by exists (String c f), fs.
Qed.

(** X13.  Outside a run, integers from 10 to 300 written in decimal and
    separated by commas, or by commas followed by a blank, are loaded as
    the array of these integers, in this order and with no flag set.  An
    input that ends with a comma is rejected.  The check is on what
    [parseInt] reads, which is a prefix of the field: [12abc,0x20,50.9]
    loads 12, 32 and 50. *)
Theorem useCustomArray_loads_numerals (p : page) (zs : list Z) (sep : string) :
  isRunning p = false ->
  (zs <> [] -> Forall (fun z => 10 <= z <= 300) zs -> sep = "," \/ sep = ", " ->
   customInput p = join sep (numeral <$> zs) ->
   useCustomArray p =
     mkPage (fresh <$> zs) EmptyString false
       (Graph.toast_success "Custom array loaded!" :: toasts p)) /\
  (forall s, customInput p = s +:+ "," ->
   useCustomArray p =
     show_toast
       (Graph.toast_error "Enter only numbers between 10 and 300, comma-separated") p) /\
  array (useCustomArray (mkPage [] "12abc,0x20,50.9" false [])) = [fresh 12; fresh 32; fresh 50].
Proof.
  intros Hrun. split; [|split; [|vm_compute; reflexivity]].
  - intros Hne Hzs Hsep Hin. unfold useCustomArray. rewrite Hrun, Hin.
    destruct zs as [|z zs]; [done|]. cbn [fmap list_fmap].
    assert (exists blank, sep = String "," blank /\ (blank = "" \/ blank = " ")) as (blank & -> & Hb).
    { destruct Hsep as [->| ->]; eexists; split; try reflexivity; auto. }
    change (numeral z :: list_fmap _ _ numeral zs) with (numeral <$> z :: zs).
    change (numeral <$> z :: zs) with (numeral z :: (numeral <$> zs)).
    rewrite split_join.
    2:{ change (numeral z :: (numeral <$> zs)) with (numeral <$> z :: zs).
        apply Forall_fmap. eapply Forall_impl; [exact Hzs|].
        intros z' Hz'. by apply numeral_reads_back. }
    2:{ by destruct Hb as [->| ->]. }
    assert ((fun val => Graph.parseInt (Graph.trim val)) <$>
              numeral z :: (String.append blank <$> (numeral <$> zs)) =
            Graph.Int <$> z :: zs) as ->.
    { cbn [fmap list_fmap]. f_equal.
      - apply numeral_reads_back. by apply Forall_inv in Hzs.
      - apply Forall_inv_tail in Hzs. clear -Hzs Hb.
        induction Hzs as [|z' zs' Hz' _ IH]; [done|].
        cbn [fmap list_fmap] in *. f_equal; [|exact IH].
        destruct Hb as [->| ->]; by apply numeral_reads_back. }
    assert (existsb out_of_range (Graph.Int <$> z :: zs) = false) as ->.
    { clear -Hzs. induction Hzs as [|z' zs' Hz' _ IH]; [done|]. cbn [fmap list_fmap existsb].
      apply orb_false_iff. split; [|exact IH]. unfold out_of_range. simpl.
      apply orb_false_iff. split; apply Z.ltb_ge; lia. }
    f_equal. rewrite <-list_fmap_compose. done.
  - intros s Hin. unfold useCustomArray. rewrite Hrun, Hin.
    assert (existsb out_of_range
              ((fun val => Graph.parseInt (Graph.trim val)) <$> Graph.split "," (s +:+ ",")) = true)
      as ->; [|done].
    apply existsb_exists. exists Graph.NaN. split; [|done].
    apply list_elem_of_In, list_elem_of_fmap. exists EmptyString. split; [done|].
    destruct (split_trailing "," s) as (f & fs & ->).
    right. apply elem_of_app. right. by left.
Qed.

Lemma useCustomArray_loads_numerals_witness :
  useCustomArray (mkPage [fresh 11] "30, 10, 250" false []) =
    mkPage [fresh 30; fresh 10; fresh 250] EmptyString false
      [Graph.toast_success "Custom array loaded!"].
Proof.
  destruct (useCustomArray_loads_numerals (mkPage [fresh 11] "30, 10, 250" false [])
              [30; 10; 250] ", " eq_refl) as [H _].
  apply H; [done| |by right|reflexivity].
  repeat constructor; lia.
Defined.

(** ** Starting a run *)

(** Every variant returns, cancelled or not. *)
Lemma sort_returns (cancel : option nat) (alg : SortingAlgorithm) (l : list ArrayElement) :
  l <> [] -> exists s', sort cancel alg (init l) = Val tt s'.
Proof.
  intros Hne. destruct cancel as [c|].
  - assert (0 < Z.of_nat (length l)) as Hlen by (destruct l; [done|simpl; lia]).
    assert (forall b, calm c (Z.of_nat (length l)) b (init l)) as Hinit.
    { intros b. split; [split; [apply wf_init|by rewrite length_arr_init]|simpl; lia]. }
    assert (exists s', sort (Some c) alg (init l) = Val tt s' /\
                       calm c (Z.of_nat (length l)) (overrun alg) s') as (s' & Hr & _);
      [|by exists s'].
    destruct alg; cbn [sort overrun]; apply wp_call_val.
    + by apply bubbleSort_calm.
    + by apply selectionSort_calm.
    + by apply insertionSort_calm.
    + by apply mergeSort_calm.
    + by apply quickSort_calm.
  - destruct (sort_ok alg l Hne) as (s' & Hr & _). by exists s'.
Qed.

Lemma loaded_nonempty (p : page) :
  toasts (useCustomArray p) = Graph.toast_success "Custom array loaded!" :: toasts p ->
  array (useCustomArray p) <> [].
Proof.
  unfold useCustomArray. destruct (isRunning p).
  { intros H. exfalso. by induction (toasts p) as [|t ts IH]; simplify_eq. }
  destruct (existsb _ _); [by intros [=]|]. intros _. cbn [array].
  intros Hnil%(f_equal length). rewrite !length_fmap, length_split in Hnil. done.
Qed.



End Controls.
